(** * CryptoString: cipher engine and encrypted key vault

    A shallow embedding of [src/utils/encryption.ts] (class [CryptoString]),
    [src/utils/keyStorage.ts] (class [KeyStorage]) and of the part of the
    encryption form that builds the [EncryptionConfig], together with the
    host functions they call ([btoa], [atob], [parseInt], [String.trim],
    the URI escaping pair, [JSON], [localStorage], [crypto], [Date.now],
    [Math.random]).

    Conventions
    - a JavaScript string is the list of its UTF-16 code units, each a [Z]
      in [0, 65536);
    - a JavaScript number that is only ever an integer or NaN is an
      [option Z], with [None] for NaN;
    - code that may throw returns an [exn]; code that also reads or writes
      the host (storage, clock, random sources) runs in the monad [JS]. *)

From Stdlib Require Import ZArith Lia.
From stdpp Require Import base option list strings pretty gmap.

Local Open Scope Z_scope.

(* ------------------------------------------------------------------ *)
(** ** JavaScript strings *)

Abbreviation jsstring := (list Z) (only parsing).

(** The code units of an ASCII literal of the source. *)
Fixpoint str (s : string) : jsstring :=
  match s with
  | EmptyString => []
  | String c r => Z.of_nat (Ascii.nat_of_ascii c) :: str r
  end.
Arguments str s%_string.

(** No engine builds a string longer than this; the bitwise operators
    convert their operands with ToInt32, which is the identity on every
    index of such a string. *)
Definition max_string_length : Z := 2147483647.

Definition code_unit (c : Z) : Prop := 0 <= c < 65536.
Definition wf_string (s : jsstring) : Prop := Forall code_unit s.

(** Strings all of whose code units are at most 255 (Latin-1). *)
Definition latin1_unit (c : Z) : Prop := 0 <= c <= 255.
Definition latin1 (s : jsstring) : Prop := Forall latin1_unit s.

Definition jsstring_eqb (a b : jsstring) : bool := bool_decide (a = b).

Definition len (s : jsstring) : Z := Z.of_nat (length s).

(** [String.fromCharCode(n)]: ToUint16 of the number. *)
Definition fromCharCode (n : Z) : Z := n mod 65536.

(** [s.charCodeAt(pos)]; a NaN position is position 0, a position outside
    the string gives NaN. *)
Definition charCodeAt (s : jsstring) (pos : option Z) : option Z :=
  let p := match pos with Some p => p | None => 0 end in
  if p <? 0 then None else s !! Z.to_nat p.

(** [a % b] on integers: NaN for a zero divisor, otherwise the remainder
    with the sign of the dividend. *)
Definition js_rem (a b : Z) : option Z :=
  if b =? 0 then None else Some (Z.rem a b).

(** ToInt32, the conversion the bitwise operators apply to their operands. *)
Definition wrap32 (z : Z) : Z := (z + 2147483648) mod 4294967296 - 2147483648.
Definition ToInt32 (x : option Z) : Z :=
  match x with Some z => wrap32 z | None => 0 end.

(** [a ^ b] and [a ^ b ^ c] (left associative). *)
Definition bxor (a b : option Z) : Z := Z.lxor (ToInt32 a) (ToInt32 b).
Definition bxor3 (a b c : option Z) : Z := bxor (Some (bxor a b)) c.

(** White space as [String.prototype.trim] and [parseInt] see it
    (WhiteSpace and LineTerminator of ECMA-262). *)
Definition is_js_whitespace (c : Z) : bool :=
  (9 <=? c) && (c <=? 13) || (c =? 32) || (c =? 160) || (c =? 5760)
  || (8192 <=? c) && (c <=? 8202) || (c =? 8232) || (c =? 8233)
  || (c =? 8239) || (c =? 8287) || (c =? 12288) || (c =? 65279).

Fixpoint trimStart (s : jsstring) : jsstring :=
  match s with
  | c :: r => if is_js_whitespace c then trimStart r else s
  | [] => []
  end.

Definition trim (s : jsstring) : jsstring :=
  rev (trimStart (rev (trimStart s))).

(** The guard [!s || s.trim() === ''] of the source. *)
Definition blank (s : jsstring) : bool :=
  match s with
  | [] => true
  | _ => jsstring_eqb (trim s) []
  end.

(** Indices [0, 1, ..., n-1] of a [for] loop, as numbers. *)
Definition indices (n : nat) : list Z := Z.of_nat <$> seq 0 n.

(** [mapi f i0 s]: the characters [f i c] for [c] at position [i - i0]. *)
Fixpoint mapi (f : Z -> Z -> Z) (i : Z) (s : jsstring) : jsstring :=
  match s with
  | [] => []
  | c :: r => f i c :: mapi f (i + 1) r
  end.

(* ------------------------------------------------------------------ *)
(** ** Exceptions *)

Record Error := mkError { err_name : jsstring; message : jsstring }.

Inductive exn (A : Type) : Type :=
| Ok (a : A)
| Throw (e : Error).
Arguments Ok {A} a.
Arguments Throw {A} e.

Definition exn_bind {A B} (m : exn A) (k : A -> exn B) : exn B :=
  match m with
  | Ok a => k a
  | Throw e => Throw e
  end.

(** [try { m } catch (error) { h error }]. *)
Definition try_catch {A} (m : exn A) (h : Error -> exn A) : exn A :=
  match m with
  | Ok a => Ok a
  | Throw e => h e
  end.

Notation "'let!' x ':=' m 'in' k" := (exn_bind m (fun x => k))
  (at level 10, x name, m at level 100, k at level 200, only parsing).

(** [new Error(msg)]. *)
Definition new_Error (msg : jsstring) : Error := mkError (str "Error") msg.

(* ------------------------------------------------------------------ *)
(** ** Host functions: [btoa] and [atob]

    [btoa] rejects any code unit above 255 and otherwise produces padded
    RFC 4648 base64; [atob] is the forgiving base64 decoder of the HTML
    standard: ASCII white space is dropped, one or two trailing [=] are
    dropped when the length is a multiple of four, a length of 1 modulo 4
    or a character outside the alphabet is an error. *)

Definition b64_char (i : Z) : Z :=
  if i <? 26 then 65 + i
  else if i <? 52 then 97 + (i - 26)
  else if i <? 62 then 48 + (i - 52)
  else if i =? 62 then 43
  else 47.

Definition is_b64_char (c : Z) : bool :=
  (65 <=? c) && (c <=? 90) || (97 <=? c) && (c <=? 122)
  || (48 <=? c) && (c <=? 57) || (c =? 43) || (c =? 47).

Definition b64_index (c : Z) : Z :=
  if (65 <=? c) && (c <=? 90) then c - 65
  else if (97 <=? c) && (c <=? 122) then c - 97 + 26
  else if (48 <=? c) && (c <=? 57) then c - 48 + 52
  else if c =? 43 then 62
  else 63.

Definition pad_char : Z := 61.

Fixpoint b64_encode (bytes : list Z) : jsstring :=
  match bytes with
  | [] => []
  | [a] => [b64_char (a / 4); b64_char (a mod 4 * 16); pad_char; pad_char]
  | [a; b] =>
      [b64_char (a / 4); b64_char (a mod 4 * 16 + b / 16);
       b64_char (b mod 16 * 4); pad_char]
  | a :: b :: c :: rest =>
      b64_char (a / 4) :: b64_char (a mod 4 * 16 + b / 16)
      :: b64_char (b mod 16 * 4 + c / 64) :: b64_char (c mod 64)
      :: b64_encode rest
  end.

Definition InvalidCharacterError : Error :=
  mkError (str "InvalidCharacterError")
          (str "The string contains invalid characters.").

Definition btoa (s : jsstring) : exn jsstring :=
  if forallb (fun c => (0 <=? c) && (c <=? 255)) s
  then Ok (b64_encode s)
  else Throw InvalidCharacterError.

Definition is_ascii_whitespace (c : Z) : bool :=
  (c =? 9) || (c =? 10) || (c =? 12) || (c =? 13) || (c =? 32).

(** Removes one or two trailing [=]. *)
Definition strip_padding (d : jsstring) : jsstring :=
  match rev d with
  | c1 :: r =>
      if c1 =? pad_char then
        match r with
        | c2 :: r' => if c2 =? pad_char then rev r' else rev r
        | [] => []
        end
      else d
  | [] => d
  end.

(** The bytes of a string over the base64 alphabet whose length is not 1
    modulo 4: 24 bits per four characters, and 8 or 16 bits for a final
    group of two or three characters (the spare low bits are dropped). *)
Fixpoint b64_decode (d : jsstring) : list Z :=
  match d with
  | c0 :: c1 :: c2 :: c3 :: rest =>
      let n := ((b64_index c0 * 64 + b64_index c1) * 64 + b64_index c2) * 64
               + b64_index c3 in
      n / 65536 :: n / 256 mod 256 :: n mod 256 :: b64_decode rest
  | [c0; c1; c2] =>
      let n := (b64_index c0 * 64 + b64_index c1) * 64 + b64_index c2 in
      [n / 1024; n / 4 mod 256]
  | [c0; c1] =>
      let n := b64_index c0 * 64 + b64_index c1 in
      [n / 16]
  | _ => []
  end.

Definition atob (s : jsstring) : exn jsstring :=
  let d := filter (fun c => is_ascii_whitespace c = false) s in
  let d := if (length d mod 4 =? 0)%nat then strip_padding d else d in
  if (length d mod 4 =? 1)%nat then Throw InvalidCharacterError
  else if forallb is_b64_char d then Ok (b64_decode d)
  else Throw InvalidCharacterError.

(* ------------------------------------------------------------------ *)
(** ** Host functions: the URI escaping pairs

    [unescape(encodeURIComponent(s))] is the string of the UTF-8 bytes of
    [s], and throws a URIError on an unpaired surrogate;
    [decodeURIComponent(escape(s))], for [s] a string of bytes, is the
    strict UTF-8 decoding of [s] and throws a URIError on anything that is
    not the UTF-8 encoding of a code point. *)

Definition URIError : Error :=
  mkError (str "URIError") (str "URI malformed").

Definition utf8_of_code_point (cp : Z) : list Z :=
  if cp <? 128 then [cp]
  else if cp <? 2048 then [192 + cp / 64; 128 + cp mod 64]
  else if cp <? 65536 then
    [224 + cp / 4096; 128 + cp / 64 mod 64; 128 + cp mod 64]
  else [240 + cp / 262144; 128 + cp / 4096 mod 64;
        128 + cp / 64 mod 64; 128 + cp mod 64].

Fixpoint utf8_encode (s : jsstring) : exn (list Z) :=
  match s with
  | [] => Ok []
  | c :: r =>
      if (56320 <=? c) && (c <=? 57343) then Throw URIError
      else if (55296 <=? c) && (c <=? 56319) then
        match r with
        | c2 :: r2 =>
            if (56320 <=? c2) && (c2 <=? 57343) then
              let! rest := utf8_encode r2 in
              Ok (utf8_of_code_point
                    ((c - 55296) * 1024 + (c2 - 56320) + 65536) ++ rest)
            else Throw URIError
        | [] => Throw URIError
        end
      else
        let! rest := utf8_encode r in
        Ok (utf8_of_code_point c ++ rest)
  end.

Definition is_continuation (b : Z) : bool := (128 <=? b) && (b <=? 191).

(** The code units of a code point. *)
Definition utf16_of_code_point (cp : Z) : jsstring :=
  if cp <? 65536 then [cp]
  else [55296 + (cp - 65536) / 1024; 56320 + (cp - 65536) mod 1024].

(** One decoding step: the code point and the number of bytes it takes. *)
Definition utf8_decode_one (bs : list Z) : option (Z * nat) :=
  match bs with
  | [] => None
  | b0 :: r =>
      if (0 <=? b0) && (b0 <? 128) then Some (b0, 1%nat)
      else if (194 <=? b0) && (b0 <=? 223) then
        match r with
        | b1 :: _ =>
            if is_continuation b1
            then Some ((b0 - 192) * 64 + (b1 - 128), 2%nat) else None
        | _ => None
        end
      else if (224 <=? b0) && (b0 <=? 239) then
        match r with
        | b1 :: b2 :: _ =>
            let cp := ((b0 - 224) * 64 + (b1 - 128)) * 64 + (b2 - 128) in
            if is_continuation b1 && is_continuation b2 && (2048 <=? cp)
               && negb ((55296 <=? cp) && (cp <=? 57343))
            then Some (cp, 3%nat) else None
        | _ => None
        end
      else if (240 <=? b0) && (b0 <=? 244) then
        match r with
        | b1 :: b2 :: b3 :: _ =>
            let cp := (((b0 - 240) * 64 + (b1 - 128)) * 64 + (b2 - 128)) * 64
                      + (b3 - 128) in
            if is_continuation b1 && is_continuation b2 && is_continuation b3
               && (65536 <=? cp) && (cp <=? 1114111)
            then Some (cp, 4%nat) else None
        | _ => None
        end
      else None
  end.

(** Decoding with fuel; [length bs] steps always suffice, since each step
    consumes at least one byte. *)
Fixpoint utf8_decode_fuel (fuel : nat) (bs : list Z) : exn jsstring :=
  match bs with
  | [] => Ok []
  | _ =>
      match fuel with
      | O => Throw URIError
      | S fuel' =>
          match utf8_decode_one bs with
          | None => Throw URIError
          | Some (cp, n) =>
              let! rest := utf8_decode_fuel fuel' (drop n bs) in
              Ok (utf16_of_code_point cp ++ rest)
          end
      end
  end.

Definition utf8_decode (bs : list Z) : exn jsstring :=
  utf8_decode_fuel (length bs) bs.

(* ------------------------------------------------------------------ *)
(** ** Host function: [parseInt(s, 36)] *)

Definition digit36 (c : Z) : option Z :=
  if (48 <=? c) && (c <=? 57) then Some (c - 48)
  else if (65 <=? c) && (c <=? 90) then Some (c - 55)
  else if (97 <=? c) && (c <=? 122) then Some (c - 87)
  else None.

(** The values of the longest prefix of base-36 digits. *)
Fixpoint digits36 (s : jsstring) : list Z :=
  match s with
  | c :: r =>
      match digit36 c with
      | Some d => d :: digits36 r
      | None => []
      end
  | [] => []
  end.

(** Leading white space is skipped, one sign is accepted, then the longest
    prefix of digits is read; no digit gives NaN. (Exact as long as the
    value is below 2^53, which two digits always are.) *)
Definition parseInt36 (s : jsstring) : option Z :=
  let s := trimStart s in
  let '(sign, s) :=
    match s with
    | 45 :: r => (-1, r)
    | 43 :: r => (1, r)
    | _ => (1, s)
    end in
  match digits36 s with
  | [] => None
  | ds => Some (sign * fold_left (fun acc d => acc * 36 + d) ds 0)
  end.

(** [s.slice(0, 2)]. *)
Definition slice02 (s : jsstring) : jsstring := take 2 s.

(* ------------------------------------------------------------------ *)
(** ** The host: storage, clock and random sources

    [random_bytes], [clock] and [math_random] are the values the host will
    hand out next, in order; reading one shifts the tape. *)

Record World := mkWorld {
  storage : gmap string jsstring;   (* localStorage *)
  storage_ok : bool;                (* false: localStorage access throws *)
  random_bytes : nat -> Z;          (* crypto.getRandomValues *)
  clock : nat -> Z;                 (* Date.now() *)
  math_random : nat -> jsstring     (* Math.random().toString(36).substr(2, 9) *)
}.

Definition JS (A : Type) : Type := World -> exn A * World.

Definition js_ret {A} (a : A) : JS A := fun w => (Ok a, w).
Definition js_throw {A} (e : Error) : JS A := fun w => (Throw e, w).
Definition js_bind {A B} (m : JS A) (k : A -> JS B) : JS B :=
  fun w =>
    match m w with
    | (Ok a, w') => k a w'
    | (Throw e, w') => (Throw e, w')
    end.
Definition js_try {A} (m : JS A) (h : Error -> JS A) : JS A :=
  fun w =>
    match m w with
    | (Ok a, w') => (Ok a, w')
    | (Throw e, w') => h e w'
    end.
Definition js_lift {A} (m : exn A) : JS A := fun w => (m, w).

Notation "'let*' x ':=' m 'in' k" := (js_bind m (fun x => k))
  (at level 10, x name, m at level 100, k at level 200, only parsing).

Definition Date_now : JS Z :=
  fun w => (Ok (clock w 0%nat),
            mkWorld (storage w) (storage_ok w) (random_bytes w)
                    (fun i => clock w (S i)) (math_random w)).

Definition Math_random_suffix : JS jsstring :=
  fun w => (Ok (math_random w 0%nat),
            mkWorld (storage w) (storage_ok w) (random_bytes w)
                    (clock w) (fun i => math_random w (S i))).

Definition RangeError : Error :=
  mkError (str "RangeError") (str "Invalid typed array length").
Definition QuotaExceededError : Error :=
  mkError (str "QuotaExceededError")
          (str "The requested length exceeds 65536 bytes").
Definition SecurityError : Error :=
  mkError (str "SecurityError") (str "The operation is insecure.").

(** [const a = new Uint8Array(length); crypto.getRandomValues(a)]: the
    array holds [length] fresh bytes. *)
Definition random_Uint8Array (length : Z) : JS (list Z) :=
  fun w =>
    if length <? 0 then (Throw RangeError, w)
    else if 65536 <? length then (Throw QuotaExceededError, w)
    else
      let n := Z.to_nat length in
      (Ok ((fun i => random_bytes w i mod 256) <$> seq 0 n),
       mkWorld (storage w) (storage_ok w)
               (fun i => random_bytes w (n + i)%nat)
               (clock w) (math_random w)).

Definition localStorage_getItem (k : string) : JS (option jsstring) :=
  fun w => if storage_ok w then (Ok (storage w !! k), w)
           else (Throw SecurityError, w).

Definition localStorage_setItem (k : string) (v : jsstring) : JS unit :=
  fun w => if storage_ok w
           then (Ok tt, mkWorld (<[k := v]> (storage w)) (storage_ok w)
                                (random_bytes w) (clock w) (math_random w))
           else (Throw SecurityError, w).

Definition localStorage_removeItem (k : string) : JS unit :=
  fun w => if storage_ok w
           then (Ok tt, mkWorld (delete k (storage w)) (storage_ok w)
                                (random_bytes w) (clock w) (math_random w))
           else (Throw SecurityError, w).

(** [chars[i]] appended to a string: the character, or the text of
    [undefined] when [i] is outside the string. *)
Definition char_at_or_undefined (chars : jsstring) (i : Z) : jsstring :=
  match charCodeAt chars (Some i) with
  | Some c => [c]
  | None => str "undefined"
  end.

(* ------------------------------------------------------------------ *)
(** ** [CryptoString] ([src/utils/encryption.ts]) *)

Module CryptoString.

Definition chars : jsstring :=
  str "ABCDEFGHIJKLMNOPQRSTUVWXYZabcdefghijklmnopqrstuvwxyz0123456789!@#$%^&*()_+-=[]{}|;:,.<>?".

(** [length] is optional and defaults to 32. *)
Definition generateKey (length : option Z) : JS jsstring :=
  let length := default 32 length in
  let* randomArray := random_Uint8Array length in
  js_ret (mjoin ((fun b => char_at_or_undefined chars (Z.rem b (len chars)))
                   <$> randomArray)).

Definition generateSalt : JS jsstring := generateKey (Some 16).

(** [!salt]: the salt is absent, or the empty string. *)
Definition no_salt (salt : option jsstring) : bool :=
  match salt with
  | None | Some [] => true
  | _ => false
  end.

Definition deriveKey (key : jsstring) (salt : option jsstring) : jsstring :=
  match salt with
  | None | Some [] => key
  | Some salt =>
      (fun i =>
         let keyChar := charCodeAt key (js_rem i (len key)) in
         let saltChar := charCodeAt salt (js_rem i (len salt)) in
         let mixedChar := Z.rem (bxor3 keyChar saltChar (Some i)) 256 in
         fromCharCode mixedChar)
      <$> indices (Z.to_nat (Z.max (len key) 32))
  end.

(** The loop shared by [aesEncrypt], [aesDecrypt], [xorEncrypt] and
    [xorDecrypt]: character [i] becomes [c ^ key[i % key.length] ^ (i % 256)]. *)
Definition xor_loop (key text : jsstring) : jsstring :=
  mapi (fun i c =>
          let keyChar := charCodeAt key (js_rem i (len key)) in
          fromCharCode (bxor3 (Some c) keyChar (js_rem i 256)))
       0 text.

Definition aesEncrypt (text key : jsstring) (salt : option jsstring)
  : exn jsstring :=
  let derivedKey := deriveKey key salt in
  btoa (xor_loop derivedKey text).

Definition aesDecrypt (encryptedText key : jsstring) (salt : option jsstring)
  : exn jsstring :=
  try_catch
    (let derivedKey := deriveKey key salt in
     let! decoded := atob encryptedText in
     Ok (xor_loop derivedKey decoded))
    (fun _ => Throw (new_Error
       (str "Invalid encrypted text or key for AES decryption"))).

(** One character of [caesarEncrypt]; a NaN shift sends every letter and
    digit to [String.fromCharCode(NaN)], the character 0. *)
Definition caesar_char (shift : option Z) (code : Z) : Z :=
  let rotate (base modulus : Z) :=
    match shift with
    | Some sh => fromCharCode (Z.rem (code - base + sh) modulus + base)
    | None => 0
    end in
  if (65 <=? code) && (code <=? 90) then rotate 65 26
  else if (97 <=? code) && (code <=? 122) then rotate 97 26
  else if (48 <=? code) && (code <=? 57) then rotate 48 10
  else code.

Definition caesarEncrypt (text : jsstring) (shift : option Z) : jsstring :=
  caesar_char shift <$> text.

Definition caesarDecrypt (text : jsstring) (shift : option Z) : jsstring :=
  caesarEncrypt text (Z.opp <$> shift).

Definition xorEncrypt (text key : jsstring) : exn jsstring :=
  btoa (xor_loop key text).

Definition xorDecrypt (encryptedText key : jsstring) : exn jsstring :=
  try_catch
    (let! decoded := atob encryptedText in
     Ok (xor_loop key decoded))
    (fun _ => Throw (new_Error
       (str "Invalid encrypted text or key for XOR decryption"))).

Definition base64Encrypt (text : jsstring) : exn jsstring :=
  try_catch
    (let! bytes := utf8_encode text in btoa bytes)
    (fun _ => Throw (new_Error (str "Failed to encode text to Base64"))).

Definition base64Decrypt (encodedText : jsstring) : exn jsstring :=
  try_catch
    (let! bytes := atob encodedText in utf8_decode bytes)
    (fun _ => Throw (new_Error (str "Invalid Base64 encoded text"))).

(** [key.charCodeAt(0) % 26]. *)
Definition hybrid_shift (key : jsstring) : option Z :=
  (fun c => Z.rem c 26) <$> charCodeAt key (Some 0).

Definition hybridEncrypt (text key : jsstring) (salt : option jsstring)
  : exn jsstring :=
  try_catch
    (let shift := hybrid_shift key in
     let caesarResult := caesarEncrypt text shift in
     let! xorResult := xorEncrypt caesarResult key in
     let! xorDecoded := atob xorResult in
     aesEncrypt xorDecoded key salt)
    (fun _ => Throw (new_Error (str "Hybrid encryption failed"))).

Definition hybridDecrypt (encryptedText key : jsstring)
  (salt : option jsstring) : exn jsstring :=
  try_catch
    (let! aesResult := aesDecrypt encryptedText key salt in
     let! reencoded := btoa aesResult in
     let! xorResult := xorDecrypt reencoded key in
     let shift := hybrid_shift key in
     Ok (caesarDecrypt xorResult shift))
    (fun _ => Throw (new_Error
       (str "Hybrid decryption failed - invalid encrypted text or key"))).

(** [parseInt(key.slice(0, 2), 36) % 26 || 13]. *)
Definition key_shift (key : jsstring) : Z :=
  match parseInt36 (slice02 key) with
  | None => 13
  | Some n => if Z.rem n 26 =? 0 then 13 else Z.rem n 26
  end.

Record EncryptionConfig := mkConfig {
  algorithm : jsstring;
  keyLength : option Z;     (* optional *)
  useSalt : bool            (* optional; absent counts as false *)
}.

Record EncryptionResult := mkResult {
  encrypted : jsstring;
  key : jsstring;
  res_algorithm : jsstring;
  timestamp : Z;
  salt : option jsstring
}.

Record DecryptionResult := mkDecryption {
  decrypted : jsstring;
  success : bool;
  error : option jsstring
}.

(** The [switch] of [encrypt]. *)
Definition encrypt_dispatch (algorithm text key : jsstring)
  (salt : option jsstring) : exn jsstring :=
  if jsstring_eqb algorithm (str "aes") then aesEncrypt text key salt
  else if jsstring_eqb algorithm (str "caesar") then
    Ok (caesarEncrypt text (Some (key_shift key)))
  else if jsstring_eqb algorithm (str "xor") then xorEncrypt text key
  else if jsstring_eqb algorithm (str "base64") then base64Encrypt text
  else if jsstring_eqb algorithm (str "hybrid") then hybridEncrypt text key salt
  else Throw (new_Error (str "Unsupported encryption algorithm")).

(** [config.keyLength ? this.generateKey(config.keyLength) : this.generateKey()];
    an absent or zero [keyLength] is falsy. *)
Definition generateKey_for (config : EncryptionConfig) : JS jsstring :=
  match keyLength config with
  | Some n => if n =? 0 then generateKey None else generateKey (Some n)
  | None => generateKey None
  end.

Definition encrypt (text : jsstring) (config : EncryptionConfig)
  : JS EncryptionResult :=
  if blank text then js_throw (new_Error (str "Text to encrypt cannot be empty"))
  else
    let* key := generateKey_for config in
    let* salt := (if useSalt config
                  then let* s := generateSalt in js_ret (Some s)
                  else js_ret None) in
    js_try
      (let* encrypted := js_lift (encrypt_dispatch (algorithm config) text key salt) in
       let* now := Date_now in
       js_ret (mkResult encrypted key (algorithm config) now salt))
      (fun error =>
         js_throw (new_Error (str "Encryption failed: " ++ message error))).

(** The [switch] of [decrypt]. *)
Definition decrypt_dispatch (algorithm encryptedText key : jsstring)
  (salt : option jsstring) : exn jsstring :=
  if jsstring_eqb algorithm (str "aes") then aesDecrypt encryptedText key salt
  else if jsstring_eqb algorithm (str "caesar") then
    Ok (caesarDecrypt encryptedText (Some (key_shift key)))
  else if jsstring_eqb algorithm (str "xor") then xorDecrypt encryptedText key
  else if jsstring_eqb algorithm (str "base64") then base64Decrypt encryptedText
  else if jsstring_eqb algorithm (str "hybrid") then
    hybridDecrypt encryptedText key salt
  else Throw (new_Error (str "Unsupported decryption algorithm")).

Definition decrypt (encryptedText key algorithm : jsstring)
  (salt : option jsstring) : exn DecryptionResult :=
  if blank encryptedText then
    Ok (mkDecryption [] false (Some (str "Encrypted text cannot be empty")))
  else if blank key then
    Ok (mkDecryption [] false (Some (str "Decryption key cannot be empty")))
  else
    try_catch
      (let! decrypted := decrypt_dispatch algorithm encryptedText key salt in
       Ok (mkDecryption decrypted true None))
      (fun error => Ok (mkDecryption [] false (Some (message error)))).

End CryptoString.

(* ------------------------------------------------------------------ *)
(** ** The script of [CryptoString.generateDecryptionCode]

    The functions below are the ones the generated script declares, read
    off the templates of [generateDecryptionCode]; [run] is the value the
    script binds to [decryptedText] for a given [EncryptionResult]. The
    literals the templates splice in ([encrypted], [key], [salt], [shift])
    are taken to read back as the values they were printed from; the
    strings are spliced between double quotes without escaping, so this
    asks that they hold no quote, backslash or line terminator, as is the
    case of a base64 ciphertext and of a key or salt [generateKey] made. *)

Module DecryptionCode.
Import CryptoString.

Definition decryption_failed (error : Error) : Error :=
  new_Error (str "Decryption failed: " ++ message error).

Definition deriveKey (key : jsstring) (salt : option jsstring) : jsstring :=
  match salt with
  | None | Some [] => key
  | Some salt =>
      (fun i =>
         let keyChar := charCodeAt key (js_rem i (len key)) in
         let saltChar := charCodeAt salt (js_rem i (len salt)) in
         let mixedChar := Z.rem (bxor3 keyChar saltChar (Some i)) 256 in
         fromCharCode mixedChar)
      <$> indices (Z.to_nat (Z.max (len key) 32))
  end.

(** The decoding loop of the script's [aesDecrypt] and [xorDecrypt]. *)
Definition decode_loop (key decoded : jsstring) : jsstring :=
  mapi (fun i encChar =>
          let keyChar := charCodeAt key (js_rem i (len key)) in
          fromCharCode (bxor3 (Some encChar) keyChar (js_rem i 256)))
       0 decoded.

(** [aesDecrypt] of the [aes] script; the [hybrid] script declares it
    without the [try]. *)
Definition aesDecrypt_bare (encryptedText key : jsstring)
  (salt : option jsstring) : exn jsstring :=
  let derivedKey := deriveKey key salt in
  let! decoded := atob encryptedText in
  Ok (decode_loop derivedKey decoded).

Definition aesDecrypt (encryptedText key : jsstring) (salt : option jsstring)
  : exn jsstring :=
  try_catch (aesDecrypt_bare encryptedText key salt)
            (fun error => Throw (decryption_failed error)).

Definition xorDecrypt_bare (encryptedText key : jsstring) : exn jsstring :=
  let! decoded := atob encryptedText in
  Ok (decode_loop key decoded).

Definition xorDecrypt (encryptedText key : jsstring) : exn jsstring :=
  try_catch (xorDecrypt_bare encryptedText key)
            (fun error => Throw (decryption_failed error)).

(** [((code - base - shift + modulus) % modulus) + base]. *)
Definition caesar_char (shift : option Z) (code : Z) : Z :=
  let rotate (base modulus : Z) :=
    match shift with
    | Some sh =>
        fromCharCode (Z.rem (code - base - sh + modulus) modulus + base)
    | None => 0
    end in
  if (65 <=? code) && (code <=? 90) then rotate 65 26
  else if (97 <=? code) && (code <=? 122) then rotate 97 26
  else if (48 <=? code) && (code <=? 57) then rotate 48 10
  else code.

Definition caesarDecrypt (text : jsstring) (shift : option Z) : jsstring :=
  caesar_char shift <$> text.

Definition base64Decrypt (encodedText : jsstring) : exn jsstring :=
  try_catch
    (let! bytes := atob encodedText in utf8_decode bytes)
    (fun error =>
       Throw (new_Error (str "Invalid Base64 text: " ++ message error))).

Definition hybridDecrypt (encryptedText key : jsstring)
  (salt : option jsstring) : exn jsstring :=
  try_catch
    (let! aesResult := aesDecrypt_bare encryptedText key salt in
     let! reencoded := btoa aesResult in
     let! xorResult := xorDecrypt_bare reencoded key in
     let shift := hybrid_shift key in
     Ok (caesarDecrypt xorResult shift))
    (fun error =>
       Throw (new_Error (str "Hybrid decryption failed: " ++ message error))).

(** [salt ? `"${salt}"` : 'undefined']. *)
Definition salt_literal (salt : option jsstring) : option jsstring :=
  match salt with
  | None | Some [] => None
  | Some s => Some s
  end.

(** The plaintext the script computes; [None] for an algorithm tag for
    which no script body is generated. *)
Definition run (result : EncryptionResult) : option (exn jsstring) :=
  let algorithm := res_algorithm result in
  if jsstring_eqb algorithm (str "aes") then
    Some (aesDecrypt (encrypted result) (key result) (salt_literal (salt result)))
  else if jsstring_eqb algorithm (str "caesar") then
    let shift := key_shift (key result) in
    Some (Ok (caesarDecrypt (encrypted result) (Some shift)))
  else if jsstring_eqb algorithm (str "xor") then
    Some (xorDecrypt (encrypted result) (key result))
  else if jsstring_eqb algorithm (str "base64") then
    Some (base64Decrypt (encrypted result))
  else if jsstring_eqb algorithm (str "hybrid") then
    Some (hybridDecrypt (encrypted result) (key result)
                        (salt_literal (salt result)))
  else None.

End DecryptionCode.

(* ------------------------------------------------------------------ *)
(** ** The encryption form: how [handleEncrypt] builds the config *)

Module EncryptionForm.
Import CryptoString.

Record FormState := mkForm {
  form_algorithm : jsstring;
  form_keyLength : Z;
  form_useSalt : bool
}.

(** [{ algorithm, keyLength: Math.max(16, Math.min(64, keyLength)),
       useSalt: useSalt && algorithm !== 'caesar' && algorithm !== 'base64' }] *)
Definition config_of_form (st : FormState) : EncryptionConfig :=
  mkConfig (form_algorithm st)
           (Some (Z.max 16 (Z.min 64 (form_keyLength st))))
           (form_useSalt st
            && negb (jsstring_eqb (form_algorithm st) (str "caesar"))
            && negb (jsstring_eqb (form_algorithm st) (str "base64"))).

End EncryptionForm.

(* ------------------------------------------------------------------ *)
(** ** JSON values

    What [JSON.parse] produces and [JSON.stringify] consumes. A number is
    kept as the exact decimal [m * 10^e] its literal denotes, which is the
    value JS holds for an integer up to 2^53 - 1; beyond that, and for
    fractions, JS rounds to a double. An object is the list of its own
    properties in insertion order (the reordering of integer-like names is
    not modelled; it affects the text [JSON.stringify] prints and nothing
    else). *)

#[warnings="-register-all"]
Inductive JsValue : Type :=
| JNull
| JBool (b : bool)
| JNum (m e : Z)
| JStr (s : jsstring)
| JArr (elements : list JsValue)
| JObj (properties : list (jsstring * JsValue)).

Definition JsObject : Type := list (jsstring * JsValue).

(** [o[k]] for an own property; [None] is [undefined]. *)
Fixpoint get_prop (o : JsObject) (k : jsstring) : option JsValue :=
  match o with
  | [] => None
  | (k', v) :: r => if jsstring_eqb k' k then Some v else get_prop r k
  end.

(** [o[k] = v]: an existing property keeps its place. *)
Fixpoint set_prop (o : JsObject) (k : jsstring) (v : JsValue) : JsObject :=
  match o with
  | [] => [(k, v)]
  | (k', v') :: r =>
      if jsstring_eqb k' k then (k', v) :: r else (k', v') :: set_prop r k v
  end.

(** ToBoolean; [undefined] is falsy. *)
Definition truthy (v : option JsValue) : bool :=
  match v with
  | None | Some JNull => false
  | Some (JBool b) => b
  | Some (JNum m _) => negb (m =? 0)
  | Some (JStr s) => negb (jsstring_eqb s [])
  | Some (JArr _) | Some (JObj _) => true
  end.

(** [typeof v === 'string']. *)
Definition is_string (v : option JsValue) : bool :=
  match v with
  | Some (JStr _) => true
  | _ => false
  end.

Definition TypeError_null (name : jsstring) : Error :=
  mkError (str "TypeError")
          (str "Cannot read properties of null (reading '" ++ name ++ str "')").

(** [v.name] for the property names the vault reads ([id], [name], [key],
    [algorithm], [created], [used]): none of them exists on a string, a
    number, a boolean or an array, and reading any property of [null]
    throws a TypeError. *)
Definition get_member (v : JsValue) (name : jsstring) : exn (option JsValue) :=
  match v with
  | JNull => Throw (TypeError_null name)
  | JObj o => Ok (get_prop o name)
  | _ => Ok None
  end.

(** Decimal text of an integer, [Number.prototype.toString] below 1e21. *)
Definition decimal (z : Z) : jsstring := str (pretty z).

(** The text of the number [m * 10^e]: for [e >= 0] the decimal text of
    the integer, as JS prints integers below 1e21. For [e < 0] mantissa
    and exponent are printed apart, which JSON reads back as the same
    number but is not the form JS prints (1.5 comes out as "15e-1"). *)
Definition number_text (m e : Z) : jsstring :=
  if 0 <=? e then decimal (m * 10 ^ e)
  else decimal m ++ str "e" ++ decimal e.

(** ToString, as a template literal applies it to a value [JSON.parse]
    made: exact for [null], booleans, strings and integers below 1e21. An
    object is taken to have no property of its own called [toString] (with
    one, JS throws a TypeError instead of printing "[object Object]"), and
    a number that is not an integer goes through [number_text]. *)
Fixpoint ToString (v : JsValue) : jsstring :=
  match v with
  | JNull => str "null"
  | JBool true => str "true"
  | JBool false => str "false"
  | JNum m e => number_text m e
  | JStr s => s
  | JArr l =>
      (fix join (l : list JsValue) : jsstring :=
         match l with
         | [] => []
         | [x] => match x with JNull => [] | _ => ToString x end
         | x :: r =>
             match x with JNull => [] | _ => ToString x end
             ++ str "," ++ join r
         end) l
  | JObj _ => str "[object Object]"
  end.

(* ------------------------------------------------------------------ *)
(** ** [JSON.stringify] (without indentation) *)

Definition hex_digit (d : Z) : Z := if d <? 10 then 48 + d else 87 + d.

Definition unicode_escape (c : Z) : jsstring :=
  str "\u" ++ [hex_digit (c / 4096); hex_digit (c / 256 mod 16);
               hex_digit (c / 16 mod 16); hex_digit (c mod 16)].

(** One code unit inside a quoted string; [next] is the unit after it and
    [prev] the one before, which decide whether a surrogate is paired. *)
Definition quote_unit (prev : option Z) (c : Z) (next : option Z) : jsstring :=
  if c =? 34 then str "\" ++ [34]
  else if c =? 92 then str "\\"
  else if c =? 8 then str "\b"
  else if c =? 12 then str "\f"
  else if c =? 10 then str "\n"
  else if c =? 13 then str "\r"
  else if c =? 9 then str "\t"
  else if c <? 32 then unicode_escape c
  else if (55296 <=? c) && (c <=? 56319) then
    match next with
    | Some n => if (56320 <=? n) && (n <=? 57343) then [c] else unicode_escape c
    | None => unicode_escape c
    end
  else if (56320 <=? c) && (c <=? 57343) then
    match prev with
    | Some p => if (55296 <=? p) && (p <=? 56319) then [c] else unicode_escape c
    | None => unicode_escape c
    end
  else [c].

Fixpoint quote_units (prev : option Z) (s : jsstring) : jsstring :=
  match s with
  | [] => []
  | c :: r => quote_unit prev c (head r) ++ quote_units (Some c) r
  end.

Definition quote (s : jsstring) : jsstring :=
  [34] ++ quote_units None s ++ [34].

Fixpoint JSON_stringify (v : JsValue) : jsstring :=
  match v with
  | JNull => str "null"
  | JBool true => str "true"
  | JBool false => str "false"
  | JNum m e => number_text m e
  | JStr s => quote s
  | JArr l =>
      str "[" ++
      (fix elements (l : list JsValue) : jsstring :=
         match l with
         | [] => []
         | [x] => JSON_stringify x
         | x :: r => JSON_stringify x ++ str "," ++ elements r
         end) l
      ++ str "]"
  | JObj o =>
      str "{" ++
      (fix members (o : list (jsstring * JsValue)) : jsstring :=
         match o with
         | [] => []
         | [(k, x)] => quote k ++ str ":" ++ JSON_stringify x
         | (k, x) :: r =>
             quote k ++ str ":" ++ JSON_stringify x ++ str "," ++ members r
         end) o
      ++ str "}"
  end.

(* ------------------------------------------------------------------ *)
(** ** [JSON.parse]

    One pass over the code units: a lexer state recognises strings,
    numbers and the three literals, and hands tokens to a stack machine
    that builds the value. Any violation of the grammar is a SyntaxError. *)

Inductive token : Type :=
| TValue (v : JsValue)
| TOpenObj | TCloseObj | TOpenArr | TCloseArr | TComma | TColon.

Inductive frame : Type :=
| FArr (elements_rev : list JsValue)
| FObj (properties : JsObject) (pending : option jsstring).

Inductive mode : Type :=
| MValue | MValueOrClose | MKeyOrClose | MKey | MColon | MAfter | MDone.

Record pstate := mkP {
  p_stack : list frame;
  p_mode : mode;
  p_result : option JsValue
}.

Definition push_value (v : JsValue) (stack : list frame) : option pstate :=
  match stack with
  | [] => Some (mkP [] MDone (Some v))
  | FArr es :: r => Some (mkP (FArr (v :: es) :: r) MAfter None)
  | FObj o (Some k) :: r => Some (mkP (FObj (set_prop o k v) None :: r) MAfter None)
  | FObj _ None :: _ => None
  end.

Definition close_array (stack : list frame) : option pstate :=
  match stack with
  | FArr es :: r => push_value (JArr (rev es)) r
  | _ => None
  end.

Definition close_object (stack : list frame) : option pstate :=
  match stack with
  | FObj o None :: r => push_value (JObj o) r
  | _ => None
  end.

Definition feed (t : token) (st : pstate) : option pstate :=
  let stack := p_stack st in
  match p_mode st, t with
  | (MValue | MValueOrClose), TValue v => push_value v stack
  | (MValue | MValueOrClose), TOpenArr =>
      Some (mkP (FArr [] :: stack) MValueOrClose None)
  | (MValue | MValueOrClose), TOpenObj =>
      Some (mkP (FObj [] None :: stack) MKeyOrClose None)
  | MValueOrClose, TCloseArr => close_array stack
  | (MKeyOrClose | MKey), TValue (JStr k) =>
      match stack with
      | FObj o None :: r => Some (mkP (FObj o (Some k) :: r) MColon None)
      | _ => None
      end
  | MKeyOrClose, TCloseObj => close_object stack
  | MColon, TColon => Some (mkP stack MValue None)
  | MAfter, TComma =>
      match stack with
      | FArr _ :: _ => Some (mkP stack MValue None)
      | FObj _ None :: _ => Some (mkP stack MKey None)
      | _ => None
      end
  | MAfter, TCloseArr => close_array stack
  | MAfter, TCloseObj => close_object stack
  | _, _ => None
  end.

Definition is_digit (c : Z) : bool := (48 <=? c) && (c <=? 57).

Fixpoint take_digits (s : jsstring) : jsstring * jsstring :=
  match s with
  | c :: r =>
      if is_digit c then let '(ds, rest) := take_digits r in (c :: ds, rest)
      else ([], s)
  | [] => ([], [])
  end.

Definition digits_value (ds : jsstring) : Z :=
  fold_left (fun acc d => acc * 10 + (d - 48)) ds 0.

(** The number a complete literal denotes: an optional minus sign, an
    integer part (a single 0, or digits not starting with 0), an optional
    fraction (a point and at least one digit) and an optional exponent
    (e or E, an optional sign, at least one digit). *)
Definition parse_number (text : jsstring) : option JsValue :=
  let '(sign, s) := match text with 45 :: r => (-1, r) | _ => (1, text) end in
  let '(int_part, s) := take_digits s in
  match int_part with
  | [] => None
  | d0 :: more =>
      if (d0 =? 48) && negb (jsstring_eqb more []) then None
      else
        let frac :=
          match s with
          | 46 :: r =>
              let '(fs, rest) := take_digits r in
              match fs with [] => None | _ => Some (fs, rest) end
          | _ => Some ([], s)
          end in
        match frac with
        | None => None
        | Some (fs, s) =>
            let exponent :=
              match s with
              | c :: r =>
                  if (c =? 101) || (c =? 69) then
                    let '(esign, r) :=
                      match r with
                      | 45 :: r' => (-1, r')
                      | 43 :: r' => (1, r')
                      | _ => (1, r)
                      end in
                    let '(es, rest) := take_digits r in
                    match es, rest with
                    | _ :: _, [] => Some (esign * digits_value es)
                    | _, _ => None
                    end
                  else None
              | [] => Some 0
              end in
            match exponent with
            | None => None
            | Some ex =>
                Some (JNum (sign * digits_value (int_part ++ fs))
                           (ex - len fs))
            end
        end
  end.

Inductive lstate : Type :=
| LIdle
| LString (acc_rev : jsstring)
| LEscape (acc_rev : jsstring)
| LUnicode (acc_rev : jsstring) (hex : list Z)
| LLiteral (rest : jsstring) (v : JsValue)
| LNumber (text_rev : jsstring).

Definition is_json_whitespace (c : Z) : bool :=
  (c =? 32) || (c =? 9) || (c =? 10) || (c =? 13).

Definition is_number_unit (c : Z) : bool :=
  is_digit c || (c =? 45) || (c =? 43) || (c =? 46) || (c =? 101) || (c =? 69).

Definition hex_value (c : Z) : option Z :=
  if is_digit c then Some (c - 48)
  else if (97 <=? c) && (c <=? 102) then Some (c - 87)
  else if (65 <=? c) && (c <=? 70) then Some (c - 55)
  else None.

Definition emit (t : token) (st : pstate) : option (lstate * pstate) :=
  st' ← feed t st; Some (LIdle, st').

(** A code unit seen between tokens. *)
Definition idle_step (c : Z) (st : pstate) : option (lstate * pstate) :=
  if is_json_whitespace c then Some (LIdle, st)
  else if c =? 34 then Some (LString [], st)
  else if c =? 123 then emit TOpenObj st
  else if c =? 125 then emit TCloseObj st
  else if c =? 91 then emit TOpenArr st
  else if c =? 93 then emit TCloseArr st
  else if c =? 44 then emit TComma st
  else if c =? 58 then emit TColon st
  else if (c =? 45) || is_digit c then Some (LNumber [c], st)
  else if c =? 116 then Some (LLiteral (str "rue") (JBool true), st)
  else if c =? 102 then Some (LLiteral (str "alse") (JBool false), st)
  else if c =? 110 then Some (LLiteral (str "ull") JNull, st)
  else None.

Definition end_number (text_rev : jsstring) (st : pstate) : option pstate :=
  v ← parse_number (rev text_rev); feed (TValue v) st.

Definition json_step (c : Z) (s : lstate * pstate) : option (lstate * pstate) :=
  let '(ls, st) := s in
  match ls with
  | LIdle => idle_step c st
  | LString acc =>
      if c =? 34 then emit (TValue (JStr (rev acc))) st
      else if c =? 92 then Some (LEscape acc, st)
      else if c <? 32 then None
      else Some (LString (c :: acc), st)
  | LEscape acc =>
      if (c =? 34) || (c =? 92) || (c =? 47) then Some (LString (c :: acc), st)
      else if c =? 98 then Some (LString (8 :: acc), st)
      else if c =? 102 then Some (LString (12 :: acc), st)
      else if c =? 110 then Some (LString (10 :: acc), st)
      else if c =? 114 then Some (LString (13 :: acc), st)
      else if c =? 116 then Some (LString (9 :: acc), st)
      else if c =? 117 then Some (LUnicode acc [], st)
      else None
  | LUnicode acc hex =>
      d ← hex_value c;
      match hex with
      | [h1; h2; h3] =>
          Some (LString (((h1 * 16 + h2) * 16 + h3) * 16 + d :: acc), st)
      | _ => Some (LUnicode acc (hex ++ [d]), st)
      end
  | LLiteral rest v =>
      match rest with
      | x :: rest' =>
          if c =? x then
            match rest' with
            | [] => emit (TValue v) st
            | _ => Some (LLiteral rest' v, st)
            end
          else None
      | [] => None
      end
  | LNumber text_rev =>
      if is_number_unit c then Some (LNumber (c :: text_rev), st)
      else st' ← end_number text_rev st; idle_step c st'
  end.

Fixpoint json_run (text : jsstring) (s : lstate * pstate)
  : option (lstate * pstate) :=
  match text with
  | [] => Some s
  | c :: r => s' ← json_step c s; json_run r s'
  end.

Definition json_finish (s : lstate * pstate) : option JsValue :=
  let '(ls, st) := s in
  st' ← match ls with
        | LIdle => Some st
        | LNumber text_rev => end_number text_rev st
        | _ => None
        end;
  match p_mode st' with
  | MDone => p_result st'
  | _ => None
  end.

Definition SyntaxError : Error :=
  mkError (str "SyntaxError") (str "Unexpected token in JSON").

Definition JSON_parse (text : jsstring) : exn JsValue :=
  match json_run text (LIdle, mkP [] MValue None) ≫= json_finish with
  | Some v => Ok v
  | None => Throw SyntaxError
  end.

(* ------------------------------------------------------------------ *)
(** ** [KeyStorage] ([src/utils/keyStorage.ts]) *)

Module KeyStorage.

Definition STORAGE_KEY : string := "cryptostring_keys".
Definition ENCRYPTION_KEY : string := "cryptostring_master_key".

Definition chars : jsstring :=
  str "ABCDEFGHIJKLMNOPQRSTUVWXYZabcdefghijklmnopqrstuvwxyz0123456789!@#$%^&*()".

Definition generateMasterKey : JS jsstring :=
  let* randomArray := random_Uint8Array 32 in
  js_ret (mjoin ((fun b => char_at_or_undefined chars (Z.rem b (len chars)))
                   <$> randomArray)).

(** [!masterKey] holds for a missing item and for the empty string. *)
Definition getMasterKey : JS jsstring :=
  let* masterKey := localStorage_getItem ENCRYPTION_KEY in
  match masterKey with
  | Some (c :: k) => js_ret (c :: k)
  | _ =>
      let* masterKey := generateMasterKey in
      let* _ := localStorage_setItem ENCRYPTION_KEY masterKey in
      js_ret masterKey
  end.

(** The loop of [encryptData] and of [decryptData]:
    [data[i] ^ masterKey[i % masterKey.length] ^ (i % 256)]. *)
Definition master_loop (masterKey data : jsstring) : jsstring :=
  mapi (fun i dataChar =>
          let keyChar := charCodeAt masterKey (js_rem i (len masterKey)) in
          fromCharCode (bxor3 (Some dataChar) keyChar (js_rem i 256)))
       0 data.

Definition encryptData (data : jsstring) : JS jsstring :=
  js_try
    (let* masterKey := getMasterKey in
     js_lift (btoa (master_loop masterKey data)))
    (fun _ => js_lift (btoa data)).

(** The inner [try] of [decryptData]: plain base64, or the empty list. *)
Definition decryptData_fallback (encryptedData : jsstring) : JS jsstring :=
  js_try (js_lift (atob encryptedData)) (fun _ => js_ret (str "[]")).

Definition decryptData (encryptedData : jsstring) : JS jsstring :=
  js_try
    (let* masterKey := getMasterKey in
     let* decoded := js_lift (atob encryptedData) in
     js_ret (master_loop masterKey decoded))
    (fun _ => decryptData_fallback encryptedData).

(** The filter of [getAllKeys]: [key && typeof key.id === 'string' && ...]. *)
Definition has_key_shape (key : JsValue) : bool :=
  match key with
  | JObj o =>
      is_string (get_prop o (str "id")) && is_string (get_prop o (str "name"))
      && is_string (get_prop o (str "key"))
      && is_string (get_prop o (str "algorithm"))
  | _ => false
  end.

Definition getAllKeys : JS (list JsValue) :=
  js_try
    (let* encrypted := localStorage_getItem STORAGE_KEY in
     match encrypted with
     | Some (c :: e) =>
         let* decrypted := decryptData (c :: e) in
         let* keys := js_lift (JSON_parse decrypted) in
         match keys with
         | JArr keys => js_ret (List.filter has_key_shape keys)
         | _ => js_ret []
         end
     | _ => js_ret []
     end)
    (fun _ => js_ret []).

(** [k.id === id] for a stored entry [k], whose [id] is a string. *)
Definition id_is (id : option JsValue) (k : JsValue) : bool :=
  match k, id with
  | JObj o, Some (JStr wanted) =>
      match get_prop o (str "id") with
      | Some (JStr s) => jsstring_eqb s wanted
      | _ => false
      end
  | _, _ => false
  end.

(** [keys.findIndex(p)], with [None] for -1. *)
Fixpoint findIndex (p : JsValue -> bool) (keys : list JsValue) : option nat :=
  match keys with
  | [] => None
  | k :: r => if p k then Some 0%nat else S <$> findIndex p r
  end.

(** [key.f || Date.now()]. *)
Definition or_now (v : option JsValue) : JS JsValue :=
  match v with
  | Some x => if truthy v then js_ret x
              else let* now := Date_now in js_ret (JNum now 0)
  | None => let* now := Date_now in js_ret (JNum now 0)
  end.

Definition missing_field (key : JsObject) : bool :=
  negb (truthy (get_prop key (str "id")))
  || negb (truthy (get_prop key (str "name")))
  || negb (truthy (get_prop key (str "key")))
  || negb (truthy (get_prop key (str "algorithm"))).

(** The list [saveKey] goes on to persist. *)
Definition upsert (key : JsObject) (keys : list JsValue) : JS (list JsValue) :=
  match findIndex (id_is (get_prop key (str "id"))) keys with
  | Some existingIndex =>
      let* now := Date_now in
      js_ret (<[existingIndex := JObj (set_prop key (str "used") (JNum now 0))]> keys)
  | None =>
      let* created := or_now (get_prop key (str "created")) in
      let* used := or_now (get_prop key (str "used")) in
      js_ret (keys ++ [JObj (set_prop (set_prop key (str "created") created)
                                      (str "used") used)])
  end.

Definition saveKey (key : JsObject) : JS bool :=
  js_try
    (if missing_field key then js_throw (new_Error (str "Invalid key data"))
     else
       let* keys := getAllKeys in
       let* keys := upsert key keys in
       let* encrypted := encryptData (JSON_stringify (JArr keys)) in
       let* _ := localStorage_setItem STORAGE_KEY encrypted in
       js_ret true)
    (fun _ => js_ret false).

Definition deleteKey (id : jsstring) : JS bool :=
  js_try
    (match id with
     | [] => js_ret false
     | _ =>
         let* all := getAllKeys in
         let keys := List.filter (fun k => negb (id_is (Some (JStr id)) k)) all in
         let* encrypted := encryptData (JSON_stringify (JArr keys)) in
         let* _ := localStorage_setItem STORAGE_KEY encrypted in
         js_ret true
     end)
    (fun _ => js_ret false).

(** [None] is [undefined]. *)
Definition getKey (id : jsstring) : JS (option JsValue) :=
  js_try
    (match id with
     | [] => js_ret None
     | _ =>
         let* all := getAllKeys in
         js_ret (List.find (id_is (Some (JStr id))) all)
     end)
    (fun _ => js_ret None).

Definition updateKeyUsage (id : jsstring) : JS bool :=
  js_try
    (let* key := getKey id in
     match key with
     | Some (JObj o) =>
         let* now := Date_now in
         saveKey (set_prop o (str "used") (JNum now 0))
     | _ => js_ret false
     end)
    (fun _ => js_ret false).

Definition clearAllKeys : JS bool :=
  js_try
    (let* _ := localStorage_removeItem STORAGE_KEY in js_ret true)
    (fun _ => js_ret false).

Definition algorithms : list jsstring :=
  [str "aes"; str "caesar"; str "xor"; str "base64"; str "hybrid"].

Definition validateKeyStructure (key : JsValue) : bool :=
  match key with
  | JObj o =>
      match get_prop o (str "name"), get_prop o (str "key"),
            get_prop o (str "algorithm") with
      | Some (JStr name), Some (JStr k), Some (JStr algorithm) =>
          negb (jsstring_eqb (trim name) []) && negb (jsstring_eqb (trim k) [])
          && bool_decide (algorithm ∈ algorithms)
      | _, _, _ => false
      end
  | _ => false
  end.

Record ImportResult := mkImport {
  imp_success : bool;
  imported : Z;
  errors : list jsstring
}.

(** [key.name || 'Unknown'] inside a template literal; exact where
    [ToString] is, in particular for a name that is a string. *)
Definition name_or_unknown (key : JsValue) : exn jsstring :=
  let! name := get_member key (str "name") in
  Ok (match name with
      | Some v => if truthy name then ToString v else str "Unknown"
      | None => str "Unknown"
      end).

(** [{ ...key, id: ... }] for an element that passed validation, which is
    an object. *)
Definition spread (key : JsValue) : JsObject :=
  match key with
  | JObj o => o
  | _ => []
  end.

(** One turn of the [for] loop of [importKeys]: the new value of
    [imported] and of [result.errors]. *)
Definition import_one (key : JsValue) (imported : Z) (errors : list jsstring)
  : JS (Z * list jsstring) :=
  if validateKeyStructure key then
    let* now := Date_now in
    let* suffix := Math_random_suffix in
    let newKey := set_prop (spread key) (str "id") (JStr (decimal now ++ suffix)) in
    let* saved := saveKey newKey in
    if saved then js_ret (imported + 1, errors)
    else
      let* name := js_lift (name_or_unknown key) in
      js_ret (imported, errors ++ [str "Failed to save key: " ++ name])
  else
    let* name := js_lift (name_or_unknown key) in
    js_ret (imported, errors ++ [str "Invalid key structure: " ++ name]).

(** The loop; an exception leaves it with the errors pushed so far. *)
Fixpoint import_loop (keys : list JsValue) (imported : Z)
  (errors : list jsstring) (w : World)
  : (option Error * Z * list jsstring) * World :=
  match keys with
  | [] => ((None, imported, errors), w)
  | key :: rest =>
      match import_one key imported errors w with
      | (Ok (imported', errors'), w') => import_loop rest imported' errors' w'
      | (Throw e, w') => ((Some e, imported, errors), w')
      end
  end.

Definition importKeys (keysData : jsstring) : JS ImportResult :=
  fun w =>
    match JSON_parse keysData with
    | Throw e =>
        (Ok (mkImport false 0 [str "Parse error: " ++ message e]), w)
    | Ok (JArr importedKeys) =>
        match import_loop importedKeys 0 [] w with
        | ((None, imported, errors), w') =>
            (Ok (mkImport (0 <? imported) imported errors), w')
        | ((Some e, _, errors), w') =>
            (Ok (mkImport false 0 (errors ++ [str "Parse error: " ++ message e])), w')
        end
    | Ok _ =>
        (Ok (mkImport false 0 [str "Invalid format: expected array of keys"]), w)
    end.

End KeyStorage.
(* ------------------------------------------------------------------ *)
(** ** Auxiliary definitions for the statements and proofs *)

(** The encoding without its padding. *)
Fixpoint b64_body (bytes : list Z) : jsstring :=
  match bytes with
  | [] => []
  | [a] => [b64_char (a / 4); b64_char (a mod 4 * 16)]
  | [a; b] =>
      [b64_char (a / 4); b64_char (a mod 4 * 16 + b / 16);
       b64_char (b mod 16 * 4)]
  | a :: b :: c :: rest =>
      b64_char (a / 4) :: b64_char (a mod 4 * 16 + b / 16)
      :: b64_char (b mod 16 * 4 + c / 64) :: b64_char (c mod 64)
      :: b64_body rest
  end.

Definition b64_padding (bytes : list Z) : jsstring :=
  match (length bytes mod 3)%nat with
  | 1%nat => [pad_char; pad_char]
  | 2%nat => [pad_char]
  | _ => []
  end.

Import CryptoString.

(** The key character a loop reads at index [i], as the XOR sees it. *)
Definition key_unit (key : jsstring) (i : Z) : Z :=
  ToInt32 (charCodeAt key (js_rem i (len key))).

(** Boolean checks, for concrete strings. *)
Definition latin1b (s : jsstring) : bool :=
  forallb (fun c => (0 <=? c) && (c <=? 255)) s.
Definition wf_stringb (s : jsstring) : bool :=
  forallb (fun c => (0 <=? c) && (c <? 65536)) s.

(** The loop body as a function, and the loop from any start index. *)
Definition xor_body (key : jsstring) (i c : Z) : Z :=
  fromCharCode (bxor3 (Some c) (charCodeAt key (js_rem i (len key))) (js_rem i 256)).

Definition salt_latin1 (salt : option jsstring) : Prop :=
  match salt with
  | Some s => latin1 s
  | None => True
  end.

(** The stream as the specification words it: unit [i] is
    [key[i mod len(key)] XOR salt[i mod len(salt)] XOR (i mod 256)]. *)
Definition spec_derived_unit (key salt : jsstring) (i : nat) : option Z :=
  match key !! (i mod length key)%nat, salt !! (i mod length salt)%nat with
  | Some k, Some s => Some (Z.lxor (Z.lxor k s) (Z.of_nat i mod 256))
  | _, _ => None
  end.

(** The symbol a random byte selects. *)
Definition symbol_of_byte (b : Z) : option Z := chars !! Z.to_nat (b mod len chars).

(** A host whose random source hands out [bytes], then zeros. *)
Definition world_with_bytes (bytes : list Z) : World :=
  mkWorld ∅ true (fun i => default 0 (bytes !! i)) (fun _ => 0) (fun _ => []).

Definition supported (algorithm : jsstring) : Prop :=
  algorithm ∈ [str "aes"; str "caesar"; str "xor"; str "base64"; str "hybrid"].

Definition failure (msg : jsstring) : DecryptionResult :=
  mkDecryption [] false (Some msg).

(** [encrypt("hello", {algorithm: "caesar", keyLength: 32, useSalt: false})]
    on a host whose random bytes 52 and 3 select the key characters "0D"
    (shift 13). *)
Definition caesar_example : exn EncryptionResult :=
  fst (encrypt (str "hello") (mkConfig (str "caesar") (Some 32) false)
               (world_with_bytes [52; 3])).

(** The length [encrypt] asks [generateKey] for. *)
Definition requested_key_length (config : EncryptionConfig) : Z :=
  match keyLength config with
  | Some n => if n =? 0 then 32 else n
  | None => 32
  end.

(** [encrypt("hello", {algorithm: "base64", keyLength: 5})]. *)
Definition short_key_example : exn EncryptionResult * World :=
  encrypt (str "hello") (mkConfig (str "base64") (Some 5) false)
          (world_with_bytes []).

Import KeyStorage.

(** What [getAllKeys] returns for a decrypted payload. *)
Definition keys_of_text (text : jsstring) : list JsValue :=
  match JSON_parse text with
  | Ok (JArr l) => List.filter has_key_shape l
  | _ => []
  end.

(** A computation that leaves the persisted payload as it found it. *)
Definition keeps_payload {A} (m : JS A) : Prop :=
  forall w r w', m w = (r, w') ->
    storage w' !! STORAGE_KEY = storage w !! STORAGE_KEY
    /\ storage_ok w' = storage_ok w.

(** [v || now]. *)
Definition or_else (v : option JsValue) (now : Z) : JsValue :=
  match v with
  | Some x => if truthy v then x else JNum now 0
  | None => JNum now 0
  end.

(** The entry written over an existing one, and the entry appended. *)
Definition replacement (key : JsObject) (now : Z) : JsValue :=
  JObj (set_prop key (str "used") (JNum now 0)).

Definition appended (key : JsObject) (now1 now2 : Z) : JsValue :=
  JObj (set_prop
          (set_prop key (str "created") (or_else (get_prop key (str "created")) now1))
          (str "used") (or_else (get_prop key (str "used")) now2)).

(** A host with an empty store, the random bytes [bytes] then zeros, a
    clock that starts at 1700000000000 and advances by one per reading,
    and the random suffixes "ra", "rb", ... *)
Definition fresh_world (bytes : list Z) : World :=
  mkWorld ∅ true (fun i => default 0 (bytes !! i))
          (fun i => Z.of_nat i + 1700000000000)
          (fun i => [114; 97 + Z.of_nat i]).

Definition stored_key (id name key algorithm : jsstring) : JsObject :=
  [(str "id", JStr id); (str "name", JStr name); (str "key", JStr key);
   (str "algorithm", JStr algorithm)].

Definition example_key : JsObject :=
  stored_key (str "1") (str "work") (str "s3cret") (str "aes").

(** JSON text written with apostrophes in place of double quotes. *)
Definition json_text (s : string) : jsstring :=
  (fun c => if c =? 39 then 34 else c) <$> str s.

Definition import_with_null : jsstring :=
  json_text "[{'name':'a','key':'k1','algorithm':'aes'},null,{'name':'b','key':'k2','algorithm':'xor'}]".

(** An object whose [id], [name], [key] and [algorithm] are strings: what
    the filter of [getAllKeys] asks of a parsed entry. *)
Definition string_fields (k : JsValue) : Prop :=
  exists o id name key algorithm,
    k = JObj o
    /\ get_prop o (str "id") = Some (JStr id)
    /\ get_prop o (str "name") = Some (JStr name)
    /\ get_prop o (str "key") = Some (JStr key)
    /\ get_prop o (str "algorithm") = Some (JStr algorithm).

(** An element whose [name] the template literal
    [`${key.name || 'Unknown'}`] prints as it stands: the element is not
    [null], and when it is an object with a [name], the name is a
    string. *)
Definition printable_name (key : JsValue) : Prop :=
  key <> JNull
  /\ (forall o, key = JObj o ->
        get_prop o (str "name") = None
        \/ exists name, get_prop o (str "name") = Some (JStr name)).

(* ------------------------------------------------------------------ *)
(** ** Auxiliary definitions for the further properties *)

(** The class [caesarEncrypt] rotates a character in: its first code and
    its size. *)
Definition caesar_class (c : Z) : option (Z * Z) :=
  if (65 <=? c) && (c <=? 90) then Some (65, 26)
  else if (97 <=? c) && (c <=? 122) then Some (97, 26)
  else if (48 <=? c) && (c <=? 57) then Some (48, 10)
  else None.

(** A character [caesarDecrypt] gives back after [caesarEncrypt] with
    [shift]: one outside the three classes, one that the shift does not
    carry past the end of its class, or the first of its class. *)
Definition survives_caesar (shift c : Z) : Prop :=
  match caesar_class c with
  | Some (base, size) => c - base + shift < size \/ c = base
  | None => True
  end.

Definition is_caesar_digit (c : Z) : bool := (48 <=? c) && (c <=? 57).

(** A string in which every surrogate is paired: a high surrogate is
    followed by a low one, and a low one follows a high one. *)
Fixpoint well_formed16 (s : jsstring) : bool :=
  match s with
  | [] => true
  | c :: r =>
      if (56320 <=? c) && (c <=? 57343) then false
      else if (55296 <=? c) && (c <=? 56319) then
        match r with
        | c2 :: r2 => (56320 <=? c2) && (c2 <=? 57343) && well_formed16 r2
        | [] => false
        end
      else well_formed16 r
  end.

(** A Unicode scalar value: a code point that is not a surrogate. *)
Definition scalar_value (cp : Z) : Prop :=
  0 <= cp < 1114112 /\ ~ (55296 <= cp <= 57343).

(** [encrypt("hello", {algorithm: "xor", keyLength: 5, useSalt: true})] on
    a host whose random bytes are all zero. *)
Definition xor_example : exn EncryptionResult * World :=
  encrypt (str "hello") (mkConfig (str "xor") (Some 5) true)
          (world_with_bytes []).

(** [encrypt("€", {algorithm: "xor", keyLength: 5})]: a text outside
    Latin-1. *)
Definition euro_example : exn EncryptionResult * World :=
  encrypt [8364] (mkConfig (str "xor") (Some 5) false) (world_with_bytes []).

(* ------------------------------------------------------------------ *)
(** ** JSON values that survive [JSON.stringify] and [JSON.parse] *)

(** Structural induction on a value, with the elements of an array and
    the property values of an object as induction hypotheses. *)
Section JsValueInd.

Variable P : JsValue -> Prop.
Hypothesis Hnull : P JNull.
Hypothesis Hbool : forall b, P (JBool b).
Hypothesis Hnum : forall m e, P (JNum m e).
Hypothesis Hstr : forall s, P (JStr s).
Hypothesis Harr : forall l, Forall P l -> P (JArr l).
Hypothesis Hobj : forall o, Forall (fun p => P (snd p)) o -> P (JObj o).

Fixpoint JsValue_nested_ind (v : JsValue) : P v :=
  match v with
  | JNull => Hnull
  | JBool b => Hbool b
  | JNum m e => Hnum m e
  | JStr s => Hstr s
  | JArr l =>
      Harr l ((fix go (l : list JsValue) : Forall P l :=
                 match l with
                 | [] => @List.Forall_nil _ P
                 | x :: r => @List.Forall_cons _ P x r (JsValue_nested_ind x) (go r)
                 end) l)
  | JObj o =>
      Hobj o ((fix go (o : list (jsstring * JsValue))
                 : Forall (fun p => P (snd p)) o :=
                 match o with
                 | [] => @List.Forall_nil _ (fun p => P (snd p))
                 | p :: r =>
                     @List.Forall_cons _ (fun p => P (snd p)) p r
                       (JsValue_nested_ind (snd p)) (go r)
                 end) o)
  end.

End JsValueInd.

(** A value all of whose numbers are integers written without exponent,
    whose strings and property names pass [ok], and whose objects have no
    repeated property name. *)
Fixpoint plain_with (ok : jsstring -> bool) (v : JsValue) : bool :=
  match v with
  | JNull | JBool _ => true
  | JNum _ e => e =? 0
  | JStr s => ok s
  | JArr l => forallb (plain_with ok) l
  | JObj o =>
      bool_decide (NoDup (fst <$> o))
      && forallb (fun p => ok (fst p) && plain_with ok (snd p)) o
  end.

(** Strings are any strings of code units. *)
Definition plain (v : JsValue) : bool := plain_with wf_stringb v.

(** Strings are Latin-1: what the vault codec can encode. *)
Definition storable (v : JsValue) : bool := plain_with latin1b v.

(** The text [JSON.stringify] prints between the brackets of an array and
    between the braces of an object. *)
Fixpoint elements_text (l : list JsValue) : jsstring :=
  match l with
  | [] => []
  | [x] => JSON_stringify x
  | x :: r => JSON_stringify x ++ str "," ++ elements_text r
  end.

Fixpoint members_text (o : list (jsstring * JsValue)) : jsstring :=
  match o with
  | [] => []
  | [(k, x)] => quote k ++ str ":" ++ JSON_stringify x
  | (k, x) :: r =>
      quote k ++ str ":" ++ JSON_stringify x ++ str "," ++ members_text r
  end.

(** The parser state once a number still being read is complete. *)
Definition settle (s : lstate * pstate) : option pstate :=
  match fst s with
  | LIdle => Some (snd s)
  | LNumber text_rev => end_number text_rev (snd s)
  | _ => None
  end.

(** The parser expects a value. *)
Definition value_mode (st : pstate) : Prop :=
  p_mode st = MValue \/ p_mode st = MValueOrClose.

(** A decimal digit. *)
Definition digit_unit (c : Z) : Prop := 48 <= c <= 57.

(** What running the text of [v] from a state that expects a value comes
    to: the parser has taken [v]. *)
Definition reads_back (v : JsValue) : Prop :=
  forall st st',
    value_mode st -> push_value v (p_stack st) = Some st' ->
    exists s1, json_run (JSON_stringify v) (LIdle, st) = Some s1
               /\ settle s1 = Some st'.

(** The object the parser builds from a list of members. *)
Definition build_object (o acc : JsObject) : JsObject :=
  fold_left (fun a p => set_prop a (fst p) (snd p)) o acc.

(* ------------------------------------------------------------------ *)
(** ** The state of the vault *)

(** The master key in the store, when there is a usable one: an empty
    item counts as missing. *)
Definition stored_master (w : World) : option jsstring :=
  match storage w !! ENCRYPTION_KEY with
  | Some (c :: k) => Some (c :: k)
  | _ => None
  end.

(** Every master key found in the store is Latin-1, as the ones
    [generateMasterKey] makes are. *)
Definition master_latin1 (w : World) : Prop :=
  forall k, storage w !! ENCRYPTION_KEY = Some k -> latin1 k.

(** The payload [saveKey] and [deleteKey] write for a list of entries. *)
Definition payload_of (masterKey : jsstring) (keys : list JsValue) : jsstring :=
  b64_encode (master_loop masterKey (JSON_stringify (JArr keys))).

(** All of [id], [name], [key] and [algorithm] are truthy: the record
    passes the guard of [saveKey]. *)
Definition complete (k : JsValue) : bool :=
  match k with
  | JObj o => negb (missing_field o)
  | _ => false
  end.

(** An entry the vault can hold and hand back: a storable value with
    non-empty strings for [id], [name], [key] and [algorithm]. *)
Definition entry (k : JsValue) : Prop :=
  storable k = true /\ has_key_shape k = true /\ complete k = true.

(** The store is accessible and holds the entries [keys]: either no
    payload and no entries, or the payload of [keys] under the stored
    master key. *)
Definition vault_state (w : World) (keys : list JsValue) : Prop :=
  storage_ok w = true
  /\ master_latin1 w
  /\ match storage w !! STORAGE_KEY with
     | Some (c :: p) =>
         exists k, stored_master w = Some k /\ c :: p = payload_of k keys
     | _ => keys = []
     end
  /\ Forall entry keys.

(** [k => k.id !== id]. *)
Definition other_id (id : jsstring) (k : JsValue) : bool :=
  negb (id_is (Some (JStr id)) k).

(** The list [saveKey] persists, given the stored list and the clock. *)
Definition upserted (key : JsObject) (keys : list JsValue) (clock : nat -> Z)
  : list JsValue :=
  match findIndex (id_is (get_prop key (str "id"))) keys with
  | Some i => <[i := replacement key (clock 0%nat)]> keys
  | None =>
      keys ++ [appended key (clock 0%nat)
                 (clock (if truthy (get_prop key (str "created"))
                         then 0 else 1)%nat)]
  end.

(** The [id] of an entry. *)
Definition id_of (k : JsValue) : option JsValue :=
  match k with
  | JObj o => get_prop o (str "id")
  | _ => None
  end.

(** The host after [saveKey(example_key)] on a fresh one, and the list the
    vault then holds. *)
Definition saved_world : World := snd (saveKey example_key (fresh_world [])).

Definition saved_keys : list JsValue :=
  upserted example_key [] (clock (fresh_world [])).

(** [encrypt("Hello, World", {algorithm: "hybrid", keyLength: 5})] on a
    host whose random bytes are all zero: the key is "AAAAA" and the Caesar
    shift of the hybrid is 65 % 26 = 13. *)
Definition hybrid_example : exn EncryptionResult * World :=
  encrypt (str "Hello, World") (mkConfig (str "hybrid") (Some 5) false)
          (world_with_bytes []).

(** [encrypt("Hello, World", {algorithm: "caesar", keyLength: 5})] on a
    host whose random bytes 52 and 3 select the key characters "0D": the
    key is "0DAAA" and the shift 13. *)
Definition caesar_script_example : exn EncryptionResult * World :=
  encrypt (str "Hello, World") (mkConfig (str "caesar") (Some 5) false)
          (world_with_bytes [52; 3]).

(** A character that a double-quoted string literal of the generated
    script holds as itself: not the quote, not the backslash and not a line
    terminator. *)
Definition literal_unit (c : Z) : bool :=
  negb ((c =? 34) || (c =? 92) || (c =? 10) || (c =? 13)
        || (c =? 8232) || (c =? 8233)).

(** A string the script's literal ["${...}"] reads back as spliced. *)
Definition literal_text (s : jsstring) : bool := forallb literal_unit s.

(* ------------------------------------------------------------------ *)
(** ** Importing into a vault *)

(** A computation that draws no random suffix. *)
Definition keeps_suffixes {A} (m : JS A) : Prop :=
  forall w r w', m w = (r, w') -> math_random w' = math_random w.

(** Every suffix [Math.random().toString(36).substr(2, 9)] will give is
    Latin-1 (it is made of digits and lower-case letters). *)
Definition suffix_latin1 (w : World) : Prop :=
  forall i, latin1 (math_random w i).

(** The name an error message shows for an element: its [name] when that
    is a non-empty string, and "Unknown" when the element has no [name] or
    an empty one. *)
Definition displayed_name (key : JsValue) : jsstring :=
  match key with
  | JObj o =>
      match get_prop o (str "name") with
      | Some (JStr (c :: name)) => c :: name
      | _ => str "Unknown"
      end
  | _ => str "Unknown"
  end.

(** The message [importKeys] records for an element that fails
    [validateKeyStructure]. *)
Definition invalid_message (key : JsValue) : jsstring :=
  str "Invalid key structure: " ++ displayed_name key.

(** [Number.MAX_SAFE_INTEGER]: up to it a JS number holds an integer as
    written. *)
Definition max_safe_integer : Z := 9007199254740991.

(** A property name made of digits alone; JS lists the integer-like
    names of an object before the others, whatever the text had. *)
Definition digits_only (name : jsstring) : bool :=
  match name with
  | [] => false
  | _ => forallb (fun c => (48 <=? c) && (c <=? 57)) name
  end.

(** A value JS holds as the text gave it: its numbers are integers within
    the safe range and no property name is made of digits alone. *)
Fixpoint exact_in_js (v : JsValue) : bool :=
  match v with
  | JNull | JBool _ | JStr _ => true
  | JNum m e => (e =? 0) && (Z.abs m <=? max_safe_integer)
  | JArr l => forallb exact_in_js l
  | JObj o =>
      forallb (fun p => negb (digits_only (fst p)) && exact_in_js (snd p)) o
  end.

(** An element [importKeys] can take: its name is printable, and when it
    passes [validateKeyStructure] it is storable and held by JS as
    written. *)
Definition importable (key : JsValue) : Prop :=
  printable_name key
  /\ (validateKeyStructure key = true ->
      storable key = true /\ exact_in_js key = true).

(** A computation that does not read the clock. *)
Definition keeps_clock {A} (m : JS A) : Prop :=
  forall w r w', m w = (r, w') -> clock w' = clock w.

(** How often [saveKey] reads the clock when it appends [key]: once for
    each of [created] and [used] that is missing or falsy. *)
Definition default_reads (key : JsObject) : nat :=
  (if truthy (get_prop key (str "created")) then 0 else 1)
  + (if truthy (get_prop key (str "used")) then 0 else 1).

(** How often [saveKey] reads the clock for [key] on the list [keys]. *)
Definition upsert_reads (key : JsObject) (keys : list JsValue) : nat :=
  match findIndex (id_is (get_prop key (str "id"))) keys with
  | Some _ => 1
  | None => default_reads key
  end.

(** [{ ...key, id: Date.now().toString() + suffix }]. *)
Definition imported_record (key : JsValue) (now : Z) (suffix : jsstring)
  : JsObject :=
  set_prop (spread key) (str "id") (JStr (decimal now ++ suffix)).

(** The entries an import adds when every id it makes is new: one for
    each element that passes [validateKeyStructure], in order, given the
    clock readings and the random suffixes ahead. *)
Fixpoint imported_records (elems : list JsValue) (clock : nat -> Z)
  (suffix : nat -> jsstring) : list JsValue :=
  match elems with
  | [] => []
  | key :: rest =>
      if validateKeyStructure key then
        let newKey := imported_record key (clock 0%nat) (suffix 0%nat) in
        let created :=
          if truthy (get_prop newKey (str "created")) then 0%nat else 1%nat in
        appended newKey (clock 1%nat) (clock (S created))
        :: imported_records rest
             (fun i => clock (S (default_reads newKey + i)))
             (fun i => suffix (S i))
      else imported_records rest clock suffix
  end.

(** The entry [saved] is the element [key] as imported: an object with a
    generated id, the element's [created] and [used] where they are
    truthy and a clock reading where not, and every other property as the
    element has it. *)
Definition imported_as (key saved : JsValue) : Prop :=
  exists o r now suffix,
    key = JObj o /\ saved = JObj r
    /\ get_prop r (str "id") = Some (JStr (decimal now ++ suffix))
    /\ (forall f, f <> str "id" -> f <> str "created" -> f <> str "used" ->
          get_prop r f = get_prop o f)
    /\ (forall f, f = str "created" \/ f = str "used" ->
          if truthy (get_prop o f) then get_prop r f = get_prop o f
          else exists t, get_prop r f = Some (JNum t 0)).

(** The ids of [records] are pairwise distinct and none is the id of a
    member of [keys]. *)
Definition fresh_ids (keys records : list JsValue) : Prop :=
  NoDup (id_of <$> records)
  /\ Forall (fun k => id_of k ∉ (id_of <$> records)) keys.

Definition rejected (key : JsValue) : bool := negb (validateKeyStructure key).

(** A batch of three elements: two valid records and one without [key]. *)
Definition import_batch : jsstring :=
  json_text "[{'name':'a','key':'k1','algorithm':'aes'},{'name':'c','algorithm':'aes'},{'name':'b','key':'k2','algorithm':'xor'}]".

Definition import_batch_elements : list JsValue :=
  [JObj [(str "name", JStr (str "a")); (str "key", JStr (str "k1"));
         (str "algorithm", JStr (str "aes"))];
   JObj [(str "name", JStr (str "c")); (str "algorithm", JStr (str "aes"))];
   JObj [(str "name", JStr (str "b")); (str "key", JStr (str "k2"));
         (str "algorithm", JStr (str "xor"))]].

(** A host with an empty store, zero random bytes, a clock that advances
    by one per reading and the same random suffix at every draw. *)
Definition steady_world : World :=
  mkWorld ∅ true (fun _ => 0) (fun i => Z.of_nat i + 1700000000000)
          (fun _ => str "k3j9x2m1q").

(* ------------------------------------------------------------------ *)
(** ** [CryptoString.simpleHash] ([src/utils/encryption.ts]) *)

(** The digit [d] as [Number.prototype.toString(36)] prints it. *)
Definition char36 (d : Z) : Z := if d <? 10 then 48 + d else 87 + d.

(** [n.toString(36)] for an integer [n >= 0], most significant digit
    first; a number has no more digits than bits, which bounds the loop. *)
Fixpoint toString36_go (fuel : nat) (n : Z) (acc : jsstring) : jsstring :=
  match fuel with
  | O => acc
  | S fuel =>
      let acc := char36 (n mod 36) :: acc in
      if n <? 36 then acc else toString36_go fuel (n / 36) acc
  end.

Definition toString36 (n : Z) : jsstring :=
  toString36_go (S (Z.to_nat (Z.log2 n))) n [].

(** One turn of the loop:
    [hash = ((hash << 5) - hash) + char; hash = hash & hash]. *)
Definition hash_step (hash char : Z) : Z :=
  let hash := wrap32 (wrap32 hash * 32) - hash + char in
  Z.land (wrap32 hash) (wrap32 hash).

Definition hash_value (input : jsstring) : Z := fold_left hash_step input 0.

Definition simpleHash (input : jsstring) : jsstring :=
  toString36 (Z.abs (hash_value input)).

(** The polynomial [c0 * 31^(n-1) + ... + c(n-1)] over the integers. *)
Definition polynomial31 (input : jsstring) : Z :=
  fold_left (fun h c => 31 * h + c) input 0.

(** The value of a list of base-36 digits. *)
Definition value36 (ds : list Z) : Z :=
  fold_left (fun acc d => acc * 36 + d) ds 0.

(** The form asks [encrypt] for a salt: the box is ticked and the
    algorithm is neither [caesar] nor [base64]. *)
Definition form_salted (st : EncryptionForm.FormState) : bool :=
  EncryptionForm.form_useSalt st
  && negb (jsstring_eqb (EncryptionForm.form_algorithm st) (str "caesar"))
  && negb (jsstring_eqb (EncryptionForm.form_algorithm st) (str "base64")).

(** The form's state for an [aes] encryption with a salt and a key length
    of 5, and what [encrypt] returns for it on a host whose random bytes
    are all zero. *)
Definition salted_form : EncryptionForm.FormState :=
  EncryptionForm.mkForm (str "aes") 5 true.

Definition salted_example : exn EncryptionResult * World :=
  encrypt (str "hello") (EncryptionForm.config_of_form salted_form)
          (world_with_bytes []).

(* ------------------------------------------------------------------ *)
(** ** [JSON.stringify(value, null, 2)] and [KeyStorage.exportKeys] *)

(** The gap of two spaces. *)
Definition gap : jsstring := str "  ".

(** [JSON.stringify(v, null, 2)] at the indentation [indent]: an empty
    array or object is printed closed; otherwise every element or member
    goes on a line of its own, one gap deeper, separated by commas, the
    closing bracket back at [indent], and a member is
    [name + ": " + value]. *)
Fixpoint JSON_stringify_pretty (indent : jsstring) (v : JsValue) : jsstring :=
  match v with
  | JArr [] => str "[]"
  | JArr l =>
      str "[" ++ [10] ++ (indent ++ gap) ++
      (fix elements (l : list JsValue) : jsstring :=
         match l with
         | [] => []
         | [x] => JSON_stringify_pretty (indent ++ gap) x
         | x :: r =>
             JSON_stringify_pretty (indent ++ gap) x
             ++ str "," ++ [10] ++ (indent ++ gap) ++ elements r
         end) l
      ++ [10] ++ indent ++ str "]"
  | JObj [] => str "{}"
  | JObj o =>
      str "{" ++ [10] ++ (indent ++ gap) ++
      (fix members (o : list (jsstring * JsValue)) : jsstring :=
         match o with
         | [] => []
         | [(k, x)] =>
             quote k ++ str ": " ++ JSON_stringify_pretty (indent ++ gap) x
         | (k, x) :: r =>
             quote k ++ str ": " ++ JSON_stringify_pretty (indent ++ gap) x
             ++ str "," ++ [10] ++ (indent ++ gap) ++ members r
         end) o
      ++ [10] ++ indent ++ str "}"
  | _ => JSON_stringify v
  end.

Definition exportKeys : JS jsstring :=
  js_try
    (let* keys := getAllKeys in
     js_ret (JSON_stringify_pretty [] (JArr keys)))
    (fun _ => js_ret (str "[]")).

Definition pretty_elements (inner : jsstring) : list JsValue -> jsstring :=
  fix elements (l : list JsValue) : jsstring :=
    match l with
    | [] => []
    | [x] => JSON_stringify_pretty inner x
    | x :: r =>
        JSON_stringify_pretty inner x ++ str "," ++ [10] ++ inner ++ elements r
    end.

Definition pretty_members (inner : jsstring)
  : list (jsstring * JsValue) -> jsstring :=
  fix members (o : list (jsstring * JsValue)) : jsstring :=
    match o with
    | [] => []
    | [(k, x)] => quote k ++ str ": " ++ JSON_stringify_pretty inner x
    | (k, x) :: r =>
        quote k ++ str ": " ++ JSON_stringify_pretty inner x
        ++ str "," ++ [10] ++ inner ++ members r
    end.

(** Spaces and line feeds only. *)
Definition blank_run (s : jsstring) : Prop :=
  Forall (fun c => c = 32 \/ c = 10) s.

(** Running the indented text of [v] from a state that expects a value:
    the parser has taken [v]. *)
Definition reads_back_pretty (v : JsValue) : Prop :=
  forall indent st st',
    blank_run indent ->
    value_mode st -> push_value v (p_stack st) = Some st' ->
    exists s1, json_run (JSON_stringify_pretty indent v) (LIdle, st) = Some s1
               /\ settle s1 = Some st'.

(* ------------------------------------------------------------------ *)
(** ** How often a symbol is drawn *)


(* ------------------------------------------------------------------ *)
(** * Properties of the host functions *)

(** Linear arithmetic with division and remainder by constants. *)
Ltac dlia := Z.to_euclidean_division_equations; lia.

Section Bits.

Lemma wrap32_small z : -2147483648 <= z < 2147483648 -> wrap32 z = z.
Proof. intros Hz. unfold wrap32. rewrite Z.mod_small; lia. Qed.

Lemma lxor_mod_pow2 a b n :
  0 <= n -> Z.lxor a b mod 2 ^ n = Z.lxor (a mod 2 ^ n) (b mod 2 ^ n).
Proof.
  intros Hn. apply Z.bits_inj'. intros i Hi.
  rewrite Z.lxor_spec, !Z.testbit_mod_pow2, Z.lxor_spec by assumption.
  destruct (i <? n); reflexivity.
Qed.

Lemma lxor_range n a b :
  0 <= n -> 0 <= a < 2 ^ n -> 0 <= b < 2 ^ n -> 0 <= Z.lxor a b < 2 ^ n.
Proof.
  intros Hn Ha Hb.
  rewrite <- (Z.mod_small a (2 ^ n)), <- (Z.mod_small b (2 ^ n)) by assumption.
  rewrite <- lxor_mod_pow2 by assumption.
  apply Z.mod_pos_bound. apply Z.pow_pos_nonneg; lia.
Qed.

Lemma lxor_cancel c k j : Z.lxor (Z.lxor (Z.lxor (Z.lxor c k) j) k) j = c.
Proof.
  apply Z.bits_inj'. intros i _. rewrite !Z.lxor_spec.
  destruct (Z.testbit c i), (Z.testbit k i), (Z.testbit j i); reflexivity.
Qed.

End Bits.

Section Base64.

Lemma b64_index_char i : 0 <= i < 64 -> b64_index (b64_char i) = i.
Proof.
  intros Hi. unfold b64_index, b64_char.
  repeat (case_match; try lia).
Qed.

Lemma is_b64_char_char i : 0 <= i < 64 -> is_b64_char (b64_char i) = true.
Proof.
  intros Hi. unfold is_b64_char, b64_char.
  repeat case_match; lia.
Qed.

Lemma b64_char_not_pad c : is_b64_char c = true -> (c =? pad_char) = false.
Proof. unfold is_b64_char, pad_char. lia. Qed.

Lemma b64_char_not_space c :
  is_b64_char c = true -> is_ascii_whitespace c = false.
Proof. unfold is_b64_char, is_ascii_whitespace. lia. Qed.

Lemma mod3_step n : (S (S (S n)) mod 3 = n mod 3)%nat.
Proof. rewrite <- (Nat.Div0.mod_add n 1 3). f_equal. lia. Qed.

Lemma mod4_step n : (S (S (S (S n))) mod 4 = n mod 4)%nat.
Proof. rewrite <- (Nat.Div0.mod_add n 1 4). f_equal. lia. Qed.

(** Induction three bytes at a time. *)
Lemma list_ind3 {A} (P : list A -> Prop) :
  P [] -> (forall a, P [a]) -> (forall a b, P [a; b]) ->
  (forall a b c l, P l -> P (a :: b :: c :: l)) ->
  forall l, P l.
Proof.
  intros H0 H1 H2 H3.
  assert (forall n (l : list A), (length l < n)%nat -> P l) as Hn.
  { induction n as [|n IH]; intros l Hl; [lia|].
    destruct l as [|a [|b [|c l]]]; auto.
    apply H3, IH. simpl in Hl. lia. }
  intros l. apply (Hn (S (length l))). lia.
Qed.

Lemma b64_encode_split bytes : b64_encode bytes = b64_body bytes ++ b64_padding bytes.
Proof.
  induction bytes as [|a|a b|a b c l IH] using list_ind3; try reflexivity.
  change (b64_encode (a :: b :: c :: l)) with
    (b64_char (a / 4) :: b64_char (a mod 4 * 16 + b / 16)
      :: b64_char (b mod 16 * 4 + c / 64) :: b64_char (c mod 64)
      :: b64_encode l).
  rewrite IH. simpl b64_body.
  replace (b64_padding (a :: b :: c :: l)) with (b64_padding l); [reflexivity|].
  unfold b64_padding. simpl length.
  now rewrite mod3_step.
Qed.

Lemma b64_body_alphabet bytes :
  latin1 bytes -> Forall (fun c => is_b64_char c = true) (b64_body bytes).
Proof.
  unfold latin1, latin1_unit.
  induction bytes as [|a|a b|a b c l IH] using list_ind3; intros H.
  - apply Forall_nil_2.
  - inversion_clear H as [|? ? Ha _].
    repeat apply Forall_cons_2; try apply Forall_nil_2;
      apply is_b64_char_char; dlia.
  - inversion_clear H as [|? ? Ha H']. inversion_clear H' as [|? ? Hb _].
    repeat apply Forall_cons_2; try apply Forall_nil_2;
      apply is_b64_char_char; dlia.
  - inversion_clear H as [|? ? Ha H']. inversion_clear H' as [|? ? Hb H''].
    inversion_clear H'' as [|? ? Hc Hl].
    simpl b64_body.
    do 4 (apply Forall_cons_2; [apply is_b64_char_char; dlia|]).
    auto.
Qed.

Lemma b64_body_length bytes : (length (b64_body bytes) mod 4 <> 1)%nat.
Proof.
  induction bytes as [|a|a b|a b c l IH] using list_ind3;
    try (simpl; lia).
  simpl b64_body. simpl length. now rewrite mod4_step.
Qed.

Lemma b64_encode_length bytes : (length (b64_encode bytes) mod 4 = 0)%nat.
Proof.
  induction bytes as [|a|a b|a b c l IH] using list_ind3;
    try reflexivity.
  change (b64_encode (a :: b :: c :: l)) with
    (b64_char (a / 4) :: b64_char (a mod 4 * 16 + b / 16)
      :: b64_char (b mod 16 * 4 + c / 64) :: b64_char (c mod 64)
      :: b64_encode l).
  simpl length. now rewrite mod4_step.
Qed.

Lemma b64_decode_body bytes : latin1 bytes -> b64_decode (b64_body bytes) = bytes.
Proof.
  unfold latin1, latin1_unit.
  induction bytes as [|a|a b|a b c l IH] using list_ind3; intros H.
  - reflexivity.
  - inversion_clear H as [|? ? Ha _].
    simpl. rewrite !b64_index_char by dlia. f_equal. dlia.
  - inversion_clear H as [|? ? Ha H']. inversion_clear H' as [|? ? Hb _].
    simpl. rewrite !b64_index_char by dlia. f_equal; [dlia|]. f_equal. dlia.
  - inversion_clear H as [|? ? Ha H']. inversion_clear H' as [|? ? Hb H''].
    inversion_clear H'' as [|? ? Hc Hl].
    simpl b64_body.
    change (b64_decode (?c0 :: ?c1 :: ?c2 :: ?c3 :: ?r)) with
      (let n := ((b64_index c0 * 64 + b64_index c1) * 64 + b64_index c2) * 64
               + b64_index c3 in
       n / 65536 :: n / 256 mod 256 :: n mod 256 :: b64_decode r).
    cbv zeta. rewrite !b64_index_char by dlia. rewrite IH by assumption.
    f_equal; [dlia|]. f_equal; [dlia|]. f_equal. dlia.
Qed.

Lemma strip_padding_encode bytes :
  latin1 bytes -> strip_padding (b64_encode bytes) = b64_body bytes.
Proof.
  intros H. rewrite b64_encode_split.
  pose proof (b64_body_alphabet bytes H) as Hal.
  assert (forall body : jsstring,
            Forall (fun c => is_b64_char c = true) body ->
            match rev body with
            | c :: _ => (c =? pad_char) = false
            | [] => True
            end) as Hlast.
  { intros body Hb. destruct (rev body) as [|c r] eqn:E; [exact I|].
    apply b64_char_not_pad. rewrite Forall_forall in Hb. apply Hb.
    apply list_elem_of_In, in_rev. rewrite E. now left. }
  specialize (Hlast _ Hal).
  unfold strip_padding, b64_padding.
  destruct (length bytes mod 3)%nat as [|[|[|n]]]; rewrite ?app_nil_r.
  - destruct (rev (b64_body bytes)) as [|c r]; [reflexivity|]. now rewrite Hlast.
  - rewrite rev_app_distr. simpl.
    destruct (b64_body bytes) as [|x body'] eqn:E; [reflexivity|].
    rewrite rev_involutive. reflexivity.
  - rewrite rev_app_distr. simpl.
    destruct (rev (b64_body bytes)) as [|c r] eqn:E.
    + apply (f_equal (@rev Z)) in E. rewrite rev_involutive in E. now rewrite E.
    + rewrite Hlast. apply (f_equal (@rev Z)) in E. rewrite rev_involutive in E.
      now rewrite E.
  - destruct (rev (b64_body bytes)) as [|c r]; [reflexivity|]. now rewrite Hlast.
Qed.

Lemma btoa_latin1 s : latin1 s -> btoa s = Ok (b64_encode s).
Proof.
  intros H. unfold btoa.
  replace (forallb _ s) with true; [reflexivity|].
  symmetry. apply forallb_forall. intros c Hc.
  unfold latin1 in H. rewrite Forall_forall in H.
  apply list_elem_of_In in Hc. specialize (H c Hc). unfold latin1_unit in H. lia.
Qed.

Lemma btoa_ok_latin1 s c : btoa s = Ok c -> latin1 s /\ c = b64_encode s.
Proof.
  unfold btoa. destruct (forallb _ s) eqn:E; [|discriminate].
  intros [= <-]. split; [|reflexivity].
  rewrite forallb_forall in E. apply Forall_forall. intros x Hx.
  apply list_elem_of_In in Hx. specialize (E x Hx). unfold latin1_unit. lia.
Qed.

Lemma filter_keeps_all (P : Z -> Prop) `{!forall x, Decision (P x)} (l : list Z) :
  Forall P l -> filter P l = l.
Proof.
  induction 1 as [|x l Hx _ IH]; [reflexivity|].
  rewrite filter_cons_True by assumption. now rewrite IH.
Qed.

(** [atob] inverts [btoa] on every string [btoa] accepts. *)
Lemma atob_b64_encode s : latin1 s -> atob (b64_encode s) = Ok s.
Proof.
  intros H. unfold atob.
  assert (filter (fun c => is_ascii_whitespace c = false) (b64_encode s)
          = b64_encode s) as ->.
  { apply filter_keeps_all. rewrite b64_encode_split. apply Forall_app. split.
    - eapply Forall_impl; [apply b64_body_alphabet, H|].
      intros c Hc. now apply b64_char_not_space.
    - unfold b64_padding. destruct (length s mod 3)%nat as [|[|[|n]]];
        repeat constructor. }
  pose proof (b64_encode_length s) as Hlen.
  apply Nat.eqb_eq in Hlen. rewrite Hlen.
  rewrite strip_padding_encode by assumption.
  pose proof (b64_body_length s) as Hb.
  apply Nat.eqb_neq in Hb. rewrite Hb.
  replace (forallb is_b64_char (b64_body s)) with true.
  - now rewrite b64_decode_body.
  - symmetry. apply forallb_forall. intros c Hc.
    pose proof (b64_body_alphabet s H) as Hal. rewrite Forall_forall in Hal.
    apply Hal. now apply list_elem_of_In.
Qed.

(** Whatever [atob] returns is a string of bytes. *)
Lemma b64_index_range c : 0 <= b64_index c < 64 \/ is_b64_char c = false.
Proof. unfold b64_index, is_b64_char. repeat case_match; lia. Qed.

End Base64.

Section Monad.

Lemma js_bind_ok {A B} (m : JS A) (k : A -> JS B) w b w' :
  js_bind m k w = (Ok b, w') ->
  exists a w1, m w = (Ok a, w1) /\ k a w1 = (Ok b, w').
Proof.
  unfold js_bind. destruct (m w) as [[a|e] w1]; [eauto|discriminate].
Qed.

Lemma js_bind_throw {A B} (m : JS A) (k : A -> JS B) w e w' :
  js_bind m k w = (Throw e, w') ->
  m w = (Throw e, w')
  \/ exists a w1, m w = (Ok a, w1) /\ k a w1 = (Throw e, w').
Proof.
  unfold js_bind. destruct (m w) as [[a|e1] w1]; [eauto|].
  intros [= <- <-]. now left.
Qed.

Lemma js_try_ok {A} (m : JS A) (h : Error -> JS A) w a w' :
  js_try m h w = (Ok a, w') ->
  m w = (Ok a, w')
  \/ exists e w1, m w = (Throw e, w1) /\ h e w1 = (Ok a, w').
Proof.
  unfold js_try. destruct (m w) as [[a1|e] w1]; [|eauto].
  intros [= <- <-]. now left.
Qed.

End Monad.
(* ------------------------------------------------------------------ *)
(** * Properties of [CryptoString] *)


Section Strings.

Lemma charCodeAt_unit s p c : wf_string s -> charCodeAt s p = Some c -> code_unit c.
Proof.
  unfold charCodeAt. intros Hs. destruct (_ <? 0); [discriminate|].
  intros Hl. exact (Forall_lookup_1 _ _ _ _ Hs Hl).
Qed.

Lemma charCodeAt_latin1 s p c : latin1 s -> charCodeAt s p = Some c -> latin1_unit c.
Proof.
  unfold charCodeAt. intros Hs. destruct (_ <? 0); [discriminate|].
  intros Hl. exact (Forall_lookup_1 _ _ _ _ Hs Hl).
Qed.

Lemma latin1_wf s : latin1 s -> wf_string s.
Proof.
  intros H. eapply Forall_impl; [exact H|].
  unfold latin1_unit, code_unit. intros x Hx. lia.
Qed.

Lemma latin1b_true s : latin1b s = true -> latin1 s.
Proof.
  unfold latin1b. rewrite forallb_forall. intros H.
  apply Forall_forall. intros c Hc. apply list_elem_of_In in Hc.
  specialize (H c Hc). unfold latin1_unit. lia.
Qed.

Lemma wf_stringb_true s : wf_stringb s = true -> wf_string s.
Proof.
  unfold wf_stringb. rewrite forallb_forall. intros H.
  apply Forall_forall. intros c Hc. apply list_elem_of_In in Hc.
  specialize (H c Hc). unfold code_unit. lia.
Qed.

End Strings.

(** ** The XOR loop under a fixed key *)

Section XorLoop.

Variable key : jsstring.
Hypothesis key_wf : wf_string key.

Lemma key_unit_range i : code_unit (key_unit key i).
Proof.
  unfold key_unit.
  destruct (charCodeAt key (js_rem i (len key))) as [k|] eqn:E; simpl.
  - pose proof (charCodeAt_unit _ _ _ key_wf E) as Hu. unfold code_unit in *.
    rewrite wrap32_small; lia.
  - unfold code_unit. lia.
Qed.

(** One step of the loop, without the conversions. *)
Lemma xor_step i c :
  0 <= i -> code_unit c ->
  xor_body key i c = Z.lxor (Z.lxor c (key_unit key i)) (i mod 256)
  /\ code_unit (Z.lxor (Z.lxor c (key_unit key i)) (i mod 256)).
Proof.
  intros Hi Hc. pose proof (key_unit_range i) as Hu.
  unfold code_unit in *.
  assert (0 <= i mod 256 < 256) as Hj by (apply Z.mod_pos_bound; lia).
  pose proof (lxor_range 16 c (key_unit key i)) as H1.
  change (2 ^ 16) with 65536 in H1. specialize (H1 ltac:(lia) Hc Hu).
  pose proof (lxor_range 16 (Z.lxor c (key_unit key i)) (i mod 256)) as H2.
  change (2 ^ 16) with 65536 in H2. specialize (H2 ltac:(lia) H1 ltac:(lia)).
  split; [|exact H2]. unfold xor_body.
  assert (js_rem i 256 = Some (i mod 256)) as ->.
  { unfold js_rem. simpl (256 =? 0). cbv iota.
    now rewrite Z.rem_mod_nonneg by lia. }
  unfold bxor3, bxor. fold (key_unit key i). simpl ToInt32.
  rewrite (wrap32_small c) by lia.
  rewrite (wrap32_small (Z.lxor c (key_unit key i))) by lia.
  rewrite (wrap32_small (i mod 256)) by lia.
  unfold fromCharCode. apply Z.mod_small. lia.
Qed.

(** Running the loop twice from the same index gives the text back. *)
Lemma xor_loop_from_involutive text :
  wf_string text -> forall i, 0 <= i ->
  mapi (xor_body key) i (mapi (xor_body key) i text) = text.
Proof.
  induction 1 as [|c text Hc _ IH]; intros i Hi.
  - reflexivity.
  - simpl. rewrite IH by lia. f_equal.
    destruct (xor_step i c Hi Hc) as [-> Hu].
    destruct (xor_step i _ Hi Hu) as [-> _].
    apply lxor_cancel.
Qed.

Lemma xor_loop_involutive text :
  wf_string text -> xor_loop key (xor_loop key text) = text.
Proof. intros Ht. apply (xor_loop_from_involutive text Ht 0). lia. Qed.

End XorLoop.

Section XorLoopLatin1.

Variable key : jsstring.
Hypothesis key_latin1 : latin1 key.

Lemma key_unit_latin1 i : latin1_unit (key_unit key i).
Proof.
  unfold key_unit.
  destruct (charCodeAt key (js_rem i (len key))) as [k|] eqn:E; simpl.
  - pose proof (charCodeAt_latin1 _ _ _ key_latin1 E) as Hu.
    unfold latin1_unit in *. rewrite wrap32_small; lia.
  - unfold latin1_unit. lia.
Qed.

Lemma xor_step_latin1 i c :
  0 <= i -> latin1_unit c ->
  latin1_unit (Z.lxor (Z.lxor c (key_unit key i)) (i mod 256)).
Proof.
  intros Hi Hc. pose proof (key_unit_latin1 i) as Hu.
  unfold latin1_unit in *.
  assert (0 <= i mod 256 < 256) as Hj by (apply Z.mod_pos_bound; lia).
  pose proof (lxor_range 8 c (key_unit key i)) as H1.
  change (2 ^ 8) with 256 in H1. specialize (H1 ltac:(lia) ltac:(lia) ltac:(lia)).
  pose proof (lxor_range 8 (Z.lxor c (key_unit key i)) (i mod 256)) as H2.
  change (2 ^ 8) with 256 in H2. specialize (H2 ltac:(lia) H1 ltac:(lia)).
  lia.
Qed.

Lemma xor_loop_from_latin1 text :
  latin1 text -> forall i, 0 <= i -> latin1 (mapi (xor_body key) i text).
Proof.
  induction 1 as [|c text Hc _ IH]; intros i Hi.
  - constructor.
  - simpl. apply Forall_cons_2; [|apply IH; lia].
    assert (code_unit c) as Hc' by (unfold latin1_unit, code_unit in *; lia).
    destruct (xor_step key (latin1_wf _ key_latin1) i c Hi Hc') as [-> _].
    now apply xor_step_latin1.
Qed.

Lemma xor_loop_latin1 text : latin1 text -> latin1 (xor_loop key text).
Proof. intros Ht. apply (xor_loop_from_latin1 text Ht 0). lia. Qed.

(** Encrypting with a Latin-1 key stream and decrypting with the same:
    [btoa] accepts the stream, [atob] gives it back, and the loop undoes
    itself. *)
Lemma stream_round_trip text :
  latin1 text ->
  exists c, btoa (xor_loop key text) = Ok c
            /\ atob c = Ok (xor_loop key text)
            /\ xor_loop key (xor_loop key text) = text.
Proof.
  intros Ht. pose proof (xor_loop_latin1 text Ht) as Hx.
  exists (b64_encode (xor_loop key text)). split; [now apply btoa_latin1|].
  split; [now apply atob_b64_encode|].
  apply xor_loop_involutive; now apply latin1_wf.
Qed.

End XorLoopLatin1.

Section KeyDerivation.

(** *** Key derivation *)

Lemma indices_lookup n i : (i < n)%nat -> indices n !! i = Some (Z.of_nat i).
Proof.
  intros Hi. unfold indices. rewrite list_lookup_fmap, lookup_seq_lt by lia.
  reflexivity.
Qed.

Lemma indices_range n i : i ∈ indices n -> 0 <= i < Z.of_nat n.
Proof.
  unfold indices. intros Hi. apply list_elem_of_fmap in Hi as (k & -> & Hk).
  apply elem_of_seq in Hk. lia.
Qed.

(** Reading a non-empty string at [i % length]. *)
Lemma charCodeAt_rem s (i : nat) :
  s <> [] ->
  charCodeAt s (js_rem (Z.of_nat i) (len s)) = s !! (i mod length s)%nat.
Proof.
  intros Hs. assert (length s <> 0)%nat as Hl by (destruct s; simpl; congruence).
  unfold js_rem, len, charCodeAt.
  destruct (Z.of_nat (length s) =? 0) eqn:E; [lia|]. cbv zeta.
  rewrite Z.rem_mod_nonneg by lia. rewrite <- Nat2Z.inj_mod.
  generalize (i mod length s)%nat. intros j.
  destruct (Z.ltb_spec (Z.of_nat j) 0); [exfalso; lia|].
  now rewrite Nat2Z.id.
Qed.

(** The mixing step of [deriveKey], without the conversions. *)
Lemma derive_step key salt i :
  wf_string key -> wf_string salt -> 0 <= i < 2147483648 ->
  fromCharCode
    (Z.rem (bxor3 (charCodeAt key (js_rem i (len key)))
                  (charCodeAt salt (js_rem i (len salt))) (Some i)) 256)
  = Z.lxor (Z.lxor (key_unit key i) (key_unit salt i)) i mod 256.
Proof.
  intros Hk Hs Hi. fold (key_unit key i).
  pose proof (key_unit_range key Hk i) as Hku.
  pose proof (key_unit_range salt Hs i) as Hsu. unfold code_unit in *.
  pose proof (lxor_range 31 (key_unit key i) (key_unit salt i)) as H1.
  change (2 ^ 31) with 2147483648 in H1.
  specialize (H1 ltac:(lia) ltac:(lia) ltac:(lia)).
  pose proof (lxor_range 31 (Z.lxor (key_unit key i) (key_unit salt i)) i) as H2.
  change (2 ^ 31) with 2147483648 in H2.
  specialize (H2 ltac:(lia) H1 Hi).
  unfold bxor3, bxor. fold (key_unit key i) (key_unit salt i). simpl ToInt32.
  rewrite (wrap32_small (Z.lxor _ _)) by lia.
  rewrite (wrap32_small i) by lia.
  rewrite Z.rem_mod_nonneg by lia.
  unfold fromCharCode. apply Z.mod_small.
  pose proof (Z.mod_pos_bound (Z.lxor (Z.lxor (key_unit key i) (key_unit salt i)) i) 256).
  lia.
Qed.

Lemma deriveKey_latin1 key salt :
  wf_string key -> wf_string salt -> salt <> [] ->
  len key <= max_string_length ->
  latin1 (deriveKey key (Some salt)).
Proof.
  intros Hk Hs Hne Hlen. unfold deriveKey.
  destruct salt as [|s0 salt']; [congruence|].
  apply Forall_fmap, Forall_forall. intros i Hi.
  apply indices_range in Hi. unfold max_string_length, len in *.
  simpl. rewrite derive_step by (try assumption; lia).
  unfold latin1_unit.
  match goal with |- 0 <= ?x mod 256 <= 255 =>
    pose proof (Z.mod_pos_bound x 256) end. lia.
Qed.

Lemma deriveKey_no_salt key salt :
  no_salt salt = true -> deriveKey key salt = key.
Proof. destruct salt as [[|c s]|]; simpl; congruence. Qed.

End KeyDerivation.

(* ------------------------------------------------------------------ *)
(** ** Round trips on the Latin-1 domain *)

Lemma derived_key_latin1 key salt :
  latin1 key -> salt_latin1 salt -> len key <= max_string_length ->
  latin1 (deriveKey key salt).
Proof.
  intros Hk Hs Hlen. destruct salt as [[|c s]|]; try exact Hk.
  apply deriveKey_latin1; try assumption; [now apply latin1_wf..|congruence].
Qed.

(** C10. On the Latin-1 domain (key and plaintext with all code units at
    most 255) [xorDecrypt] inverts [xorEncrypt], and [aesDecrypt] inverts
    [aesEncrypt] for every optional Latin-1 salt; both encryptions return a
    ciphertext there. The key need not even be non-empty. *)
Theorem xor_aes_round_trip_latin1 (key text : jsstring) :
  latin1 key -> latin1 text -> len key <= max_string_length ->
  (exists c, xorEncrypt text key = Ok c /\ xorDecrypt c key = Ok text)
  /\ (forall salt, salt_latin1 salt ->
        exists c, aesEncrypt text key salt = Ok c
                  /\ aesDecrypt c key salt = Ok text).
Proof.
  intros Hk Ht Hlen. split.
  - destruct (stream_round_trip key Hk text Ht) as (c & Hb & Ha & Hx).
    exists c. split; [exact Hb|].
    unfold xorDecrypt. rewrite Ha. simpl. now rewrite Hx.
  - intros salt Hs.
    pose proof (derived_key_latin1 key salt Hk Hs Hlen) as Hd.
    destruct (stream_round_trip _ Hd text Ht) as (c & Hb & Ha & Hx).
    exists c. split; [exact Hb|].
    unfold aesDecrypt. rewrite Ha. simpl. now rewrite Hx.
Qed.

Lemma xor_aes_round_trip_latin1_witness :
  (exists c, xorEncrypt (str "hello") (str "Key#1") = Ok c
             /\ xorDecrypt c (str "Key#1") = Ok (str "hello"))
  /\ (forall salt, salt_latin1 salt ->
        exists c, aesEncrypt (str "hello") (str "Key#1") salt = Ok c
                  /\ aesDecrypt c (str "Key#1") salt = Ok (str "hello")).
Proof.
  apply (xor_aes_round_trip_latin1 (str "Key#1") (str "hello")).
  - apply latin1b_true. vm_compute. reflexivity.
  - apply latin1b_true. vm_compute. reflexivity.
  - vm_compute. discriminate.
Defined.

(* ------------------------------------------------------------------ *)
(** ** [deriveKey] *)

Lemma key_unit_lookup s (i : nat) c :
  wf_string s -> s <> [] -> s !! (i mod length s)%nat = Some c ->
  key_unit s (Z.of_nat i) = c.
Proof.
  intros Hs Hne Hl. unfold key_unit. rewrite charCodeAt_rem, Hl by assumption.
  simpl. pose proof (Forall_lookup_1 _ _ _ _ Hs Hl) as Hu.
  unfold code_unit in Hu. apply wrap32_small. lia.
Qed.

Lemma lookup_mod_is_Some (s : jsstring) (i : nat) :
  s <> [] -> exists c, s !! (i mod length s)%nat = Some c.
Proof.
  intros Hne. apply lookup_lt_is_Some.
  apply Nat.mod_upper_bound. destruct s; simpl; congruence.
Qed.

Lemma deriveKey_lookup key salt (i : nat) k s :
  wf_string key -> wf_string salt -> key <> [] -> salt <> [] ->
  len key <= max_string_length ->
  (i < Nat.max (length key) 32)%nat ->
  key !! (i mod length key)%nat = Some k ->
  salt !! (i mod length salt)%nat = Some s ->
  deriveKey key (Some salt) !! i
  = Some (Z.lxor (Z.lxor k s) (Z.of_nat i) mod 256).
Proof.
  intros Hk Hs Hkne Hsne Hlen Hi Hkl Hsl. unfold deriveKey.
  destruct salt as [|s0 salt'] eqn:Esalt; [congruence|]. rewrite <- Esalt in *.
  unfold max_string_length, len in *.
  rewrite list_lookup_fmap, indices_lookup by lia. simpl.
  rewrite derive_step by (try assumption; lia).
  now rewrite (key_unit_lookup key i k), (key_unit_lookup salt i s).
Qed.

(** C9, as the code has it. Without a salt, or with the empty string for
    a salt, [deriveKey] returns the key. With non-empty key and salt it
    returns [max(len(key), 32)] units, unit [i] being
    [(key[i mod len(key)] XOR salt[i mod len(salt)] XOR i) mod 256]; when
    key and salt are Latin-1 this is the specification's
    [key[..] XOR salt[..] XOR (i mod 256)]. The result depends on [key] and
    [salt] alone. *)
Theorem deriveKey_stream (key salt : jsstring) :
  wf_string key -> wf_string salt -> key <> [] -> salt <> [] ->
  len key <= max_string_length ->
  deriveKey key None = key
  /\ deriveKey key (Some []) = key
  /\ length (deriveKey key (Some salt)) = Nat.max (length key) 32
  /\ (forall i : nat, (i < Nat.max (length key) 32)%nat ->
        exists k s,
          key !! (i mod length key)%nat = Some k
          /\ salt !! (i mod length salt)%nat = Some s
          /\ deriveKey key (Some salt) !! i
             = Some (Z.lxor (Z.lxor k s) (Z.of_nat i) mod 256))
  /\ (latin1 key -> latin1 salt ->
      forall i : nat, (i < Nat.max (length key) 32)%nat ->
        deriveKey key (Some salt) !! i = spec_derived_unit key salt i).
Proof.
  intros Hk Hs Hkne Hsne Hlen. split; [reflexivity|]. split; [reflexivity|].
  split; [|split].
  - unfold deriveKey. destruct salt as [|s0 salt']; [congruence|].
    unfold indices, len. rewrite length_fmap, length_fmap, length_seq. lia.
  - intros i Hi.
    destruct (lookup_mod_is_Some key i Hkne) as [k Hkl].
    destruct (lookup_mod_is_Some salt i Hsne) as [s Hsl].
    exists k, s. split; [exact Hkl|]. split; [exact Hsl|].
    now apply deriveKey_lookup.
  - intros Hkl1 Hsl1 i Hi.
    destruct (lookup_mod_is_Some key i Hkne) as [k Hkl].
    destruct (lookup_mod_is_Some salt i Hsne) as [s Hsl].
    rewrite (deriveKey_lookup key salt i k s) by assumption.
    unfold spec_derived_unit. rewrite Hkl, Hsl. f_equal.
    pose proof (Forall_lookup_1 _ _ _ _ Hkl1 Hkl) as Hku.
    pose proof (Forall_lookup_1 _ _ _ _ Hsl1 Hsl) as Hsu.
    unfold latin1_unit in *.
    pose proof (lxor_range 8 k s) as Hr. change (2 ^ 8) with 256 in Hr.
    specialize (Hr ltac:(lia) ltac:(lia) ltac:(lia)).
    change 256 with (2 ^ 8). rewrite lxor_mod_pow2 by lia.
    change (2 ^ 8) with 256. now rewrite (Z.mod_small (Z.lxor k s)) by lia.
Qed.

Lemma deriveKey_stream_witness :
  deriveKey (str "Key#1") None = str "Key#1"
  /\ deriveKey (str "Key#1") (Some []) = str "Key#1"
  /\ length (deriveKey (str "Key#1") (Some (str "na"))) = 32%nat
  /\ deriveKey (str "Key#1") (Some (str "na")) !! 7%nat
     = spec_derived_unit (str "Key#1") (str "na") 7.
Proof.
  destruct (deriveKey_stream (str "Key#1") (str "na"))
    as (H1 & H2 & H3 & _ & H5).
  - apply wf_stringb_true. vm_compute. reflexivity.
  - apply wf_stringb_true. vm_compute. reflexivity.
  - discriminate.
  - discriminate.
  - vm_compute. discriminate.
  - split; [exact H1|]. split; [exact H2|]. split; [exact H3|].
    apply H5.
    + apply latin1b_true. vm_compute. reflexivity.
    + apply latin1b_true. vm_compute. reflexivity.
    + simpl. lia.
Defined.

(** The specification's formula fails on a key unit above 255: the code
    reduces modulo 256 after the XOR. *)
Lemma deriveKey_stream_not_spec :
  deriveKey [256] (Some [1]) !! 0%nat = Some 1
  /\ spec_derived_unit [256] [1] 0 = Some 257
  /\ deriveKey [256] (Some [1]) !! 0%nat <> spec_derived_unit [256] [1] 0.
Proof. vm_compute. repeat split; congruence. Qed.

(* ------------------------------------------------------------------ *)
(** ** [generateKey] *)

Lemma chars_length : len CryptoString.chars = 88.
Proof. reflexivity. Qed.

Lemma symbol_of_byte_Some b : 0 <= b -> exists c, symbol_of_byte b = Some c.
Proof.
  intros Hb. apply lookup_lt_is_Some. rewrite chars_length.
  change (length CryptoString.chars) with 88%nat.
  pose proof (Z.mod_pos_bound b 88). lia.
Qed.

Lemma char_at_symbol b c :
  0 <= b -> symbol_of_byte b = Some c ->
  char_at_or_undefined CryptoString.chars (Z.rem b (len CryptoString.chars)) = [c].
Proof.
  intros Hb Hc. unfold char_at_or_undefined, charCodeAt.
  rewrite Z.rem_mod_nonneg by (rewrite ?chars_length; lia).
  unfold symbol_of_byte in Hc. rewrite chars_length in *.
  destruct (Z.ltb_spec (b mod 88) 0) as [Hneg|_];
    [pose proof (Z.mod_pos_bound b 88); lia|].
  now rewrite Hc.
Qed.

Lemma key_of_bytes bytes :
  Forall (fun b => 0 <= b) bytes ->
  Forall2 (fun b c => symbol_of_byte b = Some c) bytes
    (mjoin ((fun b => char_at_or_undefined CryptoString.chars (Z.rem b (len CryptoString.chars))) <$> bytes)).
Proof.
  induction 1 as [|b bytes Hb _ IH]; [constructor|].
  destruct (symbol_of_byte_Some b Hb) as [c Hc].
  rewrite fmap_cons. simpl mjoin. rewrite (char_at_symbol b c Hb Hc).
  simpl. now constructor.
Qed.

Lemma random_Uint8Array_ok n w :
  0 <= n <= 65536 ->
  random_Uint8Array n w
  = (Ok ((fun i => random_bytes w i mod 256) <$> seq 0 (Z.to_nat n)),
     mkWorld (storage w) (storage_ok w)
             (fun i => random_bytes w (Z.to_nat n + i)%nat)
             (clock w) (math_random w)).
Proof.
  intros Hn. unfold random_Uint8Array.
  destruct (Z.ltb_spec n 0); [lia|]. destruct (Z.ltb_spec 65536 n); [lia|].
  reflexivity.
Qed.

Lemma generateKey_ok n w :
  0 <= default 32 n <= 65536 ->
  exists key w',
    generateKey n w = (Ok key, w')
    /\ storage w' = storage w /\ storage_ok w' = storage_ok w
    /\ Forall2 (fun b c => symbol_of_byte b = Some c)
         ((fun i => random_bytes w i mod 256) <$> seq 0 (Z.to_nat (default 32 n)))
         key.
Proof.
  intros Hn. unfold generateKey, js_bind.
  rewrite (random_Uint8Array_ok _ w Hn). eexists _, _.
  split; [reflexivity|]. split; [reflexivity|]. split; [reflexivity|].
  apply key_of_bytes. apply Forall_fmap, Forall_forall. intros i _. simpl.
  pose proof (Z.mod_pos_bound (random_bytes w i) 256). lia.
Qed.

(** A key [generateKey] returned has the requested length. *)
Lemma generateKey_length n w key w' :
  generateKey n w = (Ok key, w') -> len key = default 32 n.
Proof.
  intros H.
  destruct (Z.ltb_spec (default 32 n) 0) as [Hneg|Hpos].
  { unfold generateKey, js_bind, random_Uint8Array in H.
    destruct (Z.ltb_spec (default 32 n) 0); [discriminate|lia]. }
  destruct (Z.ltb_spec 65536 (default 32 n)) as [Hbig|Hsmall].
  { unfold generateKey, js_bind, random_Uint8Array in H.
    destruct (Z.ltb_spec (default 32 n) 0); [discriminate|].
    destruct (Z.ltb_spec 65536 (default 32 n)); [discriminate|lia]. }
  destruct (generateKey_ok n w ltac:(lia)) as (k & w2 & Hk & _ & _ & Hf).
  rewrite Hk in H. injection H as -> ->.
  apply Forall2_length in Hf. unfold len. rewrite <- Hf.
  rewrite length_fmap, length_seq. lia.
Qed.

(** C8, with the alphabet the code has. [generateKey(length)], [length]
    defaulting to 32, returns exactly [length] characters, character [i]
    being the symbol at index (random byte [i]) modulo the size of the
    alphabet; the alphabet has 88 symbols; [generateSalt()] is
    [generateKey(16)]; the storage is left alone. *)
Theorem generateKey_spec (n : option Z) (w : World) :
  0 <= default 32 n <= 65536 ->
  exists key w',
    generateKey n w = (Ok key, w')
    /\ len key = default 32 n
    /\ (forall i : nat, (i < Z.to_nat (default 32 n)%Z)%nat ->
          exists c, CryptoString.chars !! Z.to_nat ((random_bytes w i mod 256) mod 88) = Some c
                    /\ key !! i = Some c)
    /\ len CryptoString.chars = 88
    /\ generateKey None w = generateKey (Some 32) w
    /\ generateSalt w = generateKey (Some 16) w
    /\ storage w' = storage w.
Proof.
  intros Hn.
  destruct (generateKey_ok n w Hn) as (key & w' & Hk & Hst & _ & Hf).
  exists key, w'. split; [exact Hk|].
  split; [exact (generateKey_length _ _ _ _ Hk)|].
  split; [|repeat split; assumption].
  intros i Hi.
  assert (((fun i => random_bytes w i mod 256) <$> seq 0 (Z.to_nat (default 32 n))) !! i
          = Some (random_bytes w i mod 256)) as Hb.
  { rewrite list_lookup_fmap, lookup_seq_lt by lia. reflexivity. }
  destruct (Forall2_lookup_l _ _ _ _ _ Hf Hb) as (c & Hc & Hs).
  exists c. split; [exact Hs|exact Hc].
Qed.

Lemma generateKey_spec_witness :
  exists key w',
    generateKey (Some 16) (world_with_bytes [52; 3; 90; 255]) = (Ok key, w')
    /\ len key = 16.
Proof.
  destruct (generateKey_spec (Some 16) (world_with_bytes [52; 3; 90; 255]))
    as (key & w' & Hk & Hl & _).
  - simpl. lia.
  - exists key, w'. split; [exact Hk|exact Hl].
Defined.

(** The specification's alphabet size, 91, is not the code's: byte 90
    selects the symbol at index 2, and the alphabet has no index 90. *)
Lemma generateKey_not_mod_91 :
  len CryptoString.chars <> 91
  /\ fst (generateKey (Some 1) (world_with_bytes [90])) = Ok (str "C")
  /\ CryptoString.chars !! Z.to_nat (90 mod 91) = None.
Proof. vm_compute. repeat split; congruence. Qed.

(* ------------------------------------------------------------------ *)
(** ** [decrypt] never throws *)

Lemma jsstring_eqb_false (a b : jsstring) : a <> b -> jsstring_eqb a b = false.
Proof. intros H. unfold jsstring_eqb. now apply bool_decide_eq_false. Qed.

Lemma decrypt_dispatch_unsupported algorithm encryptedText key salt :
  ~ supported algorithm ->
  decrypt_dispatch algorithm encryptedText key salt
  = Throw (new_Error (str "Unsupported decryption algorithm")).
Proof.
  unfold supported. intros H. unfold decrypt_dispatch.
  rewrite !jsstring_eqb_false; [reflexivity|..];
    intros ->; apply H; set_solver.
Qed.

(** A ciphertext [atob] rejects makes every base64-framed algorithm fail. *)
Lemma decrypt_dispatch_bad_base64 algorithm encryptedText key salt e :
  atob encryptedText = Throw e ->
  algorithm <> str "caesar" ->
  exists e', decrypt_dispatch algorithm encryptedText key salt = Throw e'.
Proof.
  intros Ha Hc. unfold decrypt_dispatch.
  destruct (jsstring_eqb algorithm (str "aes")).
  { unfold aesDecrypt. rewrite Ha. simpl. eauto. }
  rewrite (jsstring_eqb_false _ _ Hc).
  destruct (jsstring_eqb algorithm (str "xor")).
  { unfold xorDecrypt. rewrite Ha. simpl. eauto. }
  destruct (jsstring_eqb algorithm (str "base64")).
  { unfold base64Decrypt. rewrite Ha. simpl. eauto. }
  destruct (jsstring_eqb algorithm (str "hybrid")).
  { unfold hybridDecrypt, aesDecrypt. rewrite Ha. simpl. eauto. }
  eauto.
Qed.

(** C4. [decrypt] returns a result for every ciphertext, key, algorithm tag
    and optional salt, and never throws: a blank ciphertext or a blank key
    gives [success: false] with its message; otherwise the result is
    [{decrypted, success: true}] when the algorithm's own decryption
    returns [decrypted], and [success: false] with the message of the error
    when it throws, which it does for every tag outside the five and, for
    the base64-framed algorithms, for every ciphertext [atob] rejects. *)
Theorem decrypt_total (encryptedText key algorithm : jsstring)
  (salt : option jsstring) :
  exists r,
    decrypt encryptedText key algorithm salt = Ok r
    /\ (blank encryptedText = true ->
        r = failure (str "Encrypted text cannot be empty"))
    /\ (blank encryptedText = false -> blank key = true ->
        r = failure (str "Decryption key cannot be empty"))
    /\ (blank encryptedText = false -> blank key = false ->
        match decrypt_dispatch algorithm encryptedText key salt with
        | Ok d => r = mkDecryption d true None
        | Throw e => r = failure (message e)
        end)
    /\ (blank encryptedText = false -> blank key = false ->
        ~ supported algorithm ->
        r = failure (str "Unsupported decryption algorithm"))
    /\ (blank encryptedText = false -> blank key = false ->
        algorithm <> str "caesar" ->
        (exists e, atob encryptedText = Throw e) ->
        success r = false)
    /\ (success r = false <-> error r <> None).
Proof.
  unfold decrypt.
  destruct (blank encryptedText) eqn:Ect.
  { eexists. split; [reflexivity|]. repeat split; try discriminate; auto. }
  destruct (blank key) eqn:Ek.
  { eexists. split; [reflexivity|]. repeat split; try discriminate; auto. }
  destruct (decrypt_dispatch algorithm encryptedText key salt) as [d|e] eqn:Ed;
    simpl; eexists; (split; [reflexivity|]).
  - repeat split; try discriminate; auto.
    + intros _ _ Hu.
      rewrite (decrypt_dispatch_unsupported _ _ _ _ Hu) in Ed. discriminate.
    + intros _ _ Hc [e He].
      destruct (decrypt_dispatch_bad_base64 _ _ key salt _ He Hc) as [e' He'].
      rewrite He' in Ed. discriminate.
    + intros H. now contradiction H.
  - repeat split; try discriminate; auto.
    intros _ _ Hu.
    rewrite (decrypt_dispatch_unsupported _ _ _ _ Hu) in Ed.
    now injection Ed as <-.
Qed.

Lemma decrypt_total_witness :
  exists r,
    decrypt (str "aGVsbG8=") (str "Key#1") (str "base64") None = Ok r
    /\ r = mkDecryption (str "hello") true None.
Proof.
  destruct (decrypt_total (str "aGVsbG8=") (str "Key#1") (str "base64") None)
    as (r & Hr & _ & _ & Hd & _).
  exists r. split; [exact Hr|]. apply Hd; reflexivity.
Defined.

(* ------------------------------------------------------------------ *)
(** ** The caesar round trip *)

(** C1 at a failing input. With a key [generateKey] produced, the
    plaintext "hello" encrypts to "uryyb" under caesar, and [decrypt] with
    the same key and algorithm reports success with "hellU": the letter o
    wrapped around on encryption, and [caesarDecrypt] re-encrypts with the
    negated shift, whose remainder is negative. *)
Theorem caesar_round_trip_fails :
  exists res,
    caesar_example = Ok res
    /\ take 2 (key res) = str "0D" /\ len (key res) = 32
    /\ key_shift (key res) = 13
    /\ encrypted res = str "uryyb"
    /\ decrypt (encrypted res) (key res) (res_algorithm res) (salt res)
       = Ok (mkDecryption (str "hellU") true None).
Proof.
  eexists. split; [vm_compute; reflexivity|].
  vm_compute. repeat split; reflexivity.
Qed.

(** C3 at a failing input. For that same [EncryptionResult] the generated
    script computes "hello" where [decrypt] returns "hellU"; as functions
    of (text, shift) the script's [caesarDecrypt] and
    [CryptoString.caesarDecrypt] differ already on "b" with shift 13. *)
Theorem generated_script_differs_from_decrypt :
  exists res,
    caesar_example = Ok res
    /\ DecryptionCode.run res = Some (Ok (str "hello"))
    /\ decrypt (encrypted res) (key res) (res_algorithm res) (salt res)
       = Ok (mkDecryption (str "hellU") true None)
    /\ DecryptionCode.caesarDecrypt (str "b") (Some 13) = str "o"
    /\ CryptoString.caesarDecrypt (str "b") (Some 13) = str "U".
Proof.
  eexists. split; [vm_compute; reflexivity|].
  vm_compute. repeat split; reflexivity.
Qed.

(** *** Where the round trip and the generated script do hold *)

Lemma trim_no_whitespace s :
  Forall (fun c => is_js_whitespace c = false) s -> trim s = s.
Proof.
  intros H. unfold trim.
  assert (forall t, Forall (fun c => is_js_whitespace c = false) t ->
                    trimStart t = t) as Hstart.
  { intros t Ht. destruct Ht as [|c t Hc _]; [reflexivity|].
    simpl. now rewrite Hc. }
  rewrite (Hstart s H).
  rewrite (Hstart (rev s)) by (apply list.Forall_forall; intros c Hc;
    apply list_elem_of_In, in_rev in Hc; rewrite list.Forall_forall in H;
    apply H, list_elem_of_In, Hc).
  apply rev_involutive.
Qed.

Lemma b64_encode_not_blank s :
  latin1 s -> s <> [] -> blank (b64_encode s) = false.
Proof.
  intros Hs Hne.
  assert (b64_encode s <> []) as Hne'.
  { destruct s as [|a [|b [|c r]]]; [congruence|discriminate..]. }
  unfold blank. destruct (b64_encode s) as [|x r] eqn:E; [congruence|].
  rewrite <- E. rewrite trim_no_whitespace.
  - rewrite E. now apply bool_decide_eq_false.
  - rewrite b64_encode_split. apply Forall_app. split.
    + eapply Forall_impl; [apply b64_body_alphabet, Hs|].
      intros c Hc. simpl. unfold is_b64_char, is_js_whitespace in *. lia.
    + unfold b64_padding. destruct (length s mod 3)%nat as [|[|[|n]]];
        repeat apply Forall_cons_2; try apply Forall_nil_2; reflexivity.
Qed.

(** On Latin-1 text that is not empty, with a Latin-1 key that is not
    blank, [decrypt] gives the plaintext back for [xor] and for [aes]. *)
Lemma decrypt_inverts_xor_aes key text :
  latin1 key -> blank key = false -> latin1 text -> text <> [] ->
  len key <= max_string_length ->
  (forall salt,
     exists c, xorEncrypt text key = Ok c
               /\ decrypt c key (str "xor") salt
                  = Ok (mkDecryption text true None))
  /\ (forall salt, salt_latin1 salt ->
        exists c, aesEncrypt text key salt = Ok c
                  /\ decrypt c key (str "aes") salt
                     = Ok (mkDecryption text true None)).
Proof.
  intros Hk Hkb Ht Hne Hlen.
  assert (forall k, latin1 k -> xor_loop k text <> []) as Hloop.
  { intros k _. destruct text; [congruence|discriminate]. }
  split.
  - intros salt.
    destruct (stream_round_trip key Hk text Ht) as (c & Hb & Ha & Hx).
    exists c. split; [exact Hb|].
    apply btoa_ok_latin1 in Hb as [Hl ->].
    unfold decrypt. rewrite (b64_encode_not_blank _ Hl (Hloop key Hk)), Hkb.
    change (decrypt_dispatch (str "xor") ?c key salt) with (xorDecrypt c key).
    unfold xorDecrypt. rewrite Ha. cbn [exn_bind try_catch]. now rewrite Hx.
  - intros salt Hs.
    pose proof (derived_key_latin1 key salt Hk Hs Hlen) as Hd.
    destruct (stream_round_trip _ Hd text Ht) as (c & Hb & Ha & Hx).
    exists c. split; [exact Hb|].
    apply btoa_ok_latin1 in Hb as [Hl ->].
    unfold decrypt. rewrite (b64_encode_not_blank _ Hl (Hloop _ Hd)), Hkb.
    change (decrypt_dispatch (str "aes") ?c key salt) with (aesDecrypt c key salt).
    unfold aesDecrypt. rewrite Ha. cbn [exn_bind try_catch]. now rewrite Hx.
Qed.

(** For [aes], [xor] and [base64] the generated script computes what
    [decrypt] computes, whenever either returns a plaintext. *)
Lemma generated_script_agrees_outside_caesar res d :
  res_algorithm res ∈ [str "aes"; str "xor"; str "base64"] ->
  decrypt_dispatch (res_algorithm res) (encrypted res) (key res) (salt res) = Ok d
  <-> DecryptionCode.run res = Some (Ok d).
Proof.
  intros Ha. unfold DecryptionCode.run.
  repeat (apply elem_of_cons in Ha as [->|Ha]); [| | |inversion Ha].
  - change (decrypt_dispatch (str "aes") ?c ?k ?s) with (aesDecrypt c k s).
    change (jsstring_eqb (str "aes") (str "aes")) with true. cbv iota.
    unfold aesDecrypt, DecryptionCode.aesDecrypt, DecryptionCode.aesDecrypt_bare.
    destruct (atob (encrypted res)) as [decoded|e]; cbn [exn_bind try_catch].
    + destruct (salt res) as [[|c s]|]; split; intros [= <-]; reflexivity.
    + split; [discriminate|intros [=]].
  - change (decrypt_dispatch (str "xor") ?c ?k ?s) with (xorDecrypt c k).
    change (jsstring_eqb (str "xor") (str "aes")) with false.
    change (jsstring_eqb (str "xor") (str "caesar")) with false.
    change (jsstring_eqb (str "xor") (str "xor")) with true. cbv iota.
    unfold xorDecrypt, DecryptionCode.xorDecrypt, DecryptionCode.xorDecrypt_bare.
    destruct (atob (encrypted res)) as [decoded|e]; cbn [exn_bind try_catch].
    + split; intros [= <-]; reflexivity.
    + split; [discriminate|intros [=]].
  - change (decrypt_dispatch (str "base64") ?c ?k ?s) with (base64Decrypt c).
    change (jsstring_eqb (str "base64") (str "aes")) with false.
    change (jsstring_eqb (str "base64") (str "caesar")) with false.
    change (jsstring_eqb (str "base64") (str "xor")) with false.
    change (jsstring_eqb (str "base64") (str "base64")) with true. cbv iota.
    unfold base64Decrypt, DecryptionCode.base64Decrypt.
    destruct (atob (encrypted res)) as [bytes|e]; cbn [exn_bind try_catch].
    + destruct (utf8_decode bytes); cbn [try_catch];
        split; try discriminate; try (intros [= <-]; reflexivity); intros [=].
    + split; [discriminate|intros [=]].
Qed.

(* ------------------------------------------------------------------ *)
(** ** The key length of [encrypt] *)

Lemma generateKey_for_length config w key w' :
  generateKey_for config w = (Ok key, w') ->
  len key = requested_key_length config.
Proof.
  unfold generateKey_for, requested_key_length.
  destruct (keyLength config) as [n|]; [destruct (n =? 0)|];
    intros H; apply generateKey_length in H; exact H.
Qed.

Lemma encrypt_key config text w res w' :
  encrypt text config w = (Ok res, w') ->
  exists w1, generateKey_for config w = (Ok (key res), w1).
Proof.
  unfold encrypt. destruct (blank text); [discriminate|].
  intros H. apply js_bind_ok in H as (k & w1 & Hk & H).
  apply js_bind_ok in H as (s & w2 & _ & H).
  apply js_try_ok in H as [H|(e & w3 & _ & H)]; [|discriminate].
  apply js_bind_ok in H as (c & w3 & _ & H).
  apply js_bind_ok in H as (now & w4 & _ & H).
  injection H as <- _. simpl. eauto.
Qed.

Lemma form_key_length st :
  16 <= requested_key_length (EncryptionForm.config_of_form st) <= 64.
Proof.
  unfold requested_key_length, EncryptionForm.config_of_form. simpl.
  destruct (Z.eqb_spec (Z.max 16 (Z.min 64 (EncryptionForm.form_keyLength st))) 0); lia.
Qed.

(** *** [encrypt] returns on Latin-1 text *)

Lemma chars_latin1 : latin1 CryptoString.chars.
Proof. apply latin1b_true. vm_compute. reflexivity. Qed.

Lemma generated_key_latin1 bytes key :
  Forall2 (fun b c => symbol_of_byte b = Some c) bytes key -> latin1 key.
Proof.
  induction 1 as [|b c bytes key Hc _ IH]; [constructor|].
  apply Forall_cons_2; [|exact IH].
  exact (Forall_lookup_1 _ _ _ _ chars_latin1 Hc).
Qed.

Lemma generateKey_returns n w :
  0 <= default 32 n <= 65536 ->
  exists key w', generateKey n w = (Ok key, w') /\ latin1 key.
Proof.
  intros Hn. destruct (generateKey_ok n w Hn) as (key & w' & Hk & _ & _ & Hf).
  exists key, w'. split; [exact Hk|]. exact (generated_key_latin1 _ _ Hf).
Qed.

Lemma generateKey_for_returns config w :
  0 <= requested_key_length config <= 65536 ->
  exists key w', generateKey_for config w = (Ok key, w') /\ latin1 key.
Proof.
  unfold requested_key_length, generateKey_for.
  destruct (keyLength config) as [n|]; [destruct (n =? 0)|];
    intros Hn; now apply generateKey_returns.
Qed.

Lemma utf8_encode_latin1 text :
  latin1 text -> exists bytes, utf8_encode text = Ok bytes /\ latin1 bytes.
Proof.
  induction 1 as [|c text Hc _ (bytes & Hb & Hl)]; [exists []; split; [reflexivity|constructor]|].
  unfold latin1_unit in Hc. simpl.
  destruct (andb_false_iff (56320 <=? c) (c <=? 57343)) as [_ ->]; [|left; lia].
  destruct (andb_false_iff (55296 <=? c) (c <=? 56319)) as [_ ->]; [|left; lia].
  rewrite Hb. simpl. eexists. split; [reflexivity|].
  apply Forall_app. split; [|exact Hl].
  unfold utf8_of_code_point, latin1, latin1_unit.
  destruct (Z.ltb_spec c 128); [repeat apply Forall_cons_2; try apply Forall_nil_2; lia|].
  destruct (Z.ltb_spec c 2048); [|lia].
  repeat apply Forall_cons_2; try apply Forall_nil_2; dlia.
Qed.

Lemma caesar_char_latin1 shift c :
  0 <= shift < 26 -> latin1_unit c ->
  latin1_unit (caesar_char (Some shift) c).
Proof.
  intros Hs Hc. unfold caesar_char, fromCharCode, latin1_unit in *.
  repeat case_match; try lia; dlia.
Qed.

Lemma caesar_hybrid_latin1 key text :
  wf_string key -> latin1 text -> latin1 (caesarEncrypt text (hybrid_shift key)).
Proof.
  intros Hk Ht. unfold caesarEncrypt. apply Forall_fmap.
  eapply Forall_impl; [exact Ht|]. intros c Hc. simpl.
  unfold hybrid_shift.
  destruct (charCodeAt key (Some 0)) as [k|] eqn:E; simpl.
  - apply caesar_char_latin1; [|exact Hc].
    pose proof (charCodeAt_unit _ _ _ Hk E) as Hu. unfold code_unit in Hu. dlia.
  - unfold caesar_char, latin1_unit in *. repeat case_match; lia.
Qed.

(** On Latin-1 text, with a Latin-1 key and salt, every supported
    algorithm encrypts. *)
Lemma encrypt_dispatch_returns algorithm text key salt :
  supported algorithm -> latin1 text -> latin1 key -> salt_latin1 salt ->
  len key <= max_string_length ->
  exists c, encrypt_dispatch algorithm text key salt = Ok c.
Proof.
  intros Ha Ht Hk Hs Hlen. unfold encrypt_dispatch.
  pose proof (derived_key_latin1 key salt Hk Hs Hlen) as Hd.
  destruct (jsstring_eqb algorithm (str "aes")) eqn:E1.
  { destruct (stream_round_trip _ Hd text Ht) as (c & Hb & _). eauto. }
  destruct (jsstring_eqb algorithm (str "caesar")) eqn:E2; [eauto|].
  destruct (jsstring_eqb algorithm (str "xor")) eqn:E3.
  { destruct (stream_round_trip _ Hk text Ht) as (c & Hb & _). eauto. }
  destruct (jsstring_eqb algorithm (str "base64")) eqn:E4.
  { unfold base64Encrypt. destruct (utf8_encode_latin1 text Ht) as (bytes & -> & Hl).
    cbn [exn_bind]. rewrite (btoa_latin1 _ Hl). cbn [try_catch]. eauto. }
  destruct (jsstring_eqb algorithm (str "hybrid")) eqn:E5.
  { unfold hybridEncrypt, xorEncrypt, aesEncrypt.
    pose proof (caesar_hybrid_latin1 key text (latin1_wf _ Hk) Ht) as Hc.
    destruct (stream_round_trip key Hk _ Hc) as (c1 & Hb1 & Ha1 & _).
    rewrite Hb1. cbn [exn_bind]. rewrite Ha1. cbn [exn_bind].
    pose proof (xor_loop_latin1 key Hk _ Hc) as Hx.
    destruct (stream_round_trip _ Hd _ Hx) as (c2 & Hb2 & _).
    rewrite Hb2. cbn [try_catch]. eauto. }
  exfalso. unfold supported in Ha.
  repeat (apply elem_of_cons in Ha as [->|Ha]);
    try match goal with
        | H : jsstring_eqb ?a ?a = false |- _ => vm_compute in H; discriminate H
        end.
  inversion Ha.
Qed.

Lemma encrypt_returns text config w :
  blank text = false -> latin1 text -> supported (algorithm config) ->
  0 <= requested_key_length config <= 65536 ->
  exists res w', encrypt text config w = (Ok res, w').
Proof.
  intros Hb Ht Ha Hn. unfold encrypt. rewrite Hb.
  destruct (generateKey_for_returns config w Hn) as (k & w1 & Hk & Hkl).
  pose proof (generateKey_for_length _ _ _ _ Hk) as Hlen.
  unfold js_bind at 1. rewrite Hk.
  assert (exists salt w2,
            (if useSalt config
             then js_bind generateSalt (fun s => js_ret (Some s))
             else js_ret None) w1 = (Ok salt, w2) /\ salt_latin1 salt)
    as (salt & w2 & Hsalt & Hsl).
  { destruct (useSalt config).
    - destruct (generateKey_returns (Some 16) w1 ltac:(simpl; lia))
        as (s & w2 & Hs & Hl).
      exists (Some s), w2. unfold js_bind, generateSalt. rewrite Hs.
      split; [reflexivity|exact Hl].
    - exists None, w1. split; [reflexivity|exact I]. }
  unfold js_bind at 1. rewrite Hsalt.
  destruct (encrypt_dispatch_returns (algorithm config) text k salt Ha Ht Hkl Hsl)
    as (c & Hc).
  { unfold max_string_length. lia. }
  unfold js_try, js_bind, js_lift. rewrite Hc. simpl. eauto.
Qed.

(** C2, as the code has it. The key of the [EncryptionResult] has the
    length [config.keyLength], or 32 when [keyLength] is absent or zero;
    [encrypt] clamps nothing. The clamp to 16..64 is in the encryption
    form, so a result obtained from a config the form built has a key of
    16 to 64 characters; and for such a config, a supported algorithm and
    a non-blank Latin-1 text [encrypt] does return a result. *)
Theorem encrypt_key_length text config w :
  (forall res w',
     encrypt text config w = (Ok res, w') ->
     len (key res) = requested_key_length config
     /\ (forall st, config = EncryptionForm.config_of_form st ->
           16 <= len (key res) <= 64))
  /\ (forall st,
        config = EncryptionForm.config_of_form st ->
        blank text = false -> latin1 text -> supported (algorithm config) ->
        exists res w', encrypt text config w = (Ok res, w')).
Proof.
  split.
  - intros res w' H. destruct (encrypt_key _ _ _ _ _ H) as [w1 Hk].
    apply generateKey_for_length in Hk. split; [exact Hk|].
    intros st ->. rewrite Hk. apply form_key_length.
  - intros st -> Hb Ht Ha. apply encrypt_returns; try assumption.
    pose proof (form_key_length st). lia.
Qed.

Lemma encrypt_key_length_witness :
  len (key (mkResult (str "aGVsbG8=") (str "AAAAA") (str "base64") 0 None)) = 5.
Proof.
  refine (proj1 (proj1 (encrypt_key_length (str "hello")
                          (mkConfig (str "base64") (Some 5) false)
                          (world_with_bytes []))
                   _ (snd short_key_example) _)).
  vm_compute. reflexivity.
Defined.

(** [encrypt] does not clamp: a [keyLength] of 5 gives a key of 5
    characters. *)
Lemma encrypt_does_not_clamp :
  exists res,
    fst short_key_example = Ok res
    /\ len (key res) = 5
    /\ ~ (16 <= len (key res) <= 64).
Proof.
  eexists. split; [vm_compute; reflexivity|].
  vm_compute. split; [reflexivity|]. intros [H _]. now apply H.
Qed.

(* ------------------------------------------------------------------ *)
(** * Properties of [KeyStorage] *)


Section VaultCodec.

(** The vault's loop is the XOR loop of the cipher engine. *)
Lemma master_loop_xor_loop masterKey data :
  master_loop masterKey data = CryptoString.xor_loop masterKey data.
Proof. reflexivity. Qed.

Lemma js_try_total {A} (m : JS A) (h : Error -> JS A) w :
  (forall e w1, exists a w2, h e w1 = (Ok a, w2)) ->
  exists a w', js_try m h w = (Ok a, w').
Proof.
  intros Hh. unfold js_try. destruct (m w) as [[a|e] w1]; [eauto|apply Hh].
Qed.

(** The fallback of [decryptData]. *)
Lemma decrypt_fallback encryptedData w :
  decryptData_fallback encryptedData w
  = (Ok (match atob encryptedData with Ok d => d | Throw _ => str "[]" end), w).
Proof.
  unfold decryptData_fallback, js_try, js_lift, js_ret.
  now destruct (atob encryptedData).
Qed.

Lemma decryptData_cases encryptedData w :
  match getMasterKey w with
  | (Ok masterKey, w1) =>
      match atob encryptedData with
      | Ok decoded =>
          decryptData encryptedData w = (Ok (master_loop masterKey decoded), w1)
      | Throw _ => decryptData encryptedData w = (Ok (str "[]"), w1)
      end
  | (Throw _, w1) =>
      match atob encryptedData with
      | Ok decoded => decryptData encryptedData w = (Ok decoded, w1)
      | Throw _ => decryptData encryptedData w = (Ok (str "[]"), w1)
      end
  end.
Proof.
  unfold decryptData, js_try, js_bind.
  destruct (getMasterKey w) as [[mk|e] w1].
  - unfold js_lift, js_ret.
    destruct (atob encryptedData) as [d|e] eqn:Ea; [reflexivity|].
    rewrite decrypt_fallback, Ea. reflexivity.
  - rewrite decrypt_fallback. now destruct (atob encryptedData).
Qed.

Lemma decryptData_total encryptedData w :
  exists s w', decryptData encryptedData w = (Ok s, w').
Proof.
  pose proof (decryptData_cases encryptedData w) as H.
  destruct (getMasterKey w) as [[mk|e] w1], (atob encryptedData); eauto.
Qed.

Lemma decryptData_bad_base64 encryptedData w s w' e :
  atob encryptedData = Throw e ->
  decryptData encryptedData w = (Ok s, w') -> s = str "[]".
Proof.
  intros Ha. pose proof (decryptData_cases encryptedData w) as H.
  rewrite Ha in H. destruct (getMasterKey w) as [[mk|e1] w1];
    rewrite H; now intros [= <- _].
Qed.

Lemma decryptData_empty w text w1 :
  decryptData [] w = (Ok text, w1) -> text = [].
Proof.
  pose proof (decryptData_cases [] w) as H.
  change (atob []) with (Ok (@nil Z)) in H.
  destruct (getMasterKey w) as [[mk|e] w2]; rewrite H; now intros [= <- _].
Qed.

End VaultCodec.

Section GetAllKeys.

Lemma getAllKeys_cases w :
  exists keys w',
    getAllKeys w = (Ok keys, w')
    /\ (storage_ok w = false -> keys = [] /\ w' = w)
    /\ (storage_ok w = true ->
        match storage w !! STORAGE_KEY with
        | Some (c :: e) =>
            exists text, decryptData (c :: e) w = (Ok text, w')
                         /\ keys = keys_of_text text
        | _ => keys = [] /\ w' = w
        end).
Proof.
  unfold getAllKeys, js_try, js_bind at 1, localStorage_getItem.
  destruct (storage_ok w) eqn:Eok.
  2:{ eexists _, _. split; [reflexivity|]. split; [auto|discriminate]. }
  destruct (storage w !! STORAGE_KEY) as [[|c e]|] eqn:Eitem.
  1,3: eexists _, _; (split; [reflexivity|]); split; [discriminate|auto].
  destruct (decryptData_total (c :: e) w) as (text & w1 & Hd).
  unfold js_bind at 1. rewrite Hd. unfold js_bind, js_lift, js_ret, keys_of_text.
  destruct (JSON_parse text) as [[]|err] eqn:Ep;
    eexists _, _; (split; [reflexivity|]); (split; [discriminate|]);
    intros _; exists text; rewrite ?Hd, ?Ep; auto.
Qed.

Lemma keys_of_text_shape text :
  Forall (fun k => has_key_shape k = true) (keys_of_text text).
Proof.
  unfold keys_of_text. destruct (JSON_parse text) as [[]|]; try constructor.
  apply Forall_forall. intros k Hk. apply list_elem_of_In, filter_In in Hk.
  tauto.
Qed.

Lemma getAllKeys_shape w keys w' :
  getAllKeys w = (Ok keys, w') -> Forall (fun k => has_key_shape k = true) keys.
Proof.
  intros H. destruct (getAllKeys_cases w) as (keys1 & w1 & H1 & Hbad & Hok).
  rewrite H1 in H. injection H as <- <-.
  destruct (storage_ok w).
  - specialize (Hok eq_refl).
    destruct (storage w !! STORAGE_KEY) as [[|c e]|];
      try (destruct Hok as [-> _]; constructor).
    destruct Hok as (text & _ & ->). apply keys_of_text_shape.
  - destruct (Hbad eq_refl) as [-> _]. constructor.
Qed.

(** What passing the filter means. *)
Lemma has_key_shape_spec k :
  has_key_shape k = true <->
  exists o id name key algorithm,
    k = JObj o
    /\ get_prop o (str "id") = Some (JStr id)
    /\ get_prop o (str "name") = Some (JStr name)
    /\ get_prop o (str "key") = Some (JStr key)
    /\ get_prop o (str "algorithm") = Some (JStr algorithm).
Proof.
  split.
  - destruct k as [| | | | |o]; try discriminate. unfold has_key_shape.
    intros H. repeat (apply andb_true_iff in H as [H ?]).
    unfold is_string in *.
    repeat match goal with
           | H : match ?x with _ => _ end = true |- _ =>
               destruct x as [[]|] eqn:?; try discriminate; clear H
           end.
    eauto 10.
  - intros (o & id & name & key & alg & -> & H1 & H2 & H3 & H4).
    unfold has_key_shape. now rewrite H1, H2, H3, H4.
Qed.

End GetAllKeys.

(* ------------------------------------------------------------------ *)
(** ** [saveKey] *)

Section Frame.

Lemma keeps_ret {A} (a : A) : keeps_payload (js_ret a).
Proof. intros w r w' [= _ <-]. auto. Qed.

Lemma keeps_throw {A} e : keeps_payload (@js_throw A e).
Proof. intros w r w' [= _ <-]. auto. Qed.

Lemma keeps_lift {A} (m : exn A) : keeps_payload (js_lift m).
Proof. intros w r w' [= _ <-]. auto. Qed.

Lemma keeps_bind {A B} (m : JS A) (k : A -> JS B) :
  keeps_payload m -> (forall a, keeps_payload (k a)) ->
  keeps_payload (js_bind m k).
Proof.
  intros Hm Hk w r w'. unfold js_bind.
  destruct (m w) as [[a|e] w1] eqn:E; intros H.
  - destruct (Hm _ _ _ E) as [H1 H2]. destruct (Hk a _ _ _ H) as [H3 H4].
    split; congruence.
  - injection H as _ <-. exact (Hm _ _ _ E).
Qed.

Lemma keeps_try {A} (m : JS A) (h : Error -> JS A) :
  keeps_payload m -> (forall e, keeps_payload (h e)) ->
  keeps_payload (js_try m h).
Proof.
  intros Hm Hh w r w'. unfold js_try.
  destruct (m w) as [[a|e] w1] eqn:E; intros H.
  - injection H as _ <-. exact (Hm _ _ _ E).
  - destruct (Hm _ _ _ E) as [H1 H2]. destruct (Hh e _ _ _ H) as [H3 H4].
    split; congruence.
Qed.

Lemma keeps_Date_now : keeps_payload Date_now.
Proof. intros w r w' [= _ <-]. auto. Qed.

Lemma keeps_random n : keeps_payload (random_Uint8Array n).
Proof.
  intros w r w'. unfold random_Uint8Array.
  destruct (n <? 0); [intros [= _ <-]; auto|].
  destruct (65536 <? n); intros [= _ <-]; auto.
Qed.

Lemma keeps_getItem k : keeps_payload (localStorage_getItem k).
Proof.
  intros w r w'. unfold localStorage_getItem.
  destruct (storage_ok w) eqn:E; intros [= _ <-]; auto.
Qed.

Lemma keeps_set_master v : keeps_payload (localStorage_setItem ENCRYPTION_KEY v).
Proof.
  intros w r w'. unfold localStorage_setItem.
  destruct (storage_ok w) eqn:E; intros [= _ <-]; [|auto]. simpl.
  split; [|reflexivity]. now apply lookup_insert_ne.
Qed.

Lemma keeps_getMasterKey : keeps_payload getMasterKey.
Proof.
  unfold getMasterKey. apply keeps_bind; [apply keeps_getItem|].
  assert (keeps_payload
            (js_bind generateMasterKey (fun masterKey =>
               js_bind (localStorage_setItem ENCRYPTION_KEY masterKey)
                       (fun _ => js_ret masterKey)))) as Hgen.
  { apply keeps_bind.
    - unfold generateMasterKey. apply keeps_bind; [apply keeps_random|].
      intros a. apply keeps_ret.
    - intros mk. apply keeps_bind; [apply keeps_set_master|].
      intros _. apply keeps_ret. }
  intros [[|c k]|]; [exact Hgen|apply keeps_ret|exact Hgen].
Qed.

Lemma keeps_encryptData data : keeps_payload (encryptData data).
Proof.
  unfold encryptData. apply keeps_try.
  - apply keeps_bind; [apply keeps_getMasterKey|]. intros mk. apply keeps_lift.
  - intros _. apply keeps_lift.
Qed.

Lemma keeps_decryptData data : keeps_payload (decryptData data).
Proof.
  unfold decryptData. apply keeps_try.
  - apply keeps_bind; [apply keeps_getMasterKey|]. intros mk.
    apply keeps_bind; [apply keeps_lift|]. intros d. apply keeps_ret.
  - intros _. unfold decryptData_fallback.
    apply keeps_try; [apply keeps_lift|]. intros _. apply keeps_ret.
Qed.

Lemma keeps_getAllKeys : keeps_payload getAllKeys.
Proof.
  unfold getAllKeys. apply keeps_try; [|intros _; apply keeps_ret].
  apply keeps_bind; [apply keeps_getItem|].
  intros [[|c e]|]; try apply keeps_ret.
  apply keeps_bind; [apply keeps_decryptData|]. intros text.
  apply keeps_bind; [apply keeps_lift|].
  intros []; apply keeps_ret.
Qed.

Lemma keeps_or_now v : keeps_payload (or_now v).
Proof.
  unfold or_now. destruct v as [x|].
  - destruct (truthy (Some x)); [apply keeps_ret|].
    apply keeps_bind; [apply keeps_Date_now|]. intros ?. apply keeps_ret.
  - apply keeps_bind; [apply keeps_Date_now|]. intros ?. apply keeps_ret.
Qed.

Lemma keeps_upsert key keys : keeps_payload (upsert key keys).
Proof.
  unfold upsert. destruct (findIndex _ keys).
  - apply keeps_bind; [apply keeps_Date_now|]. intros ?. apply keeps_ret.
  - apply keeps_bind; [apply keeps_or_now|]. intros c.
    apply keeps_bind; [apply keeps_or_now|]. intros u. apply keeps_ret.
Qed.

End Frame.

Section Upsert.

Lemma findIndex_Some p keys i :
  findIndex p keys = Some i ->
  (exists k, keys !! i = Some k /\ p k = true)
  /\ (forall j k, (j < i)%nat -> keys !! j = Some k -> p k = false).
Proof.
  revert i. induction keys as [|k keys IH]; intros i; [discriminate|].
  simpl. destruct (p k) eqn:Ep.
  - intros [= <-]. split; [eauto|]. intros j k' Hj. lia.
  - destruct (findIndex p keys) as [i'|]; [|discriminate].
    intros [= <-]. destruct (IH i' eq_refl) as [Hex Hbefore].
    split; [exact Hex|]. intros [|j] k' Hj; simpl.
    + now intros [= <-].
    + apply Hbefore. lia.
Qed.

Lemma findIndex_None p keys :
  findIndex p keys = None -> Forall (fun k => p k = false) keys.
Proof.
  induction keys as [|k keys IH]; [constructor|].
  simpl. destruct (p k) eqn:Ep; [discriminate|].
  destruct (findIndex p keys); [discriminate|].
  intros _. apply Forall_cons_2; auto.
Qed.

Lemma or_now_spec v w :
  exists w', or_now v w = (Ok (or_else v (clock w 0%nat)), w')
             /\ clock w' 0%nat = clock w (if truthy v then 0 else 1)%nat.
Proof.
  unfold or_now, or_else. destruct v as [x|].
  - destruct (truthy (Some x)); eexists; split; reflexivity.
  - eexists. split; reflexivity.
Qed.

Lemma upsert_spec key keys w :
  exists keys' w',
    upsert key keys w = (Ok keys', w')
    /\ match findIndex (id_is (get_prop key (str "id"))) keys with
       | Some i =>
           keys' = <[i := replacement key (clock w 0%nat)]> keys
           /\ length keys' = length keys
           /\ keys' !! i = Some (replacement key (clock w 0%nat))
           /\ (exists old, keys !! i = Some old
                           /\ id_is (get_prop key (str "id")) old = true)
           /\ (forall j, j <> i -> keys' !! j = keys !! j)
       | None =>
           Forall (fun k => id_is (get_prop key (str "id")) k = false) keys
           /\ keys' = keys ++
                [appended key (clock w 0%nat)
                   (clock w (if truthy (get_prop key (str "created"))
                             then 0 else 1)%nat)]
       end.
Proof.
  unfold upsert.
  destruct (findIndex (id_is (get_prop key (str "id"))) keys) as [i|] eqn:Ef.
  - eexists _, _. split; [reflexivity|].
    destruct (findIndex_Some _ _ _ Ef) as [(old & Hold & Hp) _].
    assert (i < length keys)%nat as Hi by (eapply lookup_lt_Some; eauto).
    split; [reflexivity|]. split; [apply length_insert|].
    split; [now apply list_lookup_insert_eq|].
    split; [eauto|]. intros j Hj. now apply list_lookup_insert_ne.
  - destruct (or_now_spec (get_prop key (str "created")) w) as (w1 & H1 & Hc1).
    destruct (or_now_spec (get_prop key (str "used")) w1) as (w2 & H2 & _).
    unfold js_bind. rewrite H1, H2. eexists _, _. split; [reflexivity|].
    split; [now apply findIndex_None|]. unfold appended. now rewrite Hc1.
Qed.

End Upsert.

(** [saveKey] step by step. It never throws. It returns [false]
    and touches nothing when [id], [name], [key] or [algorithm] is missing.
    Otherwise it reads the stored list and upserts by [id]: when an entry
    with that id exists, the first such entry is replaced by the record
    with [used] set to the current time, and the list keeps its length;
    when none exists, the record is appended with [created] and [used]
    defaulting to the current time. It then encodes the whole list with
    the vault codec and writes it to the store; it returns [true] exactly
    when the encoding and the write succeed, and otherwise returns [false]
    and leaves the persisted payload as it was. *)
Lemma saveKey_upsert (key : JsObject) (w : World) :
  exists b w',
    saveKey key w = (Ok b, w')
    /\ (missing_field key = true -> b = false /\ w' = w)
    /\ (missing_field key = false ->
        exists keys w1 keys' w2,
          getAllKeys w = (Ok keys, w1)
          /\ upsert key keys w1 = (Ok keys', w2)
          /\ match findIndex (id_is (get_prop key (str "id"))) keys with
             | Some i =>
                 keys' = <[i := replacement key (clock w1 0%nat)]> keys
                 /\ length keys' = length keys
                 /\ (exists old, keys !! i = Some old
                       /\ id_is (get_prop key (str "id")) old = true)
                 /\ (forall j, j <> i -> keys' !! j = keys !! j)
             | None =>
                 Forall (fun k => id_is (get_prop key (str "id")) k = false) keys
                 /\ keys' = keys ++
                      [appended key (clock w1 0%nat)
                         (clock w1 (if truthy (get_prop key (str "created"))
                                    then 0 else 1)%nat)]
             end
          /\ match encryptData (JSON_stringify (JArr keys')) w2 with
             | (Ok encrypted, w3) =>
                 if storage_ok w3
                 then b = true
                      /\ storage w' = <[STORAGE_KEY := encrypted]> (storage w3)
                 else b = false /\ w' = w3
             | (Throw _, w3) => b = false /\ w' = w3
             end
          /\ (b = false ->
              storage w' !! STORAGE_KEY = storage w !! STORAGE_KEY)).
Proof.
  unfold saveKey, js_try.
  destruct (missing_field key) eqn:Em.
  { eexists _, _. split; [reflexivity|]. split; [auto|discriminate]. }
  destruct (getAllKeys_cases w) as (keys & w1 & Hk & _).
  destruct (upsert_spec key keys w1) as (keys' & w2 & Hu & Hspec).
  pose proof (keeps_getAllKeys _ _ _ Hk) as [Hf1 _].
  pose proof (keeps_upsert _ _ _ _ _ Hu) as [Hf2 _].
  unfold js_bind at 1. rewrite Hk. unfold js_bind at 1. rewrite Hu.
  unfold js_bind at 1.
  destruct (encryptData (JSON_stringify (JArr keys')) w2) as [[enc|e] w3] eqn:Ee.
  - pose proof (keeps_encryptData _ _ _ _ Ee) as [Hf3 _].
    unfold js_bind, localStorage_setItem, js_ret.
    destruct (storage_ok w3) eqn:Eok.
    + eexists _, _. split; [reflexivity|]. split; [discriminate|].
      intros _. exists keys, w1, keys', w2.
      split; [first [reflexivity|exact Hk]|]. split; [first [reflexivity|exact Hu]|].
      split; [destruct (findIndex _ keys); tauto|].
      rewrite Ee, Eok. split; [split; reflexivity|discriminate].
    + eexists _, _. split; [reflexivity|]. split; [discriminate|].
      intros _. exists keys, w1, keys', w2.
      split; [first [reflexivity|exact Hk]|]. split; [first [reflexivity|exact Hu]|].
      split; [destruct (findIndex _ keys); tauto|].
      rewrite Ee, Eok. split; [split; reflexivity|]. intros _. congruence.
  - pose proof (keeps_encryptData _ _ _ _ Ee) as [Hf3 _].
    eexists _, _. split; [reflexivity|]. split; [discriminate|].
    intros _. exists keys, w1, keys', w2.
    split; [first [reflexivity|exact Hk]|]. split; [first [reflexivity|exact Hu]|].
    split; [destruct (findIndex _ keys); tauto|].
    rewrite Ee. split; [split; reflexivity|]. intros _. congruence.
Qed.

(** Saving into an empty vault and reading back; saving again under the
    same id leaves one entry. *)
Lemma saveKey_then_getAllKeys :
  fst (saveKey example_key (fresh_world [])) = Ok true
  /\ fst (getAllKeys (snd (saveKey example_key (fresh_world []))))
     = Ok [appended example_key 1700000000000 1700000000001]
  /\ fst (getAllKeys (snd (saveKey example_key
                              (snd (saveKey example_key (fresh_world []))))))
     = Ok [replacement example_key 1700000000002].
Proof. vm_compute. repeat split; reflexivity. Qed.

(** C6 at a failing input. The record with [id] "1", [key] "s3cret",
    [algorithm] "aes" and the euro sign (unit 8364) for [name] has all four
    fields, and the store is accessible and empty. [saveKey] returns
    [false] and persists nothing: no payload is written and [getAllKeys]
    still returns the empty list. The list to persist has been built, but
    [encryptData] throws on its JSON text: the unit 8364 of the name stays
    above 255 under the XOR with the master key, so [btoa] rejects the
    result, and the fallback [btoa(data)] of the [catch] rejects the text
    for the same unit. With an entry of id "1" already stored, the record
    does not replace it either. The record that differs in its name alone,
    "work", is saved and read back on the same store. *)
Theorem saveKey_fails_outside_latin1 :
  let key := stored_key (str "1") [8364] (str "s3cret") (str "aes") in
  let w := fresh_world [] in
  let record := appended key 1700000000000 1700000000001 in
  let stored := appended example_key 1700000000000 1700000000001 in
  let w1 := snd (saveKey example_key w) in
  missing_field key = false
  /\ storage_ok w = true
  /\ fst (getAllKeys w) = Ok []
  /\ fst (upsert key [] w) = Ok [record]
  /\ fst (encryptData (JSON_stringify (JArr [record])) w)
     = Throw InvalidCharacterError
  /\ btoa (JSON_stringify (JArr [record])) = Throw InvalidCharacterError
  /\ fst (saveKey key w) = Ok false
  /\ storage (snd (saveKey key w)) !! STORAGE_KEY = None
  /\ fst (getAllKeys (snd (saveKey key w))) = Ok []
  /\ fst (saveKey example_key w) = Ok true
  /\ fst (getAllKeys w1) = Ok [stored]
  /\ fst (saveKey key w1) = Ok false
  /\ fst (getAllKeys (snd (saveKey key w1))) = Ok [stored].
Proof. vm_compute. repeat split; reflexivity. Qed.

(* ------------------------------------------------------------------ *)
(** ** [importKeys] *)

Section ImportKeys.

Lemma saveKey_returns key w : exists b w', saveKey key w = (Ok b, w').
Proof.
  unfold saveKey. apply js_try_total. intros e w1. unfold js_ret. eauto.
Qed.

Lemma name_or_unknown_returns key :
  printable_name key -> exists name, name_or_unknown key = Ok name.
Proof.
  intros [Hk _]. unfold name_or_unknown, get_member.
  destruct key; try congruence; simpl; eauto.
Qed.

(** One element with a printable name either counts as imported or adds
    exactly one error message; the loop goes on in both cases. *)
Lemma import_one_returns key imported errors w :
  printable_name key ->
  exists imported' errors' w',
    import_one key imported errors w = (Ok (imported', errors'), w')
    /\ ((imported' = imported + 1 /\ errors' = errors
         /\ validateKeyStructure key = true)
        \/ (imported' = imported /\ exists msg, errors' = errors ++ [msg])).
Proof.
  intros Hk. destruct (name_or_unknown_returns key Hk) as [name Hn].
  unfold import_one. destruct (validateKeyStructure key) eqn:Ev.
  - unfold js_bind at 1. unfold Date_now at 1.
    unfold js_bind at 1. unfold Math_random_suffix at 1.
    unfold js_bind at 1.
    match goal with |- context [saveKey ?k ?w0] =>
      destruct (saveKey_returns k w0) as (b & w1 & ->) end.
    destruct b.
    + eexists _, _, _. split; [reflexivity|]. left. auto.
    + unfold js_bind, js_lift, js_ret. rewrite Hn.
      eexists _, _, _. split; [reflexivity|]. right. eauto.
  - unfold js_bind, js_lift, js_ret. rewrite Hn.
    eexists _, _, _. split; [reflexivity|]. right. eauto.
Qed.

Lemma import_loop_returns keys :
  Forall printable_name keys ->
  forall imported errors w,
  exists imported' errors' w',
    import_loop keys imported errors w = ((None, imported', errors'), w')
    /\ imported <= imported'
    /\ (imported' - imported)
       + (Z.of_nat (length errors') - Z.of_nat (length errors))
       = Z.of_nat (length keys).
Proof.
  induction 1 as [|key keys Hk _ IH]; intros imported errors w.
  - eexists _, _, _. split; [reflexivity|]. simpl. lia.
  - destruct (import_one_returns key imported errors w Hk)
      as (i1 & e1 & w1 & H1 & Hcases).
    destruct (IH i1 e1 w1) as (i2 & e2 & w2 & H2 & Hle & Hcount).
    exists i2, e2, w2. simpl. rewrite H1. split; [exact H2|].
    destruct Hcases as [(-> & -> & _)|(-> & msg & ->)].
    + simpl length. lia.
    + rewrite length_app in Hcount. simpl length in *. lia.
Qed.

(** Without a [null] element, and with strings for the names there are,
    the batch is never aborted: every element is either imported or
    reported by one message, and [success] is [imported > 0]. *)
Lemma importKeys_without_null keysData keys w :
  JSON_parse keysData = Ok (JArr keys) ->
  Forall printable_name keys ->
  exists r w',
    importKeys keysData w = (Ok r, w')
    /\ imp_success r = (0 <? imported r)
    /\ 0 <= imported r
    /\ imported r + Z.of_nat (length (errors r)) = Z.of_nat (length keys).
Proof.
  intros Hp Hn. unfold importKeys. rewrite Hp.
  destruct (import_loop_returns keys Hn 0 [] w) as (i & e & w' & -> & Hle & Hc).
  eexists _, _. split; [reflexivity|]. simpl in *. repeat split; lia.
Qed.

Lemma get_prop_set_prop_ne o k v k' :
  k <> k' -> get_prop (set_prop o k v) k' = get_prop o k'.
Proof.
  intros Hne. induction o as [|[k0 v0] o IH]; simpl.
  - now rewrite jsstring_eqb_false.
  - destruct (jsstring_eqb k0 k) eqn:E; simpl; [|now rewrite IH].
    apply bool_decide_eq_true in E. subst k0.
    now rewrite jsstring_eqb_false.
Qed.

Lemma set_prop_set_prop o k v1 v2 :
  set_prop (set_prop o k v1) k v2 = set_prop o k v2.
Proof.
  induction o as [|[k0 v0] o IH]; simpl.
  - unfold jsstring_eqb. now rewrite bool_decide_eq_true_2.
  - destruct (jsstring_eqb k0 k) eqn:E; simpl; rewrite E; [reflexivity|].
    now rewrite IH.
Qed.

(** The id an imported element carries plays no part: the record is
    saved under the generated id whatever the element's own id is. *)
Lemma import_one_ignores_id o v imported errors w :
  import_one (JObj (set_prop o (str "id") v)) imported errors w
  = import_one (JObj o) imported errors w.
Proof.
  unfold import_one, validateKeyStructure, name_or_unknown, get_member, spread.
  rewrite !get_prop_set_prop_ne by discriminate.
  match goal with |- (if ?c then _ else _) _ = _ => destruct c end;
    [|reflexivity].
  unfold js_bind at 1. unfold Date_now at 1.
  unfold js_bind at 1. unfold Math_random_suffix at 1.
  now rewrite set_prop_set_prop.
Qed.

End ImportKeys.

(** The example of the specification: two valid records and one without
    [key] give [{success: true, imported: 2}] with one message. *)
Lemma importKeys_two_valid_one_invalid :
  fst (importKeys
         (json_text "[{'name':'a','key':'k1','algorithm':'aes'},{'name':'c','algorithm':'aes'},{'name':'b','key':'k2','algorithm':'xor'}]")
         (fresh_world []))
  = Ok (mkImport true 2 [str "Invalid key structure: c"]).
Proof. vm_compute. reflexivity. Qed.

(** C7 at a failing input. The batch holds a valid record, [null] and
    another valid record. The first record is saved; for [null] the error
    message reads [key.name], which throws; the exception leaves the loop,
    so the third record is never looked at, and the result reports
    [success: false], [imported: 0] and the single error "Parse error: ..."
    although one record was stored. *)
Theorem importKeys_null_aborts_batch :
  JSON_parse import_with_null
  = Ok (JArr [JObj [(str "name", JStr (str "a")); (str "key", JStr (str "k1"));
                    (str "algorithm", JStr (str "aes"))];
              JNull;
              JObj [(str "name", JStr (str "b")); (str "key", JStr (str "k2"));
                    (str "algorithm", JStr (str "xor"))]])
  /\ fst (importKeys import_with_null (fresh_world []))
     = Ok (mkImport false 0
             [str "Parse error: Cannot read properties of null (reading 'name')"])
  /\ fst (getAllKeys (snd (importKeys import_with_null (fresh_world []))))
     = Ok [JObj [(str "name", JStr (str "a")); (str "key", JStr (str "k1"));
                 (str "algorithm", JStr (str "aes"));
                 (str "id", JStr (str "1700000000000ra"));
                 (str "created", JNum 1700000000001 0);
                 (str "used", JNum 1700000000002 0)]].
Proof. vm_compute. repeat split; reflexivity. Qed.

(* ------------------------------------------------------------------ *)
(** * Further properties of [CryptoString] *)

Section Caesar.

Lemma fmap_id_iff (f : Z -> Z) (l : list Z) :
  f <$> l = l <-> Forall (fun c => f c = c) l.
Proof.
  induction l as [|c l IH].
  - split; [constructor|reflexivity].
  - rewrite fmap_cons. split.
    + intros [= Hc Hl]. apply Forall_cons_2; [exact Hc|now apply IH].
    + intros H. apply Forall_cons in H as [Hc Hl].
      f_equal; [exact Hc|now apply IH].
Qed.

Lemma caesar_char_add s1 s2 c :
  0 <= s1 -> 0 <= s2 ->
  caesar_char (Some s2) (caesar_char (Some s1) c) = caesar_char (Some (s1 + s2)) c.
Proof.
  intros H1 H2. unfold caesar_char, fromCharCode.
  repeat case_match; try lia; dlia.
Qed.

Lemma caesar_char_round_trip s c :
  0 <= s ->
  caesar_char (Some (- s)) (caesar_char (Some s) c) = c <-> survives_caesar s c.
Proof.
  intros Hs. unfold survives_caesar, caesar_class, caesar_char, fromCharCode.
  repeat case_match; simplify_eq; split; intros; try tauto; try lia; dlia.
Qed.

Lemma script_caesar_char_inverts s c :
  0 <= s <= 26 -> (is_caesar_digit c = true -> s <= 10) ->
  DecryptionCode.caesar_char (Some s) (caesar_char (Some s) c) = c.
Proof.
  intros Hs Hd. unfold DecryptionCode.caesar_char, caesar_char, fromCharCode.
  unfold is_caesar_digit in Hd.
  repeat case_match; try lia; dlia.
Qed.

Lemma key_shift_range key : -25 <= key_shift key <= 25 /\ key_shift key <> 0.
Proof.
  unfold key_shift. destruct (parseInt36 (slice02 key)) as [n|]; [|lia].
  destruct (Z.eqb_spec (Z.rem n 26) 0); [lia|]. dlia.
Qed.

Lemma caesar_char_moves_letters s c :
  -25 <= s <= 25 -> s <> 0 ->
  (65 <= c <= 90 \/ 97 <= c <= 122) ->
  caesar_char (Some s) c <> c.
Proof.
  intros Hs Hne Hc. unfold caesar_char, fromCharCode.
  repeat case_match; try lia; dlia.
Qed.

Lemma caesar_text_round_trip text shift :
  0 <= shift ->
  caesarDecrypt (caesarEncrypt text (Some shift)) (Some shift) = text
  <-> Forall (survives_caesar shift) text.
Proof.
  intros Hs. unfold caesarDecrypt, caesarEncrypt.
  rewrite <- list_fmap_compose, fmap_id_iff.
  split; intros H; eapply Forall_impl; try exact H;
    intros c Hc; simpl in *; now apply caesar_char_round_trip.
Qed.

End Caesar.

(** X1. Caesar shifts add up: for shifts that are not negative,
    encrypting with [s1] and then with [s2] is encrypting with [s1 + s2],
    on every text. *)
Theorem caesarEncrypt_additive (text : jsstring) (s1 s2 : Z) :
  0 <= s1 -> 0 <= s2 ->
  caesarEncrypt (caesarEncrypt text (Some s1)) (Some s2)
  = caesarEncrypt text (Some (s1 + s2)).
Proof.
  intros H1 H2. unfold caesarEncrypt. rewrite <- list_fmap_compose.
  apply list_fmap_ext. intros i c _. simpl. now apply caesar_char_add.
Qed.

Lemma caesarEncrypt_additive_witness :
  caesarEncrypt (caesarEncrypt (str "Zebra 97") (Some 20)) (Some 9)
  = caesarEncrypt (str "Zebra 97") (Some 29).
Proof. apply (caesarEncrypt_additive (str "Zebra 97") 20 9); lia. Defined.

(** X2. [caesarDecrypt] undoes [caesarEncrypt] with the same shift (not
    negative) exactly on the texts in which every letter or digit either
    stays inside its class under the shift or is the first of its class
    (A, a, 0); any other letter or digit comes back wrong. *)
Theorem caesar_round_trip_iff (text : jsstring) (shift : Z) :
  0 <= shift ->
  caesarDecrypt (caesarEncrypt text (Some shift)) (Some shift) = text
  <-> Forall (survives_caesar shift) text.
Proof. apply caesar_text_round_trip. Qed.

Lemma caesar_round_trip_iff_witness :
  caesarDecrypt (caesarEncrypt (str "Hello, A0!") (Some 13)) (Some 13)
  <> str "Hello, A0!"
  /\ caesarDecrypt (caesarEncrypt (str "Hell, A0!") (Some 13)) (Some 13)
     = str "Hell, A0!".
Proof.
  split.
  - intros H. apply (caesar_round_trip_iff (str "Hello, A0!") 13) in H; [|lia].
    apply Forall_lookup_1 with (i := 4%nat) (x := 111) in H; [|reflexivity].
    unfold survives_caesar in H. simpl in H. lia.
  - apply (caesar_round_trip_iff (str "Hell, A0!") 13); [lia|].
    apply Forall_forall. intros c Hc. unfold survives_caesar, caesar_class.
    vm_compute in Hc. apply list_elem_of_In in Hc. simpl in Hc.
    repeat (destruct Hc as [<-|Hc]; [simpl; lia|]). destruct Hc.
Defined.

(** X3. The [caesarDecrypt] of the generated script undoes
    [caesarEncrypt] for every shift from 0 to 26 on every text without
    digits, and for every shift from 0 to 10 on every text; it is the
    digits that a larger shift can bring back wrong. *)
Theorem script_caesarDecrypt_inverts (text : jsstring) (shift : Z) :
  0 <= shift <= 26 ->
  Forall (fun c => is_caesar_digit c = true -> shift <= 10) text ->
  DecryptionCode.caesarDecrypt (caesarEncrypt text (Some shift)) (Some shift)
  = text.
Proof.
  intros Hs Hd. unfold DecryptionCode.caesarDecrypt, caesarEncrypt.
  rewrite <- list_fmap_compose, fmap_id_iff.
  eapply Forall_impl; [exact Hd|]. intros c Hc. simpl.
  now apply script_caesar_char_inverts.
Qed.

Lemma script_caesarDecrypt_inverts_witness :
  DecryptionCode.caesarDecrypt (caesarEncrypt (str "Hello, World") (Some 13))
                               (Some 13)
  = str "Hello, World"
  /\ DecryptionCode.caesarDecrypt (caesarEncrypt (str "1") (Some 25)) (Some 25)
     <> str "1".
Proof.
  split.
  - apply (script_caesarDecrypt_inverts (str "Hello, World") 13); [lia|].
    apply Forall_forall. intros c Hc Hdigit. exfalso.
    apply list_elem_of_In in Hc. vm_compute in Hc.
    repeat (destruct Hc as [<-|Hc]; [discriminate Hdigit|]). destruct Hc.
  - vm_compute. discriminate.
Defined.

(** X4. The shift derived from a key, [parseInt(key.slice(0, 2), 36) % 26
    || 13], is never 0 and lies between -25 and 25, whatever the key; so
    the caesar encryption of the top-level API never leaves a letter where
    it was. *)
Theorem key_shift_never_identity (key : jsstring) (c : Z) :
  -25 <= key_shift key <= 25
  /\ key_shift key <> 0
  /\ ((65 <= c <= 90 \/ 97 <= c <= 122) ->
      caesar_char (Some (key_shift key)) c <> c).
Proof.
  destruct (key_shift_range key) as [Hr Hne].
  split; [exact Hr|]. split; [exact Hne|].
  intros Hc. now apply caesar_char_moves_letters.
Qed.

(* ------------------------------------------------------------------ *)
(** ** What the XOR ciphers accept, and what a wrong key does *)

Section XorDomain.

Lemma lxor_high_bits c k : 0 <= k < 256 -> Z.lxor c k / 256 = c / 256.
Proof.
  intros Hk. change 256 with (2 ^ 8).
  rewrite <- !Z.shiftr_div_pow2 by lia. rewrite Z.shiftr_lxor.
  rewrite (Z.shiftr_div_pow2 k) by lia. rewrite (Z.div_small k) by (simpl; lia).
  apply Z.lxor_0_r.
Qed.

Lemma lxor_inj_l a b c : Z.lxor a c = Z.lxor b c -> a = b.
Proof.
  intros H. apply (f_equal (fun x => Z.lxor x c)) in H.
  now rewrite !Z.lxor_assoc, !Z.lxor_nilpotent, !Z.lxor_0_r in H.
Qed.

Lemma lxor_inj_r a b c : Z.lxor c a = Z.lxor c b -> a = b.
Proof. rewrite !(Z.lxor_comm c). apply lxor_inj_l. Qed.

Lemma mapi_lookup f i0 (l : jsstring) (p : nat) :
  mapi f i0 l !! p = f (i0 + Z.of_nat p) <$> l !! p.
Proof.
  revert i0 p. induction l as [|c l IH]; intros i0 [|p]; simpl; try reflexivity.
  - now rewrite Z.add_0_r.
  - rewrite IH. do 2 f_equal. lia.
Qed.

Lemma mapi_length f i0 (l : jsstring) : length (mapi f i0 l) = length l.
Proof. revert i0. induction l as [|c l IH]; intros i0; simpl; [|rewrite IH]; reflexivity. Qed.

(** With a Latin-1 key stream, the loop keeps a unit above 255 above 255. *)
Lemma xor_loop_from_latin1_inv key text :
  latin1 key -> wf_string text ->
  forall i, 0 <= i -> latin1 (mapi (xor_body key) i text) -> latin1 text.
Proof.
  intros Hk. induction 1 as [|c text Hc _ IH]; intros i Hi Hl; [constructor|].
  simpl in Hl. apply Forall_cons in Hl as [Hx Hl].
  apply Forall_cons_2; [|apply (IH (i + 1)); [lia|exact Hl]].
  destruct (xor_step key (latin1_wf _ Hk) i c Hi Hc) as [E _].
  rewrite E in Hx. pose proof (key_unit_latin1 key Hk i) as Hu.
  unfold latin1_unit, code_unit in *.
  pose proof (Z.mod_pos_bound i 256 ltac:(lia)) as Hj.
  pose proof (lxor_high_bits (Z.lxor c (key_unit key i)) (i mod 256) ltac:(lia)) as H1.
  pose proof (lxor_high_bits c (key_unit key i) ltac:(lia)) as H2.
  rewrite H2 in H1.
  assert (Z.lxor (Z.lxor c (key_unit key i)) (i mod 256) / 256 = 0) as H0
    by (apply Z.div_small; lia).
  rewrite H0 in H1. dlia.
Qed.

Lemma stream_encrypt_iff key text :
  latin1 key -> wf_string text ->
  ((exists c, btoa (xor_loop key text) = Ok c) <-> latin1 text)
  /\ (~ latin1 text -> btoa (xor_loop key text) = Throw InvalidCharacterError).
Proof.
  intros Hk Ht.
  assert (forall c, btoa (xor_loop key text) = Ok c -> latin1 text) as Hinv.
  { intros c Hc. apply btoa_ok_latin1 in Hc as [Hl _].
    exact (xor_loop_from_latin1_inv key text Hk Ht 0 ltac:(lia) Hl). }
  split; [split|].
  - intros [c Hc]. exact (Hinv c Hc).
  - intros Hl. destruct (stream_round_trip key Hk text Hl) as (c & Hc & _). eauto.
  - intros Hn. destruct (btoa (xor_loop key text)) as [c|e] eqn:E.
    + destruct (Hn (Hinv c eq_refl)).
    + unfold btoa in E. destruct (forallb _ _); [discriminate|].
      now injection E as <-.
Qed.

(** What [atob] returns is a string of bytes. *)
Lemma b64_decode_latin1 d :
  Forall (fun c => 0 <= b64_index c < 64) d -> latin1 (b64_decode d).
Proof.
  assert (forall n (d : list Z), (length d < n)%nat ->
            Forall (fun c => 0 <= b64_index c < 64) d -> latin1 (b64_decode d))
    as Hn.
  { induction n as [|n IH]; intros d' Hlen Hd; [lia|].
    destruct d' as [|c0 [|c1 [|c2 [|c3 r]]]].
    - apply Forall_nil_2.
    - apply Forall_nil_2.
    - apply Forall_cons in Hd as [H0 Hd]. apply Forall_cons in Hd as [H1 _].
      simpl. repeat apply Forall_cons_2; try apply Forall_nil_2.
      unfold latin1_unit. dlia.
    - apply Forall_cons in Hd as [H0 Hd]. apply Forall_cons in Hd as [H1 Hd].
      apply Forall_cons in Hd as [H2 _].
      simpl. repeat apply Forall_cons_2; try apply Forall_nil_2;
        unfold latin1_unit; dlia.
    - apply Forall_cons in Hd as [H0 Hd]. apply Forall_cons in Hd as [H1 Hd].
      apply Forall_cons in Hd as [H2 Hd]. apply Forall_cons in Hd as [H3 Hd].
      change (b64_decode (c0 :: c1 :: c2 :: c3 :: r)) with
        (let n := ((b64_index c0 * 64 + b64_index c1) * 64 + b64_index c2) * 64
                  + b64_index c3 in
         n / 65536 :: n / 256 mod 256 :: n mod 256 :: b64_decode r).
      cbv zeta. repeat apply Forall_cons_2;
        [unfold latin1_unit; dlia..|].
      apply IH; [simpl in Hlen; lia|exact Hd]. }
  intros Hd. apply (Hn (S (length d))); [lia|exact Hd].
Qed.

Lemma atob_latin1 s d : atob s = Ok d -> latin1 d.
Proof.
  unfold atob.
  set (f := filter _ s). set (d0 := if (length f mod 4 =? 0)%nat then _ else _).
  destruct (length d0 mod 4 =? 1)%nat; [discriminate|].
  destruct (forallb is_b64_char d0) eqn:E; [|discriminate].
  intros [= <-]. apply b64_decode_latin1.
  rewrite forallb_forall in E. apply Forall_forall. intros c Hc.
  apply list_elem_of_In in Hc. specialize (E c Hc).
  destruct (b64_index_range c) as [H|H]; [exact H|congruence].
Qed.

End XorDomain.

(** X5. With a Latin-1 key (every generated key is one), [xorEncrypt]
    returns a ciphertext exactly for the texts that are Latin-1, and throws
    [btoa]'s InvalidCharacterError for every other text; [aesEncrypt] does
    the same for every Latin-1 optional salt. *)
Theorem xor_aes_encrypt_domain (key text : jsstring) :
  latin1 key -> wf_string text -> len key <= max_string_length ->
  ((exists c, xorEncrypt text key = Ok c) <-> latin1 text)
  /\ (~ latin1 text -> xorEncrypt text key = Throw InvalidCharacterError)
  /\ (forall salt, salt_latin1 salt ->
        ((exists c, aesEncrypt text key salt = Ok c) <-> latin1 text)
        /\ (~ latin1 text ->
            aesEncrypt text key salt = Throw InvalidCharacterError)).
Proof.
  intros Hk Ht Hlen.
  destruct (stream_encrypt_iff key text Hk Ht) as [H1 H2].
  split; [exact H1|]. split; [exact H2|].
  intros salt Hs. unfold aesEncrypt.
  exact (stream_encrypt_iff _ text (derived_key_latin1 key salt Hk Hs Hlen) Ht).
Qed.

Lemma xor_aes_encrypt_domain_witness :
  (exists c, xorEncrypt (str "hello") (str "Key#1") = Ok c)
  /\ xorEncrypt [8364] (str "Key#1") = Throw InvalidCharacterError.
Proof.
  destruct (xor_aes_encrypt_domain (str "Key#1") (str "hello")) as (H1 & _).
  - apply latin1b_true. vm_compute. reflexivity.
  - apply wf_stringb_true. vm_compute. reflexivity.
  - vm_compute. discriminate.
  - split.
    + apply H1. apply latin1b_true. vm_compute. reflexivity.
    + vm_compute. reflexivity.
Defined.

(** X6. A wrong key goes unnoticed by [xorDecrypt]: for every ciphertext
    [atob] accepts, decryption under any two keys returns a text, and the
    two texts differ at every position where the keys' characters for that
    position differ. *)
Theorem xorDecrypt_wrong_key (cipher decoded key1 key2 : jsstring)
  (p : nat) (a b : Z) :
  atob cipher = Ok decoded ->
  wf_string key1 -> wf_string key2 -> key1 <> [] -> key2 <> [] ->
  (p < length decoded)%nat ->
  key1 !! (p mod length key1)%nat = Some a ->
  key2 !! (p mod length key2)%nat = Some b ->
  a <> b ->
  exists r1 r2,
    xorDecrypt cipher key1 = Ok r1 /\ xorDecrypt cipher key2 = Ok r2
    /\ length r1 = length decoded /\ length r2 = length decoded
    /\ r1 !! p <> r2 !! p.
Proof.
  intros Ha Hk1 Hk2 Hn1 Hn2 Hp Hka Hkb Hab.
  unfold xorDecrypt. rewrite Ha. cbn [exn_bind try_catch].
  eexists _, _. split; [reflexivity|]. split; [reflexivity|].
  unfold xor_loop. rewrite !mapi_length. split; [reflexivity|].
  split; [reflexivity|].
  destruct (lookup_lt_is_Some_2 decoded p Hp) as [c Hc].
  rewrite !mapi_lookup, Hc. simpl. intros [= E].
  pose proof (atob_latin1 _ _ Ha) as Hd.
  pose proof (Forall_lookup_1 _ _ _ _ Hd Hc) as Hcu.
  assert (code_unit c) as Hcu' by (unfold latin1_unit, code_unit in *; lia).
  change (xor_body key1 (Z.of_nat p) c = xor_body key2 (Z.of_nat p) c) in E.
  destruct (xor_step key1 Hk1 (Z.of_nat p) c ltac:(lia) Hcu') as [E1 _].
  destruct (xor_step key2 Hk2 (Z.of_nat p) c ltac:(lia) Hcu') as [E2 _].
  rewrite E1, E2 in E. apply lxor_inj_l, lxor_inj_r in E.
  rewrite (key_unit_lookup key1 p a Hk1 Hn1 Hka) in E.
  rewrite (key_unit_lookup key2 p b Hk2 Hn2 Hkb) in E. contradiction.
Qed.

Lemma xorDecrypt_wrong_key_witness :
  exists r1 r2,
    xorDecrypt (str "aGVsbG8=") (str "Key#1") = Ok r1
    /\ xorDecrypt (str "aGVsbG8=") (str "Kex#1") = Ok r2
    /\ length r1 = 5%nat /\ length r2 = 5%nat
    /\ r1 !! 2%nat <> r2 !! 2%nat.
Proof.
  apply (xorDecrypt_wrong_key (str "aGVsbG8=") (str "hello") (str "Key#1")
           (str "Kex#1") 2 121 120).
  - vm_compute. reflexivity.
  - apply wf_stringb_true. vm_compute. reflexivity.
  - apply wf_stringb_true. vm_compute. reflexivity.
  - discriminate.
  - discriminate.
  - simpl. lia.
  - reflexivity.
  - reflexivity.
  - lia.
Defined.

(* ------------------------------------------------------------------ *)
(** ** The base64 algorithm: UTF-8 out and back *)

Section Utf8.

Lemma utf8_of_code_point_latin1 cp :
  scalar_value cp -> latin1 (utf8_of_code_point cp).
Proof.
  intros [Hr Hs]. unfold utf8_of_code_point, latin1, latin1_unit.
  repeat case_match; repeat apply Forall_cons_2; try apply Forall_nil_2; dlia.
Qed.

Lemma utf8_decode_one_encode cp rest :
  scalar_value cp ->
  utf8_decode_one (utf8_of_code_point cp ++ rest)
  = Some (cp, length (utf8_of_code_point cp)).
Proof.
  intros [Hr Hs]. unfold utf8_of_code_point.
  destruct (Z.ltb_spec cp 128).
  { simpl. destruct (Z.leb_spec 0 cp); [|lia].
    destruct (Z.ltb_spec cp 128); [reflexivity|lia]. }
  destruct (Z.ltb_spec cp 2048).
  { cbn [app utf8_decode_one length].
    replace ((0 <=? 192 + cp / 64) && (192 + cp / 64 <? 128)) with false
      by (symmetry; apply andb_false_iff; right; dlia).
    replace ((194 <=? 192 + cp / 64) && (192 + cp / 64 <=? 223)) with true
      by (symmetry; apply andb_true_iff; split; dlia).
    unfold is_continuation.
    replace ((128 <=? 128 + cp mod 64) && (128 + cp mod 64 <=? 191)) with true
      by (symmetry; apply andb_true_iff; split; dlia).
    do 2 f_equal. dlia. }
  destruct (Z.ltb_spec cp 65536).
  { cbn [app utf8_decode_one length].
    replace ((0 <=? 224 + cp / 4096) && (224 + cp / 4096 <? 128)) with false
      by (symmetry; apply andb_false_iff; right; dlia).
    replace ((194 <=? 224 + cp / 4096) && (224 + cp / 4096 <=? 223)) with false
      by (symmetry; apply andb_false_iff; right; dlia).
    replace ((224 <=? 224 + cp / 4096) && (224 + cp / 4096 <=? 239)) with true
      by (symmetry; apply andb_true_iff; split; dlia).
    assert (((224 + cp / 4096 - 224) * 64 + (128 + cp / 64 mod 64 - 128)) * 64
            + (128 + cp mod 64 - 128) = cp) as -> by dlia.
    unfold is_continuation.
    replace ((128 <=? 128 + cp / 64 mod 64) && (128 + cp / 64 mod 64 <=? 191))
      with true by (symmetry; apply andb_true_iff; split; dlia).
    replace ((128 <=? 128 + cp mod 64) && (128 + cp mod 64 <=? 191)) with true
      by (symmetry; apply andb_true_iff; split; dlia).
    replace (2048 <=? cp) with true by (symmetry; lia).
    replace ((55296 <=? cp) && (cp <=? 57343)) with false
      by (symmetry; apply andb_false_iff; lia).
    reflexivity. }
  cbn [app utf8_decode_one length].
  replace ((0 <=? 240 + cp / 262144) && (240 + cp / 262144 <? 128)) with false
    by (symmetry; apply andb_false_iff; right; dlia).
  replace ((194 <=? 240 + cp / 262144) && (240 + cp / 262144 <=? 223)) with false
    by (symmetry; apply andb_false_iff; right; dlia).
  replace ((224 <=? 240 + cp / 262144) && (240 + cp / 262144 <=? 239)) with false
    by (symmetry; apply andb_false_iff; right; dlia).
  replace ((240 <=? 240 + cp / 262144) && (240 + cp / 262144 <=? 244)) with true
    by (symmetry; apply andb_true_iff; split; dlia).
  assert ((((240 + cp / 262144 - 240) * 64 + (128 + cp / 4096 mod 64 - 128)) * 64
           + (128 + cp / 64 mod 64 - 128)) * 64 + (128 + cp mod 64 - 128) = cp)
    as -> by dlia.
  unfold is_continuation.
  replace ((128 <=? 128 + cp / 4096 mod 64) && (128 + cp / 4096 mod 64 <=? 191))
    with true by (symmetry; apply andb_true_iff; split; dlia).
  replace ((128 <=? 128 + cp / 64 mod 64) && (128 + cp / 64 mod 64 <=? 191))
    with true by (symmetry; apply andb_true_iff; split; dlia).
  replace ((128 <=? 128 + cp mod 64) && (128 + cp mod 64 <=? 191)) with true
    by (symmetry; apply andb_true_iff; split; dlia).
  replace (65536 <=? cp) with true by (symmetry; lia).
  replace (cp <=? 1114111) with true by (symmetry; lia).
  reflexivity.
Qed.

Lemma utf8_of_code_point_length cp :
  (1 <= length (utf8_of_code_point cp) <= 4)%nat.
Proof. unfold utf8_of_code_point. repeat case_match; simpl; lia. Qed.

Lemma drop_encoding cp rest :
  drop (length (utf8_of_code_point cp)) (utf8_of_code_point cp ++ rest) = rest.
Proof. unfold utf8_of_code_point. repeat case_match; reflexivity. Qed.

(** One decoding step on the encoding of a scalar value. *)
Lemma utf8_decode_fuel_step fuel cp rest :
  scalar_value cp ->
  utf8_decode_fuel (S fuel) (utf8_of_code_point cp ++ rest)
  = exn_bind (utf8_decode_fuel fuel rest)
             (fun r => Ok (utf16_of_code_point cp ++ r)).
Proof.
  intros Hcp.
  destruct (utf8_of_code_point cp ++ rest) as [|b bs] eqn:E.
  { pose proof (utf8_of_code_point_length cp).
    apply (f_equal length) in E. rewrite length_app in E. simpl in E. lia. }
  cbn [utf8_decode_fuel]. rewrite <- E.
  now rewrite utf8_decode_one_encode, drop_encoding.
Qed.

Lemma utf8_round_trip s :
  wf_string s ->
  match utf8_encode s with
  | Ok bytes =>
      well_formed16 s = true /\ latin1 bytes
      /\ forall fuel, (length bytes <= fuel)%nat ->
           utf8_decode_fuel fuel bytes = Ok s
  | Throw _ => well_formed16 s = false
  end.
Proof.
  assert (forall n (s : list Z), (length s < n)%nat -> wf_string s ->
            match utf8_encode s with
            | Ok bytes =>
                well_formed16 s = true /\ latin1 bytes
                /\ forall fuel, (length bytes <= fuel)%nat ->
                     utf8_decode_fuel fuel bytes = Ok s
            | Throw _ => well_formed16 s = false
            end) as Hn.
  { induction n as [|n IH]; intros s' Hlen Hs; [lia|].
    destruct s' as [|c r].
    { simpl. split; [reflexivity|]. split; [constructor|].
      intros [|fuel] _; reflexivity. }
    apply Forall_cons in Hs as [Hc Hr]. unfold code_unit in Hc.
    cbn [utf8_encode well_formed16].
    destruct ((56320 <=? c) && (c <=? 57343)) eqn:Elow; [reflexivity|].
    destruct ((55296 <=? c) && (c <=? 56319)) eqn:Ehigh.
    - destruct r as [|c2 r2]; [reflexivity|].
      apply Forall_cons in Hr as [Hc2 Hr2]. unfold code_unit in Hc2.
      destruct ((56320 <=? c2) && (c2 <=? 57343)) eqn:Elow2; [|reflexivity].
      specialize (IH r2 ltac:(simpl in Hlen; lia) Hr2).
      destruct (utf8_encode r2) as [rest|e]; cbn [exn_bind andb]; [|exact IH].
      destruct IH as (Hw & Hl & Hdec).
      assert (scalar_value ((c - 55296) * 1024 + (c2 - 56320) + 65536)) as Hcp
        by (unfold scalar_value; lia).
      split; [exact Hw|]. split.
      { apply Forall_app. split; [now apply utf8_of_code_point_latin1|exact Hl]. }
      intros fuel Hfuel. rewrite length_app in Hfuel.
      pose proof (utf8_of_code_point_length ((c - 55296) * 1024 + (c2 - 56320) + 65536)).
      destruct fuel as [|fuel]; [lia|].
      rewrite utf8_decode_fuel_step by exact Hcp.
      rewrite Hdec by lia. cbn [exn_bind]. f_equal.
      unfold utf16_of_code_point.
      destruct (Z.ltb_spec ((c - 55296) * 1024 + (c2 - 56320) + 65536) 65536);
        [lia|].
      simpl. f_equal; [dlia|]. f_equal. dlia.
    - specialize (IH r ltac:(simpl in Hlen; lia) Hr).
      destruct (utf8_encode r) as [rest|e]; cbn [exn_bind]; [|exact IH].
      destruct IH as (Hw & Hl & Hdec).
      assert (scalar_value c) as Hcp by (unfold scalar_value; lia).
      split; [exact Hw|]. split.
      { apply Forall_app. split; [now apply utf8_of_code_point_latin1|exact Hl]. }
      intros fuel Hfuel. rewrite length_app in Hfuel.
      pose proof (utf8_of_code_point_length c).
      destruct fuel as [|fuel]; [lia|].
      rewrite utf8_decode_fuel_step by exact Hcp.
      rewrite Hdec by lia. cbn [exn_bind]. f_equal.
      unfold utf16_of_code_point.
      destruct (Z.ltb_spec c 65536); [reflexivity|lia]. }
  intros Hs. apply (Hn (S (length s))); [lia|exact Hs].
Qed.

End Utf8.

(** X7. The base64 algorithm on every string of code units:
    [base64Encrypt] returns exactly when every surrogate of the text is
    paired, and [base64Decrypt] then gives the text back; on a text with an
    unpaired surrogate it throws "Failed to encode text to Base64". *)
Theorem base64_round_trip (text : jsstring) :
  wf_string text ->
  (well_formed16 text = true ->
   exists c, base64Encrypt text = Ok c /\ base64Decrypt c = Ok text)
  /\ (well_formed16 text = false ->
      base64Encrypt text
      = Throw (new_Error (str "Failed to encode text to Base64"))).
Proof.
  intros Hs. pose proof (utf8_round_trip text Hs) as H.
  unfold base64Encrypt, base64Decrypt.
  destruct (utf8_encode text) as [bytes|e].
  - destruct H as (Hw & Hl & Hdec). split; [|congruence].
    intros _. exists (b64_encode bytes). cbn [exn_bind].
    rewrite (btoa_latin1 _ Hl). cbn [try_catch]. split; [reflexivity|].
    rewrite (atob_b64_encode _ Hl). cbn [exn_bind].
    unfold utf8_decode. now rewrite Hdec.
  - split; [congruence|]. intros _. reflexivity.
Qed.

Lemma base64_round_trip_witness :
  (exists c, base64Encrypt [8364; 97; 55357; 56832] = Ok c
             /\ base64Decrypt c = Ok [8364; 97; 55357; 56832])
  /\ base64Encrypt [97; 55357]
     = Throw (new_Error (str "Failed to encode text to Base64")).
Proof.
  split.
  - apply (base64_round_trip [8364; 97; 55357; 56832]); [|reflexivity].
    apply wf_stringb_true. reflexivity.
  - apply (base64_round_trip [97; 55357]); [|reflexivity].
    apply wf_stringb_true. reflexivity.
Defined.

(* ------------------------------------------------------------------ *)
(** ** The hybrid algorithm *)

Lemma hybrid_shift_nonneg key sh :
  wf_string key -> hybrid_shift key = Some sh -> 0 <= sh.
Proof.
  intros Hk. unfold hybrid_shift.
  destruct (charCodeAt key (Some 0)) as [k|] eqn:E; [|discriminate].
  intros [= <-]. pose proof (charCodeAt_unit _ _ _ Hk E) as Hu.
  unfold code_unit in Hu. dlia.
Qed.

(** X8. On Latin-1 text, key and salt, [hybridEncrypt] returns a
    ciphertext, and [hybridDecrypt] of it with the same key and salt
    returns what the Caesar layer alone gives back: the two XOR layers
    cancel. So the hybrid round trip gives the text back exactly when every
    letter and digit of the text survives the Caesar shift
    [key.charCodeAt(0) % 26]. *)
Theorem hybrid_round_trip_is_caesar (key text : jsstring)
  (salt : option jsstring) :
  latin1 key -> latin1 text -> salt_latin1 salt ->
  len key <= max_string_length ->
  exists c,
    hybridEncrypt text key salt = Ok c
    /\ hybridDecrypt c key salt
       = Ok (caesarDecrypt (caesarEncrypt text (hybrid_shift key))
                           (hybrid_shift key))
    /\ (forall sh, hybrid_shift key = Some sh ->
          (hybridDecrypt c key salt = Ok text
           <-> Forall (survives_caesar sh) text)).
Proof.
  intros Hk Ht Hs Hlen.
  pose proof (derived_key_latin1 key salt Hk Hs Hlen) as Hd.
  pose proof (caesar_hybrid_latin1 key text (latin1_wf _ Hk) Ht) as Hc.
  destruct (stream_round_trip key Hk _ Hc) as (c1 & Hb1 & Ha1 & Hx1).
  pose proof (xor_loop_latin1 key Hk _ Hc) as Hx.
  destruct (stream_round_trip _ Hd _ Hx) as (c2 & Hb2 & Ha2 & Hx2).
  assert (hybridDecrypt c2 key salt
          = Ok (caesarDecrypt (caesarEncrypt text (hybrid_shift key))
                              (hybrid_shift key))) as Hdec.
  { unfold hybridDecrypt, aesDecrypt, xorDecrypt.
    rewrite Ha2. cbn [exn_bind try_catch]. rewrite Hx2, Hb1.
    cbn [exn_bind try_catch]. rewrite Ha1. cbn [exn_bind try_catch].
    now rewrite Hx1. }
  exists c2. split; [|split; [exact Hdec|]].
  - unfold hybridEncrypt, xorEncrypt, aesEncrypt.
    rewrite Hb1. cbn [exn_bind]. rewrite Ha1. cbn [exn_bind].
    rewrite Hb2. reflexivity.
  - intros sh Hsh. rewrite Hdec, Hsh.
    rewrite <- (caesar_text_round_trip text sh
                  (hybrid_shift_nonneg key sh (latin1_wf _ Hk) Hsh)).
    split; [now intros [= ->]|now intros ->].
Qed.

Lemma hybrid_round_trip_is_caesar_witness :
  exists c,
    hybridEncrypt (str "az") (str "Key#1") None = Ok c
    /\ hybridDecrypt c (str "Key#1") None
       = Ok (caesarDecrypt (caesarEncrypt (str "az") (hybrid_shift (str "Key#1")))
                           (hybrid_shift (str "Key#1")))
    /\ (forall sh, hybrid_shift (str "Key#1") = Some sh ->
          (hybridDecrypt c (str "Key#1") None = Ok (str "az")
           <-> Forall (survives_caesar sh) (str "az"))).
Proof.
  apply (hybrid_round_trip_is_caesar (str "Key#1") (str "az") None).
  - apply latin1b_true. vm_compute. reflexivity.
  - apply latin1b_true. vm_compute. reflexivity.
  - exact I.
  - vm_compute. discriminate.
Defined.

(* ------------------------------------------------------------------ *)
(** ** [encrypt] followed by [decrypt] *)

Section EncryptDecrypt.

Lemma chars_no_whitespace :
  Forall (fun c => is_js_whitespace c = false) CryptoString.chars.
Proof.
  assert (forallb (fun c => negb (is_js_whitespace c)) CryptoString.chars = true)
    as H by (vm_compute; reflexivity).
  rewrite forallb_forall in H. apply Forall_forall. intros c Hc.
  apply list_elem_of_In in Hc. specialize (H c Hc).
  now destruct (is_js_whitespace c).
Qed.

Lemma generated_key_no_whitespace bytes key :
  Forall2 (fun b c => symbol_of_byte b = Some c) bytes key ->
  Forall (fun c => is_js_whitespace c = false) key.
Proof.
  induction 1 as [|b c bytes key Hc _ IH]; [constructor|].
  apply Forall_cons_2; [|exact IH].
  exact (Forall_lookup_1 _ _ _ _ chars_no_whitespace Hc).
Qed.

Lemma not_blank (s : jsstring) :
  s <> [] -> Forall (fun c => is_js_whitespace c = false) s -> blank s = false.
Proof.
  intros Hne Hs. unfold blank. destruct s as [|c r] eqn:E; [congruence|].
  rewrite trim_no_whitespace by exact Hs. now apply bool_decide_eq_false.
Qed.

(** What [generateKey] returns, when it returns. *)
Lemma generateKey_inv n w key w' :
  generateKey n w = (Ok key, w') ->
  len key = default 32 n /\ latin1 key
  /\ Forall (fun c => is_js_whitespace c = false) key.
Proof.
  intros H. split; [exact (generateKey_length _ _ _ _ H)|].
  assert (0 <= default 32 n <= 65536) as Hn.
  { unfold generateKey, js_bind, random_Uint8Array in H.
    destruct (Z.ltb_spec (default 32 n) 0); [discriminate|].
    destruct (Z.ltb_spec 65536 (default 32 n)); [discriminate|lia]. }
  destruct (generateKey_ok n w Hn) as (k & w2 & Hk & _ & _ & Hf).
  rewrite Hk in H. injection H as -> ->.
  split; [exact (generated_key_latin1 _ _ Hf)|].
  exact (generated_key_no_whitespace _ _ Hf).
Qed.

Lemma generateKey_for_inv config w key w' :
  generateKey_for config w = (Ok key, w') ->
  latin1 key /\ blank key = false /\ len key <= max_string_length.
Proof.
  intros H.
  assert (len key <> 0 /\ len key <= 65536 /\ latin1 key
          /\ Forall (fun c => is_js_whitespace c = false) key)
    as (Hne & Hle & Hl & Hw).
  { unfold generateKey_for in H.
    destruct (keyLength config) as [n|];
      [destruct (Z.eqb_spec n 0)|];
      pose proof H as Hok;
      apply generateKey_inv in H as (Hlen & Hl & Hw);
      simpl in Hlen;
      (split; [lia|]); (split; [|now split]);
      unfold generateKey, js_bind, random_Uint8Array in Hok; simpl in Hok;
      try lia.
    destruct (Z.ltb_spec n 0); [discriminate|].
    destruct (Z.ltb_spec 65536 n); [discriminate|lia]. }
  split; [exact Hl|]. split.
  - apply not_blank; [|exact Hw]. intros ->. now apply Hne.
  - unfold max_string_length. lia.
Qed.

(** The steps of a call of [encrypt] that returned. *)
Lemma encrypt_inv text config w res w' :
  encrypt text config w = (Ok res, w') ->
  blank text = false
  /\ latin1 (key res) /\ blank (key res) = false
  /\ len (key res) <= max_string_length
  /\ salt_latin1 (salt res)
  /\ (useSalt config = false -> salt res = None)
  /\ res_algorithm res = algorithm config
  /\ encrypt_dispatch (algorithm config) text (key res) (salt res)
     = Ok (encrypted res).
Proof.
  unfold encrypt. destruct (blank text); [discriminate|].
  intros H. apply js_bind_ok in H as (k & w1 & Hk & H).
  apply js_bind_ok in H as (s & w2 & Hs & H).
  apply js_try_ok in H as [H|(e & w3 & _ & H)]; [|discriminate].
  apply js_bind_ok in H as (c & w3 & Hc & H).
  apply js_bind_ok in H as (now & w4 & _ & H).
  injection H as <- _. cbn [key salt res_algorithm encrypted].
  apply generateKey_for_inv in Hk as (Hl & Hb & Hlen).
  split; [reflexivity|]. do 3 (split; [assumption|]).
  assert (salt_latin1 s /\ (useSalt config = false -> s = None)) as [Hsl Hnone].
  { destruct (useSalt config).
    - apply js_bind_ok in Hs as (s' & w2' & Hs' & Hret).
      injection Hret as <- _. apply generateKey_inv in Hs' as (_ & Hl' & _).
      split; [exact Hl'|discriminate].
    - injection Hs as <- _. split; [exact I|reflexivity]. }
  do 3 (split; [assumption || reflexivity|]).
  unfold js_lift in Hc. destruct (encrypt_dispatch _ _ _ _); [|discriminate].
  now injection Hc as ->.
Qed.

Lemma utf8_encode_nonempty text bytes :
  text <> [] -> utf8_encode text = Ok bytes -> bytes <> [].
Proof.
  intros Hne H ->. destruct text as [|c r]; [congruence|].
  cbn [utf8_encode] in H.
  repeat match type of H with
         | context [if ?b then _ else _] => destruct b
         | context [match ?r with [] => _ | _ :: _ => _ end] => destruct r
         | context [exn_bind ?m _] => destruct m; cbn [exn_bind] in H
         end; try discriminate;
  injection H as H; apply (f_equal length) in H; rewrite length_app in H;
  match type of H with
  | context [utf8_of_code_point ?cp] =>
      pose proof (utf8_of_code_point_length cp)
  end; simpl in H; lia.
Qed.

End EncryptDecrypt.

(** What [encrypt] returned, the [switch] of [decrypt] turns back into
    the text, for [aes], [xor] and [base64]; neither the ciphertext nor the
    key is blank. *)
Lemma encrypt_dispatch_inverts text config w res w' :
  wf_string text ->
  algorithm config ∈ [str "aes"; str "xor"; str "base64"] ->
  encrypt text config w = (Ok res, w') ->
  decrypt_dispatch (res_algorithm res) (encrypted res) (key res) (salt res)
  = Ok text
  /\ blank (encrypted res) = false /\ blank (key res) = false.
Proof.
  intros Ht Ha H.
  apply encrypt_inv in H as (Hb & Hl & Hkb & Hlen & Hs & _ & -> & Hc).
  assert (text <> []) as Hne by (intros ->; discriminate Hb).
  assert (forall k, latin1 k -> latin1 text ->
            forall c, btoa (xor_loop k text) = Ok c ->
            atob c = Ok (xor_loop k text)
            /\ xor_loop k (xor_loop k text) = text
            /\ blank c = false) as Hstream.
  { intros k Hk Hlt c Hc'.
    destruct (stream_round_trip k Hk text Hlt) as (c' & Hb' & Ha' & Hx').
    rewrite Hb' in Hc'. injection Hc' as <-.
    split; [exact Ha'|]. split; [exact Hx'|].
    apply btoa_ok_latin1 in Hb' as [Hl' ->].
    apply b64_encode_not_blank; [exact Hl'|].
    destruct text; [congruence|discriminate]. }
  repeat (apply elem_of_cons in Ha as [Ha|Ha]); [| | |inversion Ha];
    rewrite Ha in *.
  - change (encrypt_dispatch (str "aes") ?t ?k ?s) with (aesEncrypt t k s) in Hc.
    change (decrypt_dispatch (str "aes") ?c ?k ?s) with (aesDecrypt c k s).
    pose proof (derived_key_latin1 _ _ Hl Hs Hlen) as Hd.
    assert (latin1 text) as Hlt.
    { apply (stream_encrypt_iff _ text Hd Ht). eauto. }
    destruct (Hstream _ Hd Hlt _ Hc) as (Ha' & Hx & Hnb).
    split; [|now split]. unfold aesDecrypt. rewrite Ha'.
    cbn [exn_bind try_catch]. now rewrite Hx.
  - change (encrypt_dispatch (str "xor") ?t ?k ?s) with (xorEncrypt t k) in Hc.
    change (decrypt_dispatch (str "xor") ?c ?k ?s) with (xorDecrypt c k).
    assert (latin1 text) as Hlt.
    { apply (stream_encrypt_iff _ text Hl Ht). eauto. }
    destruct (Hstream _ Hl Hlt _ Hc) as (Ha' & Hx & Hnb).
    split; [|now split]. unfold xorDecrypt. rewrite Ha'.
    cbn [exn_bind try_catch]. now rewrite Hx.
  - change (encrypt_dispatch (str "base64") ?t ?k ?s) with (base64Encrypt t) in Hc.
    change (decrypt_dispatch (str "base64") ?c ?k ?s) with (base64Decrypt c).
    unfold base64Encrypt in Hc.
    pose proof (utf8_round_trip text Ht) as Hu.
    pose proof (utf8_encode_nonempty text) as Hn.
    destruct (utf8_encode text) as [bytes|e]; [|discriminate].
    destruct Hu as (_ & Hlb & Hdec). specialize (Hn bytes Hne eq_refl).
    cbn [exn_bind] in Hc. rewrite (btoa_latin1 _ Hlb) in Hc.
    injection Hc as <-.
    split; [|split; [exact (b64_encode_not_blank _ Hlb Hn)|exact Hkb]].
    unfold base64Decrypt. rewrite (atob_b64_encode _ Hlb). cbn [exn_bind].
    unfold utf8_decode. now rewrite Hdec.
Qed.

(** X9. For the algorithms [aes], [xor] and [base64], every result
    [encrypt] returns decrypts back to the text: [decrypt] on the result's
    ciphertext, key, algorithm and salt is a success carrying the original
    text. The text may be any string; where [encrypt] cannot encode it, it
    throws and there is no result. *)
Theorem encrypt_then_decrypt (text : jsstring) (config : EncryptionConfig)
  (w : World) (res : EncryptionResult) (w' : World) :
  wf_string text ->
  algorithm config ∈ [str "aes"; str "xor"; str "base64"] ->
  encrypt text config w = (Ok res, w') ->
  decrypt (encrypted res) (key res) (res_algorithm res) (salt res)
  = Ok (mkDecryption text true None).
Proof.
  intros Ht Ha H.
  destruct (encrypt_dispatch_inverts _ _ _ _ _ Ht Ha H) as (Hd & Hb & Hkb).
  unfold decrypt. now rewrite Hb, Hkb, Hd.
Qed.

Lemma encrypt_then_decrypt_witness :
  decrypt (str "KSUvLio=") (str "AAAAA") (str "xor")
          (Some (str "AAAAAAAAAAAAAAAA"))
  = Ok (mkDecryption (str "hello") true None).
Proof.
  refine (encrypt_then_decrypt (str "hello")
            (mkConfig (str "xor") (Some 5) true) (world_with_bytes [])
            (mkResult (str "KSUvLio=") (str "AAAAA") (str "xor") 0
                      (Some (str "AAAAAAAAAAAAAAAA")))
            (snd xor_example) _ _ _).
  - apply wf_stringb_true. vm_compute. reflexivity.
  - repeat constructor.
  - vm_compute. reflexivity.
Defined.

(* ------------------------------------------------------------------ *)
(** ** How [encrypt] fails *)

Section EncryptFailures.

Lemma jsstring_eqb_true (a b : jsstring) : jsstring_eqb a b = true -> a = b.
Proof. unfold jsstring_eqb. apply bool_decide_eq_true. Qed.

Lemma generateKey_for_range config w key w' :
  generateKey_for config w = (Ok key, w') ->
  0 <= requested_key_length config <= 65536.
Proof.
  unfold generateKey_for, requested_key_length.
  destruct (keyLength config) as [n|]; [destruct (n =? 0)|];
    unfold generateKey, js_bind, random_Uint8Array; simpl; try lia.
  destruct (Z.ltb_spec n 0); [discriminate|].
  destruct (Z.ltb_spec 65536 n); [discriminate|lia].
Qed.

Lemma generateKey_for_throw config w e w' :
  generateKey_for config w = (Throw e, w') ->
  (requested_key_length config < 0 /\ e = RangeError)
  \/ (65536 < requested_key_length config /\ e = QuotaExceededError).
Proof.
  unfold generateKey_for, requested_key_length.
  destruct (keyLength config) as [n|]; [destruct (n =? 0)|];
    unfold generateKey, js_bind, random_Uint8Array; simpl;
    try discriminate.
  destruct (Z.ltb_spec n 0); [intros [= <- _]; left; split; [lia|reflexivity]|].
  destruct (Z.ltb_spec 65536 n); [|discriminate].
  intros [= <- _]. right. split; [lia|reflexivity].
Qed.

Lemma stream_throws key text e :
  latin1 key -> wf_string text -> btoa (xor_loop key text) = Throw e ->
  ~ latin1 text /\ e = InvalidCharacterError.
Proof.
  intros Hk Ht H.
  assert (~ latin1 text) as Hn.
  { intros Hl. destruct (stream_round_trip key Hk text Hl) as (c & Hc & _).
    congruence. }
  split; [exact Hn|].
  pose proof (proj2 (stream_encrypt_iff key text Hk Ht) Hn). congruence.
Qed.

End EncryptFailures.

(** X10. Every way [encrypt] can throw, for any text. A blank text gives
    "Text to encrypt cannot be empty" and leaves the host untouched. A
    [keyLength] below zero or above 65536 escapes as the typed array's own
    error, unwrapped, since the key is generated outside the [try]. All
    other failures read "Encryption failed: ..." and are exactly: text
    outside Latin-1 under [aes] or [xor] (the message of [btoa]), under
    [hybrid] ("Hybrid encryption failed"), an unpaired surrogate under
    [base64], or an algorithm outside the five supported. [caesar] never
    fails. *)
Theorem encrypt_failures (text : jsstring) (config : EncryptionConfig)
  (w : World) (e : Error) (w' : World) :
  wf_string text ->
  encrypt text config w = (Throw e, w') ->
  (blank text = true
   /\ e = new_Error (str "Text to encrypt cannot be empty") /\ w' = w)
  \/ (blank text = false /\ requested_key_length config < 0
      /\ e = RangeError)
  \/ (blank text = false /\ 65536 < requested_key_length config
      /\ e = QuotaExceededError)
  \/ (blank text = false /\ 0 <= requested_key_length config <= 65536
      /\ ((algorithm config ∈ [str "aes"; str "xor"] /\ ~ latin1 text
           /\ e = new_Error (str "Encryption failed: "
                             ++ message InvalidCharacterError))
          \/ (algorithm config = str "hybrid" /\ ~ latin1 text
              /\ e = new_Error
                       (str "Encryption failed: Hybrid encryption failed"))
          \/ (algorithm config = str "base64" /\ well_formed16 text = false
              /\ e = new_Error
                       (str "Encryption failed: Failed to encode text to Base64"))
          \/ (~ supported (algorithm config)
              /\ e = new_Error
                       (str "Encryption failed: Unsupported encryption algorithm")))).
Proof.
  intros Ht. unfold encrypt. destruct (blank text) eqn:Hb.
  { intros [= <- <-]. left. repeat split. }
  intros H. right.
  apply js_bind_throw in H as [H|(k & w1 & Hk & H)].
  { apply generateKey_for_throw in H as [[Hn ->]|[Hn ->]];
      [left|right; left]; repeat split; assumption. }
  do 2 right. split; [reflexivity|].
  split; [exact (generateKey_for_range _ _ _ _ Hk)|].
  apply generateKey_for_inv in Hk as (Hl & Hkb & Hlen).
  apply js_bind_throw in H as [H|(s & w2 & Hs & H)].
  { exfalso. destruct (useSalt config); [|discriminate].
    apply js_bind_throw in H as [H|(s & w2 & _ & H)]; [|discriminate].
    destruct (generateKey_returns (Some 16) w1 ltac:(simpl; lia))
      as (s & w2 & Hs & _).
    unfold generateSalt in H. congruence. }
  assert (salt_latin1 s) as Hsl.
  { destruct (useSalt config).
    - apply js_bind_ok in Hs as (s' & w2' & Hs' & Hret).
      injection Hret as <- _. now apply generateKey_inv in Hs' as (_ & Hl' & _).
    - injection Hs as <- _. exact I. }
  pose proof (derived_key_latin1 _ _ Hl Hsl Hlen) as Hd.
  unfold js_try, js_bind, js_lift in H.
  destruct (encrypt_dispatch (algorithm config) text k s) as [c|e0] eqn:E;
    [discriminate|].
  injection H as <- _. unfold encrypt_dispatch in E.
  destruct (jsstring_eqb (algorithm config) (str "aes")) eqn:E1.
  { apply jsstring_eqb_true in E1. left. rewrite E1.
    split; [repeat constructor|].
    apply (stream_throws _ _ _ Hd Ht) in E as [Hn ->]. now split. }
  destruct (jsstring_eqb (algorithm config) (str "caesar")) eqn:E2;
    [discriminate|].
  destruct (jsstring_eqb (algorithm config) (str "xor")) eqn:E3.
  { apply jsstring_eqb_true in E3. left. rewrite E3.
    split; [repeat constructor|].
    apply (stream_throws _ _ _ Hl Ht) in E as [Hn ->]. now split. }
  destruct (jsstring_eqb (algorithm config) (str "base64")) eqn:E4.
  { apply jsstring_eqb_true in E4. do 2 right. left. split; [exact E4|].
    unfold base64Encrypt in E. pose proof (utf8_round_trip text Ht) as Hu.
    destruct (utf8_encode text) as [bytes|e1].
    - destruct Hu as (_ & Hlb & _). cbn [exn_bind] in E.
      rewrite (btoa_latin1 _ Hlb) in E. discriminate.
    - injection E as <-. now split. }
  destruct (jsstring_eqb (algorithm config) (str "hybrid")) eqn:E5.
  { apply jsstring_eqb_true in E5. right. left. split; [exact E5|]. split.
    - intros Hlt.
      destruct (encrypt_dispatch_returns (str "hybrid") text k s) as [c Hc];
        try assumption.
      { unfold supported. repeat constructor. }
      change (encrypt_dispatch (str "hybrid") text k s)
        with (hybridEncrypt text k s) in Hc. congruence.
    - unfold hybridEncrypt in E.
      match type of E with
      | try_catch ?m _ = _ => destruct m; [discriminate|]
      end.
      now injection E as <-. }
  do 3 right. injection E as <-. split; [|reflexivity].
  unfold supported. intros Ha.
  repeat (apply elem_of_cons in Ha as [Ha|Ha]);
    try (rewrite Ha in *;
         match goal with
         | H : jsstring_eqb ?a ?a = false |- _ => vm_compute in H; discriminate H
         end).
  inversion Ha.
Qed.

Lemma encrypt_failures_witness :
  let text := [8364] in
  let config := mkConfig (str "xor") (Some 5) false in
  let e := new_Error (str "Encryption failed: "
                      ++ message InvalidCharacterError) in
  (blank text = true
   /\ e = new_Error (str "Text to encrypt cannot be empty")
   /\ snd euro_example = world_with_bytes [])
  \/ (blank text = false /\ requested_key_length config < 0
      /\ e = RangeError)
  \/ (blank text = false /\ 65536 < requested_key_length config
      /\ e = QuotaExceededError)
  \/ (blank text = false /\ 0 <= requested_key_length config <= 65536
      /\ ((algorithm config ∈ [str "aes"; str "xor"] /\ ~ latin1 text
           /\ e = new_Error (str "Encryption failed: "
                             ++ message InvalidCharacterError))
          \/ (algorithm config = str "hybrid" /\ ~ latin1 text
              /\ e = new_Error
                       (str "Encryption failed: Hybrid encryption failed"))
          \/ (algorithm config = str "base64" /\ well_formed16 text = false
              /\ e = new_Error
                       (str "Encryption failed: Failed to encode text to Base64"))
          \/ (~ supported (algorithm config)
              /\ e = new_Error
                       (str "Encryption failed: Unsupported encryption algorithm")))).
Proof.
  apply (encrypt_failures [8364] (mkConfig (str "xor") (Some 5) false)
           (world_with_bytes [])).
  - apply wf_stringb_true. reflexivity.
  - vm_compute. reflexivity.
Defined.

(* ------------------------------------------------------------------ *)
(** ** The generated script on the results of [encrypt] *)

Section GeneratedScript.

Lemma script_deriveKey key salt :
  DecryptionCode.deriveKey key (DecryptionCode.salt_literal salt)
  = deriveKey key salt.
Proof. destruct salt as [[|c s]|]; reflexivity. Qed.

Lemma script_caesar_text text shift :
  0 <= shift <= 26 ->
  Forall (fun c => is_caesar_digit c = true -> shift <= 10) text ->
  DecryptionCode.caesarDecrypt (caesarEncrypt text (Some shift)) (Some shift)
  = text.
Proof.
  intros Hs Hd. unfold DecryptionCode.caesarDecrypt, caesarEncrypt.
  rewrite <- list_fmap_compose, fmap_id_iff.
  eapply Forall_impl; [exact Hd|]. intros c Hc. simpl.
  now apply script_caesar_char_inverts.
Qed.

Lemma hybrid_shift_range key sh :
  wf_string key -> hybrid_shift key = Some sh -> 0 <= sh <= 26.
Proof.
  intros Hk. unfold hybrid_shift.
  destruct (charCodeAt key (Some 0)) as [k|] eqn:E; [|discriminate].
  intros [= <-]. pose proof (charCodeAt_unit _ _ _ Hk E) as Hu.
  unfold code_unit in Hu. dlia.
Qed.

(** The two XOR layers of the hybrid, on Latin-1 text. *)
Lemma hybrid_layers key salt x :
  latin1 key -> salt_latin1 salt -> len key <= max_string_length ->
  latin1 x ->
  exists c1 c2,
    btoa (xor_loop key x) = Ok c1
    /\ atob c1 = Ok (xor_loop key x)
    /\ btoa (xor_loop (deriveKey key salt) (xor_loop key x)) = Ok c2
    /\ atob c2 = Ok (xor_loop (deriveKey key salt) (xor_loop key x))
    /\ xor_loop (deriveKey key salt)
         (xor_loop (deriveKey key salt) (xor_loop key x)) = xor_loop key x
    /\ xor_loop key (xor_loop key x) = x.
Proof.
  intros Hk Hs Hlen Hx.
  pose proof (derived_key_latin1 key salt Hk Hs Hlen) as Hd.
  destruct (stream_round_trip key Hk _ Hx) as (c1 & Hb1 & Ha1 & Hx1).
  pose proof (xor_loop_latin1 key Hk _ Hx) as Hxl.
  destruct (stream_round_trip _ Hd _ Hxl) as (c2 & Hb2 & Ha2 & Hx2).
  exists c1, c2. repeat split; assumption.
Qed.

End GeneratedScript.

(** X20. For the algorithms [aes], [xor] and [base64], the script
    [generateDecryptionCode] writes for a result of [encrypt] computes the
    original text. *)
Theorem generated_script_decrypts (text : jsstring) (config : EncryptionConfig)
  (w : World) (res : EncryptionResult) (w' : World) :
  wf_string text ->
  algorithm config ∈ [str "aes"; str "xor"; str "base64"] ->
  encrypt text config w = (Ok res, w') ->
  DecryptionCode.run res = Some (Ok text).
Proof.
  intros Ht Ha H.
  destruct (encrypt_dispatch_inverts _ _ _ _ _ Ht Ha H) as (Hd & _ & _).
  apply encrypt_inv in H as (_ & _ & _ & _ & _ & _ & Halg & _).
  apply generated_script_agrees_outside_caesar; [|exact Hd].
  now rewrite Halg.
Qed.

Lemma generated_script_decrypts_witness :
  DecryptionCode.run
    (mkResult (str "KSUvLio=") (str "AAAAA") (str "xor") 0
              (Some (str "AAAAAAAAAAAAAAAA")))
  = Some (Ok (str "hello")).
Proof.
  refine (generated_script_decrypts (str "hello")
            (mkConfig (str "xor") (Some 5) true) (world_with_bytes [])
            (mkResult (str "KSUvLio=") (str "AAAAA") (str "xor") 0
                      (Some (str "AAAAAAAAAAAAAAAA")))
            (snd xor_example) _ _ _).
  - apply wf_stringb_true. vm_compute. reflexivity.
  - repeat constructor.
  - vm_compute. reflexivity.
Defined.

Lemma caesar_char_literal shift c :
  0 <= shift -> literal_unit c = true ->
  literal_unit (caesar_char (Some shift) c) = true.
Proof.
  intros Hs Hc. unfold caesar_char, fromCharCode, literal_unit in *.
  repeat case_match; try exact Hc;
    apply negb_true_iff; repeat (apply orb_false_iff; split);
    apply Z.eqb_neq; dlia.
Qed.

Lemma caesarEncrypt_literal text shift :
  0 <= shift -> literal_text text = true ->
  literal_text (caesarEncrypt text (Some shift)) = true.
Proof.
  intros Hs. unfold literal_text, caesarEncrypt.
  induction text as [|c text IH]; [reflexivity|].
  rewrite fmap_cons. cbn [forallb]. intros H.
  apply andb_true_iff in H as [Hc Ht].
  now rewrite caesar_char_literal, IH.
Qed.

Lemma b64_encode_literal s : latin1 s -> literal_text (b64_encode s) = true.
Proof.
  intros Hs. unfold literal_text. apply forallb_forall. intros c Hc.
  apply list_elem_of_In in Hc. rewrite b64_encode_split in Hc.
  apply elem_of_app in Hc as [Hc|Hc].
  - pose proof (b64_body_alphabet s Hs) as Hb. rewrite Forall_forall in Hb.
    specialize (Hb c Hc). unfold is_b64_char, literal_unit in *. lia.
  - unfold b64_padding in Hc.
    destruct (length s mod 3)%nat as [|[|[|n]]];
      repeat (apply elem_of_cons in Hc as [->|Hc]; [reflexivity|]);
      inversion Hc.
Qed.

Lemma chars_literal : Forall (fun c => literal_unit c = true) CryptoString.chars.
Proof.
  assert (forallb literal_unit CryptoString.chars = true) as H
    by (vm_compute; reflexivity).
  rewrite forallb_forall in H. apply Forall_forall. intros c Hc.
  apply list_elem_of_In in Hc. exact (H c Hc).
Qed.

Lemma generateKey_literal n w key w' :
  generateKey n w = (Ok key, w') -> literal_text key = true.
Proof.
  intros H.
  assert (0 <= default 32 n <= 65536) as Hn.
  { unfold generateKey, js_bind, random_Uint8Array in H.
    destruct (Z.ltb_spec (default 32 n) 0); [discriminate|].
    destruct (Z.ltb_spec 65536 (default 32 n)); [discriminate|lia]. }
  destruct (generateKey_ok n w Hn) as (k & w2 & Hk & _ & _ & Hf).
  rewrite Hk in H. injection H as -> ->. unfold literal_text. clear Hk.
  induction Hf as [|b c bytes key Hc _ IH]; [reflexivity|].
  cbn [forallb]. apply andb_true_iff. split; [|exact IH].
  exact (Forall_lookup_1 _ _ _ _ chars_literal Hc).
Qed.

(** The key and the salt of a result of [encrypt] hold no quote,
    backslash or line terminator. *)
Lemma encrypt_literals text config w res w' :
  encrypt text config w = (Ok res, w') ->
  literal_text (key res) = true
  /\ (forall s, salt res = Some s -> literal_text s = true).
Proof.
  unfold encrypt. destruct (blank text); [discriminate|].
  intros H. apply js_bind_ok in H as (k & w1 & Hk & H).
  apply js_bind_ok in H as (s & w2 & Hs & H).
  apply js_try_ok in H as [H|(e & w3 & _ & H)]; [|discriminate].
  apply js_bind_ok in H as (c & w3 & Hc & H).
  apply js_bind_ok in H as (now & w4 & _ & H).
  injection H as <- _. cbn [key salt]. split.
  - unfold generateKey_for in Hk.
    destruct (keyLength config) as [n|]; [destruct (n =? 0)|];
      exact (generateKey_literal _ _ _ _ Hk).
  - intros s0 Hs0. subst s. destruct (useSalt config); [|discriminate Hs].
    apply js_bind_ok in Hs as (s' & w2' & Hs' & Hret).
    injection Hret as <- _. exact (generateKey_literal _ _ _ _ Hs').
Qed.

(** X21. For [caesar] and [hybrid] the generated script recovers the
    text of every result of [encrypt] whose Caesar shift is not negative,
    provided the shift is at most 10 when the text contains a digit: the
    script adds the modulus before taking the remainder, which [decrypt]
    does not. The script splices ciphertext, key and salt between double
    quotes without escaping. For [caesar] the text is asked to hold no
    quote, backslash or line terminator; then the ciphertext holds none
    and its literal reads back as spliced. For [hybrid] the text is
    Latin-1, as [encrypt] requires, and ciphertext, key and salt never hold
    such a character. *)
Theorem generated_script_decrypts_caesar_hybrid (text : jsstring)
  (config : EncryptionConfig) (w : World) (res : EncryptionResult)
  (w' : World) :
  encrypt text config w = (Ok res, w') ->
  (algorithm config = str "caesar" ->
   0 <= key_shift (key res) ->
   Forall (fun c => is_caesar_digit c = true -> key_shift (key res) <= 10)
          text ->
   literal_text text = true ->
   literal_text (encrypted res) = true
   /\ DecryptionCode.run res = Some (Ok text))
  /\ (algorithm config = str "hybrid" ->
      latin1 text ->
      (forall sh, hybrid_shift (key res) = Some sh ->
         Forall (fun c => is_caesar_digit c = true -> sh <= 10) text) ->
      literal_text (encrypted res) = true
      /\ literal_text (key res) = true
      /\ (forall s, salt res = Some s -> literal_text s = true)
      /\ DecryptionCode.run res = Some (Ok text)).
Proof.
  intros H. pose proof (encrypt_literals _ _ _ _ _ H) as [Hlk Hls].
  apply encrypt_inv in H as (Hb & Hl & Hkb & Hlen & Hs & _ & Halg & Hc).
  unfold DecryptionCode.run. rewrite Halg. split; intros Ha; rewrite Ha in *.
  - intros Hpos Hd Hlit.
    change (jsstring_eqb (str "caesar") (str "aes")) with false.
    change (jsstring_eqb (str "caesar") (str "caesar")) with true. cbv iota.
    change (encrypt_dispatch (str "caesar") ?t ?k ?s)
      with (Ok (caesarEncrypt t (Some (key_shift k)))) in Hc.
    injection Hc as <-. split; [now apply caesarEncrypt_literal|].
    do 2 f_equal.
    apply script_caesar_text; [|exact Hd].
    pose proof (key_shift_range (key res)). lia.
  - intros Ht Hd.
    change (jsstring_eqb (str "hybrid") (str "aes")) with false.
    change (jsstring_eqb (str "hybrid") (str "caesar")) with false.
    change (jsstring_eqb (str "hybrid") (str "xor")) with false.
    change (jsstring_eqb (str "hybrid") (str "base64")) with false.
    change (jsstring_eqb (str "hybrid") (str "hybrid")) with true. cbv iota.
    change (encrypt_dispatch (str "hybrid") ?t ?k ?s)
      with (hybridEncrypt t k s) in Hc.
    pose proof (caesar_hybrid_latin1 (key res) text (latin1_wf _ Hl) Ht) as Hx.
    destruct (hybrid_layers (key res) (salt res) _ Hl Hs Hlen Hx)
      as (c1 & c2 & Hb1 & Ha1 & Hb2 & Ha2 & Hx2 & Hx1).
    unfold hybridEncrypt, xorEncrypt, aesEncrypt in Hc.
    rewrite Hb1 in Hc. cbn [exn_bind] in Hc. rewrite Ha1 in Hc.
    cbn [exn_bind] in Hc. rewrite Hb2 in Hc. cbn [try_catch] in Hc.
    injection Hc as <-.
    split.
    { apply btoa_ok_latin1 in Hb2 as [Hl2 ->]. now apply b64_encode_literal. }
    split; [exact Hlk|]. split; [exact Hls|].
    unfold DecryptionCode.hybridDecrypt, DecryptionCode.aesDecrypt_bare,
      DecryptionCode.xorDecrypt_bare.
    rewrite script_deriveKey, Ha2. cbn [exn_bind].
    change (DecryptionCode.decode_loop ?k ?d) with (xor_loop k d).
    rewrite Hx2, Hb1. cbn [exn_bind]. rewrite Ha1. cbn [exn_bind try_catch].
    rewrite Hx1. do 2 f_equal.
    destruct (hybrid_shift (key res)) as [sh|] eqn:Esh.
    + apply script_caesar_text; [|now apply Hd].
      exact (hybrid_shift_range _ _ (latin1_wf _ Hl) Esh).
    + exfalso. unfold hybrid_shift, charCodeAt in Esh.
      destruct (key res) as [|k0 kr]; [discriminate Hkb|discriminate Esh].
Qed.

Lemma generated_script_decrypts_caesar_hybrid_witness :
  (literal_text (str "Uryyb, Jbeyq") = true
   /\ DecryptionCode.run
        (mkResult (str "Uryyb, Jbeyq") (str "0DAAA") (str "caesar") 0 None)
      = Some (Ok (str "Hello, World")))
  /\ (literal_text (str "VXJ5eWIsIEpiZXlx") = true
      /\ literal_text (str "AAAAA") = true
      /\ (forall s, @None jsstring = Some s -> literal_text s = true)
      /\ DecryptionCode.run
           (mkResult (str "VXJ5eWIsIEpiZXlx") (str "AAAAA") (str "hybrid") 0
                     None)
         = Some (Ok (str "Hello, World"))).
Proof.
  split.
  - refine (proj1 (generated_script_decrypts_caesar_hybrid (str "Hello, World")
                     (mkConfig (str "caesar") (Some 5) false)
                     (world_with_bytes [52; 3])
                     (mkResult (str "Uryyb, Jbeyq") (str "0DAAA")
                               (str "caesar") 0 None)
                     (snd caesar_script_example) _) _ _ _ _).
    + vm_compute. reflexivity.
    + reflexivity.
    + vm_compute. discriminate.
    + apply Forall_forall. intros c Hc Hdigit. exfalso.
      apply list_elem_of_In in Hc. vm_compute in Hc.
      repeat (destruct Hc as [<-|Hc]; [discriminate Hdigit|]). destruct Hc.
    + reflexivity.
  - refine (proj2 (generated_script_decrypts_caesar_hybrid (str "Hello, World")
                     (mkConfig (str "hybrid") (Some 5) false)
                     (world_with_bytes [])
                     (mkResult (str "VXJ5eWIsIEpiZXlx") (str "AAAAA")
                               (str "hybrid") 0 None)
                     (snd hybrid_example) _) _ _ _).
    + vm_compute. reflexivity.
    + reflexivity.
    + apply latin1b_true. vm_compute. reflexivity.
    + intros sh Hsh. apply Forall_forall. intros c Hc Hdigit. exfalso.
      apply list_elem_of_In in Hc. vm_compute in Hc.
      repeat (destruct Hc as [<-|Hc]; [discriminate Hdigit|]). destruct Hc.
Defined.

(** X22. Without a salt the two XOR layers of [hybridEncrypt] cancel
    each other: on Latin-1 text and key the ciphertext is the base64 text of
    the Caesar-shifted plaintext, with shift [key.charCodeAt(0) % 26], and
    depends on the key through that shift alone. *)
Theorem hybrid_without_salt_is_caesar (text key : jsstring)
  (salt : option jsstring) :
  latin1 text -> latin1 key -> no_salt salt = true ->
  hybridEncrypt text key salt
  = Ok (b64_encode (caesarEncrypt text (hybrid_shift key)))
  /\ forall key', latin1 key' -> hybrid_shift key' = hybrid_shift key ->
       hybridEncrypt text key' salt = hybridEncrypt text key salt.
Proof.
  intros Ht Hk Hs.
  assert (forall k, latin1 k ->
            hybridEncrypt text k salt
            = Ok (b64_encode (caesarEncrypt text (hybrid_shift k)))) as Hone.
  { intros k Hkl.
    pose proof (caesar_hybrid_latin1 k text (latin1_wf _ Hkl) Ht) as Hx.
    destruct (stream_round_trip k Hkl _ Hx) as (c1 & Hb1 & Ha1 & Hx1).
    unfold hybridEncrypt, xorEncrypt, aesEncrypt.
    rewrite Hb1. cbn [exn_bind]. rewrite Ha1. cbn [exn_bind].
    assert (deriveKey k salt = k) as ->
      by (destruct salt as [[|c s]|]; [reflexivity|discriminate Hs|reflexivity]).
    rewrite Hx1, (btoa_latin1 _ Hx). reflexivity. }
  split; [now apply Hone|].
  intros key' Hk' Hsh. now rewrite (Hone key' Hk'), (Hone key Hk), Hsh.
Qed.

Lemma hybrid_without_salt_is_caesar_witness :
  hybridEncrypt (str "Hello, World") (str "AAAAA") None
  = Ok (b64_encode (caesarEncrypt (str "Hello, World")
                                  (hybrid_shift (str "AAAAA"))))
  /\ forall key', latin1 key' -> hybrid_shift key' = hybrid_shift (str "AAAAA") ->
       hybridEncrypt (str "Hello, World") key' None
       = hybridEncrypt (str "Hello, World") (str "AAAAA") None.
Proof.
  apply (hybrid_without_salt_is_caesar (str "Hello, World") (str "AAAAA") None).
  - apply latin1b_true. vm_compute. reflexivity.
  - apply latin1b_true. vm_compute. reflexivity.
  - reflexivity.
Defined.

(* ------------------------------------------------------------------ *)
(** ** [simpleHash] *)

Section SimpleHash.

Lemma wrap32_range z : -2147483648 <= wrap32 z < 2147483648.
Proof. unfold wrap32. dlia. Qed.

Lemma wrap32_shift a k : wrap32 (a + k * 4294967296) = wrap32 a.
Proof.
  unfold wrap32.
  replace (a + k * 4294967296 + 2147483648)
    with (a + 2147483648 + k * 4294967296) by lia.
  now rewrite Z_mod_plus_full.
Qed.

Lemma wrap32_multiple z : exists k, wrap32 z = z + k * 4294967296.
Proof.
  exists (- ((z + 2147483648) / 4294967296)). unfold wrap32.
  pose proof (Z.div_mod (z + 2147483648) 4294967296 ltac:(lia)). lia.
Qed.

Lemma hash_step_31 h c : hash_step (wrap32 h) c = wrap32 (31 * h + c).
Proof.
  unfold hash_step. rewrite Z.land_diag.
  destruct (wrap32_multiple h) as [k Hk].
  destruct (wrap32_multiple (wrap32 h)) as [k1 Hk1].
  destruct (wrap32_multiple (wrap32 (wrap32 h) * 32)) as [k2 Hk2].
  rewrite Hk2, Hk1, Hk.
  replace ((h + k * 4294967296 + k1 * 4294967296) * 32 + k2 * 4294967296
           - (h + k * 4294967296) + c)
    with (31 * h + c + (32 * k + 32 * k1 + k2 - k) * 4294967296) by lia.
  apply wrap32_shift.
Qed.

Lemma hash_value_polynomial input :
  hash_value input = wrap32 (polynomial31 input).
Proof.
  unfold hash_value, polynomial31.
  induction input as [|c input IH] using rev_ind; [reflexivity|].
  rewrite !fold_left_app. cbn [fold_left]. rewrite IH. apply hash_step_31.
Qed.

Lemma char36_range d :
  0 <= d < 36 -> 48 <= char36 d <= 57 \/ 97 <= char36 d <= 122.
Proof. unfold char36. destruct (Z.ltb_spec d 10); lia. Qed.

Lemma digit36_char36 d : 0 <= d < 36 -> digit36 (char36 d) = Some d.
Proof.
  intros Hd. unfold digit36, char36. destruct (Z.ltb_spec d 10).
  - replace ((48 <=? 48 + d) && (48 + d <=? 57)) with true
      by (symmetry; apply andb_true_iff; lia).
    f_equal. lia.
  - replace ((48 <=? 87 + d) && (87 + d <=? 57)) with false
      by (symmetry; apply andb_false_iff; lia).
    replace ((65 <=? 87 + d) && (87 + d <=? 90)) with false
      by (symmetry; apply andb_false_iff; lia).
    replace ((97 <=? 87 + d) && (87 + d <=? 122)) with true
      by (symmetry; apply andb_true_iff; lia).
    f_equal. lia.
Qed.

Lemma digits36_chars ds :
  Forall (fun d => 0 <= d < 36) ds -> digits36 (char36 <$> ds) = ds.
Proof.
  induction 1 as [|d ds Hd _ IH]; [reflexivity|].
  rewrite fmap_cons. cbn [digits36]. now rewrite digit36_char36, IH.
Qed.

Lemma value36_app ds d : value36 (ds ++ [d]) = value36 ds * 36 + d.
Proof. unfold value36. now rewrite fold_left_app. Qed.

Lemma value36_from ds acc :
  fold_left (fun a d => a * 36 + d) ds acc
  = acc * 36 ^ Z.of_nat (length ds) + value36 ds.
Proof.
  unfold value36. revert acc. induction ds as [|d ds IH]; intros acc.
  - simpl. lia.
  - cbn [fold_left length]. rewrite IH, (IH (0 * 36 + d)).
    rewrite Nat2Z.inj_succ, Z.pow_succ_r by lia. lia.
Qed.

(** The digits [toString36_go] puts in front of [acc]. *)
Lemma toString36_go_spec fuel :
  forall n acc,
    0 <= n < 36 ^ Z.of_nat (S fuel) ->
    exists d ds,
      toString36_go (S fuel) n acc = (char36 <$> (d :: ds)) ++ acc
      /\ Forall (fun d => 0 <= d < 36) (d :: ds)
      /\ value36 (d :: ds) = n
      /\ (ds <> [] -> d <> 0)
      /\ 36 ^ Z.of_nat (length ds) <= Z.max n 1.
Proof.
  assert (forall n acc, 0 <= n < 36 ->
            exists d ds,
              char36 (n mod 36) :: acc = (char36 <$> (d :: ds)) ++ acc
              /\ Forall (fun d => 0 <= d < 36) (d :: ds)
              /\ value36 (d :: ds) = n
              /\ (ds <> [] -> d <> 0)
              /\ 36 ^ Z.of_nat (length ds) <= Z.max n 1) as Hsmall.
  { intros n acc Hn. exists n, []. rewrite Z.mod_small by lia.
    split; [reflexivity|]. split.
    { apply Forall_cons_2; [lia|apply Forall_nil_2]. }
    split; [unfold value36; simpl; lia|]. split; [congruence|]. simpl. lia. }
  induction fuel as [|fuel IH]; intros n acc Hn.
  { cbn [toString36_go]. destruct (Z.ltb_spec n 36) as [Hs|Hbig].
    - apply Hsmall. lia.
    - simpl in Hn. lia. }
  change (toString36_go (S (S fuel)) n acc)
    with (if n <? 36 then char36 (n mod 36) :: acc
          else toString36_go (S fuel) (n / 36) (char36 (n mod 36) :: acc)).
  destruct (Z.ltb_spec n 36) as [Hs|Hbig]; [apply Hsmall; lia|].
  rewrite Nat2Z.inj_succ, Z.pow_succ_r in Hn by lia.
  destruct (IH (n / 36) (char36 (n mod 36) :: acc) ltac:(dlia))
    as (d & ds & Hgo & Hds & Hval & Hlead & Hlen).
  exists d, (ds ++ [n mod 36]). split; [|split; [|split; [|split]]].
  - rewrite Hgo. rewrite !fmap_cons, fmap_app. cbn [fmap list_fmap app].
    now rewrite <- app_assoc.
  - apply Forall_cons in Hds as [Hd Hds]. apply Forall_cons_2; [exact Hd|].
    apply Forall_app. split; [exact Hds|].
    apply Forall_cons_2; [dlia|apply Forall_nil_2].
  - change (d :: ds ++ [n mod 36]) with ((d :: ds) ++ [n mod 36]).
    rewrite value36_app, Hval. dlia.
  - intros _. destruct ds as [|d' ds'].
    + unfold value36 in Hval. simpl in Hval. dlia.
    + apply Hlead. discriminate.
  - rewrite length_app. cbn [length].
    replace (Z.of_nat (length ds + 1)) with (Z.succ (Z.of_nat (length ds)))
      by lia.
    rewrite Z.pow_succ_r by lia.
    assert (36 ^ Z.of_nat (length ds) <= n / 36) by dlia.
    dlia.
Qed.

Lemma log2_fuel n : 0 <= n -> n < 36 ^ Z.of_nat (S (Z.to_nat (Z.log2 n))).
Proof.
  intros Hn. destruct (Z.eq_dec n 0) as [->|Hne]; [reflexivity|].
  pose proof (Z.log2_nonneg n) as Hl.
  pose proof (Z.log2_spec n ltac:(lia)) as [_ Hup].
  rewrite Nat2Z.inj_succ, Z2Nat.id by lia.
  eapply Z.lt_le_trans; [exact Hup|].
  apply Z.pow_le_mono_l. lia.
Qed.

Lemma toString36_spec n :
  0 <= n ->
  exists d ds,
    toString36 n = char36 <$> (d :: ds)
    /\ Forall (fun d => 0 <= d < 36) (d :: ds)
    /\ value36 (d :: ds) = n
    /\ 36 ^ Z.of_nat (length ds) <= Z.max n 1.
Proof.
  intros Hn. unfold toString36.
  destruct (toString36_go_spec (Z.to_nat (Z.log2 n)) n []
              (conj Hn (log2_fuel n Hn)))
    as (d & ds & Hgo & Hds & Hval & _ & Hlen).
  exists d, ds. rewrite Hgo, app_nil_r. auto.
Qed.

Lemma parseInt36_alnum c r :
  48 <= c <= 57 \/ 97 <= c <= 122 ->
  parseInt36 (c :: r)
  = match digits36 (c :: r) with
    | [] => None
    | ds => Some (1 * fold_left (fun acc d => acc * 36 + d) ds 0)
    end.
Proof.
  intros Hc.
  assert (c = 48 \/ c = 49 \/ c = 50 \/ c = 51 \/ c = 52 \/ c = 53
          \/ c = 54 \/ c = 55 \/ c = 56 \/ c = 57 \/ c = 97 \/ c = 98
          \/ c = 99 \/ c = 100 \/ c = 101 \/ c = 102 \/ c = 103
          \/ c = 104 \/ c = 105 \/ c = 106 \/ c = 107 \/ c = 108
          \/ c = 109 \/ c = 110 \/ c = 111 \/ c = 112 \/ c = 113
          \/ c = 114 \/ c = 115 \/ c = 116 \/ c = 117 \/ c = 118
          \/ c = 119 \/ c = 120 \/ c = 121 \/ c = 122) as Hcases by lia.
  repeat (destruct Hcases as [->|Hcases]; [reflexivity|]).
  subst c. reflexivity.
Qed.

Lemma parseInt36_chars d ds :
  Forall (fun d => 0 <= d < 36) (d :: ds) ->
  parseInt36 (char36 <$> (d :: ds)) = Some (value36 (d :: ds)).
Proof.
  intros Hds. pose proof (digits36_chars _ Hds) as Hdig.
  apply Forall_cons in Hds as Hd. destruct Hd as [Hd _].
  rewrite fmap_cons in *.
  rewrite parseInt36_alnum by (apply char36_range, Hd).
  rewrite Hdig. unfold value36. f_equal. lia.
Qed.

End SimpleHash.

(** X25. [simpleHash] computes the polynomial hash
    [c0 * 31^(n-1) + ... + c(n-1)] of the code units, wrapped to a signed
    32-bit integer at every step, and prints its absolute value in base 36:
    the result is one to six characters out of 0-9 and a-z, and
    [parseInt(result, 36)] reads the absolute value back. *)
Theorem simpleHash_spec (input : jsstring) :
  hash_value input = wrap32 (polynomial31 input)
  /\ simpleHash input <> []
  /\ (length (simpleHash input) <= 6)%nat
  /\ Forall (fun c => 48 <= c <= 57 \/ 97 <= c <= 122) (simpleHash input)
  /\ parseInt36 (simpleHash input) = Some (Z.abs (hash_value input)).
Proof.
  split; [apply hash_value_polynomial|].
  pose proof (wrap32_range (polynomial31 input)) as Hr.
  rewrite <- hash_value_polynomial in Hr. unfold simpleHash.
  destruct (toString36_spec (Z.abs (hash_value input)) ltac:(lia))
    as (d & ds & -> & Hds & Hval & Hlen).
  split; [discriminate|]. split; [|split].
  - rewrite length_fmap. cbn [length].
    destruct (Nat.le_gt_cases (length ds) 5) as [Hle|Hgt]; [lia|]. exfalso.
    assert (36 ^ 6 <= 36 ^ Z.of_nat (length ds))
      by (apply Z.pow_le_mono_r; lia).
    change (36 ^ 6) with 2176782336 in *. lia.
  - apply Forall_fmap. eapply Forall_impl; [exact Hds|].
    intros x Hx. simpl. now apply char36_range.
  - rewrite (parseInt36_chars _ _ Hds). now rewrite Hval.
Qed.

(* ------------------------------------------------------------------ *)
(** ** The salt *)

Lemma lxor_position_cancels t k s p :
  Z.lxor (Z.lxor t (Z.lxor (Z.lxor k s) p)) p = Z.lxor (Z.lxor t k) s.
Proof.
  apply Z.bits_inj'. intros i _. rewrite !Z.lxor_spec.
  destruct (Z.testbit t i), (Z.testbit k i), (Z.testbit s i),
    (Z.testbit p i); reflexivity.
Qed.

(** X26. With a salt, the position term of the key derivation and the
    position term of the cipher loop cancel: at every position below
    [max(key.length, 32)] and below 256, the unit [aesEncrypt] hands to
    [btoa] is [text[i] ^ key[i % key.length] ^ salt[i % salt.length]]. Where
    key and salt agree the plaintext unit goes out unchanged. *)
Theorem aes_salt_position_cancels (key salt text : jsstring) (p : nat)
  (t k s : Z) :
  latin1 key -> latin1 salt -> latin1 text ->
  len key <= max_string_length ->
  (p < Nat.max (length key) 32)%nat -> (p < 256)%nat ->
  text !! p = Some t ->
  key !! (p mod length key)%nat = Some k ->
  salt !! (p mod length salt)%nat = Some s ->
  exists cipher decoded,
    aesEncrypt text key (Some salt) = Ok cipher
    /\ atob cipher = Ok decoded
    /\ decoded !! p = Some (Z.lxor (Z.lxor t k) s)
    /\ (k = s -> decoded !! p = Some t).
Proof.
  intros Hk Hs Ht Hlen Hp Hp256 Htp Hkp Hsp.
  assert (key <> []) as Hkne by (intros ->; discriminate Hkp).
  assert (salt <> []) as Hsne by (intros ->; discriminate Hsp).
  pose proof (derived_key_latin1 key (Some salt) Hk Hs Hlen) as Hd.
  destruct (stream_round_trip _ Hd text Ht) as (c & Hb & Ha & _).
  exists c, (xor_loop (deriveKey key (Some salt)) text).
  split; [exact Hb|]. split; [exact Ha|].
  pose proof (Forall_lookup_1 _ _ _ _ Ht Htp) as Htu.
  pose proof (Forall_lookup_1 _ _ _ _ Hk Hkp) as Hku.
  pose proof (Forall_lookup_1 _ _ _ _ Hs Hsp) as Hsu.
  unfold latin1_unit in *.
  pose proof (deriveKey_lookup key salt p k s (latin1_wf _ Hk) (latin1_wf _ Hs)
                Hkne Hsne Hlen Hp Hkp Hsp) as Hdk.
  assert (length (deriveKey key (Some salt)) = Nat.max (length key) 32) as Hdl.
  { unfold deriveKey. destruct salt as [|s0 salt']; [congruence|].
    unfold indices, len. rewrite length_fmap, length_fmap, length_seq. lia. }
  assert (0 <= Z.lxor k s < 256) as Hks.
  { apply (lxor_range 8); lia. }
  assert (0 <= Z.lxor (Z.lxor k s) (Z.of_nat p) < 256) as Hksp.
  { apply (lxor_range 8); lia. }
  rewrite Z.mod_small in Hdk by lia.
  assert (deriveKey key (Some salt) <> []) as Hdne
    by (intros E; rewrite E in Hdl; simpl in Hdl; lia).
  assert (decoded_unit :
            xor_loop (deriveKey key (Some salt)) text !! p
            = Some (Z.lxor (Z.lxor t k) s)).
  { unfold xor_loop. rewrite mapi_lookup, Htp. cbn [fmap option_fmap option_map].
    f_equal. rewrite Z.add_0_l.
    fold (xor_body (deriveKey key (Some salt)) (Z.of_nat p) t).
    destruct (xor_step _ (latin1_wf _ Hd) (Z.of_nat p) t ltac:(lia)
                ltac:(unfold code_unit; lia)) as [-> _].
    rewrite (key_unit_lookup _ p (Z.lxor (Z.lxor k s) (Z.of_nat p)))
      by (try apply latin1_wf; try assumption;
          rewrite Hdl, Nat.mod_small by lia; exact Hdk).
    rewrite Z.mod_small by lia. apply lxor_position_cancels. }
  split; [exact decoded_unit|].
  intros ->. rewrite decoded_unit. f_equal.
  rewrite Z.lxor_assoc, Z.lxor_nilpotent. apply Z.lxor_0_r.
Qed.

Lemma aes_salt_position_cancels_witness :
  exists cipher decoded,
    aesEncrypt (str "hello") (str "AAAAAAAAAAAAAAAA")
               (Some (str "AAAAAAAAAAAAAAAA")) = Ok cipher
    /\ atob cipher = Ok decoded
    /\ decoded !! 1%nat = Some (Z.lxor (Z.lxor 101 65) 65)
    /\ (65 = 65 -> decoded !! 1%nat = Some 101).
Proof.
  apply (aes_salt_position_cancels (str "AAAAAAAAAAAAAAAA")
           (str "AAAAAAAAAAAAAAAA") (str "hello") 1 101 65 65).
  - apply latin1b_true. reflexivity.
  - apply latin1b_true. reflexivity.
  - apply latin1b_true. reflexivity.
  - vm_compute. discriminate.
  - simpl. lia.
  - lia.
  - reflexivity.
  - reflexivity.
  - reflexivity.
Defined.

Lemma encrypt_salt text config w res w' :
  encrypt text config w = (Ok res, w') ->
  if useSalt config
  then exists s, salt res = Some s /\ len s = 16 /\ latin1 s
  else salt res = None.
Proof.
  unfold encrypt. destruct (blank text); [discriminate|].
  intros H. apply js_bind_ok in H as (k & w1 & Hk & H).
  apply js_bind_ok in H as (s & w2 & Hs & H).
  apply js_try_ok in H as [H|(e & w3 & _ & H)]; [|discriminate].
  apply js_bind_ok in H as (c & w3 & Hc & H).
  apply js_bind_ok in H as (now & w4 & _ & H).
  injection H as <- _. cbn [salt].
  destruct (useSalt config).
  - apply js_bind_ok in Hs as (s' & w2' & Hs' & Hret).
    injection Hret as <- _. apply generateKey_inv in Hs' as (Hlen & Hl & _).
    exists s'. repeat split; assumption.
  - now injection Hs as <- _.
Qed.

(** X27. What the encryption form asks for is what the result carries:
    a result obtained from a config the form built has a salt of 16
    Latin-1 characters exactly when the salt box is ticked and the
    algorithm is neither [caesar] nor [base64], and no salt otherwise. *)
Theorem form_salt (st : EncryptionForm.FormState) (text : jsstring)
  (w : World) (res : EncryptionResult) (w' : World) :
  encrypt text (EncryptionForm.config_of_form st) w = (Ok res, w') ->
  if form_salted st
  then exists s, salt res = Some s /\ len s = 16 /\ latin1 s
  else salt res = None.
Proof. intros H. exact (encrypt_salt _ _ _ _ _ H). Qed.

Lemma form_salt_witness :
  if form_salted salted_form
  then exists s,
         salt (mkResult (str "aGVsbG8=") (str "AAAAAAAAAAAAAAAA") (str "aes") 0
                 (Some (str "AAAAAAAAAAAAAAAA"))) = Some s
         /\ len s = 16 /\ latin1 s
  else salt (mkResult (str "aGVsbG8=") (str "AAAAAAAAAAAAAAAA") (str "aes") 0
               (Some (str "AAAAAAAAAAAAAAAA"))) = None.
Proof.
  apply (form_salt salted_form (str "hello") (world_with_bytes []) _
           (snd salted_example)).
  vm_compute. reflexivity.
Defined.

(* ------------------------------------------------------------------ *)
(** ** The symbols of a generated key are not equally likely *)



(* ------------------------------------------------------------------ *)
(** * [JSON.stringify] followed by [JSON.parse] *)

Lemma json_run_app a b s :
  json_run (a ++ b) s = json_run a s ≫= json_run b.
Proof.
  revert s. induction a as [|c a IH]; intros s; [reflexivity|].
  simpl. destruct (json_step c s) as [s'|]; [apply IH|reflexivity].
Qed.

Lemma stringify_array l :
  JSON_stringify (JArr l) = str "[" ++ elements_text l ++ str "]".
Proof. reflexivity. Qed.

Lemma stringify_object o :
  JSON_stringify (JObj o) = str "{" ++ members_text o ++ str "}".
Proof. reflexivity. Qed.

(** *** Strings *)

Lemma hex_value_digit d :
  0 <= d < 16 -> hex_value (hex_digit d) = Some d.
Proof.
  intros Hd. unfold hex_value, hex_digit, is_digit.
  destruct (Z.ltb_spec d 10).
  - replace ((48 <=? 48 + d) && (48 + d <=? 57)) with true
      by (symmetry; apply andb_true_iff; lia).
    f_equal. lia.
  - replace ((48 <=? 87 + d) && (87 + d <=? 57)) with false
      by (symmetry; apply andb_false_iff; lia).
    replace ((97 <=? 87 + d) && (87 + d <=? 102)) with true
      by (symmetry; apply andb_true_iff; lia).
    f_equal. lia.
Qed.

Lemma unicode_step x d acc hex st :
  hex_value x = Some d ->
  json_step x (LUnicode acc hex, st)
  = Some (match hex with
          | [h1; h2; h3] => LString (((h1 * 16 + h2) * 16 + h3) * 16 + d :: acc)
          | _ => LUnicode acc (hex ++ [d])
          end, st).
Proof.
  intros H. cbn [json_step]. rewrite H. cbn [mbind option_bind].
  destruct hex as [|h1 [|h2 [|h3 [|h4 r]]]]; reflexivity.
Qed.

Lemma unicode_escape_run c acc st :
  code_unit c ->
  json_run (unicode_escape c) (LString acc, st) = Some (LString (c :: acc), st).
Proof.
  intros Hc. unfold code_unit in Hc. unfold unicode_escape.
  change (str "\u") with [92; 117].
  cbn [app json_run].
  change (json_step 92 (LString acc, st)) with (Some (LEscape acc, st)).
  cbn [mbind option_bind].
  change (json_step 117 (LEscape acc, st)) with (Some (LUnicode acc [], st)).
  cbn [mbind option_bind].
  rewrite (unicode_step _ (c / 4096)) by (apply hex_value_digit; dlia).
  cbn [mbind option_bind app].
  rewrite (unicode_step _ (c / 256 mod 16)) by (apply hex_value_digit; dlia).
  cbn [mbind option_bind app].
  rewrite (unicode_step _ (c / 16 mod 16)) by (apply hex_value_digit; dlia).
  cbn [mbind option_bind app].
  rewrite (unicode_step _ (c mod 16)) by (apply hex_value_digit; dlia).
  cbn [mbind option_bind]. do 4 f_equal. dlia.
Qed.

Lemma string_step c acc st :
  32 <= c -> c <> 34 -> c <> 92 ->
  json_step c (LString acc, st) = Some (LString (c :: acc), st).
Proof.
  intros H1 H2 H3. cbn [json_step].
  destruct (Z.eqb_spec c 34); [lia|]. destruct (Z.eqb_spec c 92); [lia|].
  destruct (Z.ltb_spec c 32); [lia|reflexivity].
Qed.

Lemma quote_unit_run prev c next acc st :
  code_unit c ->
  json_run (quote_unit prev c next) (LString acc, st)
  = Some (LString (c :: acc), st).
Proof.
  intros Hc. unfold quote_unit.
  destruct (Z.eqb_spec c 34) as [->|H34]; [reflexivity|].
  destruct (Z.eqb_spec c 92) as [->|H92]; [reflexivity|].
  destruct (Z.eqb_spec c 8) as [->|H8]; [reflexivity|].
  destruct (Z.eqb_spec c 12) as [->|H12]; [reflexivity|].
  destruct (Z.eqb_spec c 10) as [->|H10]; [reflexivity|].
  destruct (Z.eqb_spec c 13) as [->|H13]; [reflexivity|].
  destruct (Z.eqb_spec c 9) as [->|H9]; [reflexivity|].
  destruct (Z.ltb_spec c 32); [now apply unicode_escape_run|].
  assert (json_run [c] (LString acc, st) = Some (LString (c :: acc), st)) as Hplain.
  { cbn [json_run]. rewrite string_step by assumption. reflexivity. }
  repeat case_match; first [exact Hplain|now apply unicode_escape_run].
Qed.

Lemma quote_units_run s : 
  wf_string s -> forall prev acc st,
  json_run (quote_units prev s) (LString acc, st)
  = Some (LString (rev s ++ acc), st).
Proof.
  induction 1 as [|c s Hc _ IH]; intros prev acc st; [reflexivity|].
  cbn [quote_units]. rewrite json_run_app, quote_unit_run by exact Hc.
  cbn [mbind option_bind]. rewrite IH. simpl. now rewrite <- app_assoc.
Qed.

(** Reading a quoted string hands the string to the parser. *)
Lemma quote_run s st :
  wf_string s ->
  json_run (quote s) (LIdle, st) = emit (TValue (JStr s)) st.
Proof.
  intros Hs. unfold quote. cbn [app json_run].
  change (json_step 34 (LIdle, st)) with (Some (LString [], st)).
  cbn [mbind option_bind]. rewrite json_run_app, quote_units_run by exact Hs.
  cbn [mbind option_bind json_run]. rewrite app_nil_r.
  change (json_step 34 (LString (rev s), st))
    with (emit (TValue (JStr (rev (rev s)))) st).
  rewrite rev_involutive. now destruct (emit _ st).
Qed.
(** *** Numbers *)

Lemma pretty_N_char_code d :
  (d < 10)%N ->
  Z.of_nat (Ascii.nat_of_ascii (pretty_N_char d)) = 48 + Z.of_N d.
Proof.
  intros Hd.
  assert (d = 0 \/ d = 1 \/ d = 2 \/ d = 3 \/ d = 4 \/ d = 5 \/ d = 6
          \/ d = 7 \/ d = 8 \/ d = 9)%N as H by lia.
  repeat (destruct H as [->|H]; [reflexivity|]). now subst.
Qed.

Lemma digits_value_app ds d acc :
  fold_left (fun acc d => acc * 10 + (d - 48)) (ds ++ [d]) acc
  = fold_left (fun acc d => acc * 10 + (d - 48)) ds acc * 10 + (d - 48).
Proof. now rewrite fold_left_app. Qed.

(** The digits [pretty] prints for a natural number: decimal digits, the
    first not zero, that read back as the number. *)
Lemma pretty_N_go_spec x s :
  exists ds,
    str (pretty_N_go x s) = ds ++ str s
    /\ Forall digit_unit ds
    /\ fold_left (fun acc d => acc * 10 + (d - 48)) ds 0 = Z.of_N x
    /\ ((0 < x)%N -> exists d r, ds = d :: r /\ d <> 48).
Proof.
  revert s. induction (N.lt_wf_0 x) as [x _ IH]. intros s.
  destruct (N.eq_dec x 0%N) as [->|Hx].
  { exists []. rewrite pretty_N_go_0. repeat split; [constructor|lia]. }
  rewrite pretty_N_go_step by lia.
  pose proof (N.mod_lt x 10%N ltac:(lia)) as Hmod.
  pose proof (N.div_mod x 10%N ltac:(lia)) as Hdiv.
  assert (x `div` 10 < x)%N as Hlt by (apply N.div_lt; lia).
  remember (x `mod` 10)%N as r eqn:Er. remember (x `div` 10)%N as q eqn:Eq.
  destruct (IH q Hlt (String (pretty_N_char r) s))
    as (ds & Hds & Hdig & Hval & Hlead).
  exists (ds ++ [48 + Z.of_N r]).
  split; [|split; [|split]].
  - rewrite Hds. cbn [str]. rewrite pretty_N_char_code by exact Hmod.
    now rewrite <- app_assoc.
  - apply Forall_app. split; [exact Hdig|].
    apply Forall_cons_2; [|apply Forall_nil_2]. unfold digit_unit. lia.
  - rewrite digits_value_app, Hval. lia.
  - intros _. destruct (N.eq_dec q 0%N) as [H0|H0].
    + rewrite H0 in Hds, Hval. destruct ds as [|d t].
      * exists (48 + Z.of_N r), []. split; [reflexivity|]. lia.
      * exfalso. rewrite pretty_N_go_0 in Hds. cbn [str] in Hds.
        apply (f_equal length) in Hds. simpl in Hds.
        rewrite length_app in Hds. simpl in Hds. lia.
    + destruct (Hlead ltac:(lia)) as (d & t & -> & Hd).
      exists d, (t ++ [48 + Z.of_N r]). split; [reflexivity|exact Hd].
Qed.

(** The text of an integer: an optional minus sign and decimal digits
    without a leading zero, unless the number is zero. *)
Lemma decimal_spec m :
  exists ds d r,
    decimal m = (if m <? 0 then [45] else []) ++ ds
    /\ ds = d :: r
    /\ Forall digit_unit ds
    /\ digits_value ds = Z.abs m
    /\ (d = 48 -> r = []).
Proof.
  unfold decimal, pretty, pretty_Z.
  destruct m as [|p|p].
  - exists [48], 48, []. split; [reflexivity|]. split; [reflexivity|].
    split; [|split; [reflexivity|auto]].
    repeat apply Forall_cons_2; try apply Forall_nil_2. unfold digit_unit. lia.
  - unfold pretty, pretty_positive, pretty, pretty_N.
    destruct (decide (N.pos p = 0%N)) as [H|_]; [discriminate|].
    destruct (pretty_N_go_spec (N.pos p) "") as (ds & Hds & Hdig & Hval & Hlead).
    destruct (Hlead ltac:(lia)) as (d & r & -> & Hd).
    exists (d :: r), d, r. cbn [str] in Hds. rewrite app_nil_r in Hds.
    split; [exact Hds|]. split; [reflexivity|]. split; [exact Hdig|].
    split; [|congruence]. unfold digits_value. rewrite Hval. reflexivity.
  - unfold pretty, pretty_positive, pretty, pretty_N.
    destruct (decide (N.pos p = 0%N)) as [H|_]; [discriminate|].
    destruct (pretty_N_go_spec (N.pos p) "") as (ds & Hds & Hdig & Hval & Hlead).
    destruct (Hlead ltac:(lia)) as (d & r & -> & Hd).
    exists (d :: r), d, r. cbn [str] in Hds. rewrite app_nil_r in Hds.
    split; [|split; [reflexivity|split; [exact Hdig|split; [|congruence]]]].
    + change (Z.neg p <? 0) with true. cbn [app].
      rewrite <- Hds. reflexivity.
    + unfold digits_value. rewrite Hval. reflexivity.
Qed.

Lemma digit_cases c :
  digit_unit c ->
  c = 48 \/ c = 49 \/ c = 50 \/ c = 51 \/ c = 52 \/ c = 53 \/ c = 54
  \/ c = 55 \/ c = 56 \/ c = 57.
Proof. unfold digit_unit. lia. Qed.

Ltac each_digit H :=
  apply digit_cases in H;
  repeat (destruct H as [->|H]; [|]); [..|subst].

Lemma idle_step_number c st :
  c = 45 \/ digit_unit c -> idle_step c st = Some (LNumber [c], st).
Proof.
  intros [->|H]; [reflexivity|]. each_digit H; reflexivity.
Qed.

Lemma number_step c t st :
  digit_unit c -> json_step c (LNumber t, st) = Some (LNumber (c :: t), st).
Proof. intros H. each_digit H; reflexivity. Qed.

Lemma number_run ds : 
  Forall digit_unit ds -> forall t st,
  json_run ds (LNumber t, st) = Some (LNumber (rev ds ++ t), st).
Proof.
  induction 1 as [|c ds Hc _ IH]; intros t st; [reflexivity|].
  cbn [json_run]. rewrite number_step by exact Hc. cbn [mbind option_bind].
  rewrite IH. simpl. now rewrite <- app_assoc.
Qed.

Lemma take_digits_all ds :
  Forall digit_unit ds -> take_digits ds = (ds, []).
Proof.
  induction 1 as [|c ds Hc _ IH]; [reflexivity|].
  cbn [take_digits]. rewrite IH. each_digit Hc; reflexivity.
Qed.

Lemma parse_number_decimal m : parse_number (decimal m) = Some (JNum m 0).
Proof.
  destruct (decimal_spec m) as (ds & d & r & -> & -> & Hdig & Hval & Hzero).
  assert ((d =? 48) && negb (jsstring_eqb r []) = false) as Hlead.
  { destruct (Z.eqb_spec d 48) as [E|E]; [|reflexivity].
    rewrite (Hzero E). reflexivity. }
  pose proof (take_digits_all _ Hdig) as Htake.
  destruct (Z.ltb_spec m 0).
  - cbn [app]. unfold parse_number. cbv beta iota zeta.
    rewrite Htake. cbv beta iota zeta. rewrite Hlead.
    cbv beta iota zeta. rewrite app_nil_r, Hval. do 2 f_equal. lia.
  - cbn [app]. apply Forall_cons in Hdig as Hd. destruct Hd as [Hd _].
    each_digit Hd; unfold parse_number; cbv beta iota zeta;
      rewrite Htake; cbv beta iota zeta; rewrite Hlead;
      cbv beta iota zeta; rewrite app_nil_r, Hval; do 2 f_equal; lia.
Qed.

(** Reading the text of an integer leaves the number pending; completing
    it hands the integer to the parser. *)
Lemma decimal_run m st :
  exists s1, json_run (decimal m) (LIdle, st) = Some s1
             /\ settle s1 = feed (TValue (JNum m 0)) st.
Proof.
  pose proof (parse_number_decimal m) as Hp.
  destruct (decimal_spec m) as (ds & d & r & Hdec & -> & Hdig & _).
  assert (exists c t, decimal m = c :: t /\ (c = 45 \/ digit_unit c)
                      /\ Forall digit_unit t) as (c & t & Hct & Hc & Ht).
  { rewrite Hdec. destruct (m <? 0).
    - exists 45, (d :: r). repeat split; [now left|exact Hdig].
    - apply Forall_cons in Hdig as Hd. destruct Hd as [Hd Hr].
      exists d, r. repeat split; [now right|exact Hr]. }
  exists (LNumber (rev (decimal m)), st). split.
  - rewrite Hct. cbn [json_run]. 
    change (json_step c (LIdle, st)) with (idle_step c st).
    rewrite (idle_step_number _ _ Hc). cbn [mbind option_bind].
    rewrite (number_run _ Ht). simpl. reflexivity.
  - unfold settle, end_number. cbn [fst snd]. rewrite rev_involutive, Hp.
    reflexivity.
Qed.

(** *** Values *)

Lemma feed_value v st :
  value_mode st -> feed (TValue v) st = push_value v (p_stack st).
Proof. intros [H|H]; unfold feed; rewrite H; reflexivity. Qed.

Lemma delimiter_step c s1 st1 :
  settle s1 = Some st1 -> is_number_unit c = false ->
  json_step c s1 = idle_step c st1.
Proof.
  destruct s1 as [ls st]. unfold settle. cbn [fst snd].
  destruct ls; try discriminate.
  - now intros [= ->].
  - intros H Hc. cbn [json_step]. rewrite Hc, H. reflexivity.
Qed.

Lemma literal_reads_back v text :
  (forall st, json_run text (LIdle, st) = emit (TValue v) st) ->
  JSON_stringify v = text -> reads_back v.
Proof.
  intros Hrun Htext st st' Hm Hp. rewrite Htext, Hrun.
  unfold emit. rewrite (feed_value _ _ Hm), Hp. cbn [mbind option_bind].
  eexists. split; reflexivity.
Qed.

Lemma literal_run st v a b c d :
  idle_step a st = Some (LLiteral [b; c; d] v, st) ->
  json_run [a; b; c; d] (LIdle, st) = emit (TValue v) st.
Proof.
  intros H. cbn [json_run].
  change (json_step a (LIdle, st)) with (idle_step a st). rewrite H.
  cbn [mbind option_bind json_step]. rewrite !Z.eqb_refl.
  cbn [mbind option_bind json_step]. rewrite !Z.eqb_refl.
  cbn [mbind option_bind json_step]. rewrite !Z.eqb_refl.
  now destruct (emit (TValue v) st).
Qed.

Lemma null_reads_back : reads_back JNull.
Proof.
  apply (literal_reads_back _ (str "null")); [|reflexivity].
  intros st. now apply literal_run.
Qed.

Lemma true_reads_back : reads_back (JBool true).
Proof.
  apply (literal_reads_back _ (str "true")); [|reflexivity].
  intros st. now apply literal_run.
Qed.

Lemma false_reads_back : reads_back (JBool false).
Proof.
  apply (literal_reads_back _ (str "false")); [|reflexivity].
  intros st. cbn [str json_run].
  change (json_step _ (LIdle, st))
    with (Some (LLiteral (str "alse") (JBool false), st)).
  cbn [mbind option_bind json_step str]. 
  change (Z.of_nat (Ascii.nat_of_ascii _) =? Z.of_nat (Ascii.nat_of_ascii _))
    with true.
  cbv iota. cbn [mbind option_bind json_step].
  change (Z.of_nat (Ascii.nat_of_ascii _) =? Z.of_nat (Ascii.nat_of_ascii _))
    with true.
  cbv iota. cbn [mbind option_bind json_step].
  change (Z.of_nat (Ascii.nat_of_ascii _) =? Z.of_nat (Ascii.nat_of_ascii _))
    with true.
  cbv iota. cbn [mbind option_bind json_step].
  change (Z.of_nat (Ascii.nat_of_ascii _) =? Z.of_nat (Ascii.nat_of_ascii _))
    with true.
  cbv iota. now destruct (emit _ st).
Qed.

Lemma integer_reads_back m : reads_back (JNum m 0).
Proof.
  intros st st' Hm Hp. cbn [JSON_stringify]. unfold number_text.
  change (0 <=? 0) with true. cbv iota.
  rewrite Z.pow_0_r, Z.mul_1_r.
  destruct (decimal_run m st) as (s1 & Hrun & Hs).
  exists s1. split; [exact Hrun|].
  now rewrite Hs, (feed_value _ _ Hm).
Qed.

Lemma string_reads_back s : wf_string s -> reads_back (JStr s).
Proof.
  intros Hs st st' Hm Hp. cbn [JSON_stringify]. rewrite (quote_run _ _ Hs).
  unfold emit. rewrite (feed_value _ _ Hm), Hp. cbn [mbind option_bind].
  eexists. split; reflexivity.
Qed.

Lemma elements_run l :
  Forall reads_back l -> l <> [] ->
  forall es stack m, m = MValue \/ m = MValueOrClose ->
  exists s1,
    json_run (elements_text l) (LIdle, mkP (FArr es :: stack) m None) = Some s1
    /\ settle s1 = Some (mkP (FArr (rev l ++ es) :: stack) MAfter None).
Proof.
  induction 1 as [|x l Hx Hl IH]; [congruence|]. intros _ es stack m Hm.
  destruct l as [|y r].
  - cbn [elements_text]. apply Hx; [exact Hm|reflexivity].
  - change (elements_text (x :: y :: r))
      with (JSON_stringify x ++ str "," ++ elements_text (y :: r)).
    destruct (Hx (mkP (FArr es :: stack) m None)
                 (mkP (FArr (x :: es) :: stack) MAfter None) Hm eq_refl)
      as (s1 & Hrun & Hs).
    rewrite json_run_app, Hrun. cbn [mbind option_bind str app json_run].
    rewrite (delimiter_step _ _ _ Hs) by reflexivity.
    change (idle_step _ (mkP (FArr (x :: es) :: stack) MAfter None))
      with (Some (LIdle, mkP (FArr (x :: es) :: stack) MValue None)).
    cbn [mbind option_bind].
    destruct (IH ltac:(discriminate) (x :: es) stack MValue ltac:(now left))
      as (s2 & Hrun2 & Hs2).
    exists s2. split; [exact Hrun2|]. rewrite Hs2. do 3 f_equal.
    simpl. now rewrite <- !app_assoc.
Qed.

Lemma array_reads_back l : Forall reads_back l -> reads_back (JArr l).
Proof.
  intros Hl st st' Hm Hp. rewrite stringify_array.
  change (str "[") with [91]. change (str "]") with [93].
  cbn [app json_run].
  assert (json_step 91 (LIdle, st)
          = Some (LIdle, mkP (FArr [] :: p_stack st) MValueOrClose None)) as ->.
  { change (json_step _ (LIdle, st)) with (emit TOpenArr st).
    unfold emit, feed. now destruct Hm as [-> | ->]. }
  cbn [mbind option_bind].
  destruct l as [|x r].
  - cbn [elements_text app json_run].
    change (json_step _ (LIdle, ?s)) with (emit TCloseArr s).
    unfold emit, feed. cbn [p_mode p_stack close_array rev].
    rewrite Hp. cbn [mbind option_bind]. eexists. split; reflexivity.
  - destruct (elements_run (x :: r) Hl ltac:(discriminate) [] (p_stack st)
                MValueOrClose ltac:(now right)) as (s1 & Hrun & Hs).
    rewrite json_run_app, Hrun. cbn [mbind option_bind json_run].
    rewrite (delimiter_step _ _ _ Hs) by reflexivity.
    change (idle_step _ ?s) with (emit TCloseArr s).
    unfold emit, feed. cbn [p_mode p_stack close_array].
    rewrite app_nil_r, rev_involutive, Hp. cbn [mbind option_bind].
    eexists. split; reflexivity.
Qed.

Lemma members_run o :
  Forall (fun p => wf_string (fst p) /\ reads_back (snd p)) o -> o <> [] ->
  forall acc stack m, m = MKeyOrClose \/ m = MKey ->
  exists s1,
    json_run (members_text o) (LIdle, mkP (FObj acc None :: stack) m None)
    = Some s1
    /\ settle s1
       = Some (mkP (FObj (build_object o acc) None :: stack) MAfter None).
Proof.
  induction 1 as [|[k x] o [Hk Hx] Ho IH]; [congruence|].
  intros _ acc stack m Hm. cbn [fst snd] in Hk, Hx.
  assert (json_run (quote k ++ str ":")
            (LIdle, mkP (FObj acc None :: stack) m None)
          = Some (LIdle, mkP (FObj acc (Some k) :: stack) MValue None)) as Hkey.
  { rewrite json_run_app, (quote_run _ _ Hk).
    unfold emit, feed. cbn [p_mode p_stack].
    destruct Hm as [-> | ->]; reflexivity. }
  destruct (Hx (mkP (FObj acc (Some k) :: stack) MValue None)
               (mkP (FObj (set_prop acc k x) None :: stack) MAfter None)
               ltac:(now left) eq_refl) as (s1 & Hrun & Hs).
  destruct o as [|p r].
  - change (members_text [(k, x)])
      with (quote k ++ str ":" ++ JSON_stringify x).
    rewrite app_assoc, json_run_app, Hkey. cbn [mbind option_bind].
    exists s1. split; [exact Hrun|exact Hs].
  - change (members_text ((k, x) :: p :: r))
      with (quote k ++ str ":" ++ JSON_stringify x ++ str ","
            ++ members_text (p :: r)).
    rewrite app_assoc, json_run_app, Hkey. cbn [mbind option_bind].
    rewrite json_run_app, Hrun. cbn [mbind option_bind str app json_run].
    rewrite (delimiter_step _ _ _ Hs) by reflexivity.
    change (idle_step _ (mkP (FObj (set_prop acc k x) None :: stack) MAfter None))
      with (Some (LIdle, mkP (FObj (set_prop acc k x) None :: stack) MKey None)).
    cbn [mbind option_bind].
    destruct (IH ltac:(discriminate) (set_prop acc k x) stack MKey
                 ltac:(now right)) as (s2 & Hrun2 & Hs2).
    exists s2. split; [exact Hrun2|exact Hs2].
Qed.

Lemma set_prop_fresh (o : JsObject) k v :
  k ∉ (fst <$> o) -> set_prop o k v = o ++ [(k, v)].
Proof.
  induction o as [|[k' v'] o IH]; [reflexivity|].
  rewrite fmap_cons, not_elem_of_cons. cbn [fst]. intros [Hne Hni].
  cbn [set_prop]. unfold jsstring_eqb.
  rewrite bool_decide_eq_false_2 by congruence.
  now rewrite IH.
Qed.

Lemma build_object_nodup o acc :
  NoDup ((fst <$> acc) ++ (fst <$> o)) -> build_object o acc = acc ++ o.
Proof.
  revert acc. induction o as [|[k x] o IH]; intros acc Hnd.
  - now rewrite app_nil_r.
  - unfold build_object. cbn [fold_left fst snd].
    rewrite fmap_cons in Hnd. cbn [fst] in Hnd.
    rewrite set_prop_fresh.
    + fold (build_object o (acc ++ [(k, x)])). rewrite IH.
      * now rewrite <- app_assoc.
      * rewrite fmap_app, <- app_assoc. exact Hnd.
    + apply NoDup_app in Hnd as (_ & Hdis & _). intros Hin.
      apply (Hdis k Hin). apply list_elem_of_here.
Qed.

Lemma object_reads_back o :
  NoDup (fst <$> o) ->
  Forall (fun p => wf_string (fst p) /\ reads_back (snd p)) o ->
  reads_back (JObj o).
Proof.
  intros Hnd Ho st st' Hm Hp. rewrite stringify_object.
  change (str "{") with [123]. change (str "}") with [125].
  cbn [app json_run].
  assert (json_step 123 (LIdle, st)
          = Some (LIdle, mkP (FObj [] None :: p_stack st) MKeyOrClose None)) as ->.
  { change (json_step _ (LIdle, st)) with (emit TOpenObj st).
    unfold emit, feed. now destruct Hm as [-> | ->]. }
  cbn [mbind option_bind].
  destruct o as [|p r].
  - cbn [members_text app json_run].
    change (json_step _ (LIdle, ?s)) with (emit TCloseObj s).
    unfold emit, feed. cbn [p_mode p_stack close_object].
    rewrite Hp. cbn [mbind option_bind]. eexists. split; reflexivity.
  - destruct (members_run (p :: r) Ho ltac:(discriminate) [] (p_stack st)
                MKeyOrClose ltac:(now left)) as (s1 & Hrun & Hs).
    rewrite json_run_app, Hrun. cbn [mbind option_bind json_run].
    rewrite (delimiter_step _ _ _ Hs) by reflexivity.
    change (idle_step _ ?s) with (emit TCloseObj s).
    unfold emit, feed. cbn [p_mode p_stack close_object].
    rewrite (build_object_nodup (p :: r) []) by exact Hnd.
    cbn [app]. rewrite Hp. cbn [mbind option_bind].
    eexists. split; reflexivity.
Qed.

Lemma plain_reads_back v : plain v = true -> reads_back v.
Proof.
  unfold plain. induction v as [|b|m e|s|l IH|o IH] using JsValue_nested_ind;
    cbn [plain_with]; intros Hv.
  - apply null_reads_back.
  - destruct b; [apply true_reads_back|apply false_reads_back].
  - apply Z.eqb_eq in Hv as ->. apply integer_reads_back.
  - apply string_reads_back, wf_stringb_true, Hv.
  - apply array_reads_back. rewrite forallb_forall in Hv.
    apply Forall_forall. intros x Hx. rewrite Forall_forall in IH.
    apply (IH x Hx), Hv, list_elem_of_In, Hx.
  - apply andb_true_iff in Hv as [Hnd Hv]. apply bool_decide_eq_true in Hnd.
    apply object_reads_back; [exact Hnd|].
    rewrite forallb_forall in Hv. apply Forall_forall. intros p Hp.
    rewrite Forall_forall in IH. 
    specialize (Hv p (proj1 (list_elem_of_In _ _) Hp)).
    apply andb_true_iff in Hv as [Hk Hx].
    split; [apply wf_stringb_true, Hk|apply (IH p Hp), Hx].
Qed.

Lemma JSON_round_trip v : plain v = true -> JSON_parse (JSON_stringify v) = Ok v.
Proof.
  intros Hv.
  destruct (plain_reads_back v Hv (mkP [] MValue None) (mkP [] MDone (Some v))
              ltac:(now left) eq_refl) as (s1 & Hrun & Hs).
  unfold JSON_parse. rewrite Hrun. cbn [mbind option_bind].
  unfold json_finish. destruct s1 as [ls st]. unfold settle in Hs.
  cbn [fst snd] in Hs.
  destruct ls; try discriminate Hs.
  - injection Hs as ->. reflexivity.
  - rewrite Hs. reflexivity.
Qed.

(** *** The text of a storable value is Latin-1 *)

Lemma latin1b_wf s : latin1b s = true -> wf_stringb s = true.
Proof.
  unfold latin1b, wf_stringb. rewrite !forallb_forall.
  intros H c Hc. specialize (H c Hc). lia.
Qed.

Lemma plain_with_mono (ok1 ok2 : jsstring -> bool) v :
  (forall s, ok1 s = true -> ok2 s = true) ->
  plain_with ok1 v = true -> plain_with ok2 v = true.
Proof.
  intros Hok. induction v as [|b|m e|s|l IH|o IH] using JsValue_nested_ind;
    cbn [plain_with]; auto.
  - rewrite !forallb_forall. intros H x Hx.
    rewrite Forall_forall in IH.
    apply (IH x (proj2 (list_elem_of_In _ _) Hx)), H, Hx.
  - rewrite !andb_true_iff, !forallb_forall. intros [Hnd H].
    split; [exact Hnd|]. intros p Hp. specialize (H p Hp).
    apply andb_true_iff in H as [Hk Hx]. apply andb_true_iff.
    rewrite Forall_forall in IH.
    split; [now apply Hok|].
    apply (IH p (proj2 (list_elem_of_In _ _) Hp)), Hx.
Qed.

Lemma storable_plain v : storable v = true -> plain v = true.
Proof. apply plain_with_mono, latin1b_wf. Qed.

Lemma decimal_latin1 m : latin1 (decimal m).
Proof.
  destruct (decimal_spec m) as (ds & d & r & -> & _ & Hdig & _).
  apply Forall_app. split.
  - destruct (m <? 0); repeat apply Forall_cons_2; try apply Forall_nil_2.
    unfold latin1_unit. lia.
  - eapply Forall_impl; [exact Hdig|]. unfold digit_unit, latin1_unit.
    intros c Hc. simpl in *. lia.
Qed.

Lemma quote_unit_latin1 prev c next :
  latin1_unit c -> latin1 (quote_unit prev c next).
Proof.
  intros Hc. unfold latin1_unit in Hc.
  assert (latin1 (unicode_escape c)) as Hesc.
  { unfold unicode_escape, hex_digit. change (str "\u") with [92; 117].
    repeat apply Forall_cons_2; try apply Forall_nil_2; unfold latin1_unit;
      repeat case_match; dlia. }
  assert (latin1 [c]) as Hone.
  { apply Forall_cons_2; [exact Hc|apply Forall_nil_2]. }
  unfold quote_unit.
  repeat case_match; try assumption;
    apply latin1b_true; reflexivity.
Qed.

Lemma quote_latin1 s : latin1 s -> latin1 (quote s).
Proof.
  intros Hs. unfold quote. apply Forall_app. split.
  { apply Forall_cons_2; [unfold latin1_unit; lia|apply Forall_nil_2]. }
  apply Forall_app. split.
  2:{ apply Forall_cons_2; [unfold latin1_unit; lia|apply Forall_nil_2]. }
  generalize (@None Z). induction Hs as [|c s Hc _ IH]; intros prev.
  - constructor.
  - cbn [quote_units]. apply Forall_app. split; [|apply IH].
    now apply quote_unit_latin1.
Qed.

Lemma stringify_latin1 v : storable v = true -> latin1 (JSON_stringify v).
Proof.
  unfold storable.
  induction v as [|b|m e|s|l IH|o IH] using JsValue_nested_ind;
    cbn [plain_with]; intros Hv.
  - apply latin1b_true. reflexivity.
  - destruct b; apply latin1b_true; reflexivity.
  - apply Z.eqb_eq in Hv as ->. cbn [JSON_stringify]. unfold number_text.
    change (0 <=? 0) with true. cbv iota. apply decimal_latin1.
  - apply quote_latin1, latin1b_true, Hv.
  - rewrite stringify_array. apply Forall_app. split.
    { apply latin1b_true. reflexivity. }
    apply Forall_app. split; [|apply latin1b_true; reflexivity].
    induction IH as [|x l Hx _ IHl]; [constructor|].
    cbn [forallb] in Hv. apply andb_true_iff in Hv as [Hvx Hvl].
    destruct l as [|y r]; [exact (Hx Hvx)|].
    change (elements_text (x :: y :: r))
      with (JSON_stringify x ++ str "," ++ elements_text (y :: r)).
    apply Forall_app. split; [exact (Hx Hvx)|].
    apply Forall_app. split; [apply latin1b_true; reflexivity|].
    exact (IHl Hvl).
  - apply andb_true_iff in Hv as [_ Hv].
    rewrite stringify_object. apply Forall_app. split.
    { apply latin1b_true. reflexivity. }
    apply Forall_app. split; [|apply latin1b_true; reflexivity].
    induction IH as [|[k x] o Hx _ IHo]; [constructor|].
    cbn [forallb fst snd] in Hv, Hx.
    apply andb_true_iff in Hv as [Hvx Hvo].
    apply andb_true_iff in Hvx as [Hk Hvx].
    assert (latin1 (quote k ++ str ":" ++ JSON_stringify x)) as Hone.
    { apply Forall_app. split; [apply quote_latin1, latin1b_true, Hk|].
      apply Forall_app. split; [apply latin1b_true; reflexivity|].
      exact (Hx Hvx). }
    destruct o as [|p r]; [exact Hone|].
    change (members_text ((k, x) :: p :: r))
      with (quote k ++ str ":" ++ JSON_stringify x ++ str ","
            ++ members_text (p :: r)).
    replace (quote k ++ str ":" ++ JSON_stringify x ++ str ","
             ++ members_text (p :: r))
      with ((quote k ++ str ":" ++ JSON_stringify x) ++ str ","
            ++ members_text (p :: r))
      by (now rewrite <- !app_assoc).
    apply Forall_app. split; [exact Hone|].
    apply Forall_app. split; [apply latin1b_true; reflexivity|].
    exact (IHo Hvo).
Qed.

(** X11. [JSON.parse] inverts [JSON.stringify] on every value built from
    [null], booleans, integers, strings of code units, arrays and objects
    without a repeated property name: control characters, quotes,
    backslashes and unpaired surrogates are escaped on the way out and read
    back on the way in. *)
Theorem JSON_parse_inverts_stringify (v : JsValue) :
  plain v = true -> JSON_parse (JSON_stringify v) = Ok v.
Proof. apply JSON_round_trip. Qed.

Lemma JSON_parse_inverts_stringify_witness :
  JSON_parse (JSON_stringify
                (JArr [JObj [(str "name", JStr [34; 92; 10; 55357; 8364]);
                             (str "used", JNum (-1700000000000) 0)];
                       JNull; JBool false]))
  = Ok (JArr [JObj [(str "name", JStr [34; 92; 10; 55357; 8364]);
                    (str "used", JNum (-1700000000000) 0)];
              JNull; JBool false]).
Proof.
  apply (JSON_parse_inverts_stringify
           (JArr [JObj [(str "name", JStr [34; 92; 10; 55357; 8364]);
                        (str "used", JNum (-1700000000000) 0)];
                  JNull; JBool false])).
  vm_compute. reflexivity.
Defined.

(* ------------------------------------------------------------------ *)
(** * [exportKeys]: the indented text reads back *)

Lemma pretty_array indent x r :
  JSON_stringify_pretty indent (JArr (x :: r))
  = str "[" ++ [10] ++ (indent ++ gap)
    ++ pretty_elements (indent ++ gap) (x :: r) ++ [10] ++ indent ++ str "]".
Proof. reflexivity. Qed.

Lemma pretty_object indent p r :
  JSON_stringify_pretty indent (JObj (p :: r))
  = str "{" ++ [10] ++ (indent ++ gap)
    ++ pretty_members (indent ++ gap) (p :: r) ++ [10] ++ indent ++ str "}".
Proof. reflexivity. Qed.

Lemma blank_step c s1 st1 :
  c = 32 \/ c = 10 -> settle s1 = Some st1 ->
  json_step c s1 = Some (LIdle, st1).
Proof.
  intros Hc Hs. rewrite (delimiter_step _ _ _ Hs) by (destruct Hc; now subst).
  destruct Hc; now subst.
Qed.

(** White space between tokens completes a pending number and is
    otherwise skipped. *)
Lemma blank_run_skipped ws :
  blank_run ws -> forall s1 st1, settle s1 = Some st1 ->
  exists s2, json_run ws s1 = Some s2 /\ settle s2 = Some st1.
Proof.
  induction 1 as [|c ws Hc _ IH]; intros s1 st1 Hs; [eauto|].
  cbn [json_run]. rewrite (blank_step _ _ _ Hc Hs). cbn [mbind option_bind].
  now apply IH.
Qed.

Lemma blank_run_idle ws :
  blank_run ws -> forall st, json_run ws (LIdle, st) = Some (LIdle, st).
Proof.
  induction 1 as [|c ws Hc _ IH]; intros st; [reflexivity|].
  cbn [json_run].
  assert (json_step c (LIdle, st) = Some (LIdle, st)) as ->
    by (destruct Hc; now subst).
  cbn [mbind option_bind]. apply IH.
Qed.

Lemma blank_line inner : blank_run inner -> blank_run ([10] ++ inner).
Proof. intros H. apply Forall_cons_2; [now right|exact H]. Qed.

Lemma blank_inner indent : blank_run indent -> blank_run (indent ++ gap).
Proof.
  intros H. apply Forall_app. split; [exact H|].
  repeat apply Forall_cons_2; try apply Forall_nil_2; now left.
Qed.

Lemma atom_reads_back_pretty v :
  (forall indent, JSON_stringify_pretty indent v = JSON_stringify v) ->
  reads_back v -> reads_back_pretty v.
Proof. intros Heq Hv indent st st' _ Hm Hp. rewrite Heq. now apply Hv. Qed.

Lemma pretty_elements_run inner l :
  blank_run inner ->
  Forall reads_back_pretty l -> l <> [] ->
  forall es stack m, m = MValue \/ m = MValueOrClose ->
  exists s1,
    json_run (pretty_elements inner l)
             (LIdle, mkP (FArr es :: stack) m None) = Some s1
    /\ settle s1 = Some (mkP (FArr (rev l ++ es) :: stack) MAfter None).
Proof.
  intros Hin. induction 1 as [|x l Hx Hl IH]; [congruence|].
  intros _ es stack m Hm. destruct l as [|y r].
  - cbn [pretty_elements]. apply Hx; [exact Hin|exact Hm|reflexivity].
  - change (pretty_elements inner (x :: y :: r))
      with (JSON_stringify_pretty inner x ++ str "," ++ [10] ++ inner
            ++ pretty_elements inner (y :: r)).
    destruct (Hx inner (mkP (FArr es :: stack) m None)
                 (mkP (FArr (x :: es) :: stack) MAfter None) Hin Hm eq_refl)
      as (s1 & Hrun & Hs).
    rewrite json_run_app, Hrun. cbn [mbind option_bind].
    change (str ",") with [44]. cbn [app json_run].
    rewrite (delimiter_step _ _ _ Hs) by reflexivity.
    change (idle_step 44 (mkP (FArr (x :: es) :: stack) MAfter None))
      with (Some (LIdle, mkP (FArr (x :: es) :: stack) MValue None)).
    cbn [mbind option_bind].
    change (json_step 10 (LIdle, ?s)) with (Some (LIdle, s)).
    cbn [mbind option_bind]. rewrite json_run_app.
    rewrite (blank_run_idle inner Hin). cbn [mbind option_bind].
    destruct (IH ltac:(discriminate) (x :: es) stack MValue ltac:(now left))
      as (s3 & Hrun3 & Hs3).
    exists s3. split; [exact Hrun3|]. rewrite Hs3. do 3 f_equal.
    simpl. now rewrite <- !app_assoc.
Qed.

Lemma pretty_array_reads_back l :
  Forall reads_back_pretty l -> reads_back_pretty (JArr l).
Proof.
  intros Hl indent st st' Hin Hm Hp.
  assert (json_step 91 (LIdle, st)
          = Some (LIdle, mkP (FArr [] :: p_stack st) MValueOrClose None)) as Hopen.
  { change (json_step _ (LIdle, st)) with (emit TOpenArr st).
    unfold emit, feed. now destruct Hm as [-> | ->]. }
  destruct l as [|x r].
  - change (JSON_stringify_pretty indent (JArr [])) with [91; 93].
    cbn [json_run]. rewrite Hopen. cbn [mbind option_bind].
    change (json_step _ (LIdle, ?s)) with (emit TCloseArr s).
    unfold emit, feed. cbn [p_mode p_stack close_array rev].
    rewrite Hp. cbn [mbind option_bind]. eexists. split; reflexivity.
  - rewrite pretty_array. change (str "[") with [91]. change (str "]") with [93].
    cbn [app json_run]. rewrite Hopen. cbn [mbind option_bind].
    change (json_step 10 (LIdle, ?s)) with (Some (LIdle, s)).
    cbn [mbind option_bind].
    pose proof (blank_inner _ Hin) as Hinner.
    rewrite json_run_app, (blank_run_idle _ Hinner). cbn [mbind option_bind].
    destruct (pretty_elements_run (indent ++ gap) (x :: r) Hinner Hl
                ltac:(discriminate) [] (p_stack st) MValueOrClose
                ltac:(now right)) as (s1 & Hrun & Hs).
    rewrite json_run_app, Hrun. cbn [mbind option_bind].
    change (10 :: indent ++ [93]) with (([10] ++ indent) ++ [93]).
    rewrite json_run_app.
    destruct (blank_run_skipped _ (blank_line _ Hin) s1 _ Hs)
      as (s2 & Hrun2 & Hs2).
    rewrite Hrun2. cbn [mbind option_bind json_run].
    rewrite (delimiter_step _ _ _ Hs2) by reflexivity.
    change (idle_step _ ?s) with (emit TCloseArr s).
    unfold emit, feed. cbn [p_mode p_stack close_array].
    rewrite app_nil_r, rev_involutive, Hp. cbn [mbind option_bind].
    eexists. split; reflexivity.
Qed.

Lemma pretty_members_run inner o :
  blank_run inner ->
  Forall (fun p => wf_string (fst p) /\ reads_back_pretty (snd p)) o ->
  o <> [] ->
  forall acc stack m, m = MKeyOrClose \/ m = MKey ->
  exists s1,
    json_run (pretty_members inner o)
             (LIdle, mkP (FObj acc None :: stack) m None) = Some s1
    /\ settle s1
       = Some (mkP (FObj (build_object o acc) None :: stack) MAfter None).
Proof.
  intros Hin. induction 1 as [|[k x] o [Hk Hx] Ho IH]; [congruence|].
  intros _ acc stack m Hm. cbn [fst snd] in Hk, Hx.
  assert (json_run (quote k ++ str ": ")
            (LIdle, mkP (FObj acc None :: stack) m None)
          = Some (LIdle, mkP (FObj acc (Some k) :: stack) MValue None)) as Hkey.
  { rewrite json_run_app, (quote_run _ _ Hk).
    unfold emit, feed. cbn [p_mode p_stack].
    destruct Hm as [-> | ->]; reflexivity. }
  destruct (Hx inner (mkP (FObj acc (Some k) :: stack) MValue None)
               (mkP (FObj (set_prop acc k x) None :: stack) MAfter None)
               Hin ltac:(now left) eq_refl) as (s1 & Hrun & Hs).
  destruct o as [|p r].
  - change (pretty_members inner [(k, x)])
      with (quote k ++ str ": " ++ JSON_stringify_pretty inner x).
    rewrite app_assoc, json_run_app, Hkey. cbn [mbind option_bind].
    exists s1. split; [exact Hrun|exact Hs].
  - change (pretty_members inner ((k, x) :: p :: r))
      with (quote k ++ str ": " ++ JSON_stringify_pretty inner x ++ str ","
            ++ [10] ++ inner ++ pretty_members inner (p :: r)).
    rewrite app_assoc, json_run_app, Hkey. cbn [mbind option_bind].
    rewrite json_run_app, Hrun. cbn [mbind option_bind].
    change (str ",") with [44]. cbn [app json_run].
    rewrite (delimiter_step _ _ _ Hs) by reflexivity.
    change (idle_step 44 (mkP (FObj (set_prop acc k x) None :: stack) MAfter None))
      with (Some (LIdle, mkP (FObj (set_prop acc k x) None :: stack) MKey None)).
    cbn [mbind option_bind].
    change (json_step 10 (LIdle, ?s)) with (Some (LIdle, s)).
    cbn [mbind option_bind]. rewrite json_run_app.
    rewrite (blank_run_idle inner Hin). cbn [mbind option_bind].
    destruct (IH ltac:(discriminate) (set_prop acc k x) stack MKey
                 ltac:(now right)) as (s2 & Hrun2 & Hs2).
    exists s2. split; [exact Hrun2|exact Hs2].
Qed.

Lemma pretty_object_reads_back o :
  NoDup (fst <$> o) ->
  Forall (fun p => wf_string (fst p) /\ reads_back_pretty (snd p)) o ->
  reads_back_pretty (JObj o).
Proof.
  intros Hnd Ho indent st st' Hin Hm Hp.
  assert (json_step 123 (LIdle, st)
          = Some (LIdle, mkP (FObj [] None :: p_stack st) MKeyOrClose None))
    as Hopen.
  { change (json_step _ (LIdle, st)) with (emit TOpenObj st).
    unfold emit, feed. now destruct Hm as [-> | ->]. }
  destruct o as [|p r].
  - change (JSON_stringify_pretty indent (JObj [])) with [123; 125].
    cbn [json_run]. rewrite Hopen. cbn [mbind option_bind].
    change (json_step _ (LIdle, ?s)) with (emit TCloseObj s).
    unfold emit, feed. cbn [p_mode p_stack close_object].
    rewrite Hp. cbn [mbind option_bind]. eexists. split; reflexivity.
  - rewrite pretty_object. change (str "{") with [123].
    change (str "}") with [125].
    cbn [app json_run]. rewrite Hopen. cbn [mbind option_bind].
    change (json_step 10 (LIdle, ?s)) with (Some (LIdle, s)).
    cbn [mbind option_bind].
    pose proof (blank_inner _ Hin) as Hinner.
    rewrite json_run_app, (blank_run_idle _ Hinner). cbn [mbind option_bind].
    destruct (pretty_members_run (indent ++ gap) (p :: r) Hinner Ho
                ltac:(discriminate) [] (p_stack st) MKeyOrClose
                ltac:(now left)) as (s1 & Hrun & Hs).
    rewrite json_run_app, Hrun. cbn [mbind option_bind].
    change (10 :: indent ++ [125]) with (([10] ++ indent) ++ [125]).
    rewrite json_run_app.
    destruct (blank_run_skipped _ (blank_line _ Hin) s1 _ Hs)
      as (s2 & Hrun2 & Hs2).
    rewrite Hrun2. cbn [mbind option_bind json_run].
    rewrite (delimiter_step _ _ _ Hs2) by reflexivity.
    change (idle_step _ ?s) with (emit TCloseObj s).
    unfold emit, feed. cbn [p_mode p_stack close_object].
    rewrite (build_object_nodup (p :: r) []) by exact Hnd.
    cbn [app]. rewrite Hp. cbn [mbind option_bind].
    eexists. split; reflexivity.
Qed.

Lemma plain_reads_back_pretty v : plain v = true -> reads_back_pretty v.
Proof.
  unfold plain. induction v as [|b|m e|s|l IH|o IH] using JsValue_nested_ind;
    cbn [plain_with]; intros Hv.
  - apply atom_reads_back_pretty; [reflexivity|apply null_reads_back].
  - apply atom_reads_back_pretty; [reflexivity|].
    destruct b; [apply true_reads_back|apply false_reads_back].
  - apply Z.eqb_eq in Hv as ->.
    apply atom_reads_back_pretty; [reflexivity|apply integer_reads_back].
  - apply atom_reads_back_pretty; [reflexivity|].
    apply string_reads_back, wf_stringb_true, Hv.
  - apply pretty_array_reads_back. rewrite forallb_forall in Hv.
    apply Forall_forall. intros x Hx. rewrite Forall_forall in IH.
    apply (IH x Hx), Hv, list_elem_of_In, Hx.
  - apply andb_true_iff in Hv as [Hnd Hv]. apply bool_decide_eq_true in Hnd.
    apply pretty_object_reads_back; [exact Hnd|].
    rewrite forallb_forall in Hv. apply Forall_forall. intros p Hp.
    rewrite Forall_forall in IH.
    specialize (Hv p (proj1 (list_elem_of_In _ _) Hp)).
    apply andb_true_iff in Hv as [Hk Hx].
    split; [apply wf_stringb_true, Hk|apply (IH p Hp), Hx].
Qed.

Lemma JSON_pretty_round_trip v :
  plain v = true -> JSON_parse (JSON_stringify_pretty [] v) = Ok v.
Proof.
  intros Hv.
  destruct (plain_reads_back_pretty v Hv [] (mkP [] MValue None)
              (mkP [] MDone (Some v)) ltac:(constructor)
              ltac:(now left) eq_refl) as (s1 & Hrun & Hs).
  unfold JSON_parse. rewrite Hrun. cbn [mbind option_bind].
  unfold json_finish. destruct s1 as [ls st]. unfold settle in Hs.
  cbn [fst snd] in Hs.
  destruct ls; try discriminate Hs.
  - injection Hs as ->. reflexivity.
  - rewrite Hs. reflexivity.
Qed.

(* ------------------------------------------------------------------ *)
(** * The vault as a store of entries *)

(** ** The master key *)

Lemma master_chars_length : len KeyStorage.chars = 72.
Proof. reflexivity. Qed.

Lemma master_chars_latin1 : latin1 KeyStorage.chars.
Proof. apply latin1b_true. vm_compute. reflexivity. Qed.

Lemma master_char b :
  0 <= b ->
  exists c, char_at_or_undefined KeyStorage.chars (Z.rem b (len KeyStorage.chars)) = [c]
            /\ c ∈ KeyStorage.chars.
Proof.
  intros Hb. unfold char_at_or_undefined, charCodeAt.
  rewrite master_chars_length, Z.rem_mod_nonneg by lia.
  pose proof (Z.mod_pos_bound b 72 ltac:(lia)) as Hm.
  destruct (Z.ltb_spec (b mod 72) 0); [lia|].
  destruct (lookup_lt_is_Some_2 KeyStorage.chars (Z.to_nat (b mod 72))) as [c Hc].
  { change (length KeyStorage.chars) with 72%nat. lia. }
  rewrite Hc. exists c. split; [reflexivity|].
  apply list_elem_of_lookup. eauto.
Qed.

Lemma master_key_of_bytes bytes :
  Forall (fun b => 0 <= b) bytes ->
  exists k,
    mjoin ((fun b => char_at_or_undefined KeyStorage.chars
                       (Z.rem b (len KeyStorage.chars))) <$> bytes) = k
    /\ length k = length bytes /\ Forall (fun c => c ∈ KeyStorage.chars) k.
Proof.
  induction 1 as [|b bytes Hb _ (k & Hk & Hlen & Hl)].
  - exists []. repeat split. constructor.
  - destruct (master_char b Hb) as (c & Hc & Hcl).
    exists (c :: k). rewrite fmap_cons. simpl mjoin. rewrite Hc, Hk.
    repeat split; [simpl; lia|]. now apply Forall_cons_2.
Qed.

Lemma master_alphabet_latin1 k :
  Forall (fun c => c ∈ KeyStorage.chars) k -> latin1 k.
Proof.
  intros H. eapply Forall_impl; [exact H|]. intros c Hc. simpl in Hc.
  pose proof master_chars_latin1 as Hl. unfold latin1 in Hl.
  rewrite Forall_forall in Hl. now apply Hl.
Qed.

Lemma generateMasterKey_ok w :
  exists k w',
    generateMasterKey w = (Ok k, w')
    /\ storage w' = storage w /\ storage_ok w' = storage_ok w
    /\ length k = 32%nat /\ Forall (fun c => c ∈ KeyStorage.chars) k.
Proof.
  unfold generateMasterKey, js_bind.
  rewrite (random_Uint8Array_ok 32 w) by lia.
  destruct (master_key_of_bytes
              ((fun i => random_bytes w i mod 256) <$> seq 0 (Z.to_nat 32)))
    as (k & Hk & Hlen & Hl).
  { apply Forall_fmap, Forall_forall. intros i _. simpl.
    pose proof (Z.mod_pos_bound (random_bytes w i) 256). lia. }
  eexists _, _. split; [unfold js_ret; rewrite Hk; reflexivity|].
  split; [reflexivity|]. split; [reflexivity|]. split; [|exact Hl].
  rewrite Hlen, length_fmap, length_seq. reflexivity.
Qed.

Lemma stored_master_Some w k :
  stored_master w = Some k -> storage w !! ENCRYPTION_KEY = Some k /\ k <> [].
Proof.
  unfold stored_master.
  destruct (storage w !! ENCRYPTION_KEY) as [[|c r]|]; try discriminate.
  intros [= <-]. split; [reflexivity|discriminate].
Qed.

Lemma getMasterKey_stored w k :
  storage_ok w = true -> stored_master w = Some k ->
  getMasterKey w = (Ok k, w).
Proof.
  intros Hok Hk. apply stored_master_Some in Hk as [Hk Hne].
  unfold getMasterKey, js_bind, localStorage_getItem. rewrite Hok, Hk.
  destruct k; [congruence|reflexivity].
Qed.

Lemma getMasterKey_fresh w :
  storage_ok w = true -> stored_master w = None ->
  exists k w',
    getMasterKey w = (Ok k, w')
    /\ length k = 32%nat /\ Forall (fun c => c ∈ KeyStorage.chars) k
    /\ storage w' = <[ENCRYPTION_KEY := k]> (storage w)
    /\ storage_ok w' = true.
Proof.
  intros Hok Hk.
  destruct (generateMasterKey_ok w) as (k & w1 & Hg & Hs & Hok1 & Hlen & Hl).
  exists k.
  assert (forall item, (item = None \/ item = Some []) ->
            storage w !! ENCRYPTION_KEY = item ->
            exists w', getMasterKey w = (Ok k, w')
                       /\ storage w' = <[ENCRYPTION_KEY := k]> (storage w)
                       /\ storage_ok w' = true) as Hcase.
  { intros item Hitem Hget.
    unfold getMasterKey, js_bind at 1, localStorage_getItem.
    rewrite Hok, Hget.
    assert (match item with
            | Some (c :: k0) => js_ret (c :: k0)
            | _ => js_bind generateMasterKey
                     (fun masterKey =>
                        js_bind (localStorage_setItem ENCRYPTION_KEY masterKey)
                                (fun _ => js_ret masterKey))
            end
            = js_bind generateMasterKey
                (fun masterKey =>
                   js_bind (localStorage_setItem ENCRYPTION_KEY masterKey)
                           (fun _ => js_ret masterKey))) as ->
      by (destruct Hitem as [-> | ->]; reflexivity).
    unfold js_bind at 1. rewrite Hg.
    unfold js_bind, localStorage_setItem, js_ret. rewrite Hok1, Hok.
    eexists. split; [reflexivity|]. cbn [storage storage_ok].
    now rewrite Hs. }
  unfold stored_master in Hk.
  destruct (storage w !! ENCRYPTION_KEY) as [[|c r]|] eqn:E; try discriminate.
  - destruct (Hcase (Some []) ltac:(now right) eq_refl) as (w' & H1 & H2 & H3).
    exists w'. repeat split; assumption.
  - destruct (Hcase None ltac:(now left) eq_refl) as (w' & H1 & H2 & H3).
    exists w'. repeat split; assumption.
Qed.

Lemma getMasterKey_locked w :
  storage_ok w = false -> getMasterKey w = (Throw SecurityError, w).
Proof.
  intros Hok. unfold getMasterKey, js_bind, localStorage_getItem.
  now rewrite Hok.
Qed.

(** Whatever the store holds, an accessible store yields a master key,
    which is in the store afterwards. *)
Lemma getMasterKey_cases w :
  storage_ok w = true -> master_latin1 w ->
  exists k w',
    getMasterKey w = (Ok k, w')
    /\ k <> [] /\ latin1 k
    /\ storage_ok w' = true
    /\ stored_master w' = Some k
    /\ master_latin1 w'
    /\ storage w' !! STORAGE_KEY = storage w !! STORAGE_KEY
    /\ (forall k0, stored_master w = Some k0 -> k0 = k /\ w' = w)
    /\ (stored_master w = None ->
        length k = 32%nat
        /\ storage w' = <[ENCRYPTION_KEY := k]> (storage w)).
Proof.
  intros Hok Hlat. destruct (stored_master w) as [k|] eqn:Hk.
  - exists k, w. pose proof (stored_master_Some _ _ Hk) as [Hget Hne].
    split; [now apply getMasterKey_stored|].
    split; [exact Hne|]. split; [exact (Hlat _ Hget)|].
    split; [exact Hok|]. split; [exact Hk|]. split; [exact Hlat|].
    split; [reflexivity|]. split; [|discriminate].
    intros k0 [= <-]. now split.
  - destruct (getMasterKey_fresh w Hok Hk) as (k & w' & Hg & Hlen & Hl & Hs & Hok').
    exists k, w'. split; [exact Hg|].
    assert (k <> []) as Hne by (intros ->; discriminate Hlen).
    split; [exact Hne|]. split; [exact (master_alphabet_latin1 _ Hl)|].
    split; [exact Hok'|].
    split.
    { unfold stored_master. rewrite Hs, lookup_insert_eq.
      destruct k; [congruence|reflexivity]. }
    split.
    { intros k0. rewrite Hs, lookup_insert_eq. intros [= <-].
      exact (master_alphabet_latin1 _ Hl). }
    split.
    { rewrite Hs. now apply lookup_insert_ne. }
    split; [discriminate|]. intros _. now split.
Qed.

(** ** The codec *)

Lemma master_stream k data :
  latin1 k -> latin1 data ->
  btoa (master_loop k data) = Ok (b64_encode (master_loop k data))
  /\ atob (b64_encode (master_loop k data)) = Ok (master_loop k data)
  /\ master_loop k (master_loop k data) = data.
Proof.
  intros Hk Hd.
  destruct (stream_round_trip k Hk data Hd) as (c & Hb & Ha & Hx).
  rewrite !master_loop_xor_loop.
  pose proof (btoa_ok_latin1 _ _ Hb) as [_ ->]. auto.
Qed.

Lemma encryptData_ok data w :
  storage_ok w = true -> master_latin1 w -> latin1 data ->
  exists k w',
    getMasterKey w = (Ok k, w')
    /\ encryptData data w = (Ok (b64_encode (master_loop k data)), w').
Proof.
  intros Hok Hlat Hd.
  destruct (getMasterKey_cases w Hok Hlat) as (k & w' & Hg & _ & Hl & _).
  exists k, w'. split; [exact Hg|].
  unfold encryptData, js_try, js_bind, js_lift. rewrite Hg.
  destruct (master_stream k data Hl Hd) as [-> _]. reflexivity.
Qed.

Lemma encryptData_locked data w :
  storage_ok w = false -> latin1 data ->
  encryptData data w = (Ok (b64_encode data), w).
Proof.
  intros Hok Hd. unfold encryptData, js_try, js_bind, js_lift.
  rewrite (getMasterKey_locked _ Hok), (btoa_latin1 _ Hd). reflexivity.
Qed.

Lemma decryptData_ok k data w :
  storage_ok w = true -> stored_master w = Some k -> latin1 k -> latin1 data ->
  decryptData (b64_encode (master_loop k data)) w = (Ok data, w).
Proof.
  intros Hok Hk Hl Hd.
  pose proof (decryptData_cases (b64_encode (master_loop k data)) w) as H.
  rewrite (getMasterKey_stored _ _ Hok Hk) in H.
  destruct (master_stream k data Hl Hd) as (_ & Ha & Hx).
  rewrite Ha in H. now rewrite H, Hx.
Qed.

Lemma decryptData_locked data w :
  storage_ok w = false -> latin1 data ->
  decryptData (b64_encode data) w = (Ok data, w).
Proof.
  intros Hok Hd.
  pose proof (decryptData_cases (b64_encode data) w) as H.
  rewrite (getMasterKey_locked _ Hok), (atob_b64_encode _ Hd) in H.
  exact H.
Qed.

Lemma encryptData_throws data w :
  master_latin1 w -> wf_string data -> ~ latin1 data ->
  exists w', encryptData data w = (Throw InvalidCharacterError, w').
Proof.
  intros Hlat Hwf Hn.
  assert (btoa data = Throw InvalidCharacterError) as Hplain.
  { destruct (btoa data) as [c|e] eqn:E.
    - apply btoa_ok_latin1 in E as [Hl _]. contradiction.
    - unfold btoa in E. destruct (forallb _ data); [discriminate|].
      now injection E as <-. }
  unfold encryptData, js_try, js_bind, js_lift.
  destruct (storage_ok w) eqn:Hok.
  - destruct (getMasterKey_cases w Hok Hlat) as (k & w' & Hg & _ & Hl & _).
    rewrite Hg. rewrite master_loop_xor_loop.
    destruct (stream_encrypt_iff k data Hl Hwf) as [_ Hthrow].
    rewrite (Hthrow Hn), Hplain. eauto.
  - rewrite (getMasterKey_locked _ Hok), Hplain. eauto.
Qed.

(** ** Entries *)

Lemma entries_storable keys : Forall entry keys -> storable (JArr keys) = true.
Proof.
  intros H. unfold storable. cbn [plain_with]. apply forallb_forall.
  intros k Hk. rewrite Forall_forall in H.
  apply (H k (proj2 (list_elem_of_In _ _) Hk)).
Qed.

Lemma entries_filter keys :
  Forall entry keys -> List.filter has_key_shape keys = keys.
Proof.
  induction 1 as [|k keys (_ & Hk & _) _ IH]; [reflexivity|].
  cbn [List.filter]. now rewrite Hk, IH.
Qed.

Lemma stringify_array_nonempty keys : JSON_stringify (JArr keys) <> [].
Proof. rewrite stringify_array. discriminate. Qed.

Lemma master_loop_nonempty k data : data <> [] -> master_loop k data <> [].
Proof. destruct data; [congruence|discriminate]. Qed.

Lemma b64_encode_nonempty s : s <> [] -> b64_encode s <> [].
Proof. destruct s as [|a [|b [|c r]]]; [congruence|discriminate..]. Qed.

Lemma payload_nonempty k keys : payload_of k keys <> [].
Proof.
  apply b64_encode_nonempty, master_loop_nonempty, stringify_array_nonempty.
Qed.

(** The payload of a list of entries reads back as the list. *)
Lemma payload_reads_back w k keys :
  storage_ok w = true -> stored_master w = Some k -> latin1 k ->
  Forall entry keys ->
  exists text,
    decryptData (payload_of k keys) w = (Ok text, w)
    /\ keys_of_text text = keys.
Proof.
  intros Hok Hk Hl He. pose proof (entries_storable _ He) as Hs.
  exists (JSON_stringify (JArr keys)). split.
  - apply decryptData_ok; try assumption. now apply stringify_latin1.
  - unfold keys_of_text.
    rewrite (JSON_round_trip _ (storable_plain _ Hs)).
    now apply entries_filter.
Qed.

Lemma getAllKeys_vault w keys :
  vault_state w keys -> getAllKeys w = (Ok keys, w).
Proof.
  intros (Hok & Hlat & Hpay & He).
  destruct (getAllKeys_cases w) as (keys1 & w1 & Hg & _ & Hcase).
  specialize (Hcase Hok). rewrite Hg.
  destruct (storage w !! STORAGE_KEY) as [[|c p]|].
  - destruct Hcase as [-> ->]. now rewrite Hpay.
  - destruct Hpay as (k & Hk & Hp). destruct Hcase as (text & Hd & ->).
    pose proof (stored_master_Some _ _ Hk) as [Hget _].
    destruct (payload_reads_back w k keys Hok Hk (Hlat _ Hget) He)
      as (text' & Hd' & Hkeys).
    rewrite Hp, Hd' in Hd. injection Hd as <- <-. now rewrite Hkeys.
  - destruct Hcase as [-> ->]. now rewrite Hpay.
Qed.

Lemma getKey_vault w keys id :
  vault_state w keys -> id <> [] ->
  getKey id w = (Ok (List.find (id_is (Some (JStr id))) keys), w).
Proof.
  intros Hv Hid. unfold getKey, js_try. destruct id as [|c r]; [congruence|].
  unfold js_bind. rewrite (getAllKeys_vault _ _ Hv). reflexivity.
Qed.

(** Encoding a list of entries and writing it leaves the vault holding
    the list. *)
Lemma persist_vault w keys :
  storage_ok w = true -> master_latin1 w -> Forall entry keys ->
  exists enc w1 w2,
    encryptData (JSON_stringify (JArr keys)) w = (Ok enc, w1)
    /\ localStorage_setItem STORAGE_KEY enc w1 = (Ok tt, w2)
    /\ vault_state w2 keys
    /\ (forall k, stored_master w = Some k -> stored_master w2 = Some k).
Proof.
  intros Hok Hlat He.
  pose proof (stringify_latin1 _ (entries_storable _ He)) as Htext.
  destruct (getMasterKey_cases w Hok Hlat)
    as (k & w1 & Hg & Hne & Hl & Hok1 & Hk1 & Hlat1 & _ & Hsame & _).
  destruct (encryptData_ok _ w Hok Hlat Htext) as (k' & w1' & Hg' & Henc).
  rewrite Hg in Hg'. injection Hg' as <- <-.
  fold (payload_of k keys) in Henc.
  eexists _, _, _. split; [exact Henc|].
  unfold localStorage_setItem. rewrite Hok1. split; [reflexivity|].
  assert (stored_master
            (mkWorld (<[STORAGE_KEY := payload_of k keys]> (storage w1))
                     true (random_bytes w1) (clock w1) (math_random w1))
          = Some k) as Hk2.
  { unfold stored_master in *. cbn [storage].
    rewrite lookup_insert_ne by discriminate. exact Hk1. }
  split.
  - split; [reflexivity|]. split.
    { intros k0. cbn [storage]. rewrite lookup_insert_ne by discriminate.
      apply Hlat1. }
    split; [|exact He]. cbn [storage]. rewrite lookup_insert_eq.
    pose proof (payload_nonempty k keys) as Hpn.
    destruct (payload_of k keys) as [|c p] eqn:E; [congruence|].
    exists k. split; [exact Hk2|now rewrite E].
  - intros k0 Hk0. destruct (Hsame k0 Hk0) as [-> _]. exact Hk2.
Qed.

(** ** Entries under [set_prop] *)

Lemma set_prop_names (o : JsObject) k v :
  fst <$> set_prop o k v
  = if bool_decide (k ∈ (fst <$> o)) then fst <$> o else (fst <$> o) ++ [k].
Proof.
  induction o as [|[k0 v0] o IH].
  - reflexivity.
  - cbn [set_prop]. unfold jsstring_eqb.
    destruct (decide (k0 = k)) as [->|Hne].
    + rewrite bool_decide_eq_true_2 by reflexivity.
      rewrite !fmap_cons. cbn [fst].
      rewrite bool_decide_eq_true_2 by apply list_elem_of_here. reflexivity.
    + rewrite bool_decide_eq_false_2 by exact Hne.
      rewrite !fmap_cons, IH. cbn [fst].
      destruct (decide (k ∈ (fst <$> o))) as [Hin|Hni].
      * rewrite !bool_decide_eq_true_2;
          [reflexivity|now apply list_elem_of_further|exact Hin].
      * rewrite !bool_decide_eq_false_2; [reflexivity| |exact Hni].
        rewrite not_elem_of_cons. split; [congruence|exact Hni].
Qed.

Lemma storable_object o :
  storable (JObj o) = true
  <-> NoDup (fst <$> o)
      /\ Forall (fun p => latin1b (fst p) = true /\ storable (snd p) = true) o.
Proof.
  unfold storable. cbn [plain_with].
  rewrite andb_true_iff, bool_decide_eq_true, forallb_forall, Forall_forall.
  split; intros [Hnd H]; (split; [exact Hnd|]); intros p Hp.
  - apply andb_true_iff, H, list_elem_of_In, Hp.
  - apply andb_true_iff, H, list_elem_of_In, Hp.
Qed.

Lemma storable_set_prop o k v :
  storable (JObj o) = true -> latin1b k = true -> storable v = true ->
  storable (JObj (set_prop o k v)) = true.
Proof.
  rewrite !storable_object. intros [Hnd Ho] Hk Hv. split.
  - rewrite set_prop_names. case_bool_decide as Hin; [exact Hnd|].
    apply NoDup_app. split; [exact Hnd|]. split.
    + intros x Hx Hx'. apply list_elem_of_singleton in Hx'. now subst.
    + apply NoDup_singleton.
  - induction Ho as [|[k0 v0] o H0 Ht IH].
    + apply Forall_cons_2; [now split|apply Forall_nil_2].
    + cbn [set_prop]. destruct (jsstring_eqb k0 k) eqn:E.
      * apply Forall_cons_2; [|exact Ht]. cbn [fst snd] in *.
        split; [apply H0|exact Hv].
      * apply Forall_cons_2; [exact H0|]. apply IH.
        rewrite fmap_cons in Hnd. now apply NoDup_cons in Hnd as [_ Hnd].
Qed.

Lemma get_prop_storable o k x :
  storable (JObj o) = true -> get_prop o k = Some x -> storable x = true.
Proof.
  rewrite storable_object. intros [_ Ho].
  induction Ho as [|[k0 v0] o [_ H0] _ IH]; [discriminate|].
  cbn [get_prop]. destruct (jsstring_eqb k0 k); [|exact IH].
  now intros [= <-].
Qed.

Lemma or_else_storable o k now :
  storable (JObj o) = true -> storable (or_else (get_prop o k) now) = true.
Proof.
  intros Ho. unfold or_else.
  destruct (get_prop o k) as [x|] eqn:E; [|reflexivity].
  destruct (truthy (Some x)); [|reflexivity].
  exact (get_prop_storable _ _ _ Ho E).
Qed.

Lemma has_key_shape_set_prop o k v :
  k <> str "id" -> k <> str "name" -> k <> str "key" -> k <> str "algorithm" ->
  has_key_shape (JObj (set_prop o k v)) = has_key_shape (JObj o).
Proof.
  intros H1 H2 H3 H4. unfold has_key_shape.
  now rewrite !get_prop_set_prop_ne by assumption.
Qed.

Lemma complete_set_prop o k v :
  k <> str "id" -> k <> str "name" -> k <> str "key" -> k <> str "algorithm" ->
  complete (JObj (set_prop o k v)) = complete (JObj o).
Proof.
  intros H1 H2 H3 H4. unfold complete, missing_field.
  now rewrite !get_prop_set_prop_ne by assumption.
Qed.

Lemma entry_replacement key now :
  entry (JObj key) -> entry (replacement key now).
Proof.
  intros (Hs & Hk & Hc). unfold replacement. split; [|split].
  - apply storable_set_prop; [exact Hs|reflexivity..].
  - rewrite has_key_shape_set_prop by discriminate. exact Hk.
  - rewrite complete_set_prop by discriminate. exact Hc.
Qed.

Lemma entry_appended key now1 now2 :
  entry (JObj key) -> entry (appended key now1 now2).
Proof.
  intros (Hs & Hk & Hc). unfold appended.
  assert (storable (JObj (set_prop key (str "created")
                            (or_else (get_prop key (str "created")) now1)))
          = true) as Hs1.
  { apply storable_set_prop; [exact Hs|reflexivity|].
    now apply or_else_storable. }
  split; [|split].
  - apply storable_set_prop; [exact Hs1|reflexivity|].
    now apply or_else_storable.
  - rewrite !has_key_shape_set_prop by discriminate. exact Hk.
  - rewrite !complete_set_prop by discriminate. exact Hc.
Qed.

Lemma entry_complete key : entry (JObj key) -> missing_field key = false.
Proof.
  intros (_ & _ & Hc). unfold complete in Hc. now destruct (missing_field key).
Qed.

Lemma entries_upserted key keys clock :
  entry (JObj key) -> Forall entry keys ->
  Forall entry (upserted key keys clock).
Proof.
  intros Hk He. unfold upserted.
  destruct (findIndex _ keys) as [i|].
  - apply Forall_insert; [exact He|]. now apply entry_replacement.
  - apply Forall_app. split; [exact He|].
    apply Forall_cons_2; [|apply Forall_nil_2]. now apply entry_appended.
Qed.

(** ** [saveKey] and [deleteKey] on a vault *)

Lemma Date_now_storage w r w' :
  Date_now w = (r, w') ->
  storage w' = storage w /\ storage_ok w' = storage_ok w.
Proof. unfold Date_now. intros [= _ <-]. split; reflexivity. Qed.

Lemma or_now_storage v w r w' :
  or_now v w = (r, w') ->
  storage w' = storage w /\ storage_ok w' = storage_ok w.
Proof.
  unfold or_now, js_bind, js_ret.
  destruct v as [x|]; [destruct (truthy (Some x))|]; cbn [Date_now];
    intros [= _ <-]; split; reflexivity.
Qed.

Lemma upsert_upserted key keys w :
  exists w',
    upsert key keys w = (Ok (upserted key keys (clock w)), w')
    /\ storage w' = storage w /\ storage_ok w' = storage_ok w.
Proof.
  unfold upsert, upserted.
  destruct (findIndex _ keys) as [i|].
  - eexists. split; [reflexivity|]. split; reflexivity.
  - destruct (or_now_spec (get_prop key (str "created")) w) as (w1 & H1 & Hc1).
    destruct (or_now_spec (get_prop key (str "used")) w1) as (w2 & H2 & _).
    pose proof (or_now_storage _ _ _ _ H1) as [Hs1 Ho1].
    pose proof (or_now_storage _ _ _ _ H2) as [Hs2 Ho2].
    unfold js_bind. rewrite H1, H2. eexists. split.
    + unfold js_ret, appended. now rewrite Hc1.
    + split; congruence.
Qed.

Lemma vault_state_storage w w' keys :
  storage w' = storage w -> storage_ok w' = storage_ok w ->
  vault_state w keys -> vault_state w' keys.
Proof.
  intros Hs Ho (Hok & Hlat & Hpay & He).
  unfold vault_state, master_latin1, stored_master in *.
  rewrite Hs, Ho. auto.
Qed.

Lemma saveKey_vault w keys key :
  vault_state w keys -> entry (JObj key) ->
  exists w',
    saveKey key w = (Ok true, w')
    /\ vault_state w' (upserted key keys (clock w)).
Proof.
  intros Hv Hk. pose proof (entry_complete _ Hk) as Hm.
  pose proof Hv as (Hok & Hlat & _ & He).
  destruct (upsert_upserted key keys w) as (w2 & Hu & Hs2 & Ho2).
  destruct (persist_vault w2 (upserted key keys (clock w)))
    as (enc & w3 & w4 & Henc & Hset & Hv4 & _).
  { congruence. }
  { unfold master_latin1. rewrite Hs2. exact Hlat. }
  { now apply entries_upserted. }
  exists w4. split; [|exact Hv4].
  unfold saveKey, js_try. rewrite Hm.
  unfold js_bind at 1. rewrite (getAllKeys_vault _ _ Hv).
  unfold js_bind at 1. rewrite Hu.
  unfold js_bind at 1. rewrite Henc.
  unfold js_bind. rewrite Hset. reflexivity.
Qed.

Lemma entries_filtered (p : JsValue -> bool) keys :
  Forall entry keys -> Forall entry (List.filter p keys).
Proof.
  intros He. apply Forall_forall. intros k Hk.
  apply list_elem_of_In, filter_In in Hk as [Hk _].
  rewrite Forall_forall in He. apply He, list_elem_of_In, Hk.
Qed.

Lemma deleteKey_vault w keys id :
  vault_state w keys -> id <> [] ->
  exists w',
    deleteKey id w = (Ok true, w')
    /\ vault_state w' (List.filter (other_id id) keys).
Proof.
  intros Hv Hid. pose proof Hv as (Hok & Hlat & _ & He).
  destruct (persist_vault w (List.filter (other_id id) keys) Hok Hlat)
    as (enc & w3 & w4 & Henc & Hset & Hv4 & _).
  { now apply entries_filtered. }
  exists w4. split; [|exact Hv4].
  unfold deleteKey, js_try. destruct id as [|c r]; [congruence|].
  unfold js_bind at 1. rewrite (getAllKeys_vault _ _ Hv).
  unfold js_bind at 1. fold (other_id (c :: r)). rewrite Henc.
  unfold js_bind. rewrite Hset. reflexivity.
Qed.

(** ** Looking entries up by id *)

Lemma id_is_spec id k :
  id_is (Some (JStr id)) k = true <-> id_of k = Some (JStr id).
Proof.
  unfold id_is, id_of. destruct k as [| | | | |o];
    try (split; discriminate).
  destruct (get_prop o (str "id")) as [[| | |s| |]|];
    try (split; discriminate).
  unfold jsstring_eqb. rewrite bool_decide_eq_true.
  split; [now intros ->|now intros [= ->]].
Qed.

Lemma id_is_other id id' k :
  id' <> id -> id_is (Some (JStr id)) k = true ->
  id_is (Some (JStr id')) k = false.
Proof.
  intros Hne H. apply id_is_spec in H.
  destruct (id_is (Some (JStr id')) k) eqn:E; [|reflexivity].
  apply id_is_spec in E. congruence.
Qed.

Lemma find_insert_first (p : JsValue -> bool) keys i new :
  findIndex p keys = Some i -> p new = true ->
  List.find p (<[i := new]> keys) = Some new.
Proof.
  revert i. induction keys as [|k keys IH]; intros i; [discriminate|].
  cbn [findIndex]. destruct (p k) eqn:Ek.
  - intros [= <-] Hn. cbn. now rewrite Hn.
  - destruct (findIndex p keys) as [j|]; [|discriminate].
    intros [= <-] Hn. cbn. rewrite Ek. now apply IH.
Qed.

Lemma find_insert_other (q : JsValue -> bool) keys i new old :
  keys !! i = Some old -> q old = false -> q new = false ->
  List.find q (<[i := new]> keys) = List.find q keys.
Proof.
  revert i. induction keys as [|k keys IH]; intros [|i]; try discriminate.
  - intros [= ->] Ho Hn. cbn. now rewrite Ho, Hn.
  - intros Hl Ho Hn. cbn. destruct (q k); [reflexivity|]. now apply (IH i).
Qed.

Lemma find_app_last (p : JsValue -> bool) keys new :
  findIndex p keys = None -> p new = true ->
  List.find p (keys ++ [new]) = Some new.
Proof.
  intros Hf Hn. apply findIndex_None in Hf.
  induction Hf as [|k keys Hk _ IH]; cbn; [now rewrite Hn|].
  now rewrite Hk.
Qed.

Lemma find_app_other (q : JsValue -> bool) keys new :
  q new = false -> List.find q (keys ++ [new]) = List.find q keys.
Proof.
  intros Hn. induction keys as [|k keys IH]; cbn; [now rewrite Hn|].
  now destruct (q k).
Qed.

Lemma find_filter_same id keys :
  List.find (id_is (Some (JStr id))) (List.filter (other_id id) keys) = None.
Proof.
  induction keys as [|k keys IH]; [reflexivity|].
  cbn [List.filter]. unfold other_id at 1.
  destruct (id_is (Some (JStr id)) k) eqn:E; cbn [negb]; [exact IH|].
  cbn [List.find]. now rewrite E.
Qed.

Lemma find_filter_other id id' keys :
  id' <> id ->
  List.find (id_is (Some (JStr id'))) (List.filter (other_id id) keys)
  = List.find (id_is (Some (JStr id'))) keys.
Proof.
  intros Hne. induction keys as [|k keys IH]; [reflexivity|].
  cbn [List.filter List.find]. unfold other_id at 1.
  destruct (id_is (Some (JStr id)) k) eqn:E; cbn [negb].
  - now rewrite (id_is_other _ _ _ Hne E).
  - cbn [List.find]. now rewrite IH.
Qed.

Lemma id_of_replacement key now :
  id_of (replacement key now) = get_prop key (str "id").
Proof. unfold id_of, replacement. now rewrite get_prop_set_prop_ne. Qed.

Lemma id_of_appended key now1 now2 :
  id_of (appended key now1 now2) = get_prop key (str "id").
Proof. unfold id_of, appended. now rewrite !get_prop_set_prop_ne. Qed.

(** The entry [saveKey] writes for [key]. *)
Lemma find_upserted_same key keys clock id :
  get_prop key (str "id") = Some (JStr id) ->
  List.find (id_is (Some (JStr id))) (upserted key keys clock)
  = Some (match findIndex (id_is (Some (JStr id))) keys with
          | Some _ => replacement key (clock 0%nat)
          | None =>
              appended key (clock 0%nat)
                (clock (if truthy (get_prop key (str "created"))
                        then 0 else 1)%nat)
          end).
Proof.
  intros Hid. unfold upserted. rewrite Hid.
  destruct (findIndex _ keys) as [i|] eqn:Ef.
  - apply find_insert_first; [exact Ef|].
    apply id_is_spec. now rewrite id_of_replacement.
  - apply find_app_last; [exact Ef|].
    apply id_is_spec. now rewrite id_of_appended.
Qed.

Lemma find_upserted_other key keys clock id id' :
  get_prop key (str "id") = Some (JStr id) -> id' <> id ->
  List.find (id_is (Some (JStr id'))) (upserted key keys clock)
  = List.find (id_is (Some (JStr id'))) keys.
Proof.
  intros Hid Hne. unfold upserted. rewrite Hid.
  destruct (findIndex _ keys) as [i|] eqn:Ef.
  - destruct (findIndex_Some _ _ _ Ef) as [(old & Hold & Hp) _].
    apply (find_insert_other _ _ _ _ old Hold).
    + exact (id_is_other _ _ _ Hne Hp).
    + apply (id_is_other id); [exact Hne|].
      apply id_is_spec. now rewrite id_of_replacement.
  - apply find_app_other. apply (id_is_other id); [exact Hne|].
    apply id_is_spec. now rewrite id_of_appended.
Qed.

Lemma entry_id key :
  entry (JObj key) ->
  exists id, get_prop key (str "id") = Some (JStr id) /\ id <> [].
Proof.
  intros (_ & Hk & Hc). apply has_key_shape_spec in Hk
    as (o & id & name & k & a & [= <-] & Hid & _).
  exists id. split; [exact Hid|]. intros ->.
  unfold complete, missing_field in Hc. rewrite Hid in Hc. discriminate Hc.
Qed.

(** ** What the vault guarantees *)

Lemma fresh_vault bytes : vault_state (fresh_world bytes) [].
Proof.
  split; [reflexivity|]. split; [|split; [reflexivity|constructor]].
  intros k Hk. unfold fresh_world in Hk. cbn [storage] in Hk.
  rewrite lookup_empty in Hk. discriminate Hk.
Qed.

Lemma example_entry : entry (JObj example_key).
Proof. repeat split; vm_compute; reflexivity. Qed.

Lemma saved_vault : vault_state saved_world saved_keys.
Proof.
  destruct (saveKey_vault (fresh_world []) [] example_key
              (fresh_vault []) example_entry) as (w' & Hs & Hv).
  unfold saved_world. rewrite Hs. exact Hv.
Qed.

(** X12. On an accessible store [getMasterKey] always returns a
    non-empty key that is in the store afterwards, so that a second call
    returns the same key and changes nothing. A non-empty stored key is
    returned as it is, without touching the host; a missing or empty one
    is replaced by 32 fresh characters of the vault alphabet, written to
    the store. On a store that rejects access it throws. *)
Theorem getMasterKey_persistent (w : World) :
  (storage_ok w = false -> getMasterKey w = (Throw SecurityError, w))
  /\ (storage_ok w = true ->
      exists k w',
        getMasterKey w = (Ok k, w')
        /\ k <> []
        /\ storage w' !! ENCRYPTION_KEY = Some k
        /\ getMasterKey w' = (Ok k, w')
        /\ (forall k0, stored_master w = Some k0 -> k = k0 /\ w' = w)
        /\ (stored_master w = None ->
            length k = 32%nat
            /\ Forall (fun c => c ∈ KeyStorage.chars) k
            /\ storage w' = <[ENCRYPTION_KEY := k]> (storage w))).
Proof.
  split; [apply getMasterKey_locked|]. intros Hok.
  destruct (stored_master w) as [k|] eqn:Hk.
  - pose proof (stored_master_Some _ _ Hk) as [Hget Hne].
    pose proof (getMasterKey_stored _ _ Hok Hk) as Hg.
    exists k, w. split; [exact Hg|]. split; [exact Hne|].
    split; [exact Hget|]. split; [exact Hg|].
    split; [|discriminate]. intros k0 [= <-]. now split.
  - destruct (getMasterKey_fresh w Hok Hk)
      as (k & w' & Hg & Hlen & Hl & Hs & Hok').
    assert (k <> []) as Hne by (intros ->; discriminate Hlen).
    assert (stored_master w' = Some k) as Hk'.
    { unfold stored_master. rewrite Hs, lookup_insert_eq.
      destruct k; [congruence|reflexivity]. }
    exists k, w'. split; [exact Hg|]. split; [exact Hne|].
    split; [rewrite Hs; apply lookup_insert_eq|].
    split; [now apply getMasterKey_stored|].
    split; [discriminate|]. intros _. repeat split; assumption.
Qed.

(** X13. The vault codec on a store whose master key, if any, is
    Latin-1. For Latin-1 data [encryptData] returns a ciphertext that
    [decryptData] turns back into the data, whether the store is accessible
    (the master-key XOR) or not (the plain base64 fallback on both sides);
    the payload item is left alone. For data outside Latin-1 both attempts
    of [encryptData] fail and it throws the error of [btoa]. *)
Theorem vault_codec_round_trip (data : jsstring) (w : World) :
  master_latin1 w -> wf_string data ->
  (latin1 data ->
   exists c w',
     encryptData data w = (Ok c, w')
     /\ decryptData c w' = (Ok data, w')
     /\ storage w' !! STORAGE_KEY = storage w !! STORAGE_KEY)
  /\ (~ latin1 data ->
      exists w', encryptData data w = (Throw InvalidCharacterError, w')).
Proof.
  intros Hlat Hwf. split; [|now apply encryptData_throws].
  intros Hd. destruct (storage_ok w) eqn:Hok.
  - destruct (getMasterKey_cases w Hok Hlat)
      as (k & w' & Hg & _ & Hl & Hok' & Hk' & _ & Hpay & _).
    destruct (encryptData_ok data w Hok Hlat Hd) as (k1 & w1 & Hg1 & He).
    rewrite Hg in Hg1. injection Hg1 as <- <-.
    eexists _, _. split; [exact He|]. split; [|exact Hpay].
    now apply decryptData_ok.
  - exists (b64_encode data), w. split; [now apply encryptData_locked|].
    split; [now apply decryptData_locked|reflexivity].
Qed.

Lemma vault_codec_round_trip_witness :
  (latin1 (str "[]") ->
   exists c w',
     encryptData (str "[]") (fresh_world []) = (Ok c, w')
     /\ decryptData c w' = (Ok (str "[]"), w')
     /\ storage w' !! STORAGE_KEY = storage (fresh_world []) !! STORAGE_KEY)
  /\ (~ latin1 (str "[]") ->
      exists w', encryptData (str "[]") (fresh_world [])
                 = (Throw InvalidCharacterError, w')).
Proof.
  apply (vault_codec_round_trip (str "[]") (fresh_world [])).
  - intros k Hk. unfold fresh_world in Hk. cbn [storage] in Hk.
    rewrite lookup_empty in Hk. discriminate Hk.
  - apply wf_stringb_true. reflexivity.
Defined.

(** X14. Reading a vault that holds the entries [keys]: [getAllKeys]
    returns exactly [keys], and [getKey id] the first entry whose [id] is
    [id], or [undefined] when there is none or [id] is empty; neither
    changes anything on the host. *)
Theorem vault_reads (w : World) (keys : list JsValue) :
  vault_state w keys ->
  getAllKeys w = (Ok keys, w)
  /\ forall id,
       getKey id w
       = (Ok (match id with
              | [] => None
              | _ => List.find (id_is (Some (JStr id))) keys
              end), w).
Proof.
  intros Hv. split; [now apply getAllKeys_vault|].
  intros [|c r]; [reflexivity|]. now apply getKey_vault.
Qed.

Lemma vault_reads_witness :
  getAllKeys saved_world = (Ok saved_keys, saved_world)
  /\ forall id,
       getKey id saved_world
       = (Ok (match id with
              | [] => None
              | _ => List.find (id_is (Some (JStr id))) saved_keys
              end), saved_world).
Proof. apply (vault_reads saved_world saved_keys), saved_vault. Defined.

(** X15. Saving an entry (a storable record with non-empty string [id],
    [name], [key] and [algorithm]) into a vault that holds [keys] returns
    [true] and leaves a vault that holds the upserted list. [getKey] of the
    entry's id then returns the record as stored: with [used] set to the
    time of the call when the id was already there, and otherwise with
    [created] and [used] defaulting to it. Every other id is answered as
    before. *)
Theorem saveKey_then_getKey (w : World) (keys : list JsValue)
  (key : JsObject) (id : jsstring) :
  vault_state w keys -> entry (JObj key) ->
  get_prop key (str "id") = Some (JStr id) ->
  exists w',
    saveKey key w = (Ok true, w')
    /\ vault_state w' (upserted key keys (clock w))
    /\ getKey id w'
       = (Ok (Some (match findIndex (id_is (Some (JStr id))) keys with
                    | Some _ => replacement key (clock w 0%nat)
                    | None =>
                        appended key (clock w 0%nat)
                          (clock w (if truthy (get_prop key (str "created"))
                                    then 0 else 1)%nat)
                    end)), w')
    /\ (forall id', id' <> [] -> id' <> id ->
          getKey id' w'
          = (Ok (List.find (id_is (Some (JStr id'))) keys), w')).
Proof.
  intros Hv Hk Hid.
  destruct (entry_id _ Hk) as (id0 & Hid0 & Hne).
  rewrite Hid in Hid0. injection Hid0 as <-.
  destruct (saveKey_vault w keys key Hv Hk) as (w' & Hs & Hv').
  exists w'. split; [exact Hs|]. split; [exact Hv'|]. split.
  - rewrite (getKey_vault _ _ _ Hv' Hne).
    now rewrite (find_upserted_same _ _ _ _ Hid).
  - intros id' Hne' Hdiff. rewrite (getKey_vault _ _ _ Hv' Hne').
    now rewrite (find_upserted_other _ _ _ _ _ Hid Hdiff).
Qed.

Lemma saveKey_then_getKey_witness :
  exists w',
    saveKey example_key (fresh_world []) = (Ok true, w')
    /\ vault_state w' (upserted example_key [] (clock (fresh_world [])))
    /\ getKey (str "1") w'
       = (Ok (Some (match findIndex (id_is (Some (JStr (str "1")))) [] with
                    | Some _ => replacement example_key
                                  (clock (fresh_world []) 0%nat)
                    | None =>
                        appended example_key (clock (fresh_world []) 0%nat)
                          (clock (fresh_world [])
                             (if truthy (get_prop example_key (str "created"))
                              then 0 else 1)%nat)
                    end)), w')
    /\ (forall id', id' <> [] -> id' <> str "1" ->
          getKey id' w'
          = (Ok (List.find (id_is (Some (JStr id'))) []), w')).
Proof.
  apply (saveKey_then_getKey (fresh_world []) [] example_key (str "1")).
  - apply fresh_vault.
  - apply example_entry.
  - reflexivity.
Defined.

(** X16. Deleting by a non-empty id from a vault that holds [keys]
    returns [true], whether or not an entry had that id, and leaves a vault
    that holds the entries with a different id, in their order. [getKey] of
    the id is then [undefined]; every other id is answered as before. An
    empty id returns [false] and changes nothing. *)
Theorem deleteKey_then_getKey (w : World) (keys : list JsValue)
  (id : jsstring) :
  vault_state w keys ->
  (id = [] -> deleteKey id w = (Ok false, w))
  /\ (id <> [] ->
      exists w',
        deleteKey id w = (Ok true, w')
        /\ vault_state w' (List.filter (other_id id) keys)
        /\ getKey id w' = (Ok None, w')
        /\ (forall id', id' <> [] -> id' <> id ->
              getKey id' w'
              = (Ok (List.find (id_is (Some (JStr id'))) keys), w'))).
Proof.
  intros Hv. split; [now intros ->|]. intros Hne.
  destruct (deleteKey_vault w keys id Hv Hne) as (w' & Hd & Hv').
  exists w'. split; [exact Hd|]. split; [exact Hv'|]. split.
  - rewrite (getKey_vault _ _ _ Hv' Hne). now rewrite find_filter_same.
  - intros id' Hne' Hdiff. rewrite (getKey_vault _ _ _ Hv' Hne').
    now rewrite (find_filter_other _ _ _ Hdiff).
Qed.

Lemma deleteKey_then_getKey_witness :
  (str "1" = [] -> deleteKey (str "1") saved_world = (Ok false, saved_world))
  /\ (str "1" <> [] ->
      exists w',
        deleteKey (str "1") saved_world = (Ok true, w')
        /\ vault_state w' (List.filter (other_id (str "1")) saved_keys)
        /\ getKey (str "1") w' = (Ok None, w')
        /\ (forall id', id' <> [] -> id' <> str "1" ->
              getKey id' w'
              = (Ok (List.find (id_is (Some (JStr id'))) saved_keys), w'))).
Proof.
  apply (deleteKey_then_getKey saved_world saved_keys (str "1")), saved_vault.
Defined.

Lemma find_findIndex (p : JsValue -> bool) keys x :
  List.find p keys = Some x -> exists i, findIndex p keys = Some i.
Proof.
  induction keys as [|k keys IH]; [discriminate|].
  cbn. destruct (p k); [eauto|].
  intros H. destruct (IH H) as [i ->]. eauto.
Qed.

Lemma find_entry (p : JsValue -> bool) keys x :
  Forall entry keys -> List.find p keys = Some x -> entry x /\ p x = true.
Proof.
  intros He H. apply find_some in H as [Hin Hp]. split; [|exact Hp].
  rewrite Forall_forall in He. apply He, list_elem_of_In, Hin.
Qed.

(** X17. [updateKeyUsage id] on a vault that holds [keys]. When an
    entry has the id, it returns [true] and the entry found by [getKey]
    afterwards is the old one with [used] set to the second reading of the
    clock (the first is overwritten by [saveKey]); the vault keeps its
    number of entries and every other id is answered as before. When no
    entry has the id, or the id is empty, it returns [false] and changes
    nothing. *)
Theorem updateKeyUsage_touches_used (w : World) (keys : list JsValue)
  (id : jsstring) :
  vault_state w keys ->
  match (match id with
         | [] => None
         | _ => List.find (id_is (Some (JStr id))) keys
         end) with
  | Some (JObj o) =>
      exists w' keys',
        updateKeyUsage id w = (Ok true, w')
        /\ vault_state w' keys'
        /\ length keys' = length keys
        /\ getKey id w'
           = (Ok (Some (JObj (set_prop o (str "used")
                                (JNum (clock w 1%nat) 0)))), w')
        /\ (forall id', id' <> [] -> id' <> id ->
              getKey id' w'
              = (Ok (List.find (id_is (Some (JStr id'))) keys), w'))
  | _ => updateKeyUsage id w = (Ok false, w)
  end.
Proof.
  intros Hv. pose proof Hv as (_ & _ & _ & He).
  destruct id as [|c r]; [reflexivity|].
  pose proof (getKey_vault w keys (c :: r) Hv ltac:(discriminate)) as Hget.
  destruct (List.find (id_is (Some (JStr (c :: r)))) keys) as [x|] eqn:Ef.
  2:{ unfold updateKeyUsage, js_try, js_bind. now rewrite Hget. }
  destruct (find_entry _ _ _ He Ef) as [Hx Hp].
  destruct (find_findIndex _ _ _ Ef) as [i Hi].
  destruct x as [| | | | |o];
    try (unfold updateKeyUsage, js_try, js_bind; now rewrite Hget).
  apply id_is_spec in Hp. cbn [id_of] in Hp.
  set (w1 := mkWorld (storage w) (storage_ok w) (random_bytes w)
                     (fun i => clock w (S i)) (math_random w)).
  set (o' := set_prop o (str "used") (JNum (clock w 0%nat) 0)).
  assert (vault_state w1 keys) as Hv1.
  { now apply (vault_state_storage w). }
  assert (entry (JObj o')) as Ho' by (apply (entry_replacement o), Hx).
  assert (get_prop o' (str "id") = Some (JStr (c :: r))) as Hid'.
  { unfold o'. now rewrite get_prop_set_prop_ne. }
  destruct (saveKey_vault w1 keys o' Hv1 Ho') as (w' & Hs & Hv').
  exists w', (upserted o' keys (clock w1)).
  split.
  { unfold updateKeyUsage, js_try. unfold js_bind at 1. rewrite Hget.
    unfold js_bind. change (Date_now w) with (Ok (clock w 0%nat), w1).
    cbv beta iota. fold o'. now rewrite Hs. }
  split; [exact Hv'|]. split.
  { unfold upserted. rewrite Hid', Hi. apply length_insert. }
  split.
  - rewrite (getKey_vault _ _ _ Hv') by discriminate.
    rewrite (find_upserted_same _ _ _ _ Hid'), Hi.
    unfold replacement, o'. now rewrite set_prop_set_prop.
  - intros id' Hne' Hdiff. rewrite (getKey_vault _ _ _ Hv' Hne').
    now rewrite (find_upserted_other _ _ _ _ _ Hid' Hdiff).
Qed.

Lemma updateKeyUsage_touches_used_witness :
  match (match str "1" with
         | [] => None
         | _ => List.find (id_is (Some (JStr (str "1")))) saved_keys
         end) with
  | Some (JObj o) =>
      exists w' keys',
        updateKeyUsage (str "1") saved_world = (Ok true, w')
        /\ vault_state w' keys'
        /\ length keys' = length saved_keys
        /\ getKey (str "1") w'
           = (Ok (Some (JObj (set_prop o (str "used")
                                (JNum (clock saved_world 1%nat) 0)))), w')
        /\ (forall id', id' <> [] -> id' <> str "1" ->
              getKey id' w'
              = (Ok (List.find (id_is (Some (JStr id'))) saved_keys), w'))
  | _ => updateKeyUsage (str "1") saved_world = (Ok false, saved_world)
  end.
Proof.
  apply (updateKeyUsage_touches_used saved_world saved_keys (str "1")),
    saved_vault.
Defined.

(** X18. [clearAllKeys] on an accessible store returns [true] and
    removes the payload and nothing else: the master key stays, and
    [getAllKeys] and [getKey] find nothing afterwards. On a store that
    rejects access it returns [false]. *)
Theorem clearAllKeys_empties (w : World) :
  (storage_ok w = false -> clearAllKeys w = (Ok false, w))
  /\ (storage_ok w = true ->
      exists w',
        clearAllKeys w = (Ok true, w')
        /\ storage w' = delete STORAGE_KEY (storage w)
        /\ storage w' !! ENCRYPTION_KEY = storage w !! ENCRYPTION_KEY
        /\ getAllKeys w' = (Ok [], w')
        /\ (forall id, getKey id w' = (Ok None, w'))
        /\ (master_latin1 w -> vault_state w' [])).
Proof.
  unfold clearAllKeys, js_try, js_bind, localStorage_removeItem.
  split; intros Hok; rewrite Hok; [reflexivity|].
  eexists. split; [reflexivity|]. cbn [storage].
  split; [reflexivity|].
  split; [now apply lookup_delete_ne|].
  assert (forall w', storage_ok w' = true ->
            storage w' !! STORAGE_KEY = None ->
            getAllKeys w' = (Ok [], w')) as Hempty.
  { intros w' Hok' Hnone.
    unfold getAllKeys, js_try, js_bind, localStorage_getItem.
    now rewrite Hok', Hnone. }
  split; [apply Hempty; [reflexivity|apply lookup_delete_eq]|].
  split.
  - intros [|c r]; [reflexivity|].
    unfold getKey, js_try, js_bind.
    rewrite Hempty; [reflexivity|reflexivity|apply lookup_delete_eq].
  - intros Hlat. split; [reflexivity|]. split.
    + intros k. cbn [storage]. rewrite lookup_delete_ne by discriminate.
      apply Hlat.
    + cbn [storage]. rewrite lookup_delete_eq. split; [reflexivity|constructor].
Qed.

(** ** Ids stay unique *)

Lemma upserted_ids key keys clock :
  entry (JObj key) -> NoDup (id_of <$> keys) ->
  NoDup (id_of <$> upserted key keys clock)
  /\ length (upserted key keys clock)
     = match findIndex (id_is (get_prop key (str "id"))) keys with
       | Some _ => length keys
       | None => S (length keys)
       end.
Proof.
  intros Hk Hnd. destruct (entry_id _ Hk) as (id & Hid & _).
  unfold upserted. rewrite Hid.
  destruct (findIndex _ keys) as [i|] eqn:Ef.
  - split; [|apply length_insert].
    destruct (findIndex_Some _ _ _ Ef) as [(old & Hold & Hp) _].
    apply id_is_spec in Hp.
    rewrite list_fmap_insert, id_of_replacement, Hid, <- Hp.
    rewrite list_insert_id; [exact Hnd|].
    now rewrite list_lookup_fmap, Hold.
  - split; [|rewrite length_app; simpl; lia].
    apply findIndex_None in Ef.
    rewrite fmap_app. apply NoDup_app. split; [exact Hnd|]. split.
    + intros x Hx Hx'. cbn [fmap list_fmap] in Hx'.
      apply list_elem_of_singleton in Hx'. rewrite id_of_appended, Hid in Hx'.
      apply list_elem_of_fmap in Hx as (k & -> & Hin).
      rewrite Forall_forall in Ef. specialize (Ef k Hin).
      apply id_is_spec in Hx'. congruence.
    + apply NoDup_singleton.
Qed.

(** X19. [saveKey] keeps the ids of the vault pairwise distinct: when
    the entries of the vault have distinct ids, so have the entries after
    saving one more, and the vault grows by one entry exactly when the id
    is new. *)
Theorem saveKey_keeps_ids_unique (w : World) (keys : list JsValue)
  (key : JsObject) :
  vault_state w keys -> entry (JObj key) -> NoDup (id_of <$> keys) ->
  exists w' keys',
    saveKey key w = (Ok true, w')
    /\ getAllKeys w' = (Ok keys', w')
    /\ NoDup (id_of <$> keys')
    /\ length keys'
       = match findIndex (id_is (get_prop key (str "id"))) keys with
         | Some _ => length keys
         | None => S (length keys)
         end.
Proof.
  intros Hv Hk Hnd.
  destruct (saveKey_vault w keys key Hv Hk) as (w' & Hs & Hv').
  destruct (upserted_ids key keys (clock w) Hk Hnd) as [Hnd' Hlen].
  exists w', (upserted key keys (clock w)).
  split; [exact Hs|]. split; [now apply getAllKeys_vault|].
  split; assumption.
Qed.

Lemma saveKey_keeps_ids_unique_witness :
  exists w' keys',
    saveKey example_key saved_world = (Ok true, w')
    /\ getAllKeys w' = (Ok keys', w')
    /\ NoDup (id_of <$> keys')
    /\ length keys'
       = match findIndex (id_is (get_prop example_key (str "id"))) saved_keys with
         | Some _ => length saved_keys
         | None => S (length saved_keys)
         end.
Proof.
  apply (saveKey_keeps_ids_unique saved_world saved_keys example_key).
  - apply saved_vault.
  - apply example_entry.
  - vm_compute. apply NoDup_singleton.
Defined.

(** ** Random suffixes across the vault operations *)

Section Suffixes.

Lemma suffix_ret {A} (a : A) : keeps_suffixes (js_ret a).
Proof. now intros w r w' [= _ <-]. Qed.

Lemma suffix_lift {A} (m : exn A) : keeps_suffixes (js_lift m).
Proof. now intros w r w' [= _ <-]. Qed.

Lemma suffix_throw {A} e : keeps_suffixes (@js_throw A e).
Proof. now intros w r w' [= _ <-]. Qed.

Lemma suffix_bind {A B} (m : JS A) (k : A -> JS B) :
  keeps_suffixes m -> (forall a, keeps_suffixes (k a)) ->
  keeps_suffixes (js_bind m k).
Proof.
  intros Hm Hk w r w'. unfold js_bind.
  destruct (m w) as [[a|e] w1] eqn:E; intros H.
  - rewrite (Hk a _ _ _ H). exact (Hm _ _ _ E).
  - injection H as _ <-. exact (Hm _ _ _ E).
Qed.

Lemma suffix_try {A} (m : JS A) (h : Error -> JS A) :
  keeps_suffixes m -> (forall e, keeps_suffixes (h e)) ->
  keeps_suffixes (js_try m h).
Proof.
  intros Hm Hh w r w'. unfold js_try.
  destruct (m w) as [[a|e] w1] eqn:E; intros H.
  - injection H as _ <-. exact (Hm _ _ _ E).
  - rewrite (Hh e _ _ _ H). exact (Hm _ _ _ E).
Qed.

Lemma suffix_Date_now : keeps_suffixes Date_now.
Proof. now intros w r w' [= _ <-]. Qed.

Lemma suffix_random n : keeps_suffixes (random_Uint8Array n).
Proof.
  intros w r w'. unfold random_Uint8Array.
  destruct (n <? 0); [now intros [= _ <-]|].
  destruct (65536 <? n); now intros [= _ <-].
Qed.

Lemma suffix_getItem k : keeps_suffixes (localStorage_getItem k).
Proof.
  intros w r w'. unfold localStorage_getItem.
  destruct (storage_ok w); now intros [= _ <-].
Qed.

Lemma suffix_setItem k v : keeps_suffixes (localStorage_setItem k v).
Proof.
  intros w r w'. unfold localStorage_setItem.
  destruct (storage_ok w); now intros [= _ <-].
Qed.

Lemma suffix_getMasterKey : keeps_suffixes getMasterKey.
Proof.
  unfold getMasterKey. apply suffix_bind; [apply suffix_getItem|].
  assert (keeps_suffixes
            (js_bind generateMasterKey (fun masterKey =>
               js_bind (localStorage_setItem ENCRYPTION_KEY masterKey)
                       (fun _ => js_ret masterKey)))) as Hgen.
  { apply suffix_bind.
    - unfold generateMasterKey. apply suffix_bind; [apply suffix_random|].
      intros a. apply suffix_ret.
    - intros mk. apply suffix_bind; [apply suffix_setItem|].
      intros _. apply suffix_ret. }
  intros [[|c k]|]; [exact Hgen|apply suffix_ret|exact Hgen].
Qed.

Lemma suffix_encryptData data : keeps_suffixes (encryptData data).
Proof.
  unfold encryptData. apply suffix_try.
  - apply suffix_bind; [apply suffix_getMasterKey|]. intros mk.
    apply suffix_lift.
  - intros _. apply suffix_lift.
Qed.

Lemma suffix_decryptData data : keeps_suffixes (decryptData data).
Proof.
  unfold decryptData. apply suffix_try.
  - apply suffix_bind; [apply suffix_getMasterKey|]. intros mk.
    apply suffix_bind; [apply suffix_lift|]. intros d. apply suffix_ret.
  - intros _. unfold decryptData_fallback.
    apply suffix_try; [apply suffix_lift|]. intros _. apply suffix_ret.
Qed.

Lemma suffix_getAllKeys : keeps_suffixes getAllKeys.
Proof.
  unfold getAllKeys. apply suffix_try; [|intros _; apply suffix_ret].
  apply suffix_bind; [apply suffix_getItem|].
  intros [[|c e]|]; try apply suffix_ret.
  apply suffix_bind; [apply suffix_decryptData|]. intros text.
  apply suffix_bind; [apply suffix_lift|].
  intros []; apply suffix_ret.
Qed.

Lemma suffix_or_now v : keeps_suffixes (or_now v).
Proof.
  unfold or_now. destruct v as [x|].
  - destruct (truthy (Some x)); [apply suffix_ret|].
    apply suffix_bind; [apply suffix_Date_now|]. intros ?. apply suffix_ret.
  - apply suffix_bind; [apply suffix_Date_now|]. intros ?. apply suffix_ret.
Qed.

Lemma suffix_upsert key keys : keeps_suffixes (upsert key keys).
Proof.
  unfold upsert. destruct (findIndex _ keys).
  - apply suffix_bind; [apply suffix_Date_now|]. intros ?. apply suffix_ret.
  - apply suffix_bind; [apply suffix_or_now|]. intros c.
    apply suffix_bind; [apply suffix_or_now|]. intros u. apply suffix_ret.
Qed.

(** [saveKey] draws no random suffix. *)
Lemma suffix_saveKey key : keeps_suffixes (saveKey key).
Proof.
  unfold saveKey. apply suffix_try; [|intros _; apply suffix_ret].
  destruct (missing_field key); [apply suffix_throw|].
  apply suffix_bind; [apply suffix_getAllKeys|]. intros keys.
  apply suffix_bind; [apply suffix_upsert|]. intros keys'.
  apply suffix_bind; [apply suffix_encryptData|]. intros enc.
  apply suffix_bind; [apply suffix_setItem|]. intros _. apply suffix_ret.
Qed.

End Suffixes.

Lemma decimal_nonempty m : decimal m <> [].
Proof.
  destruct (decimal_spec m) as (ds & d & r & -> & -> & _).
  destruct (m <? 0); discriminate.
Qed.

Lemma latin1b_of s : latin1 s -> latin1b s = true.
Proof.
  intros H. unfold latin1b. apply forallb_forall. intros c Hc.
  unfold latin1 in H. rewrite Forall_forall in H.
  specialize (H c (proj2 (list_elem_of_In _ _) Hc)). unfold latin1_unit in H.
  lia.
Qed.

Lemma trim_nonempty s : jsstring_eqb (trim s) [] = false -> s <> [].
Proof. intros H ->. discriminate H. Qed.

(** The record [importKeys] saves for a valid element is an entry. *)
Lemma imported_entry o id :
  validateKeyStructure (JObj o) = true -> storable (JObj o) = true ->
  latin1 id -> id <> [] ->
  entry (JObj (set_prop o (str "id") (JStr id))).
Proof.
  intros Hv Hs Hl Hne. unfold validateKeyStructure in Hv.
  destruct (get_prop o (str "name")) as [[| | |name| |]|] eqn:En;
    try discriminate.
  destruct (get_prop o (str "key")) as [[| | |k| |]|] eqn:Ek;
    try discriminate.
  destruct (get_prop o (str "algorithm")) as [[| | |a| |]|] eqn:Ea;
    try discriminate.
  apply andb_true_iff in Hv as [Hv Halg].
  apply andb_true_iff in Hv as [Hname Hkey].
  apply negb_true_iff, trim_nonempty in Hname.
  apply negb_true_iff, trim_nonempty in Hkey.
  apply bool_decide_eq_true in Halg.
  assert (a <> []) as Hane.
  { intros ->. unfold algorithms in Halg.
    repeat (apply elem_of_cons in Halg as [Halg|Halg]; [discriminate Halg|]).
    inversion Halg. }
  assert (forall f, f <> str "id" ->
            get_prop (set_prop o (str "id") (JStr id)) f = get_prop o f) as Hother.
  { intros f Hf. apply get_prop_set_prop_ne. congruence. }
  assert (get_prop (set_prop o (str "id") (JStr id)) (str "id")
          = Some (JStr id)) as Hid.
  { clear. induction o as [|[k0 v0] o IH]; cbn [set_prop get_prop].
    - unfold jsstring_eqb. now rewrite bool_decide_eq_true_2.
    - destruct (jsstring_eqb k0 (str "id")) eqn:E; cbn [get_prop]; rewrite E;
        [reflexivity|exact IH]. }
  split; [|split].
  - apply storable_set_prop; [exact Hs|reflexivity|].
    unfold storable. cbn [plain_with]. now apply latin1b_of.
  - unfold has_key_shape.
    rewrite Hid, !Hother, En, Ek, Ea by discriminate. reflexivity.
  - unfold complete, missing_field.
    rewrite Hid, !Hother, En, Ek, Ea by discriminate.
    unfold truthy, jsstring_eqb.
    rewrite !bool_decide_eq_false_2 by assumption. reflexivity.
Qed.

(** ** The clock and the suffixes across [saveKey] *)

Section Clock.

Lemma clock_ret {A} (a : A) : keeps_clock (js_ret a).
Proof. now intros w r w' [= _ <-]. Qed.

Lemma clock_lift {A} (m : exn A) : keeps_clock (js_lift m).
Proof. now intros w r w' [= _ <-]. Qed.

Lemma clock_bind {A B} (m : JS A) (k : A -> JS B) :
  keeps_clock m -> (forall a, keeps_clock (k a)) ->
  keeps_clock (js_bind m k).
Proof.
  intros Hm Hk w r w'. unfold js_bind.
  destruct (m w) as [[a|e] w1] eqn:E; intros H.
  - rewrite (Hk a _ _ _ H). exact (Hm _ _ _ E).
  - injection H as _ <-. exact (Hm _ _ _ E).
Qed.

Lemma clock_try {A} (m : JS A) (h : Error -> JS A) :
  keeps_clock m -> (forall e, keeps_clock (h e)) ->
  keeps_clock (js_try m h).
Proof.
  intros Hm Hh w r w'. unfold js_try.
  destruct (m w) as [[a|e] w1] eqn:E; intros H.
  - injection H as _ <-. exact (Hm _ _ _ E).
  - rewrite (Hh e _ _ _ H). exact (Hm _ _ _ E).
Qed.

Lemma clock_random n : keeps_clock (random_Uint8Array n).
Proof.
  intros w r w'. unfold random_Uint8Array.
  destruct (n <? 0); [now intros [= _ <-]|].
  destruct (65536 <? n); now intros [= _ <-].
Qed.

Lemma clock_getItem k : keeps_clock (localStorage_getItem k).
Proof.
  intros w r w'. unfold localStorage_getItem.
  destruct (storage_ok w); now intros [= _ <-].
Qed.

Lemma clock_setItem k v : keeps_clock (localStorage_setItem k v).
Proof.
  intros w r w'. unfold localStorage_setItem.
  destruct (storage_ok w); now intros [= _ <-].
Qed.

Lemma clock_getMasterKey : keeps_clock getMasterKey.
Proof.
  unfold getMasterKey. apply clock_bind; [apply clock_getItem|].
  assert (keeps_clock
            (js_bind generateMasterKey (fun masterKey =>
               js_bind (localStorage_setItem ENCRYPTION_KEY masterKey)
                       (fun _ => js_ret masterKey)))) as Hgen.
  { apply clock_bind.
    - unfold generateMasterKey. apply clock_bind; [apply clock_random|].
      intros a. apply clock_ret.
    - intros mk. apply clock_bind; [apply clock_setItem|].
      intros _. apply clock_ret. }
  intros [[|c k]|]; [exact Hgen|apply clock_ret|exact Hgen].
Qed.

Lemma clock_encryptData data : keeps_clock (encryptData data).
Proof.
  unfold encryptData. apply clock_try.
  - apply clock_bind; [apply clock_getMasterKey|]. intros mk.
    apply clock_lift.
  - intros _. apply clock_lift.
Qed.

End Clock.

(** [key.f || Date.now()] reads the clock when the property is falsy. *)
Lemma or_now_tapes v w :
  exists w',
    or_now v w = (Ok (or_else v (clock w 0%nat)), w')
    /\ storage w' = storage w /\ storage_ok w' = storage_ok w
    /\ clock w' = (fun i => clock w ((if truthy v then 0 else 1) + i)%nat)
    /\ math_random w' = math_random w.
Proof.
  unfold or_now, or_else.
  destruct v as [x|]; [destruct (truthy (Some x))|];
    eexists; (split; [reflexivity|]); repeat split.
Qed.

(** [upsert] computes [upserted] and reads the clock [upsert_reads]
    times. *)
Lemma upsert_tapes key keys w :
  exists w',
    upsert key keys w = (Ok (upserted key keys (clock w)), w')
    /\ storage w' = storage w /\ storage_ok w' = storage_ok w
    /\ clock w' = (fun i => clock w (upsert_reads key keys + i)%nat)
    /\ math_random w' = math_random w.
Proof.
  unfold upsert, upserted, upsert_reads, default_reads.
  destruct (findIndex _ keys) as [i|].
  - eexists. split; [reflexivity|]. repeat split.
  - destruct (or_now_tapes (get_prop key (str "created")) w)
      as (w1 & H1 & Hs1 & Ho1 & Hc1 & Hr1).
    destruct (or_now_tapes (get_prop key (str "used")) w1)
      as (w2 & H2 & Hs2 & Ho2 & Hc2 & Hr2).
    unfold js_bind. rewrite H1, H2. exists w2. unfold js_ret, appended.
    rewrite Hc2, Hc1.
    destruct (truthy (get_prop key (str "created")));
      destruct (truthy (get_prop key (str "used")));
      (split; [reflexivity|]); repeat split; congruence.
Qed.

Lemma saveKey_vault_tapes w keys key :
  vault_state w keys -> entry (JObj key) ->
  exists w',
    saveKey key w = (Ok true, w')
    /\ vault_state w' (upserted key keys (clock w))
    /\ clock w' = (fun i => clock w (upsert_reads key keys + i)%nat)
    /\ math_random w' = math_random w.
Proof.
  intros Hv Hk. pose proof (entry_complete _ Hk) as Hm.
  pose proof Hv as (Hok & Hlat & _ & He).
  destruct (upsert_tapes key keys w) as (w2 & Hu & Hs2 & Ho2 & Hc2 & Hr2).
  destruct (persist_vault w2 (upserted key keys (clock w)))
    as (enc & w3 & w4 & Henc & Hset & Hv4 & _).
  { congruence. }
  { unfold master_latin1. rewrite Hs2. exact Hlat. }
  { now apply entries_upserted. }
  exists w4. split; [|split; [exact Hv4|split]].
  - unfold saveKey, js_try. rewrite Hm.
    unfold js_bind at 1. rewrite (getAllKeys_vault _ _ Hv).
    unfold js_bind at 1. rewrite Hu.
    unfold js_bind at 1. rewrite Henc.
    unfold js_bind. rewrite Hset. reflexivity.
  - rewrite (clock_setItem _ _ _ _ _ Hset), (clock_encryptData _ _ _ _ Henc).
    exact Hc2.
  - rewrite (suffix_setItem _ _ _ _ _ Hset), (suffix_encryptData _ _ _ _ Henc).
    exact Hr2.
Qed.

(** ** [importKeys] on a vault *)

(** The name in the message of an element that is not [null] and whose
    [name], if any, is a string. *)
Lemma name_or_unknown_importable key :
  importable key -> name_or_unknown key = Ok (displayed_name key).
Proof.
  intros ((Hnull & Hname) & _). unfold name_or_unknown, displayed_name.
  destruct key as [| | | | |o]; try reflexivity; [congruence|].
  cbn [get_member exn_bind].
  destruct (Hname o eq_refl) as [->|[name ->]]; [reflexivity|].
  destruct name as [|c name]; reflexivity.
Qed.

Lemma get_prop_set_prop_eq o k v : get_prop (set_prop o k v) k = Some v.
Proof.
  induction o as [|[k0 v0] o IH]; cbn [set_prop get_prop].
  - unfold jsstring_eqb. now rewrite bool_decide_eq_true_2.
  - destruct (jsstring_eqb k0 k) eqn:E; cbn [get_prop]; rewrite E;
      [reflexivity|exact IH].
Qed.

Lemma upserted_bounds key keys clock :
  (length keys <= length (upserted key keys clock) <= length keys + 1)%nat.
Proof.
  unfold upserted. destruct (findIndex _ keys).
  - rewrite length_insert. lia.
  - rewrite length_app. simpl. lia.
Qed.

Lemma findIndex_absent p keys :
  Forall (fun k => p k = false) keys -> findIndex p keys = None.
Proof.
  induction 1 as [|k keys Hk _ IH]; [reflexivity|].
  simpl. now rewrite Hk, IH.
Qed.

(** An id that no member of [keys] has is appended. *)
Lemma upserted_fresh key keys clock id :
  get_prop key (str "id") = Some (JStr id) ->
  Forall (fun k => id_of k <> Some (JStr id)) keys ->
  upserted key keys clock
  = keys ++ [appended key (clock 0%nat)
               (clock (if truthy (get_prop key (str "created"))
                       then 0 else 1)%nat)]
  /\ upsert_reads key keys = default_reads key.
Proof.
  intros Hid Hfresh. unfold upserted, upsert_reads. rewrite Hid.
  rewrite findIndex_absent; [split; reflexivity|].
  eapply Forall_impl; [exact Hfresh|]. intros k Hk. simpl.
  destruct (id_is (Some (JStr id)) k) eqn:E; [|reflexivity].
  now apply id_is_spec in E.
Qed.

(** One turn of the loop on a vault. *)
Lemma import_one_vault key imported errors w keys :
  vault_state w keys -> suffix_latin1 w -> importable key ->
  exists w',
    import_one key imported errors w
    = (Ok (if validateKeyStructure key then (imported + 1, errors)
           else (imported, errors ++ [invalid_message key])), w')
    /\ if validateKeyStructure key
       then let newKey :=
              imported_record key (clock w 0%nat) (math_random w 0%nat) in
            vault_state w' (upserted newKey keys (fun i => clock w (S i)))
            /\ clock w'
               = (fun i => clock w (S (upsert_reads newKey keys + i)))
            /\ math_random w' = (fun i => math_random w (S i))
       else w' = w.
Proof.
  intros Hv Hsuf Himp. pose proof Himp as (_ & Hst).
  unfold import_one.
  destruct (validateKeyStructure key) eqn:Ev.
  - destruct (Hst eq_refl) as [Hstor _].
    destruct key as [| | | | |o]; try discriminate Ev.
    unfold imported_record. cbn [spread].
    unfold js_bind at 1. unfold Date_now at 1.
    unfold js_bind at 1. unfold Math_random_suffix at 1.
    unfold js_bind at 1.
    match goal with
    | |- context [saveKey (set_prop o (str "id") (JStr ?id0)) ?w0] =>
        set (id := id0); set (w2 := w0)
    end.
    assert (vault_state w2 keys) as Hv2
      by (now apply (vault_state_storage w)).
    assert (entry (JObj (set_prop o (str "id") (JStr id)))) as He.
    { apply imported_entry; [exact Ev|exact Hstor| |].
      - apply Forall_app. split; [apply decimal_latin1|apply Hsuf].
      - unfold id. pose proof (decimal_nonempty (clock w 0%nat)) as Hd.
        intros Hnil. apply app_eq_nil in Hnil as [Hnil _]. now apply Hd. }
    destruct (saveKey_vault_tapes w2 keys _ Hv2 He) as (w3 & Hs & Hv3 & Hc3 & Hr3).
    rewrite Hs. exists w3. split; [reflexivity|].
    split; [exact Hv3|]. split; [exact Hc3|exact Hr3].
  - rewrite (name_or_unknown_importable key Himp).
    exists w. split; reflexivity.
Qed.

(** What the entries of [imported_records] are. *)
Lemma imported_records_as elems :
  forall clock suffix,
    Forall2 imported_as (List.filter validateKeyStructure elems)
            (imported_records elems clock suffix).
Proof.
  induction elems as [|key elems IH]; intros clock suffix; [constructor|].
  cbn [List.filter imported_records].
  destruct (validateKeyStructure key) eqn:Ev; [|apply IH].
  constructor; [|apply IH].
  destruct key as [| | | | |o]; try discriminate Ev.
  unfold imported_as, appended, imported_record. cbn [spread].
  set (id := decimal (clock 0%nat) ++ suffix 0%nat).
  set (newKey := set_prop o (str "id") (JStr id)).
  assert (forall f, f <> str "id" -> get_prop newKey f = get_prop o f) as Hnew.
  { intros f Hf. apply get_prop_set_prop_ne. congruence. }
  eexists o, _, (clock 0%nat), (suffix 0%nat).
  split; [reflexivity|]. split; [reflexivity|]. split; [|split].
  - rewrite !get_prop_set_prop_ne by discriminate.
    apply get_prop_set_prop_eq.
  - intros f Hid Hcreated Hused.
    rewrite !get_prop_set_prop_ne by congruence. now apply Hnew.
  - intros f [-> | ->].
    + rewrite get_prop_set_prop_ne by discriminate.
      rewrite get_prop_set_prop_eq, Hnew by discriminate.
      unfold or_else.
      destruct (get_prop o (str "created")) as [x|] eqn:E;
        [destruct (truthy (Some x))|cbn [truthy]]; eauto.
    + rewrite get_prop_set_prop_eq, Hnew by discriminate.
      unfold or_else.
      destruct (get_prop o (str "used")) as [x|] eqn:E;
        [destruct (truthy (Some x))|cbn [truthy]]; eauto.
Qed.

Lemma import_loop_vault elems :
  Forall importable elems ->
  forall imported errors w keys,
    vault_state w keys -> suffix_latin1 w ->
    exists w' keys',
      import_loop elems imported errors w
      = ((None,
          imported + Z.of_nat (length (List.filter validateKeyStructure elems)),
          errors ++ (invalid_message <$> List.filter rejected elems)), w')
      /\ vault_state w' keys'
      /\ (length keys <= length keys'
          <= length keys + length (List.filter validateKeyStructure elems))%nat
      /\ (fresh_ids keys (imported_records elems (clock w) (math_random w)) ->
          keys' = keys ++ imported_records elems (clock w) (math_random w)).
Proof.
  induction 1 as [|key elems Hk _ IH]; intros imported errors w keys Hv Hsuf.
  - exists w, keys. cbn. rewrite Z.add_0_r, !app_nil_r.
    split; [reflexivity|]. split; [exact Hv|]. split; [lia|reflexivity].
  - destruct (import_one_vault key imported errors w keys Hv Hsuf Hk)
      as (w1 & H1 & Hstep).
    cbn [import_loop]. rewrite H1.
    cbn [List.filter imported_records]. unfold rejected at 1.
    destruct (validateKeyStructure key) eqn:Ev; cbn [negb].
    + cbv zeta in Hstep. destruct Hstep as (Hv1 & Hc1 & Hr1).
      set (newKey := imported_record key (clock w 0%nat) (math_random w 0%nat))
        in *.
      assert (suffix_latin1 w1) as Hsuf1.
      { intros i. rewrite Hr1. apply Hsuf. }
      destruct (IH (imported + 1) errors w1 _ Hv1 Hsuf1)
        as (w2 & keys2 & H2 & Hv2 & Hlen2 & Hfresh2).
      pose proof (upserted_bounds newKey keys (fun i => clock w (S i))) as Hb.
      exists w2, keys2. rewrite H2. split; [|split; [exact Hv2|split]].
      * do 3 f_equal. cbn [length]. lia.
      * cbn [length]. lia.
      * intros [Hnd Hold]. rewrite fmap_cons in Hnd, Hold.
        apply NoDup_cons in Hnd as [Hhead Hnd].
        assert (exists id, get_prop newKey (str "id") = Some (JStr id))
          as [id Hid].
        { eexists. unfold newKey, imported_record.
          apply get_prop_set_prop_eq. }
        rewrite id_of_appended, Hid in Hhead, Hold.
        destruct (upserted_fresh newKey keys (fun i => clock w (S i)) id Hid)
          as [Hup Hreads].
        { eapply Forall_impl; [exact Hold|]. intros k Hnot Heq. simpl in Hnot.
          apply Hnot. rewrite Heq. apply list_elem_of_here. }
        rewrite Hup, Hc1, Hr1, Hreads in Hfresh2.
        rewrite Hfresh2; [now rewrite <- app_assoc|].
        split; [exact Hnd|]. apply Forall_app. split.
        -- eapply Forall_impl; [exact Hold|]. intros k Hnot Hin. simpl in Hnot.
           apply Hnot. now apply list_elem_of_further.
        -- apply Forall_cons_2; [|apply Forall_nil_2].
           now rewrite id_of_appended, Hid.
    + subst w1.
      destruct (IH imported (errors ++ [invalid_message key]) w keys Hv Hsuf)
        as (w2 & keys2 & H2 & Hv2 & Hlen2 & Hfresh2).
      exists w2, keys2. rewrite H2. split; [|split; [exact Hv2|split]].
      * rewrite fmap_cons, <- app_assoc. reflexivity.
      * exact Hlen2.
      * exact Hfresh2.
Qed.

(** [importKeys] of a text that parses to importable elements. *)
Lemma import_parsed_vault keysData elems w keys :
  vault_state w keys -> suffix_latin1 w ->
  JSON_parse keysData = Ok (JArr elems) ->
  Forall importable elems ->
  exists w' keys',
    importKeys keysData w
    = (Ok (mkImport
             (0 <? Z.of_nat (length (List.filter validateKeyStructure elems)))
             (Z.of_nat (length (List.filter validateKeyStructure elems)))
             (invalid_message <$> List.filter rejected elems)), w')
    /\ vault_state w' keys'
    /\ getAllKeys w' = (Ok keys', w')
    /\ (length keys <= length keys'
        <= length keys + length (List.filter validateKeyStructure elems))%nat
    /\ Forall2 imported_as (List.filter validateKeyStructure elems)
               (imported_records elems (clock w) (math_random w))
    /\ (fresh_ids keys (imported_records elems (clock w) (math_random w)) ->
        keys' = keys ++ imported_records elems (clock w) (math_random w)).
Proof.
  intros Hv Hsuf Hp He. unfold importKeys. rewrite Hp.
  destruct (import_loop_vault elems He 0 [] w keys Hv Hsuf)
    as (w' & keys' & Hl & Hv' & Hlen & Hfresh).
  rewrite Hl. exists w', keys'. split; [reflexivity|].
  split; [exact Hv'|]. split; [now apply getAllKeys_vault|].
  split; [exact Hlen|]. split; [apply imported_records_as|exact Hfresh].
Qed.

(** X23. Importing into a vault that holds [keys], on a host whose
    random suffixes are Latin-1. The text parses to an array whose
    elements are not [null], have a string for [name] if they are objects
    with a [name], and, when they pass [validateKeyStructure], are
    storable and made of safe integers and names that are not integer-like.
    Then every element that passes [validateKeyStructure] is counted,
    every other element adds the message "Invalid key structure: name" in
    order, with "Unknown" for a missing or empty name, and [success] is
    [imported > 0]. The vault is well formed afterwards and [getAllKeys]
    returns its entries; it has at least as many entries as before and at
    most one more per counted element. When the ids the import makes
    (clock reading followed by random suffix) are pairwise distinct and
    new to the vault, the vault holds exactly the old entries followed, in
    order, by one entry per counted element: the element under its new id,
    with [created] and [used] set from the clock where they were missing
    or falsy and every other property unchanged. *)
Theorem importKeys_on_vault (keysData : jsstring) (elems : list JsValue)
  (w : World) (keys : list JsValue) :
  vault_state w keys ->
  Forall (fun k => exact_in_js k = true) keys ->
  suffix_latin1 w ->
  JSON_parse keysData = Ok (JArr elems) ->
  Forall importable elems ->
  exists w' keys',
    importKeys keysData w
    = (Ok (mkImport
             (0 <? Z.of_nat (length (List.filter validateKeyStructure elems)))
             (Z.of_nat (length (List.filter validateKeyStructure elems)))
             (invalid_message <$> List.filter rejected elems)), w')
    /\ vault_state w' keys'
    /\ getAllKeys w' = (Ok keys', w')
    /\ (length keys <= length keys'
        <= length keys + length (List.filter validateKeyStructure elems))%nat
    /\ Forall2 imported_as (List.filter validateKeyStructure elems)
               (imported_records elems (clock w) (math_random w))
    /\ (fresh_ids keys (imported_records elems (clock w) (math_random w)) ->
        keys' = keys ++ imported_records elems (clock w) (math_random w)).
Proof.
  intros Hv _ Hsuf Hp He. now apply import_parsed_vault.
Qed.

Lemma importKeys_on_vault_witness :
  exists w',
    importKeys import_batch steady_world
    = (Ok (mkImport true 2 [str "Invalid key structure: c"]), w')
    /\ getAllKeys w'
       = (Ok (imported_records import_batch_elements (clock steady_world)
                (math_random steady_world)), w')
    /\ Forall2 imported_as
         (List.filter validateKeyStructure import_batch_elements)
         (imported_records import_batch_elements (clock steady_world)
            (math_random steady_world)).
Proof.
  destruct (importKeys_on_vault import_batch import_batch_elements
              steady_world [])
    as (w' & keys' & Hi & _ & Hg & _ & Has & Hfresh).
  - split; [reflexivity|]. split; [|split; [reflexivity|constructor]].
    intros k Hk. unfold steady_world in Hk. cbn [storage] in Hk.
    rewrite lookup_empty in Hk. discriminate Hk.
  - constructor.
  - intros i. apply latin1b_true. reflexivity.
  - vm_compute. reflexivity.
  - unfold import_batch_elements.
    repeat apply Forall_cons_2; try apply Forall_nil_2;
      (split; [split; [discriminate|]|]).
    all: try (intros o [= <-]; right; eexists; reflexivity).
    all: try (intros _; split; vm_compute; reflexivity).
    all: discriminate.
  - exists w'. rewrite Hfresh in Hg.
    + split; [exact Hi|]. split; [exact Hg|exact Has].
    + split; [|constructor]. vm_compute.
      apply NoDup_cons. split; [|apply NoDup_singleton].
      intros Hin. apply list_elem_of_In in Hin.
      destruct Hin as [Hin|[]]. discriminate Hin.
Defined.

(** ** A key of [encrypt] kept in the vault *)

Lemma random_storage n w r w' :
  random_Uint8Array n w = (r, w') ->
  storage w' = storage w /\ storage_ok w' = storage_ok w.
Proof.
  unfold random_Uint8Array.
  destruct (n <? 0); [intros [= _ <-]; auto|].
  destruct (65536 <? n); intros [= _ <-]; auto.
Qed.

Lemma generateKey_storage n w r w' :
  CryptoString.generateKey n w = (r, w') ->
  storage w' = storage w /\ storage_ok w' = storage_ok w.
Proof.
  unfold CryptoString.generateKey, js_bind.
  destruct (random_Uint8Array (default 32 n) w) as [[a|e] w1] eqn:E;
    intros [= _ <-]; exact (random_storage _ _ _ _ E).
Qed.

(** [encrypt] leaves the store alone. *)
Lemma encrypt_storage text config w r w' :
  encrypt text config w = (r, w') ->
  storage w' = storage w /\ storage_ok w' = storage_ok w.
Proof.
  unfold encrypt. destruct (blank text); [intros [= _ <-]; auto|].
  unfold js_bind at 1.
  destruct (generateKey_for config w) as [[k|e] w1] eqn:Ek.
  2:{ intros [= _ <-]. unfold generateKey_for in Ek.
      destruct (keyLength config) as [n|]; [destruct (n =? 0)|];
        exact (generateKey_storage _ _ _ _ Ek). }
  assert (storage w1 = storage w /\ storage_ok w1 = storage_ok w) as [Hs1 Ho1].
  { unfold generateKey_for in Ek.
    destruct (keyLength config) as [n|]; [destruct (n =? 0)|];
      exact (generateKey_storage _ _ _ _ Ek). }
  unfold js_bind at 1.
  destruct ((if useSalt config
             then js_bind generateSalt (fun s => js_ret (Some s))
             else js_ret None) w1) as [[s|e] w2] eqn:Es.
  2:{ intros [= _ <-]. destruct (useSalt config); [|discriminate Es].
      unfold js_bind, generateSalt in Es.
      destruct (CryptoString.generateKey (Some 16) w1) as [[a|e1] w3] eqn:Eg;
        [discriminate Es|].
      injection Es as _ <-.
      destruct (generateKey_storage _ _ _ _ Eg). split; congruence. }
  assert (storage w2 = storage w /\ storage_ok w2 = storage_ok w) as [Hs2 Ho2].
  { destruct (useSalt config).
    - unfold js_bind, generateSalt in Es.
      destruct (CryptoString.generateKey (Some 16) w1) as [[a|e1] w3] eqn:Eg;
        [|discriminate Es].
      injection Es as _ <-.
      destruct (generateKey_storage _ _ _ _ Eg). split; congruence.
    - injection Es as _ <-. now split. }
  unfold js_try, js_bind, js_lift, js_throw, js_ret.
  destruct (encrypt_dispatch (algorithm config) text k s);
    cbn [Date_now]; intros [= _ <-]; now split.
Qed.

(** X24. A key of [encrypt] kept in the vault decrypts later. For
    [aes], [xor] and [base64]: when [encrypt] returned a result on a host
    whose vault is well formed, a record with the result's key and
    algorithm under a non-empty Latin-1 id and name is saved, [getKey] of
    the id returns a record with that key and that algorithm, and [decrypt]
    with them and the result's salt gives the text back. The salt is not
    part of the record. *)
Theorem saved_key_decrypts (text : jsstring) (config : EncryptionConfig)
  (w : World) (keys : list JsValue) (res : EncryptionResult) (w1 : World)
  (id name : jsstring) :
  vault_state w keys -> wf_string text ->
  algorithm config ∈ [str "aes"; str "xor"; str "base64"] ->
  encrypt text config w = (Ok res, w1) ->
  latin1 id -> id <> [] -> latin1 name -> name <> [] ->
  exists w2 o,
    saveKey (stored_key id name (key res) (res_algorithm res)) w1
    = (Ok true, w2)
    /\ getKey id w2 = (Ok (Some (JObj o)), w2)
    /\ get_prop o (str "key") = Some (JStr (key res))
    /\ get_prop o (str "algorithm") = Some (JStr (res_algorithm res))
    /\ get_prop o (str "salt") = None
    /\ decrypt (encrypted res) (key res) (res_algorithm res) (salt res)
       = Ok (mkDecryption text true None).
Proof.
  intros Hv Ht Ha He Hid Hidne Hname Hnamene.
  destruct (encrypt_dispatch_inverts _ _ _ _ _ Ht Ha He) as (Hd & Hb & Hkb).
  destruct (encrypt_storage _ _ _ _ _ He) as [Hs Ho].
  pose proof (vault_state_storage w w1 keys Hs Ho Hv) as Hv1.
  apply encrypt_inv in He as (_ & Hl & _ & _ & _ & _ & Halg & _).
  assert (key res <> []) as Hkne by (intros E; rewrite E in Hkb; discriminate).
  assert (latin1 (res_algorithm res) /\ res_algorithm res <> []) as [Hal Hane].
  { rewrite Halg.
    repeat (apply elem_of_cons in Ha as [Ha|Ha]); [| | |inversion Ha];
      rewrite Ha; (split; [apply latin1b_true; reflexivity|discriminate]). }
  set (record := stored_key id name (key res) (res_algorithm res)).
  assert (entry (JObj record)) as Hentry.
  { unfold record, stored_key. split; [|split].
    - apply storable_object. split.
      + cbn. repeat (apply NoDup_cons; split;
          [rewrite ?not_elem_of_cons; repeat split; try discriminate;
           apply not_elem_of_nil|]).
        apply NoDup_nil. exact I.
      + repeat apply Forall_cons_2; try apply Forall_nil_2; cbn [fst snd];
          (split; [reflexivity|]); unfold storable; cbn [plain_with];
          now apply latin1b_of.
    - reflexivity.
    - unfold complete, missing_field. cbn [get_prop].
      change (jsstring_eqb (str "id") (str "id")) with true. cbv iota.
      change (jsstring_eqb (str "id") (str "name")) with false.
      change (jsstring_eqb (str "name") (str "name")) with true.
      change (jsstring_eqb (str "id") (str "key")) with false.
      change (jsstring_eqb (str "name") (str "key")) with false.
      change (jsstring_eqb (str "key") (str "key")) with true.
      change (jsstring_eqb (str "id") (str "algorithm")) with false.
      change (jsstring_eqb (str "name") (str "algorithm")) with false.
      change (jsstring_eqb (str "key") (str "algorithm")) with false.
      change (jsstring_eqb (str "algorithm") (str "algorithm")) with true.
      cbv iota. unfold truthy, jsstring_eqb.
      rewrite !bool_decide_eq_false_2 by assumption. reflexivity. }
  assert (get_prop record (str "id") = Some (JStr id)) as Hrid by reflexivity.
  destruct (saveKey_vault w1 keys record Hv1 Hentry) as (w2 & Hsave & Hv2).
  pose proof (getKey_vault _ _ _ Hv2 Hidne) as Hget.
  rewrite (find_upserted_same _ _ _ _ Hrid) in Hget.
  exists w2.
  assert (forall o', (forall f, f <> str "created" -> f <> str "used" ->
                        get_prop o' f = get_prop record f) ->
            get_prop o' (str "key") = Some (JStr (key res))
            /\ get_prop o' (str "algorithm") = Some (JStr (res_algorithm res))
            /\ get_prop o' (str "salt") = None) as Hfields.
  { intros o' Ho'. rewrite !Ho' by discriminate. repeat split. }
  destruct (findIndex _ keys).
  - eexists. split; [exact Hsave|]. split; [exact Hget|].
    destruct (Hfields (set_prop record (str "used") (JNum (clock w1 0%nat) 0)))
      as (H1 & H2 & H3).
    { intros f _ Hf. apply get_prop_set_prop_ne. congruence. }
    unfold decrypt. now rewrite Hb, Hkb, Hd.
  - eexists. split; [exact Hsave|]. split; [exact Hget|].
    match goal with
    | |- get_prop ?o' _ = _ /\ _ => destruct (Hfields o') as (H1 & H2 & H3)
    end.
    { intros f Hf1 Hf2. rewrite !get_prop_set_prop_ne by congruence.
      reflexivity. }
    unfold decrypt. now rewrite Hb, Hkb, Hd.
Qed.

Lemma saved_key_decrypts_witness :
  exists w2 o,
    saveKey (stored_key (str "1") (str "work") (str "AAAAA") (str "xor"))
            (snd xor_example)
    = (Ok true, w2)
    /\ getKey (str "1") w2 = (Ok (Some (JObj o)), w2)
    /\ get_prop o (str "key") = Some (JStr (str "AAAAA"))
    /\ get_prop o (str "algorithm") = Some (JStr (str "xor"))
    /\ get_prop o (str "salt") = None
    /\ decrypt (str "KSUvLio=") (str "AAAAA") (str "xor")
               (Some (str "AAAAAAAAAAAAAAAA"))
       = Ok (mkDecryption (str "hello") true None).
Proof.
  refine (saved_key_decrypts (str "hello")
            (mkConfig (str "xor") (Some 5) true) (world_with_bytes []) []
            (mkResult (str "KSUvLio=") (str "AAAAA") (str "xor") 0
                      (Some (str "AAAAAAAAAAAAAAAA")))
            (snd xor_example) (str "1") (str "work") _ _ _ _ _ _ _ _).
  - split; [reflexivity|]. split; [|split; [reflexivity|constructor]].
    intros k Hk. unfold world_with_bytes in Hk. cbn [storage] in Hk.
    rewrite lookup_empty in Hk. discriminate Hk.
  - apply wf_stringb_true. vm_compute. reflexivity.
  - repeat constructor.
  - vm_compute. reflexivity.
  - apply latin1b_true. reflexivity.
  - discriminate.
  - apply latin1b_true. reflexivity.
  - discriminate.
Defined.

(** ** Export and import *)

Lemma exportKeys_vault w keys :
  vault_state w keys ->
  exportKeys w = (Ok (JSON_stringify_pretty [] (JArr keys)), w).
Proof.
  intros Hv. unfold exportKeys, js_try, js_bind.
  now rewrite (getAllKeys_vault _ _ Hv).
Qed.

Lemma entry_importable k :
  entry k -> exact_in_js k = true -> importable k.
Proof.
  intros (Hs & Hk & _) He. split; [|auto].
  split; [intros ->; discriminate Hk|]. intros o ->. right.
  apply has_key_shape_spec in Hk as (o' & id & name & key & alg & Ho & _ & Hn & _).
  injection Ho as <-. eauto.
Qed.

(** X28. A backup made by [exportKeys] from a vault that holds [keys]
    is the indented JSON text of [keys] and parses back to exactly [keys].
    [importKeys] of it into a well-formed vault that holds [keys2], on a
    host with Latin-1 random suffixes, counts every entry that passes
    [validateKeyStructure] and reports each of the others once; the
    vault is well formed afterwards, with at least as many entries as
    before and at most one more per counted entry. When the ids the import
    makes are pairwise distinct and new to the vault, the vault holds
    exactly [keys2] followed, in order, by one entry per counted entry of
    the backup: that entry under its new id, with [created] and [used] set
    from the clock where they were missing or falsy and every other
    property unchanged. The entries of both vaults are made of safe
    integers and of names that are not integer-like. *)
Theorem exportKeys_then_importKeys (w : World) (keys : list JsValue)
  (w2 : World) (keys2 : list JsValue) :
  vault_state w keys ->
  Forall (fun k => exact_in_js k = true) keys ->
  vault_state w2 keys2 ->
  Forall (fun k => exact_in_js k = true) keys2 ->
  suffix_latin1 w2 ->
  exists text w' keys',
    exportKeys w = (Ok text, w)
    /\ JSON_parse text = Ok (JArr keys)
    /\ importKeys text w2
       = (Ok (mkImport
                (0 <? Z.of_nat (length (List.filter validateKeyStructure keys)))
                (Z.of_nat (length (List.filter validateKeyStructure keys)))
                (invalid_message <$> List.filter rejected keys)), w')
    /\ vault_state w' keys'
    /\ getAllKeys w' = (Ok keys', w')
    /\ (length keys2 <= length keys'
        <= length keys2 + length (List.filter validateKeyStructure keys))%nat
    /\ Forall2 imported_as (List.filter validateKeyStructure keys)
               (imported_records keys (clock w2) (math_random w2))
    /\ (fresh_ids keys2 (imported_records keys (clock w2) (math_random w2)) ->
        keys' = keys2 ++ imported_records keys (clock w2) (math_random w2)).
Proof.
  intros Hv Hx Hv2 _ Hsuf. pose proof Hv as (_ & _ & _ & He).
  assert (JSON_parse (JSON_stringify_pretty [] (JArr keys)) = Ok (JArr keys))
    as Hparse.
  { apply JSON_pretty_round_trip, storable_plain, entries_storable, He. }
  assert (Forall importable keys) as Himp.
  { apply Forall_forall. intros k Hk. rewrite Forall_forall in He, Hx.
    apply entry_importable; auto. }
  destruct (import_parsed_vault _ keys w2 keys2 Hv2 Hsuf Hparse Himp)
    as (w' & keys' & Hi & Hrest).
  exists (JSON_stringify_pretty [] (JArr keys)), w', keys'.
  split; [now apply exportKeys_vault|]. split; [exact Hparse|].
  split; [exact Hi|exact Hrest].
Qed.

Lemma exportKeys_then_importKeys_witness :
  exists text w',
    exportKeys saved_world = (Ok text, saved_world)
    /\ JSON_parse text = Ok (JArr saved_keys)
    /\ importKeys text steady_world = (Ok (mkImport true 1 []), w')
    /\ getAllKeys w'
       = (Ok (imported_records saved_keys (clock steady_world)
                (math_random steady_world)), w')
    /\ Forall2 imported_as (List.filter validateKeyStructure saved_keys)
         (imported_records saved_keys (clock steady_world)
            (math_random steady_world)).
Proof.
  destruct (exportKeys_then_importKeys saved_world saved_keys steady_world [])
    as (text & w' & keys' & He & Hp & Hi & _ & Hg & _ & Has & Hfresh).
  - apply saved_vault.
  - apply Forall_cons_2; [vm_compute; reflexivity|apply Forall_nil_2].
  - split; [reflexivity|]. split; [|split; [reflexivity|constructor]].
    intros k Hk. unfold steady_world in Hk. cbn [storage] in Hk.
    rewrite lookup_empty in Hk. discriminate Hk.
  - constructor.
  - intros i. apply latin1b_true. reflexivity.
  - exists text, w'. rewrite Hfresh in Hg.
    + split; [exact He|]. split; [exact Hp|]. split; [exact Hi|].
      split; [exact Hg|exact Has].
    + split; [|constructor]. vm_compute. apply NoDup_singleton.
Defined.

(** ** A store that rejects access *)

Lemma getAllKeys_locked w :
  storage_ok w = false -> getAllKeys w = (Ok [], w).
Proof.
  intros Hok. unfold getAllKeys, js_try, js_bind, localStorage_getItem.
  now rewrite Hok.
Qed.

Lemma persist_locked keys w :
  storage_ok w = false ->
  exists w',
    js_try
      (js_bind (encryptData (JSON_stringify (JArr keys)))
         (fun encrypted =>
            js_bind (localStorage_setItem STORAGE_KEY encrypted)
                    (fun _ => js_ret true)))
      (fun _ => js_ret false) w
    = (Ok false, w')
    /\ storage w' !! STORAGE_KEY = storage w !! STORAGE_KEY
    /\ storage_ok w' = false.
Proof.
  intros Hok. unfold js_try, js_bind at 1.
  destruct (encryptData (JSON_stringify (JArr keys)) w) as [[enc|e] w1] eqn:Ee;
    pose proof (keeps_encryptData _ _ _ _ Ee) as [Hs Ho].
  - unfold js_bind, localStorage_setItem. rewrite Ho, Hok.
    exists w1. split; [reflexivity|]. split; congruence.
  - exists w1. split; [reflexivity|]. split; congruence.
Qed.

(** X30. On a store that rejects access nothing throws and nothing is
    stored: [getAllKeys] returns the empty list, [getKey] [undefined] and
    [exportKeys] the text "[]", without touching the host; [saveKey],
    [deleteKey], [updateKeyUsage] and [clearAllKeys] return [false]. *)
Theorem locked_store (w : World) (key : JsObject) (id : jsstring) :
  storage_ok w = false ->
  getAllKeys w = (Ok [], w)
  /\ getKey id w = (Ok None, w)
  /\ exportKeys w = (Ok (str "[]"), w)
  /\ updateKeyUsage id w = (Ok false, w)
  /\ clearAllKeys w = (Ok false, w)
  /\ (exists w', saveKey key w = (Ok false, w')
                 /\ storage w' !! STORAGE_KEY = storage w !! STORAGE_KEY
                 /\ storage_ok w' = false)
  /\ (exists w', deleteKey id w = (Ok false, w')
                 /\ storage w' !! STORAGE_KEY = storage w !! STORAGE_KEY
                 /\ storage_ok w' = false).
Proof.
  intros Hok. pose proof (getAllKeys_locked w Hok) as Hg.
  assert (getKey id w = (Ok None, w)) as Hk.
  { unfold getKey, js_try, js_bind. destruct id; [reflexivity|].
    now rewrite Hg. }
  split; [exact Hg|]. split; [exact Hk|]. split.
  { unfold exportKeys, js_try, js_bind. now rewrite Hg. }
  split.
  { unfold updateKeyUsage, js_try, js_bind. now rewrite Hk. }
  split.
  { unfold clearAllKeys, js_try, js_bind, localStorage_removeItem.
    now rewrite Hok. }
  split.
  - unfold saveKey. destruct (missing_field key).
    { exists w. split; [reflexivity|]. now split. }
    destruct (upsert_upserted key [] w) as (w2 & Hu & Hs2 & Ho2).
    destruct (persist_locked (upserted key [] (clock w)) w2 ltac:(congruence))
      as (w' & Hp & Hs' & Ho').
    exists w'. split; [|split; congruence].
    unfold js_try in *. unfold js_bind at 1. rewrite Hg.
    unfold js_bind at 1. rewrite Hu. exact Hp.
  - unfold deleteKey. destruct id as [|c r].
    { exists w. split; [reflexivity|]. now split. }
    destruct (persist_locked
                (List.filter (fun k => negb (id_is (Some (JStr (c :: r))) k)) [])
                w Hok) as (w' & Hp & Hs' & Ho').
    exists w'. split; [|split; assumption].
    unfold js_try in *. unfold js_bind at 1. rewrite Hg. exact Hp.
Qed.

Lemma locked_store_witness :
  let locked := mkWorld ∅ false (fun _ => 0) (fun _ => 0) (fun _ => []) in
  getAllKeys locked = (Ok [], locked)
  /\ getKey (str "1") locked = (Ok None, locked)
  /\ exportKeys locked = (Ok (str "[]"), locked)
  /\ updateKeyUsage (str "1") locked = (Ok false, locked)
  /\ clearAllKeys locked = (Ok false, locked)
  /\ (exists w', saveKey example_key locked = (Ok false, w')
                 /\ storage w' !! STORAGE_KEY = storage locked !! STORAGE_KEY
                 /\ storage_ok w' = false)
  /\ (exists w', deleteKey (str "1") locked = (Ok false, w')
                 /\ storage w' !! STORAGE_KEY = storage locked !! STORAGE_KEY
                 /\ storage_ok w' = false).
Proof.
  apply (locked_store (mkWorld ∅ false (fun _ => 0) (fun _ => 0) (fun _ => []))
           example_key (str "1")).
  reflexivity.
Defined.

(* ------------------------------------------------------------------ *)
(** * Decrypting the vault payload *)

(** The master key [getMasterKey] hands out is never the empty string. *)
Lemma getMasterKey_nonempty w k w' : getMasterKey w = (Ok k, w') -> k <> [].
Proof.
  intros H. destruct (storage_ok w) eqn:Hok.
  - destruct (stored_master w) as [k0|] eqn:Hm.
    + rewrite (getMasterKey_stored _ _ Hok Hm) in H. injection H as <- _.
      now apply stored_master_Some in Hm.
    + destruct (getMasterKey_fresh w Hok Hm) as (k1 & w1 & H1 & Hlen & _).
      rewrite H1 in H. injection H as <- _. intros ->. discriminate Hlen.
  - rewrite (getMasterKey_locked _ Hok) in H. discriminate H.
Qed.

(** Unit [i] of the loop's result, for a master key of code units and
    decoded bytes. *)
Lemma master_loop_lookup masterKey decoded (i : nat) c k :
  wf_string masterKey -> masterKey <> [] -> wf_string decoded ->
  decoded !! i = Some c ->
  masterKey !! (i mod length masterKey)%nat = Some k ->
  master_loop masterKey decoded !! i
  = Some (Z.lxor (Z.lxor c k) (Z.of_nat i mod 256)).
Proof.
  intros Hk Hne Hd Hc Hkl.
  change (master_loop masterKey decoded)
    with (mapi (xor_body masterKey) 0 decoded).
  rewrite mapi_lookup, Hc. cbn [fmap option_fmap option_map].
  rewrite Z.add_0_l. f_equal.
  pose proof (Forall_lookup_1 _ _ _ _ Hd Hc) as Hu.
  destruct (xor_step masterKey Hk (Z.of_nat i) c ltac:(lia) Hu) as [-> _].
  now rewrite (key_unit_lookup masterKey i k).
Qed.

Lemma master_loop_length masterKey decoded :
  length (master_loop masterKey decoded) = length decoded.
Proof. apply mapi_length. Qed.

(** C5. Decrypting the vault payload never raises. For every stored
    ciphertext, [decryptData] returns a string. When the master key is
    available and the ciphertext is base64, it is the master-key XOR of the
    decoded bytes: as long as the decoded text, with unit [i] equal to
    [decoded[i] XOR masterKey[i mod len] XOR (i mod 256)], which undoes the
    same transform: a text whose transform the decoded bytes are is
    returned as it was. When the master key cannot be had and the
    ciphertext is base64, it is the plain base64 decoding; otherwise it is
    the literal "[]". [getAllKeys] always returns a list, whose members
    are objects with strings for [id], [name], [key] and [algorithm]; the
    list is empty when the store cannot be read, holds no payload, holds a
    payload that is not base64, or holds one whose decryption is not the
    JSON text of an array; otherwise it is the parsed array, in order,
    without the entries that are not objects with strings for the four
    fields. *)
Theorem vault_decryption_never_raises (encryptedData : jsstring) (w : World) :
  (exists s w',
     decryptData encryptedData w = (Ok s, w')
     /\ match fst (getMasterKey w), atob encryptedData with
        | Ok masterKey, Ok decoded =>
            masterKey <> []
            /\ length s = length decoded
            /\ (wf_string masterKey ->
                forall (i : nat) c,
                  decoded !! i = Some c ->
                  exists k,
                    masterKey !! (i mod length masterKey)%nat = Some k
                    /\ s !! i
                       = Some (Z.lxor (Z.lxor c k) (Z.of_nat i mod 256)))
            /\ (wf_string masterKey ->
                forall data : jsstring,
                  length data = length decoded ->
                  (forall (i : nat) c,
                     data !! i = Some c ->
                     exists k,
                       masterKey !! (i mod length masterKey)%nat = Some k
                       /\ decoded !! i
                          = Some (Z.lxor (Z.lxor c k) (Z.of_nat i mod 256))) ->
                  s = data)
        | Throw _, Ok decoded => s = decoded
        | _, Throw _ => s = str "[]"
        end)
  /\ (exists keys w',
        getAllKeys w = (Ok keys, w')
        /\ Forall string_fields keys
        /\ (storage_ok w = false -> keys = [])
        /\ (storage w !! STORAGE_KEY = None -> keys = [])
        /\ (forall payload,
              storage_ok w = true ->
              storage w !! STORAGE_KEY = Some payload ->
              ((exists e, atob payload = Throw e) -> keys = [])
              /\ (forall text w1,
                    decryptData payload w = (Ok text, w1) ->
                    match JSON_parse text with
                    | Ok (JArr l) =>
                        keys = List.filter has_key_shape l
                        /\ sublist keys l
                        /\ (forall k, k ∈ keys <-> k ∈ l /\ string_fields k)
                    | _ => keys = []
                    end))).
Proof.
  split.
  - pose proof (decryptData_cases encryptedData w) as H.
    destruct (getMasterKey w) as [[mk|e] w1] eqn:Hmk; simpl;
      destruct (atob encryptedData) as [decoded|e'] eqn:Ha; eauto.
    eexists _, _. split; [exact H|].
    pose proof (getMasterKey_nonempty _ _ _ Hmk) as Hne.
    pose proof (latin1_wf _ (atob_latin1 _ _ Ha)) as Hd.
    assert (forall i : nat, exists k,
              mk !! (i mod length mk)%nat = Some k) as Hkey
      by (intros i; now apply lookup_mod_is_Some).
    split; [exact Hne|]. split; [apply master_loop_length|]. split.
    + intros Hwf i c Hc. destruct (Hkey i) as [k Hk]. exists k.
      split; [exact Hk|]. now apply master_loop_lookup.
    + intros Hwf data Hlen Hdata. apply list_eq. intros i.
      destruct (data !! i) as [c|] eqn:Hc.
      * destruct (Hdata i c Hc) as (k & Hk & Hx).
        rewrite (master_loop_lookup mk decoded i _ k Hwf Hne Hd Hx Hk).
        f_equal. apply lxor_cancel.
      * apply lookup_ge_None. rewrite master_loop_length, <- Hlen.
        now apply lookup_ge_None.
  - destruct (getAllKeys_cases w) as (keys & w' & Hk & Hbad & Hok).
    exists keys, w'. split; [exact Hk|].
    split.
    { eapply Forall_impl; [exact (getAllKeys_shape _ _ _ Hk)|].
      intros k. apply has_key_shape_spec. }
    split; [intros H; apply Hbad, H|].
    split.
    { intros Hnone. destruct (storage_ok w); [|apply Hbad; reflexivity].
      specialize (Hok eq_refl). rewrite Hnone in Hok. apply Hok. }
    intros payload Hs Hp. specialize (Hok Hs). rewrite Hp in Hok.
    destruct payload as [|c p].
    { destruct Hok as [-> _]. split; [auto|].
      intros text w1 Hd. now rewrite (decryptData_empty _ _ _ Hd). }
    destruct Hok as (text & Hd & ->). split.
    + intros [e He]. rewrite (decryptData_bad_base64 _ _ _ _ _ He Hd).
      reflexivity.
    + intros text1 w1 Hd1. rewrite Hd in Hd1. injection Hd1 as <- _.
      unfold keys_of_text. destruct (JSON_parse text) as [[| | | |l|]|]; auto.
      split; [reflexivity|]. split.
      * clear. induction l as [|k l IH]; [constructor|]. cbn [List.filter].
        destruct (has_key_shape k); [now apply sublist_skip|now apply sublist_cons].
      * intros k. rewrite list_elem_of_In, filter_In, <- list_elem_of_In.
        pose proof (has_key_shape_spec k) as Hshape.
        unfold string_fields. tauto.
Qed.

Lemma vault_decryption_never_raises_witness :
  let w := mkWorld {[ENCRYPTION_KEY := str "K1"]} true
             (fun _ => 0) (fun _ => 0) (fun _ => []) in
  exists s w',
    decryptData (str "GnA=") w = (Ok s, w')
    /\ s !! 0%nat = Some (Z.lxor (Z.lxor 26 75) 0)
    /\ s !! 1%nat = Some (Z.lxor (Z.lxor 112 49) 1)
    /\ s = str "Q@".
Proof.
  intros w.
  destruct (vault_decryption_never_raises (str "GnA=") w)
    as [(s & w' & Hd & H) _].
  assert (getMasterKey w = (Ok (str "K1"), w)) as Hm
    by (apply getMasterKey_stored; reflexivity).
  assert (atob (str "GnA=") = Ok [26; 112]) as Ha by reflexivity.
  rewrite Hm, Ha in H. cbn [fst] in H.
  destruct H as (_ & _ & Hunit & Hinv).
  assert (wf_string (str "K1")) as Hwf
    by (apply wf_stringb_true; reflexivity).
  exists s, w'. split; [exact Hd|].
  destruct (Hunit Hwf 0%nat 26 eq_refl) as (k0 & Hk0 & Hs0).
  destruct (Hunit Hwf 1%nat 112 eq_refl) as (k1 & Hk1 & Hs1).
  injection Hk0 as <-. injection Hk1 as <-.
  split; [exact Hs0|]. split; [exact Hs1|].
  apply (Hinv Hwf (str "Q@") eq_refl).
  intros [|[|i]] c Hc; try discriminate Hc; injection Hc as <-;
    eexists; (split; [reflexivity|reflexivity]).
Defined.
